(** * AMfe element library and ECSW hyper-reduction: a shallow embedding

    The development follows the two Python modules it verifies:
    - [amfe/element.py]: the shared kernels [scatter_matrix] and
      [compute_B_matrix], the Total-Lagrangian plane and solid elements and
      the lumped bar element;
    - [amfe/hyper_red/ecsw.py]: the sparse NNLS solver, the [ECSWSystem]
      accessors and [reduce_mechanical_system_ecsw].

    Numbers are the real numbers of the Standard Library: every statement
    below is about the exact-arithmetic reading of the numpy code (the
    pure-Python fallback, [use_fortran = False]).  numpy arrays are lists
    (1-D) and lists of rows (2-D); Python exceptions and loops that may not
    terminate are explicit in the [outcome] type. *)

From Stdlib Require Import Reals Lra Lia List Arith Sorted.
From stdpp Require Import gmap strings.
Import ListNotations.
Open Scope R_scope.

(** ** Outcomes of Python calls *)

Inductive exn : Type :=
| ValueError
| AttributeError
| IndexError
| TypeError
| LinAlgError
| ZeroDivisionError.

Inductive outcome (A : Type) : Type :=
| Returns (a : A)
| Raises (e : exn)
| OutOfFuel.

Arguments Returns {A} a.
Arguments Raises {A} e.
Arguments OutOfFuel {A}.

#[global] Instance outcome_ret : MRet outcome := fun A a => Returns a.
#[global] Instance outcome_bind : MBind outcome := fun A B k m =>
  match m with
  | Returns a => k a
  | Raises e => Raises e
  | OutOfFuel => OutOfFuel
  end.

(** ** numpy arrays *)

Abbreviation vector := (list R).
Abbreviation matrix := (list (list R)).

Definition vget (v : vector) (i : nat) : R := nth i v 0.
Definition get (A : matrix) (i j : nat) : R := nth j (nth i A []) 0.

Definition mk_vec (n : nat) (f : nat -> R) : vector := map f (seq 0 n).
Definition mk_mat (m n : nat) (f : nat -> nat -> R) : matrix :=
  map (fun i => map (f i) (seq 0 n)) (seq 0 m).

(** [rsum n f] is f 0 + ... + f (n-1), accumulated left to right. *)
Fixpoint rsum (n : nat) (f : nat -> R) : R :=
  match n with
  | O => 0
  | S k => rsum k f + f k
  end.

(** A 2-D array of shape (m, n). *)
Definition is_mat (m n : nat) (A : matrix) : Prop :=
  length A = m /\ Forall (fun row => length row = n) A.

Module np.

Definition shape0 (A : matrix) : nat := length A.
Definition shape1 (A : matrix) : nat := length (hd [] A).

Definition zeros (n : nat) : vector := repeat 0 n.
Definition zeros2 (m n : nat) : matrix := repeat (repeat 0 n) m.
Definition ones2 (m n : nat) : matrix := repeat (repeat 1 n) m.
Definition eye (n : nat) : matrix :=
  mk_mat n n (fun i j => if Nat.eqb i j then 1 else 0).

(** [A.T] *)
Definition T (A : matrix) : matrix :=
  mk_mat (shape1 A) (shape0 A) (fun i j => get A j i).

(** [A @ B] for two 2-D arrays, [A @ v] for a 2-D and a 1-D array. *)
Definition matmul (A B : matrix) : matrix :=
  mk_mat (shape0 A) (shape1 B)
    (fun i j => rsum (shape1 A) (fun k => get A i k * get B k j)).
Definition dot (A : matrix) (v : vector) : vector :=
  mk_vec (shape0 A) (fun i => rsum (shape1 A) (fun k => get A i k * vget v k)).

(** Elementwise arithmetic; the result has the shape of the left operand
    (the right one, for a scalar on the left). *)
Definition add (A B : matrix) : matrix :=
  mk_mat (shape0 A) (shape1 A) (fun i j => get A i j + get B i j).
Definition mul_s (A : matrix) (c : R) : matrix :=
  mk_mat (shape0 A) (shape1 A) (fun i j => get A i j * c).
Definition s_mul (c : R) (A : matrix) : matrix :=
  mk_mat (shape0 A) (shape1 A) (fun i j => c * get A i j).
Definition div_s (A : matrix) (c : R) : matrix :=
  mk_mat (shape0 A) (shape1 A) (fun i j => get A i j / c).

Definition vadd (v w : vector) : vector :=
  mk_vec (length v) (fun i => vget v i + vget w i).
Definition vsub (v w : vector) : vector :=
  mk_vec (length v) (fun i => vget v i - vget w i).
Definition vmul_s (v : vector) (c : R) : vector :=
  mk_vec (length v) (fun i => vget v i * c).
Definition s_vmul (c : R) (v : vector) : vector :=
  mk_vec (length v) (fun i => c * vget v i).
Definition vdiv_s (v : vector) (c : R) : vector :=
  mk_vec (length v) (fun i => vget v i / c).
Definition vdiv (v w : vector) : vector :=
  mk_vec (length v) (fun i => vget v i / vget w i).

(** [v.reshape((-1, ncols))] *)
Definition reshape (v : vector) (ncols : nat) : matrix :=
  mk_mat (length v / ncols) ncols (fun i j => vget v (ncols * i + j)%nat).

(** [A[:, n:n+1]] *)
Definition column (A : matrix) (n : nat) : matrix :=
  mk_mat (shape0 A) 1 (fun i _ => get A i n).

(** [A[i, j] = x] and [v[i] = x] on an existing entry. *)
Definition set (A : matrix) (i j : nat) (x : R) : matrix :=
  <[ i := <[ j := x ]> (nth i A []) ]> A.

(** [np.linalg.norm(v)] *)
Definition linalg_norm (v : vector) : R :=
  sqrt (rsum (length v) (fun i => vget v i * vget v i)).

(** [np.argmax], [np.argmin], [np.min]: the first extremal position; an
    empty array raises [ValueError]. *)
Fixpoint argmax_from (best : R) (besti i : nat) (v : vector) : nat :=
  match v with
  | [] => besti
  | x :: rest =>
      if Rlt_dec best x then argmax_from x i (S i) rest
      else argmax_from best besti (S i) rest
  end.
Definition argmax (v : vector) : outcome nat :=
  match v with
  | [] => Raises ValueError
  | x :: rest => Returns (argmax_from x 0 1 rest)
  end.

Fixpoint argmin_from (best : R) (besti i : nat) (v : vector) : nat :=
  match v with
  | [] => besti
  | x :: rest =>
      if Rlt_dec x best then argmin_from x i (S i) rest
      else argmin_from best besti (S i) rest
  end.
Definition argmin (v : vector) : outcome nat :=
  match v with
  | [] => Raises ValueError
  | x :: rest => Returns (argmin_from x 0 1 rest)
  end.

Fixpoint min_from (best : R) (v : vector) : R :=
  match v with
  | [] => best
  | x :: rest => if Rlt_dec x best then min_from x rest else min_from best rest
  end.
Definition min (v : vector) : outcome R :=
  match v with
  | [] => Raises ValueError
  | x :: rest => Returns (min_from x rest)
  end.

(** [np.where(v)[0]]: the positions of the non-zero entries. *)
Fixpoint nonzero_from (i : nat) (v : vector) : list nat :=
  match v with
  | [] => []
  | x :: rest =>
      if Req_EM_T x 0 then nonzero_from (S i) rest
      else i :: nonzero_from (S i) rest
  end.
Definition nonzero (v : vector) : list nat := nonzero_from 0 v.

(** [np.where(mask)[0]] for a boolean array. *)
Fixpoint where_from (i : nat) (mask : list bool) : list nat :=
  match mask with
  | [] => []
  | true :: rest => i :: where_from (S i) rest
  | false :: rest => where_from (S i) rest
  end.
Definition where_mask (mask : list bool) : list nat := where_from 0 mask.

(** Boolean masks: [~mask], [np.logical_and], [v <= 0]. *)
Definition invert (mask : list bool) : list bool := map negb mask.
Fixpoint logical_and (a b : list bool) : list bool :=
  match a, b with
  | x :: a', y :: b' => andb x y :: logical_and a' b'
  | _, _ => []
  end.
Definition le_zero (v : vector) : list bool :=
  map (fun x => if Rle_dec x 0 then true else false) v.

(** [v[mask]], [v[mask] = c], [v[mask] = w] and [A[:, mask]]. *)
Fixpoint select (v : vector) (mask : list bool) : vector :=
  match v, mask with
  | x :: v', true :: mask' => x :: select v' mask'
  | _ :: v', false :: mask' => select v' mask'
  | _, _ => []
  end.
Fixpoint mask_fill (v : vector) (mask : list bool) (c : R) : vector :=
  match v, mask with
  | x :: v', true :: mask' => c :: mask_fill v' mask' c
  | x :: v', false :: mask' => x :: mask_fill v' mask' c
  | _, _ => v
  end.
Fixpoint mask_assign (v : vector) (mask : list bool) (w : vector)
  : outcome vector :=
  match v, mask with
  | x :: v', true :: mask' =>
      match w with
      | y :: w' => r ← mask_assign v' mask' w'; Returns (y :: r)
      | [] => Raises ValueError
      end
  | x :: v', false :: mask' =>
      r ← mask_assign v' mask' w; Returns (x :: r)
  | _, _ => match w with [] => Returns v | _ => Raises ValueError end
  end.
Definition take_cols (A : matrix) (mask : list bool) : matrix :=
  map (fun row => select row mask) A.

(** [np.linalg.det] and [np.linalg.inv] by cofactor expansion: their
    exact-arithmetic values.  A singular matrix raises [LinAlgError]. *)
Fixpoint drop_nth {A : Type} (n : nat) (l : list A) : list A :=
  match n, l with
  | _, [] => []
  | O, _ :: l' => l'
  | S n', x :: l' => x :: drop_nth n' l'
  end.
Definition minor (A : matrix) (i j : nat) : matrix :=
  map (drop_nth j) (drop_nth i A).
Definition sign (n : nat) : R := if Nat.even n then 1 else -1.
Fixpoint det_n (n : nat) (A : matrix) : R :=
  match n with
  | O => 1
  | S k => rsum (S k) (fun j => sign j * get A 0 j * det_n k (minor A 0 j))
  end.
Definition linalg_det (A : matrix) : R := det_n (shape0 A) A.
Definition linalg_inv (A : matrix) : outcome matrix :=
  let n := shape0 A in
  let d := linalg_det A in
  if Req_EM_T d 0 then Raises LinAlgError
  else Returns (mk_mat n n (fun i j =>
         sign (i + j) * det_n (n - 1) (minor A j i) / d)).

(** [A.copy()].  Arrays are values here: no operation of the modelled
    code writes into an array it did not create. *)
Definition copy (A : matrix) : matrix := A.

(** [v[idx] = w] for an integer index array: the assignments are made in
    order (the last one wins on a repeated index); a one-element [w] is
    broadcast. *)
Fixpoint assign_seq (v : vector) (idx : list nat) (w : vector) : vector :=
  match idx, w with
  | i :: idx', x :: w' => assign_seq (<[ i := x ]> v) idx' w'
  | _, _ => v
  end.
Definition index_assign (v : vector) (idx : list nat) (w : vector) : outcome vector :=
  if forallb (fun i => (i <? length v)%nat) idx then
    if (length w =? length idx)%nat then Returns (assign_seq v idx w)
    else if (length w =? 1)%nat
         then Returns (assign_seq v idx (repeat (hd 0 w) (length idx)))
         else Raises ValueError
  else Raises IndexError.

(** [v + w] for two 1-D arrays, with numpy's broadcasting of a
    one-element array; other shapes do not fit ([ValueError]). *)
Definition vadd_b (v w : vector) : outcome vector :=
  if (length v =? length w)%nat then Returns (vadd v w)
  else if (length w =? 1)%nat
       then Returns (mk_vec (length v) (fun i => vget v i + vget w 0))
  else if (length v =? 1)%nat
       then Returns (mk_vec (length w) (fun i => vget v 0 + vget w i))
  else Raises ValueError.

(** [v @ w] for two 1-D arrays. *)
Definition inner (v w : vector) : outcome R :=
  if (length v =? length w)%nat
  then Returns (rsum (length v) (fun k => vget v k * vget w k))
  else Raises ValueError.

(** [A[:, k]] as a 1-D array. *)
Definition col (A : matrix) (k : nat) : outcome vector :=
  if (k <? shape1 A)%nat then Returns (mk_vec (shape0 A) (fun i => get A i k))
  else Raises IndexError.

(** [np.cross] of two vectors of three components, [np.outer] and
    [A.flatten()]. *)
Definition cross (a b : vector) : vector :=
  [vget a 1 * vget b 2 - vget a 2 * vget b 1;
   vget a 2 * vget b 0 - vget a 0 * vget b 2;
   vget a 0 * vget b 1 - vget a 1 * vget b 0].
Definition outer (a b : vector) : matrix :=
  mk_mat (length a) (length b) (fun i j => vget a i * vget b j).
Definition flatten (A : matrix) : vector := concat A.

(** [v[a:b] = w]: the slice ends at the end of [v] at the latest; a
    one-element [w] is broadcast, any other length that differs from the
    slice's is a [ValueError]. *)
Definition set_slice (v : vector) (a b : nat) (w : vector) : outcome vector :=
  let n := (Nat.min b (length v) - a)%nat in
  if (length w =? n)%nat then
    Returns (mk_vec (length v) (fun i =>
      if ((a <=? i) && (i <? a + n))%nat then vget w (i - a) else vget v i))
  else if (length w =? 1)%nat then
    Returns (mk_vec (length v) (fun i =>
      if ((a <=? i) && (i <? a + n))%nat then vget w 0 else vget v i))
  else Raises ValueError.

End np.

Module sp.

(** [sp.linalg.solve(A, y)]: the solution of [A x = y] for a non-singular
    [A]; [LinAlgError] otherwise. *)
Definition linalg_solve (A : matrix) (y : vector) : outcome vector :=
  Ainv ← np.linalg_inv A;
  Returns (np.dot Ainv y).

End sp.

Declare Scope np_scope.
Delimit Scope np_scope with np.
Notation "A @@ B" := (np.matmul A B) (at level 40, left associativity) : np_scope.
Notation "A @| v" := (np.dot A v) (at level 40, left associativity) : np_scope.
Notation "A +! B" := (np.add A B) (at level 50, left associativity) : np_scope.
Notation "A *! c" := (np.mul_s A c) (at level 40, left associativity) : np_scope.
Notation "c !* A" := (np.s_mul c A) (at level 40, left associativity) : np_scope.
Notation "A /! c" := (np.div_s A c) (at level 40, left associativity) : np_scope.
Notation "v +^ w" := (np.vadd v w) (at level 50, left associativity) : np_scope.
Notation "v -^ w" := (np.vsub v w) (at level 50, left associativity) : np_scope.
Notation "v *^ c" := (np.vmul_s v c) (at level 40, left associativity) : np_scope.
Notation "v /^ c" := (np.vdiv_s v c) (at level 40, left associativity) : np_scope.
Open Scope np_scope.

(** ** Small helpers for the Python control flow *)

(** [for i in range(n): st = body(i, st)] *)
Definition for_range {St : Type} (n : nat) (body : nat -> St -> St) (st : St) : St :=
  fold_left (fun s i => body i s) (seq 0 n) st.

(** [for n, x in enumerate(xs): st = body(n, x, st)], where the body may raise. *)
Fixpoint for_enumerate {A St : Type} (body : nat -> A -> St -> outcome St)
  (n : nat) (xs : list A) (st : St) : outcome St :=
  match xs with
  | [] => Returns st
  | x :: rest => st' ← body n x st; for_enumerate body (S n) rest st'
  end.

(** A shape requirement numpy checks at run time ([ValueError] otherwise). *)
Definition require_shape (ok : bool) : outcome unit :=
  if ok then Returns tt else Raises ValueError.

(** [1/x].  Where numpy would produce an infinity (a zero Jacobian
    determinant), exact arithmetic has no value: the evaluation is recorded
    as raising. *)
Definition one_over (x : R) : outcome R :=
  if Req_EM_T x 0 then Raises ZeroDivisionError else Returns (1 / x).

(** Reading an attribute that may be unset or [None]. *)
Definition attr {A : Type} (a : option A) : outcome A :=
  match a with
  | Some x => Returns x
  | None => Raises AttributeError
  end.

(** [l[i]] on a Python list or an index array. *)
Definition attr_index {A : Type} (l : list A) (i : nat) : outcome A :=
  match l !! i with
  | Some x => Returns x
  | None => Raises IndexError
  end.

(** * amfe/element.py *)

(** ** Shared kernels *)

Definition scatter_matrix (Mat : matrix) (ndim : nat) : matrix :=
  let dof_small_row := np.shape0 Mat in
  let dof_small_col := np.shape1 Mat in
  let Mat_scattered := np.zeros2 (dof_small_row * ndim) (dof_small_col * ndim) in
  for_range dof_small_row (fun i Mat_scattered =>
    for_range dof_small_col (fun j Mat_scattered =>
      for_range ndim (fun k Mat_scattered =>
        np.set Mat_scattered (ndim * i + k) (ndim * j + k) (get Mat i j))
      Mat_scattered)
    Mat_scattered)
  Mat_scattered.

(** [B[:, c0:c1] = blk] *)
Definition set_cols (B : matrix) (c0 c1 : nat) (blk : matrix) : matrix :=
  mk_mat (np.shape0 B) (np.shape1 B) (fun r c =>
    if ((c0 <=? c) && (c <? c1))%nat then get blk r (c - c0) else get B r c).

Definition compute_B_matrix (B_tilde F : matrix) : matrix :=
  let no_of_nodes := np.shape0 B_tilde in
  let no_of_dims := np.shape1 B_tilde in
  let b := B_tilde in
  let B := np.zeros2 (no_of_dims * (no_of_dims + 1) / 2) (no_of_nodes * no_of_dims) in
  let F11 := get F 0 0 in
  let F12 := get F 0 1 in
  let F21 := get F 1 0 in
  let F22 := get F 1 1 in
  let F13 := get F 0 2 in
  let F31 := get F 2 0 in
  let F23 := get F 1 2 in
  let F32 := get F 2 1 in
  let F33 := get F 2 2 in
  for_range no_of_nodes (fun i B =>
    if (no_of_dims =? 2)%nat then
      set_cols B (i * no_of_dims) ((i + 1) * no_of_dims)
        [[F11 * get b i 0; F21 * get b i 0];
         [F12 * get b i 1; F22 * get b i 1];
         [F11 * get b i 1 + F12 * get b i 0; F21 * get b i 1 + F22 * get b i 0]]
    else
      set_cols B (i * no_of_dims) ((i + 1) * no_of_dims)
        [[F11 * get b i 0; F21 * get b i 0; F31 * get b i 0];
         [F12 * get b i 1; F22 * get b i 1; F32 * get b i 1];
         [F13 * get b i 2; F23 * get b i 2; F33 * get b i 2];
         [F12 * get b i 2 + F13 * get b i 1;
          F22 * get b i 2 + F23 * get b i 1; F32 * get b i 2 + F33 * get b i 1];
         [F13 * get b i 0 + F11 * get b i 2;
          F23 * get b i 0 + F21 * get b i 2; F33 * get b i 0 + F31 * get b i 2];
         [F11 * get b i 1 + F12 * get b i 0;
          F21 * get b i 1 + F22 * get b i 0; F31 * get b i 1 + F32 * get b i 0]])
  B.

(** ** Materials *)

(** Modelled from the spec: [amfe/material.py] is not among the sources.
    Section 4.1 of the specification gives a material its parameters
    (Young's modulus, density, thickness, cross-section) and the two
    constitutive operations mapping a Green-Lagrange strain [E] to
    [(S, S_v, C)]; the attribute names are those the elements read. *)
Record Material : Type := {
  mat_thickness : R;
  mat_rho : R;
  mat_E : R;
  mat_crossec : R;
  mat_S_Sv_and_C_2d : matrix -> matrix * vector * matrix;
  mat_S_Sv_and_C : matrix -> matrix * vector * matrix
}.

(** ** Elements *)

(** The result buffers of a plane or solid element ([self.K], [self.f],
    [self.S], [self.E]) and its material. *)
Record Element : Type := {
  el_material : option Material;
  el_K : matrix;
  el_f : vector;
  el_S : matrix;
  el_E : matrix
}.

(** The locals [F] and [E] of [_compute_tensors] at each Gauss point, in
    the order of evaluation.  They are not returned by the Python method;
    the model returns them next to the updated element so that statements
    about them can be made.  The stress tensor the source calls [S] is
    written [S'] below ([S] is the successor of [nat]). *)
Definition gauss_trace := list (matrix * matrix).

(** The buffers of the mass computation of an element that has them,
    [self.M_small] and [self.M]. *)
Record MassBuffers : Type := {
  el_M_small : matrix;
  el_M : matrix
}.

Inductive ElementClass : Type :=
| Tri3 | Tri6 | Quad4 | Quad8 | Tet4 | Tet10 | Hexa8 | Hexa20.

Module Tri3.

Definition __init__ (material : option Material) : Element :=
  {| el_material := material;
     el_K := np.zeros2 6 6;
     el_f := np.zeros 6;
     el_S := np.zeros2 3 6;
     el_E := np.zeros2 3 6 |}.

(** The part of [_compute_tensors] after [dN_dX] is known. *)
Definition tensors (self : Element) (material : Material) (u_mat dN_dX : matrix)
  (det : R) : Element * gauss_trace :=
  let d := mat_thickness material in
  let H := np.T u_mat @@ dN_dX in
  let F := H +! np.eye 2 in
  let E := (1/2) !* (H +! np.T H +! np.T H @@ H) in
  let '(S', S_v, C_SE) := mat_S_Sv_and_C_2d material E in
  let B0 := compute_B_matrix dN_dX F in
  let K_geo_small := dN_dX @@ S' @@ np.T dN_dX *! det /! 2 *! d in
  let K_geo := scatter_matrix K_geo_small 2 in
  let K_mat := np.T B0 @@ C_SE @@ B0 *! det /! 2 *! d in
  ({| el_material := el_material self;
      el_K := K_geo +! K_mat;
      el_f := np.T B0 @| S_v *^ det /^ 2 *^ d;
      el_S := np.ones2 3 1 @@ [[get S' 0 0; get S' 0 1; 0; get S' 1 1; 0; 0]];
      el_E := np.ones2 3 1 @@ [[get E 0 0; get E 0 1; 0; get E 1 1; 0; 0]] |},
   [(F, E)]).

Definition _compute_tensors (self : Element) (X u : vector) (t : R)
  : outcome (Element * gauss_trace) :=
  material ← attr (el_material self);
  match X with
  | [X1; Y1; X2; Y2; X3; Y3] =>
      _ ← require_shape (length u =? 6)%nat;
      let u_mat := np.reshape u 2 in
      let det := (X3-X2)*(Y1-Y2) - (X1-X2)*(Y3-Y2) in
      let A0 := 0.5*det in
      inv_det ← one_over det;
      let dN_dX := inv_det !* [[Y2-Y3; X3-X2]; [Y3-Y1; X1-X3]; [Y1-Y2; X2-X1]] in
      Returns (tensors self material u_mat dN_dX det)
  | _ => Raises ValueError
  end.

(** [_m_int] assigns [self.A0] and [self.M], attributes that only the mass
    computation has; they are returned here, [M] being the result of the
    call. *)
Definition _m_int (self : Element) (X u : vector) (t : R) : outcome (R * matrix) :=
  material ← attr (el_material self);
  let t := mat_thickness material in
  let rho := mat_rho material in
  match X with
  | [X1; Y1; X2; Y2; X3; Y3] =>
      let A0 := 0.5*((X3-X2)*(Y1-Y2) - (X1-X2)*(Y3-Y2)) in
      let M := [[2; 0; 1; 0; 1; 0];
                 [0; 2; 0; 1; 0; 1];
                 [1; 0; 2; 0; 1; 0];
                 [0; 1; 0; 2; 0; 1];
                 [1; 0; 1; 0; 2; 0];
                 [0; 1; 0; 1; 0; 2]] *! A0 /! 12 *! t *! rho in
      Returns (A0, M)
  | _ => Raises ValueError
  end.

End Tri3.

Module Tri6.

Definition gauss_points2 : list (R * R * R * R) :=
  [(2/3, 1/6, 1/6, 1/3);
   (1/6, 2/3, 1/6, 1/3);
   (1/6, 1/6, 2/3, 1/3)].

Definition extrapolation_points : matrix :=
  np.T [[5/3; -1/3; -1/3; 2/3; -1/3; 2/3];
        [-1/3; 5/3; -1/3; 2/3; 2/3; -1/3];
        [-1/3; -1/3; 5/3; -1/3; 2/3; 2/3]].

Definition gauss_points := gauss_points2.

Definition __init__ (material : option Material) : Element :=
  {| el_material := material;
     el_K := np.zeros2 12 12;
     el_f := np.zeros 12;
     el_S := np.zeros2 6 6;
     el_E := np.zeros2 6 6 |}.

(** [B0_tilde] and [det] at one Gauss point. *)
Definition B0_tilde_det (X1 Y1 X2 Y2 X3 Y3 X4 Y4 X5 Y5 X6 Y6 L1 L2 L3 : R)
  : outcome (matrix * R) :=
  let dN_dL := [[4*L1 - 1;        0;        0];
                [       0; 4*L2 - 1;        0];
                [       0;        0; 4*L3 - 1];
                [    4*L2;     4*L1;        0];
                [       0;     4*L3;     4*L2];
                [    4*L3;        0;     4*L1]] in
  let Jx1 := 4*L2*X4 + 4*L3*X6 + X1*(4*L1 - 1) in
  let Jx2 := 4*L1*X4 + 4*L3*X5 + X2*(4*L2 - 1) in
  let Jx3 := 4*L1*X6 + 4*L2*X5 + X3*(4*L3 - 1) in
  let Jy1 := 4*L2*Y4 + 4*L3*Y6 + Y1*(4*L1 - 1) in
  let Jy2 := 4*L1*Y4 + 4*L3*Y5 + Y2*(4*L2 - 1) in
  let Jy3 := 4*L1*Y6 + 4*L2*Y5 + Y3*(4*L3 - 1) in
  let det := Jx1*Jy2 - Jx1*Jy3 - Jx2*Jy1 + Jx2*Jy3 + Jx3*Jy1 - Jx3*Jy2 in
  inv_det ← one_over det;
  let dL_dX := inv_det !* [[ Jy2 - Jy3; -Jx2 + Jx3];
                           [-Jy1 + Jy3;  Jx1 - Jx3];
                           [ Jy1 - Jy2; -Jx1 + Jx2]] in
  let B0_tilde := dN_dL @@ dL_dX in
  Returns (B0_tilde, det).

(** The rest of the loop body. *)
Definition gauss_point (material : Material) (u_mat : matrix) (n_gauss : nat) (w : R)
  (B0_tilde : matrix) (det : R) (st : Element * gauss_trace) : Element * gauss_trace :=
  let '(self, trace) := st in
  let d := mat_thickness material in
  let H := np.T u_mat @@ B0_tilde in
  let F := H +! np.eye 2 in
  let E := (1/2) !* (H +! np.T H +! np.T H @@ H) in
  let '(S', S_v, C_SE) := mat_S_Sv_and_C_2d material E in
  let B0 := compute_B_matrix B0_tilde F in
  let K_geo_small := B0_tilde @@ S' @@ np.T B0_tilde *! det /! 2 *! d in
  let K_geo := scatter_matrix K_geo_small 2 in
  let K_mat := np.T B0 @@ C_SE @@ B0 *! det /! 2 *! d in
  let extrapol := np.column extrapolation_points n_gauss in
  ({| el_material := el_material self;
      el_K := el_K self +! (K_geo +! K_mat) *! w;
      el_f := el_f self +^ np.T B0 @| S_v *^ det /^ 2 *^ d *^ w;
      el_S := el_S self +! extrapol @@ [[get S' 0 0; get S' 0 1; 0; get S' 1 1; 0; 0]];
      el_E := el_E self +! extrapol @@ [[get E 0 0; get E 0 1; 0; get E 1 1; 0; 0]] |},
   trace ++ [(F, E)]).

Definition _compute_tensors (self : Element) (X u : vector) (t : R)
  : outcome (Element * gauss_trace) :=
  match X with
  | [X1; Y1; X2; Y2; X3; Y3; X4; Y4; X5; Y5; X6; Y6] =>
      _ ← require_shape (length u =? 12)%nat;
      let u_mat := np.reshape u 2 in
      material ← attr (el_material self);
      let self := {| el_material := el_material self;
                     el_K := el_K self *! 0;
                     el_f := el_f self *^ 0;
                     el_S := el_S self *! 0;
                     el_E := el_E self *! 0 |} in
      for_enumerate (fun n_gauss '(L1, L2, L3, w) st =>
          '(B0_tilde, det) ← B0_tilde_det X1 Y1 X2 Y2 X3 Y3 X4 Y4 X5 Y5 X6 Y6 L1 L2 L3;
          Returns (gauss_point material u_mat n_gauss w B0_tilde det st))
        0 gauss_points (self, [])
  | _ => Raises ValueError
  end.

(** The mass buffers [__init__] allocates. *)
Definition M_buffers : MassBuffers :=
  {| el_M_small := np.zeros2 6 6; el_M := np.zeros2 12 12 |}.

(** [_m_int] works on the buffers [self.M_small] and [self.M]. *)
Definition _m_int (bufs : MassBuffers) (self : Element) (X u : vector) (t : R)
  : outcome (MassBuffers * matrix) :=
  match X with
  | [X1; Y1; X2; Y2; X3; Y3; X4; Y4; X5; Y5; X6; Y6] =>
      material ← attr (el_material self);
      let t := mat_thickness material in
      let rho := mat_rho material in
      let M_small := el_M_small bufs *! 0 in
      let M_small := fold_left (fun M_small '(L1, L2, L3, w) =>
          (* the entries in the jacobian dX_dL *)
          let Jx1 := 4*L2*X4 + 4*L3*X6 + X1*(4*L1 - 1) in
          let Jx2 := 4*L1*X4 + 4*L3*X5 + X2*(4*L2 - 1) in
          let Jx3 := 4*L1*X6 + 4*L2*X5 + X3*(4*L3 - 1) in
          let Jy1 := 4*L2*Y4 + 4*L3*Y6 + Y1*(4*L1 - 1) in
          let Jy2 := 4*L1*Y4 + 4*L3*Y5 + Y2*(4*L2 - 1) in
          let Jy3 := 4*L1*Y6 + 4*L2*Y5 + Y3*(4*L3 - 1) in
          let det := Jx1*Jy2 - Jx1*Jy3 - Jx2*Jy1 + Jx2*Jy3 + Jx3*Jy1 - Jx3*Jy2 in
          let N := [  [L1*(2*L1 - 1)];
                 [L2*(2*L2 - 1)];
                 [L3*(2*L3 - 1)];
                 [      4*L1*L2];
                 [      4*L2*L3];
                 [      4*L1*L3]] in
          M_small +! (N @@ np.T N) *! det /! 2 *! rho *! t *! w)
        gauss_points M_small in
      let M := scatter_matrix M_small 2 in
      Returns ({| el_M_small := M_small; el_M := M |}, M)
  | _ => Raises ValueError
  end.

End Tri6.

Module Quad4.

Definition g1 : R := 1 / sqrt 3.

Definition gauss_points : list (R * R * R) :=
  [(-g1, -g1, 1);
   ( g1, -g1, 1);
   ( g1,  g1, 1);
   (-g1,  g1, 1)].

Definition extrapolation_points : matrix :=
  np.T [[1+sqrt 3/2; -1/2; 1-sqrt 3/2; -1/2];
        [-1/2; 1+sqrt 3/2; -1/2; 1-sqrt 3/2];
        [1-sqrt 3/2; -1/2; 1+sqrt 3/2; -1/2];
        [-1/2; 1-sqrt 3/2; -1/2; 1+sqrt 3/2]].

Definition __init__ (material : option Material) : Element :=
  {| el_material := material;
     el_K := np.zeros2 8 8;
     el_f := np.zeros 8;
     el_S := np.zeros2 4 6;
     el_E := np.zeros2 4 6 |}.

Definition B0_tilde_det (X_mat : matrix) (xi eta : R) : outcome (matrix * R) :=
  let dN_dxi := [[ eta/4 - 1/4;  xi/4 - 1/4];
                 [-eta/4 + 1/4; -xi/4 - 1/4];
                 [ eta/4 + 1/4;  xi/4 + 1/4];
                 [-eta/4 - 1/4; -xi/4 + 1/4]] in
  let dX_dxi := np.T X_mat @@ dN_dxi in
  let det := get dX_dxi 0 0 * get dX_dxi 1 1 - get dX_dxi 1 0 * get dX_dxi 0 1 in
  inv_det ← one_over det;
  let dxi_dX := inv_det !* [[ get dX_dxi 1 1; -get dX_dxi 0 1];
                            [-get dX_dxi 1 0;  get dX_dxi 0 0]] in
  let B0_tilde := dN_dxi @@ dxi_dX in
  Returns (B0_tilde, det).

Definition gauss_point (material : Material) (u_e : matrix) (n_gauss : nat) (w : R)
  (B0_tilde : matrix) (det : R) (st : Element * gauss_trace) : Element * gauss_trace :=
  let '(self, trace) := st in
  let t := mat_thickness material in
  let H := np.T u_e @@ B0_tilde in
  let F := H +! np.eye 2 in
  let E := (1/2) !* (H +! np.T H +! np.T H @@ H) in
  let '(S', S_v, C_SE) := mat_S_Sv_and_C_2d material E in
  let B0 := compute_B_matrix B0_tilde F in
  let K_geo_small := B0_tilde @@ S' @@ np.T B0_tilde *! det *! t in
  let K_geo := scatter_matrix K_geo_small 2 in
  let K_mat := np.T B0 @@ C_SE @@ B0 *! det *! t in
  let extrapol := np.column extrapolation_points n_gauss in
  ({| el_material := el_material self;
      el_K := el_K self +! (K_geo +! K_mat) *! w;
      el_f := el_f self +^ np.T B0 @| S_v *^ det *^ t *^ w;
      el_S := el_S self +! extrapol @@ [[get S' 0 0; get S' 0 1; 0; get S' 1 1; 0; 0]];
      el_E := el_E self +! extrapol @@ [[get E 0 0; get E 0 1; 0; get E 1 1; 0; 0]] |},
   trace ++ [(F, E)]).

Definition _compute_tensors (self : Element) (X u : vector) (t : R)
  : outcome (Element * gauss_trace) :=
  _ ← require_shape ((length X =? 8) && (length u =? 8))%nat;
  let X_mat := np.reshape X 2 in
  let u_e := np.reshape u 2 in
  material ← attr (el_material self);
  let self := {| el_material := el_material self;
                 el_K := el_K self *! 0;
                 el_f := el_f self *^ 0;
                 el_S := el_S self *! 0;
                 el_E := el_E self *! 0 |} in
  for_enumerate (fun n_gauss '(xi, eta, w) st =>
      '(B0_tilde, det) ← B0_tilde_det X_mat xi eta;
      Returns (gauss_point material u_e n_gauss w B0_tilde det st))
    0 gauss_points (self, []).

(** The mass buffers [__init__] allocates. *)
Definition M_buffers : MassBuffers :=
  {| el_M_small := np.zeros2 4 4; el_M := np.zeros2 8 8 |}.

(** [_m_int] works on the buffers [self.M_small] and [self.M]. *)
Definition _m_int (bufs : MassBuffers) (self : Element) (X u : vector) (t : R)
  : outcome (MassBuffers * matrix) :=
  match X with
  | [X1; Y1; X2; Y2; X3; Y3; X4; Y4] =>
      let M_small := el_M_small bufs *! 0 in
      material ← attr (el_material self);
      let t := mat_thickness material in
      let rho := mat_rho material in
      let M_small := fold_left (fun M_small '(xi, eta, w) =>
          let det := 1/8*(- X1*Y2*eta + X1*Y2 + X1*Y3*eta - X1*Y3*xi + X1*Y4*xi - X1*Y4 + X2*Y1*eta - X2*Y1 + X2*Y3*xi + X2*Y3 - X2*Y4*eta - X2*Y4*xi - X3*Y1*eta + X3*Y1*xi - X3*Y2*xi - X3*Y2 + X3*Y4*eta + X3*Y4 - X4*Y1*xi + X4*Y1 + X4*Y2*eta + X4*Y2*xi - X4*Y3*eta - X4*Y3) in
          let N := [  [(- eta + 1)*(- xi + 1)/4];
                 [ (- eta + 1)*(xi + 1)/4];
                 [  (eta + 1)*(xi + 1)/4];
                 [ (eta + 1)*(- xi + 1)/4]] in
          M_small +! (N @@ np.T N) *! det *! rho *! t *! w)
        gauss_points M_small in
      let M := scatter_matrix M_small 2 in
      Returns ({| el_M_small := M_small; el_M := M |}, M)
  | _ => Raises ValueError
  end.

End Quad4.

Module Quad8.

Definition g : R := sqrt (3/5).
Definition w : R := 5/9.
Definition w0 : R := 8/9.

Definition gauss_points : list (R * R * R) :=
  [(-g, -g, w*w);
   (g, -g, w*w);
   (g, g, w*w);
   (-g, g, w*w);
   (0, -g, w0*w);
   (g, 0, w*w0);
   (0, g, w0*w);
   (-g, 0, w*w0);
   (0, 0, w0*w0)].

Definition extrapolation_points : matrix :=
  [[ 5*sqrt (15)/18 + 10/9; 5/18; - 5*sqrt (15)/18 + 10/9;
   5/18; - 5/9 - sqrt (15)/9; - 5/9 + sqrt (15)/9;
   - 5/9 + sqrt (15)/9; - 5/9 - sqrt (15)/9;  4/9];
   [5/18;  5*sqrt (15)/18 + 10/9; 5/18; - 5*sqrt (15)/18 + 10/9;
   - 5/9 - sqrt (15)/9; - 5/9 - sqrt (15)/9; - 5/9 + sqrt (15)/9;
   - 5/9 + sqrt (15)/9;  4/9];
   [ - 5*sqrt (15)/18 + 10/9; 5/18; 5*sqrt (15)/18 + 10/9; 5/18;
   - 5/9 + sqrt (15)/9; - 5/9 - sqrt (15)/9; - 5/9 - sqrt (15)/9;
   - 5/9 + sqrt (15)/9;  4/9];
   [ 5/18; - 5*sqrt (15)/18 + 10/9; 5/18;  5*sqrt (15)/18 + 10/9;
   - 5/9 + sqrt (15)/9; - 5/9 + sqrt (15)/9; - 5/9 - sqrt (15)/9;
   - 5/9 - sqrt (15)/9;  4/9];
   [ 0;  0;  0;  0; sqrt (15)/6 + 5/6;  0; - sqrt (15)/6 + 5/6;  0; - 2/3];
   [0; 0; 0; 0; 0; sqrt (15)/6 + 5/6;  0; - sqrt (15)/6 + 5/6; - 2/3];
   [ 0; 0; 0; 0; - sqrt (15)/6 + 5/6; 0; sqrt (15)/6 + 5/6; 0; - 2/3];
   [ 0; 0; 0; 0; 0; - sqrt (15)/6 + 5/6; 0; sqrt (15)/6 + 5/6; - 2/3]].

Definition __init__ (material : option Material) : Element :=
  {| el_material := material;
     el_K := np.zeros2 16 16;
     el_f := np.zeros 16;
     el_S := np.zeros2 8 6;
     el_E := np.zeros2 8 6 |}.

Definition B0_tilde_det (X_mat : matrix) (xi eta : R) : outcome (matrix * R) :=
  let dN_dxi := [
     [ - (eta - 1)*(eta + 2*xi)/4; - (2*eta + xi)*(xi - 1)/4];
     [ (eta - 1)*(eta - 2*xi)/4;  (2*eta - xi)*(xi + 1)/4];
     [ (eta + 1)*(eta + 2*xi)/4;  (2*eta + xi)*(xi + 1)/4];
     [ - (eta + 1)*(eta - 2*xi)/4; - (2*eta - xi)*(xi - 1)/4];
     [             xi*(eta - 1);            xi^2/2 - 1/2];
     [ - eta^2/2 + 1/2;            - eta*(xi + 1)];
     [ - xi*(eta + 1);           - xi^2/2 + 1/2];
     [           eta^2/2 - 1/2;             eta*(xi - 1)]] in
  let dX_dxi := np.T X_mat @@ dN_dxi in
  let det := get dX_dxi 0 0 * get dX_dxi 1 1 - get dX_dxi 1 0 * get dX_dxi 0 1 in
  inv_det ← one_over det;
  let dxi_dX := inv_det !* [[ get dX_dxi 1 1; -get dX_dxi 0 1];
                            [-get dX_dxi 1 0;  get dX_dxi 0 0]] in
  let B0_tilde := dN_dxi @@ dxi_dX in
  Returns (B0_tilde, det).

Definition gauss_point (material : Material) (u_e : matrix) (n_gauss : nat) (w : R)
  (B0_tilde : matrix) (det : R) (st : Element * gauss_trace) : Element * gauss_trace :=
  let '(self, trace) := st in
  let t := mat_thickness material in
  let H := np.T u_e @@ B0_tilde in
  let F := H +! np.eye 2 in
  let E := (1/2) !* (H +! np.T H +! np.T H @@ H) in
  let '(S', S_v, C_SE) := mat_S_Sv_and_C_2d material E in
  let B0 := compute_B_matrix B0_tilde F in
  let K_geo_small := B0_tilde @@ S' @@ np.T B0_tilde *! det *! t in
  let K_geo := scatter_matrix K_geo_small 2 in
  let K_mat := np.T B0 @@ C_SE @@ B0 *! det *! t in
  let extrapol := np.column extrapolation_points n_gauss in
  ({| el_material := el_material self;
      el_K := el_K self +! w !* (K_geo +! K_mat);
      el_f := el_f self +^ np.T B0 @| S_v *^ det *^ t *^ w;
      el_S := el_S self +! extrapol @@ [[get S' 0 0; get S' 0 1; 0; get S' 1 1; 0; 0]];
      el_E := el_E self +! extrapol @@ [[get E 0 0; get E 0 1; 0; get E 1 1; 0; 0]] |},
   trace ++ [(F, E)]).

Definition _compute_tensors (self : Element) (X u : vector) (t : R)
  : outcome (Element * gauss_trace) :=
  _ ← require_shape ((length X =? 16) && (length u =? 16))%nat;
  let X_mat := np.reshape X 2 in
  let u_e := np.reshape u 2 in
  material ← attr (el_material self);
  let self := {| el_material := el_material self;
                 el_K := el_K self *! 0;
                 el_f := el_f self *^ 0;
                 el_S := el_S self *! 0;
                 el_E := el_E self *! 0 |} in
  for_enumerate (fun n_gauss '(xi, eta, w) st =>
      '(B0_tilde, det) ← B0_tilde_det X_mat xi eta;
      Returns (gauss_point material u_e n_gauss w B0_tilde det st))
    0 gauss_points (self, []).

End Quad8.

Module Tet4.

Definition __init__ (material : option Material) : Element :=
  {| el_material := material;
     el_K := np.zeros2 12 12;
     el_f := np.zeros 12;
     el_S := np.zeros2 4 6;
     el_E := np.zeros2 4 6 |}.

(** The part of [_compute_tensors] after [B0_tilde] is known. *)
Definition tensors (self : Element) (material : Material) (u_mat B0_tilde : matrix)
  (det : R) : Element * gauss_trace :=
  let H := np.T u_mat @@ B0_tilde in
  let F := H +! np.eye 3 in
  let E := (1/2) !* (H +! np.T H +! np.T H @@ H) in
  let '(S', S_v, C_SE) := mat_S_Sv_and_C material E in
  let B0 := compute_B_matrix B0_tilde F in
  let K_geo_small := B0_tilde @@ S' @@ np.T B0_tilde *! det /! 6 in
  let K_geo := scatter_matrix K_geo_small 3 in
  let K_mat := np.T B0 @@ C_SE @@ B0 *! det /! 6 in
  ({| el_material := el_material self;
      el_K := K_geo +! K_mat;
      el_f := np.T B0 @| S_v *^ det /^ 6;
      el_S := np.ones2 4 1 @@ [[get S' 0 0; get S' 0 1; get S' 0 2;
                                get S' 1 1; get S' 1 2; get S' 2 2]];
      el_E := np.ones2 4 1 @@ [[get E 0 0; get E 0 1; get E 0 2;
                                get E 1 1; get E 1 2; get E 2 2]] |},
   [(F, E)]).

Definition _compute_tensors (self : Element) (X u : vector) (t : R)
  : outcome (Element * gauss_trace) :=
  match X with
  | [X1; Y1; Z1; X2; Y2; Z2; X3; Y3; Z3; X4; Y4; Z4] =>
      _ ← require_shape (length u =? 12)%nat;
      let u_mat := np.reshape u 3 in
      let X_mat := np.reshape X 3 in
      let det := -X1*Y2*Z3 + X1*Y2*Z4 + X1*Y3*Z2 - X1*Y3*Z4 - X1*Y4*Z2 + X1*Y4*Z3 + X2*Y1*Z3 - X2*Y1*Z4 - X2*Y3*Z1 + X2*Y3*Z4 + X2*Y4*Z1 - X2*Y4*Z3 - X3*Y1*Z2 + X3*Y1*Z4 + X3*Y2*Z1 - X3*Y2*Z4 - X3*Y4*Z1 + X3*Y4*Z2 + X4*Y1*Z2 - X4*Y1*Z3 - X4*Y2*Z1 + X4*Y2*Z3 + X4*Y3*Z1 - X4*Y3*Z2 in
      inv_det ← one_over det;
      let B0_tilde := inv_det !* [
        [ - Y2*Z3 + Y2*Z4 + Y3*Z2 - Y3*Z4 - Y4*Z2 + Y4*Z3;
        X2*Z3 - X2*Z4 - X3*Z2 + X3*Z4 + X4*Z2 - X4*Z3;
        - X2*Y3 + X2*Y4 + X3*Y2 - X3*Y4 - X4*Y2 + X4*Y3];
        [ Y1*Z3 - Y1*Z4 - Y3*Z1 + Y3*Z4 + Y4*Z1 - Y4*Z3;
        - X1*Z3 + X1*Z4 + X3*Z1 - X3*Z4 - X4*Z1 + X4*Z3;
        X1*Y3 - X1*Y4 - X3*Y1 + X3*Y4 + X4*Y1 - X4*Y3];
        [ - Y1*Z2 + Y1*Z4 + Y2*Z1 - Y2*Z4 - Y4*Z1 + Y4*Z2;
        X1*Z2 - X1*Z4 - X2*Z1 + X2*Z4 + X4*Z1 - X4*Z2;
        - X1*Y2 + X1*Y4 + X2*Y1 - X2*Y4 - X4*Y1 + X4*Y2];
        [ Y1*Z2 - Y1*Z3 - Y2*Z1 + Y2*Z3 + Y3*Z1 - Y3*Z2;
        - X1*Z2 + X1*Z3 + X2*Z1 - X2*Z3 - X3*Z1 + X3*Z2;
        X1*Y2 - X1*Y3 - X2*Y1 + X2*Y3 + X3*Y1 - X3*Y2]] in
      material ← attr (el_material self);
      Returns (tensors self material u_mat B0_tilde det)
  | _ => Raises ValueError
  end.

(** [_m_int]: the mass matrix [self.M] is the result. *)
Definition _m_int (self : Element) (X u : vector) (t : R) : outcome matrix :=
  material ← attr (el_material self);
  let rho := mat_rho material in
  match X with
  | [X1; Y1; Z1; X2; Y2; Z2; X3; Y3; Z3; X4; Y4; Z4] =>
      let det := X1*Y2*Z3 - X1*Y2*Z4 - X1*Y3*Z2 + X1*Y3*Z4 + X1*Y4*Z2 - X1*Y4*Z3 - X2*Y1*Z3 + X2*Y1*Z4 + X2*Y3*Z1 - X2*Y3*Z4 - X2*Y4*Z1 + X2*Y4*Z3 + X3*Y1*Z2 - X3*Y1*Z4 - X3*Y2*Z1 + X3*Y2*Z4 + X3*Y4*Z1 - X3*Y4*Z2 - X4*Y1*Z2 + X4*Y1*Z3 + X4*Y2*Z1 - X4*Y2*Z3 - X4*Y3*Z1 + X4*Y3*Z2 in
      (* same thing as above - it's not clear yet how the node numbering is done. *)
      let det := det * -1 in
      let V := det/6 in
      let M := (V / 20 * rho) !* [
        [ 2;  0;  0;  1;  0;  0;  1;  0;  0;  1;  0;  0];
        [ 0;  2;  0;  0;  1;  0;  0;  1;  0;  0;  1;  0];
        [ 0;  0;  2;  0;  0;  1;  0;  0;  1;  0;  0;  1];
        [ 1;  0;  0;  2;  0;  0;  1;  0;  0;  1;  0;  0];
        [ 0;  1;  0;  0;  2;  0;  0;  1;  0;  0;  1;  0];
        [ 0;  0;  1;  0;  0;  2;  0;  0;  1;  0;  0;  1];
        [ 1;  0;  0;  1;  0;  0;  2;  0;  0;  1;  0;  0];
        [ 0;  1;  0;  0;  1;  0;  0;  2;  0;  0;  1;  0];
        [ 0;  0;  1;  0;  0;  1;  0;  0;  2;  0;  0;  1];
        [ 1;  0;  0;  1;  0;  0;  1;  0;  0;  2;  0;  0];
        [ 0;  1;  0;  0;  1;  0;  0;  1;  0;  0;  2;  0];
        [ 0;  0;  1;  0;  0;  1;  0;  0;  1;  0;  0;  2]] in
      Returns M
  | _ => Raises ValueError
  end.

End Tet4.

Module Tet10.

Definition a : R := (5 - sqrt 5) / 20.
Definition b : R := (5 + 3*sqrt 5) / 20.
Definition w : R := 1/4.

Definition gauss_points_4 : list (R * R * R * R * R) :=
  [(b,a,a,a,w);
   (a,b,a,a,w);
   (a,a,b,a,w);
   (a,a,a,b,w)].
Definition gauss_points := gauss_points_4.

Definition c1 : R := 1/4 + 3*sqrt 5/4.
Definition c2 : R := -sqrt 5/4 + 1/4.
Definition m1 : R := 1/4 + sqrt 5/4.
Definition m2 : R := -sqrt 5/4 + 1/4.

Definition extrapolation_points : matrix :=
  np.T [[c1; c2; c2; c2; m1; m2; m1; m1; m2; m2];
        [c2; c1; c2; c2; m1; m1; m2; m2; m1; m2];
        [c2; c2; c1; c2; m2; m1; m1; m2; m2; m1];
        [c2; c2; c2; c1; m2; m2; m2; m1; m1; m1]].

Definition __init__ (material : option Material) : Element :=
  {| el_material := material;
     el_K := np.zeros2 30 30;
     el_f := np.zeros 30;
     el_S := np.zeros2 10 6;
     el_E := np.zeros2 10 6 |}.

Definition B0_tilde_det
  (X1 Y1 Z1 X2 Y2 Z2 X3 Y3 Z3 X4 Y4 Z4 X5 Y5 Z5 X6 Y6 Z6 X7 Y7 Z7 X8 Y8 Z8 X9 Y9 Z9 X10 Y10 Z10 L1 L2 L3 L4 : R)
  : outcome (matrix * R) :=
  let Jx1 := 4*L2*X5 + 4*L3*X7 + 4*L4*X8 + X1*(4*L1 - 1) in
  let Jx2 := 4*L1*X5 + 4*L3*X6 + 4*L4*X9 + X2*(4*L2 - 1) in
  let Jx3 := 4*L1*X7 + 4*L2*X6 + 4*L4*X10 + X3*(4*L3 - 1) in
  let Jx4 := 4*L1*X8 + 4*L2*X9 + 4*L3*X10 + X4*(4*L4 - 1) in
  let Jy1 := 4*L2*Y5 + 4*L3*Y7 + 4*L4*Y8 + Y1*(4*L1 - 1) in
  let Jy2 := 4*L1*Y5 + 4*L3*Y6 + 4*L4*Y9 + Y2*(4*L2 - 1) in
  let Jy3 := 4*L1*Y7 + 4*L2*Y6 + 4*L4*Y10 + Y3*(4*L3 - 1) in
  let Jy4 := 4*L1*Y8 + 4*L2*Y9 + 4*L3*Y10 + Y4*(4*L4 - 1) in
  let Jz1 := 4*L2*Z5 + 4*L3*Z7 + 4*L4*Z8 + Z1*(4*L1 - 1) in
  let Jz2 := 4*L1*Z5 + 4*L3*Z6 + 4*L4*Z9 + Z2*(4*L2 - 1) in
  let Jz3 := 4*L1*Z7 + 4*L2*Z6 + 4*L4*Z10 + Z3*(4*L3 - 1) in
  let Jz4 := 4*L1*Z8 + 4*L2*Z9 + 4*L3*Z10 + Z4*(4*L4 - 1) in
  let det := -Jx1*Jy2*Jz3 + Jx1*Jy2*Jz4 + Jx1*Jy3*Jz2 - Jx1*Jy3*Jz4 - Jx1*Jy4*Jz2 + Jx1*Jy4*Jz3 + Jx2*Jy1*Jz3 - Jx2*Jy1*Jz4 - Jx2*Jy3*Jz1 + Jx2*Jy3*Jz4 + Jx2*Jy4*Jz1 - Jx2*Jy4*Jz3 - Jx3*Jy1*Jz2 + Jx3*Jy1*Jz4 + Jx3*Jy2*Jz1 - Jx3*Jy2*Jz4 - Jx3*Jy4*Jz1 + Jx3*Jy4*Jz2 + Jx4*Jy1*Jz2 - Jx4*Jy1*Jz3 - Jx4*Jy2*Jz1 + Jx4*Jy2*Jz3 + Jx4*Jy3*Jz1 - Jx4*Jy3*Jz2 in
  let a1 := -Jy2*Jz3 + Jy2*Jz4 + Jy3*Jz2 - Jy3*Jz4 - Jy4*Jz2 + Jy4*Jz3 in
  let a2 := Jy1*Jz3 - Jy1*Jz4 - Jy3*Jz1 + Jy3*Jz4 + Jy4*Jz1 - Jy4*Jz3 in
  let a3 := -Jy1*Jz2 + Jy1*Jz4 + Jy2*Jz1 - Jy2*Jz4 - Jy4*Jz1 + Jy4*Jz2 in
  let a4 := Jy1*Jz2 - Jy1*Jz3 - Jy2*Jz1 + Jy2*Jz3 + Jy3*Jz1 - Jy3*Jz2 in
  let b1 := Jx2*Jz3 - Jx2*Jz4 - Jx3*Jz2 + Jx3*Jz4 + Jx4*Jz2 - Jx4*Jz3 in
  let b2 := -Jx1*Jz3 + Jx1*Jz4 + Jx3*Jz1 - Jx3*Jz4 - Jx4*Jz1 + Jx4*Jz3 in
  let b3 := Jx1*Jz2 - Jx1*Jz4 - Jx2*Jz1 + Jx2*Jz4 + Jx4*Jz1 - Jx4*Jz2 in
  let b4 := -Jx1*Jz2 + Jx1*Jz3 + Jx2*Jz1 - Jx2*Jz3 - Jx3*Jz1 + Jx3*Jz2 in
  let c1 := -Jx2*Jy3 + Jx2*Jy4 + Jx3*Jy2 - Jx3*Jy4 - Jx4*Jy2 + Jx4*Jy3 in
  let c2 := Jx1*Jy3 - Jx1*Jy4 - Jx3*Jy1 + Jx3*Jy4 + Jx4*Jy1 - Jx4*Jy3 in
  let c3 := -Jx1*Jy2 + Jx1*Jy4 + Jx2*Jy1 - Jx2*Jy4 - Jx4*Jy1 + Jx4*Jy2 in
  let c4 := Jx1*Jy2 - Jx1*Jy3 - Jx2*Jy1 + Jx2*Jy3 + Jx3*Jy1 - Jx3*Jy2 in
  inv_det ← one_over det;
  let B0_tilde := inv_det !* [
     [    a1*(4*L1 - 1);     b1*(4*L1 - 1);     c1*(4*L1 - 1)];
     [    a2*(4*L2 - 1);     b2*(4*L2 - 1);     c2*(4*L2 - 1)];
     [    a3*(4*L3 - 1);     b3*(4*L3 - 1);     c3*(4*L3 - 1)];
     [    a4*(4*L4 - 1);     b4*(4*L4 - 1);     c4*(4*L4 - 1)];
     [4*L1*a2 + 4*L2*a1; 4*L1*b2 + 4*L2*b1; 4*L1*c2 + 4*L2*c1];
     [4*L2*a3 + 4*L3*a2; 4*L2*b3 + 4*L3*b2; 4*L2*c3 + 4*L3*c2];
     [4*L1*a3 + 4*L3*a1; 4*L1*b3 + 4*L3*b1; 4*L1*c3 + 4*L3*c1];
     [4*L1*a4 + 4*L4*a1; 4*L1*b4 + 4*L4*b1; 4*L1*c4 + 4*L4*c1];
     [4*L2*a4 + 4*L4*a2; 4*L2*b4 + 4*L4*b2; 4*L2*c4 + 4*L4*c2];
     [4*L3*a4 + 4*L4*a3; 4*L3*b4 + 4*L4*b3; 4*L3*c4 + 4*L4*c3]] in
  Returns (B0_tilde, det).

Definition gauss_point (material : Material) (u_mat : matrix) (n_gauss : nat) (w : R)
  (B0_tilde : matrix) (det : R) (st : Element * gauss_trace) : Element * gauss_trace :=
  let '(self, trace) := st in
  let H := np.T u_mat @@ B0_tilde in
  let F := H +! np.eye 3 in
  let E := (1/2) !* (H +! np.T H +! np.T H @@ H) in
  let '(S', S_v, C_SE) := mat_S_Sv_and_C material E in
  let B0 := compute_B_matrix B0_tilde F in
  let K_geo_small := B0_tilde @@ S' @@ np.T B0_tilde *! det /! 6 in
  let K_geo := scatter_matrix K_geo_small 3 in
  let K_mat := np.T B0 @@ C_SE @@ B0 *! det /! 6 in
  let extrapol := np.column extrapolation_points n_gauss in
  ({| el_material := el_material self;
      el_K := el_K self +! (K_geo +! K_mat) *! w;
      el_f := el_f self +^ np.T B0 @| S_v *^ det /^ 6 *^ w;
      el_S := el_S self +! extrapol @@ [[get S' 0 0; get S' 0 1; get S' 0 2;
                                   get S' 1 1; get S' 1 2; get S' 2 2]];
      el_E := el_E self +! extrapol @@ [[get E 0 0; get E 0 1; get E 0 2;
                                   get E 1 1; get E 1 2; get E 2 2]] |},
   trace ++ [(F, E)]).

Definition _compute_tensors (self : Element) (X u : vector) (t : R)
  : outcome (Element * gauss_trace) :=
  match X with
  | [X1; Y1; Z1; X2; Y2; Z2; X3; Y3; Z3; X4; Y4; Z4; X5; Y5; Z5; X6; Y6; Z6; X7; Y7; Z7; X8; Y8; Z8; X9; Y9; Z9; X10; Y10; Z10] =>
      _ ← require_shape (length u =? 30)%nat;
      let u_mat := np.reshape u 3 in
      material ← attr (el_material self);
      let self := {| el_material := el_material self;
                     el_K := el_K self *! 0;
                     el_f := el_f self *^ 0;
                     el_S := el_S self *! 0;
                     el_E := el_E self *! 0 |} in
      for_enumerate (fun n_gauss '(L1, L2, L3, L4, w) st =>
          '(B0_tilde, det) ← B0_tilde_det
             X1 Y1 Z1 X2 Y2 Z2 X3 Y3 Z3 X4 Y4 Z4 X5 Y5 Z5 X6 Y6 Z6 X7 Y7 Z7 X8 Y8 Z8 X9 Y9 Z9 X10 Y10 Z10 L1 L2 L3 L4;
          Returns (gauss_point material u_mat n_gauss w B0_tilde det st))
        0 gauss_points (self, [])
  | _ => Raises ValueError
  end.

End Tet10.

Module Hexa8.

Definition a : R := sqrt (1/3).

Definition gauss_points : list (R * R * R * R) :=
  [(-a, a, a, 1);
   (a, a, a, 1);
   (-a, -a, a, 1);
   (a, -a, a, 1);
   (-a, a, -a, 1);
   (a, a, -a, 1);
   (-a, -a, -a, 1);
   (a, -a, -a, 1)].

Definition b : R := (-sqrt (3) + 1)^2*(sqrt (3) + 1)/8.
Definition c : R := (-sqrt (3) + 1)^3/8.
Definition d : R := (sqrt (3) + 1)^3/8.
Definition e : R := (sqrt (3) + 1)^2*(-sqrt (3) + 1)/8.

Definition extrapolation_points : matrix :=
  [[b; c; e; b; e; b; d; e];
   [c; b; b; e; b; e; e; d];
   [b; e; c; b; e; d; b; e];
   [e; b; b; c; d; e; e; b];
   [e; b; d; e; b; c; e; b];
   [b; e; e; d; c; b; b; e];
   [e; d; b; e; b; e; c; b];
   [d; e; e; b; e; b; b; c]].

Definition __init__ (material : option Material) : Element :=
  {| el_material := material;
     el_K := np.zeros2 24 24;
     el_f := np.zeros 24;
     el_S := np.zeros2 8 6;
     el_E := np.zeros2 8 6 |}.

Definition B0_tilde_det (X_mat : matrix) (xi eta zeta : R) : outcome (matrix * R) :=
  let dN_dxi := (1/8) !* [
     [ - (- eta+1)*(- zeta+1); - (- xi+1)*(- zeta+1); - (- eta+1)*(- xi+1)];
     [ (- eta+1)*(- zeta+1);  - (xi+1)*(- zeta+1);  - (- eta+1)*(xi+1)];
     [  (eta+1)*(- zeta+1);   (xi+1)*(- zeta+1);   - (eta+1)*(xi+1)];
     [ - (eta+1)*(- zeta+1);  (- xi+1)*(- zeta+1);  - (eta+1)*(- xi+1)];
     [ - (- eta+1)*(zeta+1);  - (- xi+1)*(zeta+1);  (- eta+1)*(- xi+1)];
     [  (- eta+1)*(zeta+1);   - (xi+1)*(zeta+1);   (- eta+1)*(xi+1)];
     [   (eta+1)*(zeta+1);    (xi+1)*(zeta+1);    (eta+1)*(xi+1)];
     [ - (eta+1)*(zeta+1);   (- xi+1)*(zeta+1);   (eta+1)*(- xi+1)]] in
  let dX_dxi := np.T X_mat @@ dN_dxi in
  dxi_dX ← np.linalg_inv dX_dxi;
  let det := np.linalg_det dX_dxi in
  let B0_tilde := dN_dxi @@ dxi_dX in
  Returns (B0_tilde, det).

Definition gauss_point (material : Material) (u_mat : matrix) (n_gauss : nat) (w : R)
  (B0_tilde : matrix) (det : R) (st : Element * gauss_trace) : Element * gauss_trace :=
  let '(self, trace) := st in
  let H := np.T u_mat @@ B0_tilde in
  let F := H +! np.eye 3 in
  let E := (1/2) !* (H +! np.T H +! np.T H @@ H) in
  let '(S', S_v, C_SE) := mat_S_Sv_and_C material E in
  let B0 := compute_B_matrix B0_tilde F in
  let K_geo_small := B0_tilde @@ S' @@ np.T B0_tilde *! det in
  let K_geo := scatter_matrix K_geo_small 3 in
  let K_mat := np.T B0 @@ C_SE @@ B0 *! det in
  let extrapol := np.column extrapolation_points n_gauss in
  ({| el_material := el_material self;
      el_K := el_K self +! (K_geo +! K_mat) *! w;
      el_f := el_f self +^ np.T B0 @| S_v *^ det *^ w;
      el_S := el_S self +! extrapol @@ [[get S' 0 0; get S' 0 1; get S' 0 2;
                                   get S' 1 1; get S' 1 2; get S' 2 2]];
      el_E := el_E self +! extrapol @@ [[get E 0 0; get E 0 1; get E 0 2;
                                   get E 1 1; get E 1 2; get E 2 2]] |},
   trace ++ [(F, E)]).

Definition _compute_tensors (self : Element) (X u : vector) (t : R)
  : outcome (Element * gauss_trace) :=
  _ ← require_shape ((length X =? 24) && (length u =? 24))%nat;
  let X_mat := np.reshape X 3 in
  let u_mat := np.reshape u 3 in
  material ← attr (el_material self);
  let self := {| el_material := el_material self;
                 el_K := el_K self *! 0;
                 el_f := el_f self *^ 0;
                 el_S := el_S self *! 0;
                 el_E := el_E self *! 0 |} in
  for_enumerate (fun n_gauss '(xi, eta, zeta, w) st =>
      '(B0_tilde, det) ← B0_tilde_det X_mat xi eta zeta;
      Returns (gauss_point material u_mat n_gauss w B0_tilde det st))
    0 gauss_points (self, []).

End Hexa8.

Module Hexa20.

Definition a : R := sqrt (3/5).
Definition wa : R := 5/9.
Definition w0 : R := 8/9.

Definition gauss_points : list (R * R * R * R) :=
  [(-a, -a, -a, wa*wa*wa);
   (0, -a, -a, w0*wa*wa);
   (a, -a, -a, wa*wa*wa);
   (-a, 0, -a, wa*w0*wa);
   (0, 0, -a, w0*w0*wa);
   (a, 0, -a, wa*w0*wa);
   (-a, a, -a, wa*wa*wa);
   (0, a, -a, w0*wa*wa);
   (a, a, -a, wa*wa*wa);
   (-a, -a, 0, wa*wa*w0);
   (0, -a, 0, w0*wa*w0);
   (a, -a, 0, wa*wa*w0);
   (-a, 0, 0, wa*w0*w0);
   (0, 0, 0, w0*w0*w0);
   (a, 0, 0, wa*w0*w0);
   (-a, a, 0, wa*wa*w0);
   (0, a, 0, w0*wa*w0);
   (a, a, 0, wa*wa*w0);
   (-a, -a, a, wa*wa*wa);
   (0, -a, a, w0*wa*wa);
   (a, -a, a, wa*wa*wa);
   (-a, 0, a, wa*w0*wa);
   (0, 0, a, w0*w0*wa);
   (a, 0, a, wa*w0*wa);
   (-a, a, a, wa*wa*wa);
   (0, a, a, w0*wa*wa);
   (a, a, a, wa*wa*wa)].

Definition b : R := 13*sqrt (15)/36 + 17/12.
Definition c : R := (4 + sqrt (15))/9.
Definition d : R := (1 + sqrt (15))/36.
Definition e : R := (3 + sqrt (15))/27.
Definition f : R := 1/9.
Definition g : R := (1 - sqrt (15))/36.
Definition h : R := -2/27.
Definition i : R := (3 - sqrt (15))/27.
Definition j : R := -13*sqrt (15)/36 + 17/12.
Definition k : R := (-4 + sqrt (15))/9.
Definition l : R := (3 + sqrt (15))/18.
Definition m : R := sqrt (15)/6 + 2/3.
Definition n : R := 3/18.
Definition p : R := (- 3 + sqrt (15))/18.
Definition q : R := (4 - sqrt (15))/6.

Definition extrapolation_points : matrix :=
  [
   [b;- c;d;- c;e;f;d;f;g;- c;e;f;e;h;i;f;i;k;d;f;g;f;i;k;g;k;j];
   [d;- c;b;f;e;- c;g;f;d;f;e;- c;i;h;e;k;i;f;g;f;d;k;i;f;j;k;g];
   [g;f;d;f;e;- c;d;- c;b;k;i;f;i;h;e;f;e;- c;j;k;g;k;i;f;g;f;d];
   [d;f;g;- c;e;f;b;- c;d;f;i;k;e;h;i;- c;e;f;g;k;j;f;i;k;d;f;g];
   [d;f;g;f;i;k;g;k;j;- c;e;f;e;h;i;f;i;k;b;- c;d;- c;e;f;d;f;g];
   [g;f;d;k;i;f;j;k;g;f;e;- c;i;h;e;k;i;f;d;- c;b;f;e;- c;g;f;d];
   [j;k;g;k;i;f;g;f;d;k;i;f;i;h;e;f;e;- c;g;f;d;f;e;- c;d;- c;b];
   [g;k;j;f;i;k;d;f;g;f;i;k;e;h;i;- c;e;f;d;f;g;- c;e;f;b;- c;d];
   [l;m;l;- l;- l;- l;n;- n;n;- l;- l;- l;f;f;f;p;p;p;n;- n;n;p;p;p;- p;q;- p];
   [n;- l;l;- n;- l;m;n;- l;l;p;f;- l;p;f;- l;p;f;- l;- p;p;n;q;p;- n;- p;p;n];
   [n;- n;n;- l;- l;- l;l;m;l;p;p;p;f;f;f;- l;- l;- l;- p;q;- p;p;p;p;n;- n;n];
   [l;- l;n;m;- l;- n;l;- l;n;- l;f;p;- l;f;p;- l;f;p;n;p;- p;- n;p;q;n;p;- p];
   [n;- n;n;p;p;p;- p;q;- p;- l;- l;- l;f;f;f;p;p;p;l;m;l;- l;- l;- l;n;- n;n];
   [ - p;p;n;q;p;- n;- p;p;n;p;f;- l;p;f;- l;p;f;- l;n;- l;l;- n;- l;m;n;- l;l];
   [ - p;q;- p;p;p;p;n;- n;n;p;p;p;f;f;f;- l;- l;- l;n;- n;n;- l;- l;- l;l;m;l];
   [n;p;- p;- n;p;q;n;p;- p;- l;f;p;- l;f;p;- l;f;p;l;- l;n;m;- l;- n;l;- l;n];
   [l;- l;n;- l;f;p;n;p;- p;m;- l;- n;- l;f;p;- n;p;q;l;- l;n;- l;f;p;n;p;- p];
   [n;- l;l;p;f;- l;- p;p;n;- n;- l;m;p;f;- l;q;p;- n;n;- l;l;p;f;- l;- p;p;n];
   [ - p;p;n;p;f;- l;n;- l;l;q;p;- n;p;f;- l;- n;- l;m;- p;p;n;p;f;- l;n;- l;l];
   [n;p;- p;- l;f;p;l;- l;n;- n;p;q;- l;f;p;m;- l;- n;n;p;- p;- l;f;p;l;- l;n]].

Definition __init__ (material : option Material) : Element :=
  {| el_material := material;
     el_K := np.zeros2 60 60;
     el_f := np.zeros 60;
     el_S := np.zeros2 20 6;
     el_E := np.zeros2 20 6 |}.

Definition B0_tilde_det (X_mat : matrix) (xi eta zeta : R) : outcome (matrix * R) :=
  let dN_dxi := (1/8) !* [
     [ (eta-1)*(zeta-1)*(eta+2*xi+zeta+1);
     (xi-1)*(zeta-1)*(2*eta+xi+zeta+1);
     (eta-1)*(xi-1)*(eta+xi+2*zeta+1)];
     [(eta-1)*(zeta-1)*(- eta+2*xi-zeta-1);
     (xi+1)*(zeta-1)*(- 2*eta+xi-zeta-1);
     (eta-1)*(xi+1)*(- eta+xi-2*zeta-1)];
     [(eta+1)*(zeta-1)*(- eta-2*xi+zeta+1);
     (xi+1)*(zeta-1)*(- 2*eta-xi+zeta+1);
     (eta+1)*(xi+1)*(- eta-xi+2*zeta+1)];
     [ (eta+1)*(zeta-1)*(eta-2*xi-zeta-1);
     (xi-1)*(zeta-1)*(2*eta-xi-zeta-1);
     (eta+1)*(xi-1)*(eta-xi-2*zeta-1)];
     [(eta-1)*(zeta+1)*(- eta-2*xi+zeta-1);
     (xi-1)*(zeta+1)*(- 2*eta-xi+zeta-1);
     (eta-1)*(xi-1)*(- eta-xi+2*zeta-1)];
     [ (eta-1)*(zeta+1)*(eta-2*xi-zeta+1);
     (xi+1)*(zeta+1)*(2*eta-xi-zeta+1);
     (eta-1)*(xi+1)*(eta-xi-2*zeta+1)];
     [ (eta+1)*(zeta+1)*(eta+2*xi+zeta-1);
     (xi+1)*(zeta+1)*(2*eta+xi+zeta-1);
     (eta+1)*(xi+1)*(eta+xi+2*zeta-1)];
     [(eta+1)*(zeta+1)*(- eta+2*xi-zeta+1);
     (xi-1)*(zeta+1)*(- 2*eta+xi-zeta+1);
     (eta+1)*(xi-1)*(- eta+xi-2*zeta+1)];
     [ - 4*xi*(eta-1)*(zeta-1); - 2*(xi^2-1)*(zeta-1);
     - 2*(eta-1)*(xi^2-1)];
     [ 2*(eta^2-1)*(zeta-1); 4*eta*(xi+1)*(zeta-1);
     2*(eta^2-1)*(xi+1)];
     [ 4*xi*(eta+1)*(zeta-1);  2*(xi^2-1)*(zeta-1);
     2*(eta+1)*(xi^2-1)];
     [ - 2*(eta^2-1)*(zeta-1);- 4*eta*(xi-1)*(zeta-1);
     - 2*(eta^2-1)*(xi-1)];
     [ 4*xi*(eta-1)*(zeta+1);  2*(xi^2-1)*(zeta+1);
     2*(eta-1)*(xi^2-1)];
     [ - 2*(eta^2-1)*(zeta+1);- 4*eta*(xi+1)*(zeta+1);
     - 2*(eta^2-1)*(xi+1)];
     [ - 4*xi*(eta+1)*(zeta+1); - 2*(xi^2-1)*(zeta+1);
     - 2*(eta+1)*(xi^2-1)];
     [ 2*(eta^2-1)*(zeta+1); 4*eta*(xi-1)*(zeta+1);
     2*(eta^2-1)*(xi-1)];
     [ - 2*(eta-1)*(zeta^2-1); - 2*(xi-1)*(zeta^2-1);
     - 4*zeta*(eta-1)*(xi-1)];
     [ 2*(eta-1)*(zeta^2-1);  2*(xi+1)*(zeta^2-1);
     4*zeta*(eta-1)*(xi+1)];
     [ - 2*(eta+1)*(zeta^2-1); - 2*(xi+1)*(zeta^2-1);
     - 4*zeta*(eta+1)*(xi+1)];
     [ 2*(eta+1)*(zeta^2-1);  2*(xi-1)*(zeta^2-1);
     4*zeta*(eta+1)*(xi-1)]] in
  let dX_dxi := np.T X_mat @@ dN_dxi in
  dxi_dX ← np.linalg_inv dX_dxi;
  let det := np.linalg_det dX_dxi in
  let B0_tilde := dN_dxi @@ dxi_dX in
  Returns (B0_tilde, det).

Definition gauss_point (material : Material) (u_mat : matrix) (n_gauss : nat) (w : R)
  (B0_tilde : matrix) (det : R) (st : Element * gauss_trace) : Element * gauss_trace :=
  let '(self, trace) := st in
  let H := np.T u_mat @@ B0_tilde in
  let F := H +! np.eye 3 in
  let E := (1/2) !* (H +! np.T H +! np.T H @@ H) in
  let '(S', S_v, C_SE) := mat_S_Sv_and_C material E in
  let B0 := compute_B_matrix B0_tilde F in
  let K_geo_small := B0_tilde @@ S' @@ np.T B0_tilde *! det in
  let K_geo := scatter_matrix K_geo_small 3 in
  let K_mat := np.T B0 @@ C_SE @@ B0 *! det in
  let extrapol := np.column extrapolation_points n_gauss in
  ({| el_material := el_material self;
      el_K := el_K self +! (K_geo +! K_mat) *! w;
      el_f := el_f self +^ np.T B0 @| S_v *^ det *^ w;
      el_S := el_S self +! extrapol @@ [[get S' 0 0; get S' 0 1; get S' 0 2;
                                   get S' 1 1; get S' 1 2; get S' 2 2]];
      el_E := el_E self +! extrapol @@ [[get E 0 0; get E 0 1; get E 0 2;
                                   get E 1 1; get E 1 2; get E 2 2]] |},
   trace ++ [(F, E)]).

Definition _compute_tensors (self : Element) (X u : vector) (t : R)
  : outcome (Element * gauss_trace) :=
  _ ← require_shape ((length X =? 60) && (length u =? 60))%nat;
  let X_mat := np.reshape X 3 in
  let u_mat := np.reshape u 3 in
  material ← attr (el_material self);
  let self := {| el_material := el_material self;
                 el_K := el_K self *! 0;
                 el_f := el_f self *^ 0;
                 el_S := el_S self *! 0;
                 el_E := el_E self *! 0 |} in
  for_enumerate (fun n_gauss '(xi, eta, zeta, w) st =>
      '(B0_tilde, det) ← B0_tilde_det X_mat xi eta zeta;
      Returns (gauss_point material u_mat n_gauss w B0_tilde det st))
    0 gauss_points (self, []).

End Hexa20.

Module Prism6.

Definition __init__ (material : option Material) : Element :=
  {| el_material := material;
     el_K := np.zeros2 18 18;
     el_f := np.zeros 18;
     el_S := np.zeros2 6 6;
     el_E := np.zeros2 6 6 |}.

(** Prints a warning and returns: the buffers are left as they are. *)
Definition _compute_tensors (self : Element) (X u : vector) (t : R)
  : outcome (Element * gauss_trace) :=
  Returns (self, []).

End Prism6.

(** ** The [Element] base class: dispatch and accessors *)

Definition _compute_tensors (cls : ElementClass) (self : Element) (X u : vector) (t : R)
  : outcome (Element * gauss_trace) :=
  match cls with
  | Tri3 => Tri3._compute_tensors self X u t
  | Tri6 => Tri6._compute_tensors self X u t
  | Quad4 => Quad4._compute_tensors self X u t
  | Quad8 => Quad8._compute_tensors self X u t
  | Tet4 => Tet4._compute_tensors self X u t
  | Tet10 => Tet10._compute_tensors self X u t
  | Hexa8 => Hexa8._compute_tensors self X u t
  | Hexa20 => Hexa20._compute_tensors self X u t
  end.

Definition __init__ (cls : ElementClass) (material : option Material) : Element :=
  match cls with
  | Tri3 => Tri3.__init__ material
  | Tri6 => Tri6.__init__ material
  | Quad4 => Quad4.__init__ material
  | Quad8 => Quad8.__init__ material
  | Tet4 => Tet4.__init__ material
  | Tet10 => Tet10.__init__ material
  | Hexa8 => Hexa8.__init__ material
  | Hexa20 => Hexa20.__init__ material
  end.

(** Each accessor returns the updated element next to the value the Python
    method returns. *)
Definition k_and_f_int (cls : ElementClass) (self : Element) (X u : vector) (t : R)
  : outcome (Element * (matrix * vector)) :=
  '(self, _) ← _compute_tensors cls self X u t;
  Returns (self, (el_K self, el_f self)).

Definition k_int (cls : ElementClass) (self : Element) (X u : vector) (t : R)
  : outcome (Element * matrix) :=
  '(self, _) ← _compute_tensors cls self X u t;
  Returns (self, el_K self).

Definition f_int (cls : ElementClass) (self : Element) (X u : vector) (t : R)
  : outcome (Element * vector) :=
  '(self, _) ← _compute_tensors cls self X u t;
  Returns (self, el_f self).

Definition k_f_S_E_int (cls : ElementClass) (self : Element) (X u : vector) (t : R)
  : outcome (Element * (matrix * vector * matrix * matrix)) :=
  '(self, _) ← _compute_tensors cls self X u t;
  Returns (self, (el_K self, el_f self, el_S self, el_E self)).

(** Spatial dimension, number of nodes and number of degrees of freedom. *)
Definition no_of_dims (cls : ElementClass) : nat :=
  match cls with
  | Tri3 | Tri6 | Quad4 | Quad8 => 2
  | Tet4 | Tet10 | Hexa8 | Hexa20 => 3
  end.

Definition no_of_nodes (cls : ElementClass) : nat :=
  match cls with
  | Tri3 => 3 | Tri6 => 6 | Quad4 => 4 | Quad8 => 8
  | Tet4 => 4 | Tet10 => 10 | Hexa8 => 8 | Hexa20 => 20
  end.

Definition no_of_dofs (cls : ElementClass) : nat := (no_of_nodes cls * no_of_dims cls)%nat.

(** ** Bar2Dlumped *)

Module Bar2Dlumped.

(** The attributes of a bar element.  [e_modul], [crosssec] and [rho] do
    not exist until [foo] assigns them ([None] here); [S] and [E] keep the
    [None] of [Element.__init__] and are not modelled. *)
Record t : Type := {
  material : option Material;
  K : matrix;
  M : matrix;
  f : vector;
  e_modul : option R;
  crosssec : option R;
  rho : option R
}.

Definition __init__ (material : option Material) : t :=
  {| material := material;
     K := np.zeros2 4 4;
     M := np.zeros2 4 4;
     f := np.zeros 4;
     e_modul := None;
     crosssec := None;
     rho := None |}.

Definition foo (self : t) : outcome t :=
  m ← attr (material self);
  Returns {| material := material self; K := K self; M := M self; f := f self;
             e_modul := Some (mat_E m);
             crosssec := Some (mat_crossec m);
             rho := Some (mat_rho m) |}.

(** [x / l]; a zero length has no quotient in exact arithmetic (numpy
    yields an infinity), recorded as raising. *)
Definition divide (x l : R) : outcome R :=
  if Req_EM_T l 0 then Raises ZeroDivisionError else Returns (x / l).

Definition _k_and_m_int (self : t) (X u : vector) (tm : R)
  : outcome (t * (matrix * matrix)) :=
  _ ← require_shape (Nat.even (length X));
  let X_mat := np.reshape X 2 in
  _ ← (if (2 <=? np.shape0 X_mat)%nat then Returns tt else Raises IndexError);
  let l := np.linalg_norm (nth 1 X_mat [] -^ nth 0 X_mat []) in
  (* Element stiffnes matrix *)
  e_modul ← attr (e_modul self);
  crosssec ← attr (crosssec self);
  c ← divide (e_modul*crosssec) l;
  let k_el_loc := c !* [[1; -1];
                        [-1; 1]] in
  let temp := (nth 1 X_mat [] -^ nth 0 X_mat []) /^ l in
  let A := [[vget temp 0; vget temp 1; 0;           0];
            [0;           0;           vget temp 0; vget temp 1]] in
  let k_el := np.T A @@ (k_el_loc @@ A) in
  (* Element mass matrix *)
  rho ← attr (rho self);
  let m_el := (rho*crosssec*l/6) !* [[3; 0; 0; 0];
                                     [0; 3; 0; 0];
                                     [0; 0; 3; 0];
                                     [0; 0; 0; 3]] in
  (* Make symmetric (because of round-off errors) *)
  let K' := (1/2) !* (k_el +! np.T k_el) in
  let M' := (1/2) !* (m_el +! np.T m_el) in
  Returns ({| material := material self; K := K'; M := M'; f := f self;
              e_modul := Bar2Dlumped.e_modul self;
              crosssec := Bar2Dlumped.crosssec self;
              rho := Bar2Dlumped.rho self |}, (K', M')).

Definition _compute_tensors (self : t) (X u : vector) (tm : R) : outcome t :=
  '(self, _) ← _k_and_m_int self X u tm;
  Returns self.

Definition _k_int (self : t) (X u : vector) (tm : R) : outcome (t * matrix) :=
  '(self, (k_el, m_el)) ← _k_and_m_int self X u tm;
  Returns (self, k_el).

Definition _m_int (self : t) (X u : vector) (tm : R) : outcome (t * matrix) :=
  '(self, (k_el, m_el)) ← _k_and_m_int self X u tm;
  Returns (self, m_el).

(** The accessors inherited from [Element]. *)
Definition k_and_f_int (self : t) (X u : vector) (tm : R) : outcome (t * (matrix * vector)) :=
  self ← _compute_tensors self X u tm;
  Returns (self, (K self, f self)).

Definition k_int (self : t) (X u : vector) (tm : R) : outcome (t * matrix) :=
  self ← _compute_tensors self X u tm;
  Returns (self, K self).

Definition f_int (self : t) (X u : vector) (tm : R) : outcome (t * vector) :=
  self ← _compute_tensors self X u tm;
  Returns (self, f self).

Definition m_int (self : t) (X u : vector) (tm : R) : outcome (t * matrix) :=
  _m_int self X u tm.

(** A client's calls on one bar element.  A call that raises leaves the
    element as it was: [_k_and_m_int] assigns [self.K] and [self.M] after
    its last read. *)
Inductive call : Type :=
| Call_foo
| Call_k_and_f_int (X u : vector) (tm : R)
| Call_k_int (X u : vector) (tm : R)
| Call_f_int (X u : vector) (tm : R)
| Call_m_int (X u : vector) (tm : R).

Inductive value : Type :=
| V_None
| V_matrix (A : matrix)
| V_vector (v : vector)
| V_pair (A : matrix) (v : vector).

Definition is_evaluation (c : call) : bool :=
  match c with Call_foo => false | _ => true end.

Definition perform (self : t) (c : call) : t * outcome value :=
  let result :=
    match c with
    | Call_foo => self ← foo self; Returns (self, V_None)
    | Call_k_and_f_int X u tm =>
        '(self, (k, f)) ← k_and_f_int self X u tm; Returns (self, V_pair k f)
    | Call_k_int X u tm => '(self, k) ← k_int self X u tm; Returns (self, V_matrix k)
    | Call_f_int X u tm => '(self, f) ← f_int self X u tm; Returns (self, V_vector f)
    | Call_m_int X u tm => '(self, m) ← m_int self X u tm; Returns (self, V_matrix m)
    end in
  match result with
  | Returns (self', v) => (self', Returns v)
  | Raises e => (self, Raises e)
  | OutOfFuel => (self, OutOfFuel)
  end.

(** The outcomes of a sequence of calls, in order, and the final element. *)
Fixpoint run (self : t) (cs : list call) : t * list (outcome value) :=
  match cs with
  | [] => (self, [])
  | c :: cs' =>
      let '(self', o) := perform self c in
      let '(self'', os) := run self' cs' in
      (self'', o :: os)
  end.

End Bar2Dlumped.

(** ** Boundary elements *)

(** [x / y].  Where numpy would produce an infinity or a NaN (a zero
    divisor), exact arithmetic has no value: the evaluation is recorded as
    raising. *)
Definition divide (x y : R) : outcome R :=
  if Req_EM_T y 0 then Raises ZeroDivisionError else Returns (x / y).

Definition f_proj_a (f_mat : matrix) (direction : vector) : outcome vector :=
  let n_nodes := np.shape0 f_mat in
  let dofs_per_node := np.shape1 f_mat in
  let f_out := np.zeros (n_nodes * dofs_per_node) in
  for_enumerate (fun i f_vec f_out =>
      s ← np.inner f_vec f_vec;
      np.set_slice f_out (i*dofs_per_node) ((i+1)*dofs_per_node)
        (direction *^ sqrt s))
    0 f_mat f_out.

Definition f_proj_a_shadow (f_mat : matrix) (direction : vector) : outcome vector :=
  let n_nodes := np.shape0 f_mat in
  let dofs_per_node := np.shape1 f_mat in
  let f_out := np.zeros (n_nodes * dofs_per_node) in
  for_enumerate (fun i f_vec f_out =>
      (* by Christian Meyer: I think this has to be divided by || direction ||
         because of projection *)
      s ← np.inner direction f_vec;
      q ← divide s (np.linalg_norm direction);
      np.set_slice f_out (i * dofs_per_node) ((i + 1) * dofs_per_node)
        (direction *^ q))
    0 f_mat f_out.

(** The [direct] argument: the keyword 'normal' or a direction vector. *)
Inductive Direct : Type :=
| Normal
| Direction (direct : vector).

(** The attributes of a boundary element.  [f_proj] is kept as the two
    arguments that select it, [direct] and [shadow_area]. *)
Record BoundaryElement : Type := {
  b_val : R;
  b_f : vector;
  b_K : matrix;
  b_M : matrix;
  b_direct : Direct;
  b_shadow_area : bool;
  b_time_func : R -> R
}.

Module BoundaryElement.

Definition __init__ (val : R) (ndof : nat) (direct : Direct)
  (time_func : option (R -> R)) (shadow_area : bool) : BoundaryElement :=
  {| b_val := val;
     b_f := np.zeros ndof;
     b_K := np.zeros2 ndof ndof;
     b_M := np.zeros2 ndof ndof;
     b_direct := direct;
     b_shadow_area := shadow_area;
     b_time_func := match time_func with
                    | None => fun t => 1
                    | Some time_func => time_func
                    end |}.

(** The function [__init__] selects for [self.f_proj]. *)
Definition f_proj (self : BoundaryElement) (f_mat : matrix) : outcome vector :=
  match b_direct self with
  | Normal => Returns (np.flatten f_mat)
  | Direction direct =>
      if b_shadow_area self then f_proj_a_shadow f_mat direct
      else f_proj_a f_mat direct
  end.

Definition set_f (self : BoundaryElement) (f : vector) : BoundaryElement :=
  {| b_val := b_val self; b_f := f; b_K := b_K self; b_M := b_M self;
     b_direct := b_direct self; b_shadow_area := b_shadow_area self;
     b_time_func := b_time_func self |}.

Definition _m_int (self : BoundaryElement) (X u : vector) (t : R) : matrix := b_M self.

(** The accessors inherited from [Element], over a class's [_compute_tensors]. *)
Definition k_and_f_int
  (_compute_tensors : BoundaryElement -> vector -> vector -> R -> outcome BoundaryElement)
  (self : BoundaryElement) (X u : vector) (t : R)
  : outcome (BoundaryElement * (matrix * vector)) :=
  self ← _compute_tensors self X u t;
  Returns (self, (b_K self, b_f self)).

End BoundaryElement.

Module Tri3Boundary.

Definition __init__ (val : R) (direct : Direct) (time_func : option (R -> R))
  (shadow_area : bool) : BoundaryElement :=
  BoundaryElement.__init__ val 9 direct time_func shadow_area.

Definition _compute_tensors (self : BoundaryElement) (X u : vector) (t : R)
  : outcome BoundaryElement :=
  x ← np.vadd_b X u;
  _ ← require_shape (length x mod 3 =? 0)%nat;
  let x_vec := np.T (np.reshape x 3) in
  c2 ← np.col x_vec 2;
  c0 ← np.col x_vec 0;
  let v1 := c2 -^ c0 in
  c1 ← np.col x_vec 1;
  let v2 := c1 -^ c0 in
  let n := np.cross v1 v2 /^ 2 in
  let N := [1/3; 1/3; 1/3] in
  let f_mat := np.outer N n in
  (* positive sign as it is external force on the right hand side of the
     function *)
  f ← BoundaryElement.f_proj self f_mat;
  Returns (BoundaryElement.set_f self (f *^ b_val self *^ b_time_func self t)).

End Tri3Boundary.

Module Tri6Boundary.

(** Gauss-Points like ABAQUS or ANSYS *)
Definition gauss_points : list (R * R * R * R) :=
  [(1/6, 1/6, 2/3, 1/3);
   (1/6, 2/3, 1/6, 1/3);
   (2/3, 1/6, 1/6, 1/3)].

Definition __init__ (val : R) (direct : Direct) (time_func : option (R -> R))
  (shadow_area : bool) : BoundaryElement :=
  BoundaryElement.__init__ val 18 direct time_func shadow_area.

(** The body of the loop over the Gauss points; [x_vec.T @ dN_dL] needs six
    rows in [x_vec]. *)
Definition gauss_point (x_vec : matrix) (gp : R * R * R * R) (f_mat : matrix)
  : outcome matrix :=
  let '(L1, L2, L3, w) := gp in
  let N := [L1*(2*L1 - 1); L2*(2*L2 - 1); L3*(2*L3 - 1);
            4*L1*L2; 4*L2*L3; 4*L1*L3] in
  let dN_dL := [[4*L1 - 1;        0;        0];
                [       0; 4*L2 - 1;        0];
                [       0;        0; 4*L3 - 1];
                [    4*L2;     4*L1;        0];
                [       0;     4*L3;     4*L2];
                [    4*L3;        0;     4*L1]] in
  _ ← require_shape (np.shape0 x_vec =? 6)%nat;
  let dx_dL := np.T x_vec @@ dN_dL in
  c2 ← np.col dx_dL 2;
  c0 ← np.col dx_dL 0;
  let v1 := c2 -^ c0 in
  c1 ← np.col dx_dL 1;
  let v2 := c1 -^ c0 in
  let n := np.cross v1 v2 in
  Returns (f_mat +! np.outer N n /! 2 *! w).

Definition _compute_tensors (self : BoundaryElement) (X u : vector) (t : R)
  : outcome BoundaryElement :=
  let f_mat := np.zeros2 6 3 in
  x ← np.vadd_b X u;
  _ ← require_shape (length x mod 3 =? 0)%nat;
  let x_vec := np.reshape x 3 in
  (* gauss point evaluation of full pressure field *)
  f_mat ← for_enumerate (fun _ gp f_mat => gauss_point x_vec gp f_mat)
             0 gauss_points f_mat;
  (* no minus sign as force will be on the right hand side of eqn. *)
  f ← BoundaryElement.f_proj self f_mat;
  Returns (BoundaryElement.set_f self (f *^ b_val self *^ b_time_func self t)).

End Tri6Boundary.

Module Quad4Boundary.

Definition g1 : R := 1 / sqrt 3.

Definition gauss_points : list (R * R * R) :=
  [(-g1, -g1, 1);
   ( g1, -g1, 1);
   ( g1,  g1, 1);
   (-g1,  g1, 1)].

Definition __init__ (val : R) (direct : Direct) (time_func : option (R -> R))
  (shadow_area : bool) : BoundaryElement :=
  BoundaryElement.__init__ val 12 direct time_func shadow_area.

(** The body of the loop over the Gauss points ([np.outer] flattens the
    column [N]). *)
Definition gauss_point (x_vec : matrix) (gp : R * R * R) (f_mat : matrix)
  : outcome matrix :=
  let '(xi, eta, w) := gp in
  let N := [[(-eta + 1)*(-xi + 1)/4];
            [ (-eta + 1)*(xi + 1)/4];
            [  (eta + 1)*(xi + 1)/4];
            [ (eta + 1)*(-xi + 1)/4]] in
  let dN_dxi := [[ eta/4 - 1/4;  xi/4 - 1/4];
                 [-eta/4 + 1/4; -xi/4 - 1/4];
                 [ eta/4 + 1/4;  xi/4 + 1/4];
                 [-eta/4 - 1/4; -xi/4 + 1/4]] in
  let dx_dxi := np.T x_vec @@ dN_dxi in
  c1 ← np.col dx_dxi 1;
  c0 ← np.col dx_dxi 0;
  let n := np.cross c1 c0 in
  Returns (f_mat +! np.outer (np.flatten N) n *! w).

Definition _compute_tensors (self : BoundaryElement) (X u : vector) (t : R)
  : outcome BoundaryElement :=
  let f_mat := np.zeros2 4 3 in
  x ← np.vadd_b X u;
  (* reshape((4, 3)) *)
  _ ← require_shape (length x =? 12)%nat;
  let x_vec := np.reshape x 3 in
  (* gauss point evaluation of full pressure field *)
  f_mat ← for_enumerate (fun _ gp f_mat => gauss_point x_vec gp f_mat)
             0 gauss_points f_mat;
  (* no minus sign as force will be on the right hand side of eqn. *)
  f ← BoundaryElement.f_proj self f_mat;
  Returns (BoundaryElement.set_f self (f *^ b_val self *^ b_time_func self t)).

End Quad4Boundary.

Module LineLinearBoundary.

Definition rot_mat : matrix := [[0; 1]; [-1; 0]].
(** weighting for the two nodes *)
Definition N : vector := [1/2; 1/2].

Definition __init__ (val : R) (direct : Direct) (time_func : option (R -> R))
  (shadow_area : bool) : BoundaryElement :=
  BoundaryElement.__init__ val 4 direct time_func shadow_area.

Definition _compute_tensors (self : BoundaryElement) (X u : vector) (t : R)
  : outcome BoundaryElement :=
  x ← np.vadd_b X u;
  _ ← require_shape (length x mod 2 =? 0)%nat;
  let x_vec := np.T (np.reshape x 2) in
  (* Connection line between two nodes of the element *)
  c1 ← np.col x_vec 1;
  c0 ← np.col x_vec 0;
  let v := c1 -^ c0 in
  (* Generate the orthogonal vector to connection line by rotation 90deg *)
  let n := rot_mat @| v in
  let f_mat := np.outer N n in
  f ← BoundaryElement.f_proj self f_mat;
  Returns (BoundaryElement.set_f self (f *^ b_val self *^ b_time_func self t)).

End LineLinearBoundary.

Module LineQuadraticBoundary.

Definition rot_mat : matrix := [[0; 1]; [-1; 0]].
Definition N : vector := [1; 1; 4] /^ 6.

Definition __init__ (val : R) (direct : Direct) (time_func : option (R -> R))
  (shadow_area : bool) : BoundaryElement :=
  BoundaryElement.__init__ val 6 direct time_func shadow_area.

Definition _compute_tensors (self : BoundaryElement) (X u : vector) (t : R)
  : outcome BoundaryElement :=
  x ← np.vadd_b X u;
  _ ← require_shape (length x mod 2 =? 0)%nat;
  let x_vec := np.T (np.reshape x 2) in
  c1 ← np.col x_vec 1;
  c0 ← np.col x_vec 0;
  let v := c1 -^ c0 in
  let n := rot_mat @| v in
  let f_mat := np.outer N n in
  f ← BoundaryElement.f_proj self f_mat;
  Returns (BoundaryElement.set_f self (f *^ b_val self *^ b_time_func self t)).

End LineQuadraticBoundary.

(** * amfe/hyper_red/ecsw.py *)

(** ** sparse_nnls *)

(** The inner [while True] loop.  It returns [xi], [zeta] and [active_set]
    as they are at the [break]. *)
Fixpoint sparse_nnls_inner (fuel : nat) (G : matrix) (b xi zeta : vector)
  (active_set : list bool) : outcome (vector * vector * list bool) :=
  match fuel with
  | O => OutOfFuel
  | S fuel' =>
      (* Trial vector zeta is solved for the sparse solution *)
      let zeta := np.mask_fill zeta (np.invert active_set) 0 in
      let G_red := np.take_cols G active_set in
      sol ← sp.linalg_solve (np.T G_red @@ G_red) (np.T G_red @| b);
      zeta ← np.mask_assign zeta active_set sol;
      (* check, if gathered solution is full positive *)
      zmin ← np.min (np.select zeta active_set);
      if Rge_dec zmin 0 then
        Returns (zeta, zeta, active_set)
      else
        (* remove the negative elements from the active set *)
        let mask := np.logical_and (np.le_zero zeta) active_set in
        let ratios := np.vdiv (np.select xi mask) (np.select xi mask -^ np.select zeta mask) in
        ele_const ← np.argmin ratios;
        const_idx ← attr_index (np.where_mask mask) ele_const;
        alpha ← np.min ratios;
        let xi := xi +^ np.s_vmul alpha (zeta -^ xi) in
        let active_set := <[ const_idx := false ]> active_set in
        sparse_nnls_inner fuel' G b xi zeta active_set
  end.

Record nnls_state : Type := {
  st_xi : vector;
  st_zeta : vector;
  st_active_set : list bool;
  st_r : vector;
  st_stats : list (nat * R)
}.

(** The outer [while] loop; [fuel] bounds the iterations of either loop. *)
Fixpoint sparse_nnls_outer (fuel : nat) (G : matrix) (b : vector) (tau norm_b : R)
  (conv_stats : bool) (st : nnls_state) : outcome nnls_state :=
  match fuel with
  | O => OutOfFuel
  | S fuel' =>
      if Rgt_dec (np.linalg_norm (st_r st)) (tau * norm_b) then
        let mu := np.T G @| st_r st in
        idx ← np.argmax mu;
        _ ← (if (idx <? length (st_active_set st))%nat then Returns tt
             else Raises IndexError);
        let active_set := <[ idx := true ]> (st_active_set st) in
        '(xi, zeta, active_set) ←
           sparse_nnls_inner fuel' G b (st_xi st) (st_zeta st) active_set;
        let r := b -^ np.take_cols G active_set @| np.select xi active_set in
        let stats :=
          if conv_stats
          then st_stats st ++ [(length (np.nonzero xi), np.linalg_norm r)]
          else st_stats st in
        sparse_nnls_outer fuel' G b tau norm_b conv_stats
          {| st_xi := xi; st_zeta := zeta; st_active_set := active_set;
             st_r := r; st_stats := stats |}
      else Returns st
  end.

(** The state at the exit of the outer loop. *)
Definition sparse_nnls_loop (fuel : nat) (G : matrix) (b : vector) (tau : R)
  (conv_stats : bool) : outcome nnls_state :=
  let no_of_elements := np.shape1 G in
  let norm_b := np.linalg_norm b in
  let r := b in
  let xi := np.zeros no_of_elements in
  let zeta := np.zeros no_of_elements in
  let active_set := repeat false no_of_elements in
  let stats := [] in
  sparse_nnls_outer fuel G b tau norm_b conv_stats
    {| st_xi := xi; st_zeta := zeta; st_active_set := active_set;
       st_r := r; st_stats := stats |}.

Definition sparse_nnls (fuel : nat) (G : matrix) (b : vector) (tau : R)
  (conv_stats : bool) : outcome (list nat * vector * list (nat * R)) :=
  st ← sparse_nnls_loop fuel G b tau conv_stats;
  let indices := np.nonzero (st_xi st) in
  let xi_red := np.select (st_xi st) (st_active_set st) in
  Returns (indices, xi_red, st_stats st).

(** ** Mechanical systems *)

(** Modelled from the spec: [amfe/assembly.py], [amfe/mechanical_system.py],
    the Dirichlet class and the mesh class are not among the sources.
    Sections 4.4 and 4.5 of the specification name the operations the
    hyper-reduction module calls on them; they are taken as they are
    called, with unspecified results. *)
Record Assembly : Type := {
  assemble_k_and_f_hyper :
    matrix -> option (list nat) -> option vector -> vector -> R -> outcome (matrix * vector);
  assemble_k_and_f_hyper_no_inplace :
    matrix -> option (list nat) -> option vector -> vector -> R -> outcome (matrix * vector);
  assemble_g_and_b : matrix -> matrix -> bool -> outcome (matrix * vector)
}.

Record Dirichlet : Type := {
  unconstrain_vec : matrix -> matrix
}.

Record Mesh : Type := {
  no_of_elements : nat
}.

Inductive SystemClass : Type :=
| MechanicalSystem
| ReducedSystem
| ECSWSystem.

(** A system object: its class, the attributes the hyper-reduction module
    reads or writes ([None] for an attribute that is unset or holds
    Python's [None]), and its remaining array attributes by name. *)
Record System : Type := {
  sys_class : SystemClass;
  sys_mesh_class : Mesh;
  sys_assembly_class : Assembly;
  sys_dirichlet_class : Dirichlet;
  sys_V : option matrix;
  sys_V_unconstr : option matrix;
  sys_weights : option vector;
  sys_weight_idx : option (list nat);
  sys_u_red_output : option (list vector);
  sys_M_constr : option matrix;
  sys_D_constr : option matrix;
  sys_assembly_type : option string;
  sys_other : gmap string matrix
}.

(** Objects live in a store; a variable holds a reference. *)
Abbreviation ref := nat (only parsing).
Abbreviation store := (gmap nat System).

Definition deepcopy (h : store) (l : ref) : outcome (store * ref) :=
  obj ← attr (h !! l);
  let l' := fresh (dom h) in
  Returns (<[ l' := obj ]> h, l').

Module ECSWSystem.

Definition set_weights (self : System) (weight_idx : list nat) (weights : vector) : System :=
  {| sys_class := sys_class self;
     sys_mesh_class := sys_mesh_class self;
     sys_assembly_class := sys_assembly_class self;
     sys_dirichlet_class := sys_dirichlet_class self;
     sys_V := sys_V self;
     sys_V_unconstr := sys_V_unconstr self;
     sys_weights := Some weights;
     sys_weight_idx := Some weight_idx;
     sys_u_red_output := sys_u_red_output self;
     sys_M_constr := sys_M_constr self;
     sys_D_constr := sys_D_constr self;
     sys_assembly_type := sys_assembly_type self;
     sys_other := sys_other self |}.

Definition reduce_mesh (fuel : nat) (self : System) (W_red : matrix) (tau : R)
  (verbose : bool) : outcome (System * (list nat * vector * list (nat * R))) :=
  (* [self.V_unconstr @ W_red]: numpy raises [ValueError] for a
     [V_unconstr] of [None] and for a [W_red] that has not as many rows as
     [V_unconstr] has columns *)
  V_unconstr ← match sys_V_unconstr self with
               | Some V_unconstr => Returns V_unconstr
               | None => Raises ValueError
               end;
  _ ← require_shape (np.shape1 V_unconstr =? np.shape0 W_red)%nat;
  let W_unconstr := V_unconstr @@ W_red in
  '(G, b) ← assemble_g_and_b (sys_assembly_class self) V_unconstr W_unconstr verbose;
  '(xi_indices, xi, stats) ← sparse_nnls fuel G b tau verbose;
  Returns (set_weights self xi_indices xi, (xi_indices, xi, stats)).

(** [if u is None: u = np.zeros(self.V.shape[1])] *)
Definition default_u (self : System) (u : option vector) : outcome vector :=
  match u with
  | None => V ← attr (sys_V self); Returns (np.zeros (np.shape1 V))
  | Some u => Returns u
  end.

(** The [if]/[elif]/[else] on [self.assembly_type], shared by the three
    accessors. *)
Definition dispatch (self : System) (u : vector) (t : R) : outcome (matrix * vector) :=
  assembly_type ← attr (sys_assembly_type self);
  if decide (assembly_type = "direct") then
    V_unconstr ← attr (sys_V_unconstr self);
    assemble_k_and_f_hyper (sys_assembly_class self)
      V_unconstr (sys_weight_idx self) (sys_weights self) u t
  else if decide (assembly_type = "indirect") then
    V_unconstr ← attr (sys_V_unconstr self);
    assemble_k_and_f_hyper_no_inplace (sys_assembly_class self)
      V_unconstr (sys_weight_idx self) (sys_weights self) u t
  else Raises ValueError.

Definition K_and_f (self : System) (u : option vector) (t : R) : outcome (matrix * vector) :=
  u ← default_u self u;
  '(K, f_int) ← dispatch self u t;
  Returns (K, f_int).

Definition K (self : System) (u : option vector) (t : R) : outcome matrix :=
  u ← default_u self u;
  '(K, f_int) ← dispatch self u t;
  Returns K.

Definition f_int (self : System) (u : option vector) (t : R) : outcome vector :=
  u ← default_u self u;
  '(K, f_int) ← dispatch self u t;
  Returns f_int.

(** Exported fields: an array and its metadata dictionary. *)
Inductive h5value : Type :=
| H5_bool (b : bool)
| H5_str (s : string)
| H5_int (n : Z).

Inductive ndarray : Type :=
| Array1 (v : vector)
| Array2 (A : matrix).

Abbreviation field := (ndarray * gmap string h5value)%type.

(** [export_paraview].  Python lists live in a store of their own;
    [field_list] is a reference into it or [None].  The call of the
    inherited [ReducedSystem.export_paraview(self, filename,
    new_field_list)], whose code is not among the sources, is returned as
    its arguments. *)
Definition export_paraview (lists : gmap nat (list field)) (self : System)
  (filename : string) (field_list : option ref)
  : outcome (gmap nat (list field) * (string * ref)) :=
  (* take care of None field lists *)
  '(lists, new_field_list) ←
    match field_list with
    | None =>
        let l := fresh (dom lists) in Returns (<[ l := [] ]> lists, l)
    | Some fl =>
        fields ← attr (lists !! fl);
        let l := fresh (dom lists) in Returns (<[ l := fields ]> lists, l)
    end;
  (* the h5 dictionary *)
  let h5_xi_dict : gmap string h5value :=
    <[ "ParaView" := H5_bool true ]>
    (<[ "AttributeType" := H5_str "Scalar" ]>
    (<[ "Center" := H5_str "Cell" ]>
    (<[ "Name" := H5_str "weights_hyper_red" ]>
    (<[ "NoOfComponents" := H5_int 1 ]> ∅)))) in
  let xi := np.zeros (no_of_elements (sys_mesh_class self)) in
  weight_idx ← match sys_weight_idx self with Some i => Returns i | None => Raises TypeError end;
  weights ← match sys_weights self with Some w => Returns w | None => Raises TypeError end;
  xi ← np.index_assign xi weight_idx weights;
  fields ← attr (lists !! new_field_list);
  let lists := <[ new_field_list := fields ++ [(Array1 xi, h5_xi_dict)] ]> lists in
  Returns (lists, (filename, new_field_list)).

End ECSWSystem.

(** [reduce_mechanical_system_ecsw].  The attributes are written on the
    object in the store one statement after the other, so what was written
    before an exception stays written: the function gives the store it
    leaves behind together with its outcome.  [V.T @ D_constr @ V] is a
    [ValueError] of numpy unless [D_constr] has as many rows and as many
    columns as [V] has rows. *)
Definition reduce_mechanical_system_ecsw (h : store) (mechanical_system : ref)
  (V : matrix) (overwrite : bool) (assembly : string) : store * outcome ref :=
  match (if overwrite then Returns (h, mechanical_system)
         else deepcopy h mechanical_system) with
  | Returns (h, reduced_sys) =>
      match h !! reduced_sys with
      | Some obj =>
          let obj :=
            {| sys_class := ECSWSystem;
               sys_mesh_class := sys_mesh_class obj;
               sys_assembly_class := sys_assembly_class obj;
               sys_dirichlet_class := sys_dirichlet_class obj;
               sys_V := Some (np.copy V);
               sys_V_unconstr := Some (unconstrain_vec (sys_dirichlet_class obj) V);
               sys_weights := None;
               sys_weight_idx := None;
               sys_u_red_output := Some [];
               sys_M_constr := None;
               sys_D_constr := sys_D_constr obj;
               sys_assembly_type := sys_assembly_type obj;
               sys_other := sys_other obj |} in
          let h := <[ reduced_sys := obj ]> h in
          (* reduce Rayleigh damping matrix *)
          match
            match sys_D_constr obj with
            | Some D_constr =>
                _ ← require_shape (np.shape0 V =? np.shape0 D_constr)%nat;
                _ ← require_shape (np.shape1 D_constr =? np.shape0 V)%nat;
                Returns (Some (np.T V @@ D_constr @@ V))
            | None => Returns None
            end
          with
          | Returns D_constr =>
              let obj :=
                {| sys_class := sys_class obj;
                   sys_mesh_class := sys_mesh_class obj;
                   sys_assembly_class := sys_assembly_class obj;
                   sys_dirichlet_class := sys_dirichlet_class obj;
                   sys_V := sys_V obj;
                   sys_V_unconstr := sys_V_unconstr obj;
                   sys_weights := sys_weights obj;
                   sys_weight_idx := sys_weight_idx obj;
                   sys_u_red_output := sys_u_red_output obj;
                   sys_M_constr := sys_M_constr obj;
                   sys_D_constr := D_constr;
                   sys_assembly_type := Some assembly;
                   sys_other := sys_other obj |} in
              (<[ reduced_sys := obj ]> h, Returns reduced_sys)
          | Raises e => (h, Raises e)
          | OutOfFuel => (h, OutOfFuel)
          end
      | None => (h, Raises AttributeError)
      end
  | Raises e => (h, Raises e)
  | OutOfFuel => (h, OutOfFuel)
  end.

(** * Specification vocabulary and examples *)

Definition symmetric (n : nat) (A : matrix) : Prop :=
  is_mat n n A /\ forall i j, get A i j = get A j i.

(** [translate d u c] adds the vector [c] to every node of [u]. *)
Definition translate (d : nat) (u c : vector) : vector :=
  mk_vec (length u) (fun p => vget u p + vget c (p mod d)).

Definition colsum (n : nat) (A : matrix) (j : nat) : R := rsum n (fun i => get A i j).

Definition voigt_size (d : nat) : nat := (d * (d + 1) / 2)%nat.

Definition zero_law (d : nat) (law : matrix -> matrix * vector * matrix) : Prop :=
  exists C, law (np.zeros2 d d) = (np.zeros2 d d, np.zeros (voigt_size d), C).

Definition symmetric_law (d : nat) (law : matrix -> matrix * vector * matrix) : Prop :=
  forall E, symmetric d E ->
    symmetric d (law E).1.1 /\ symmetric (voigt_size d) (law E).2.

Definition trace_is_rest (d : nat) (trace : gauss_trace) : Prop :=
  Forall (fun FE => FE = (np.eye d, np.zeros2 d d)) trace.

(** The constitutive operation an element of the class calls. *)
Definition constitutive_law (cls : ElementClass) (m : Material)
  : matrix -> matrix * vector * matrix :=
  match cls with
  | Tri3 | Tri6 | Quad4 | Quad8 => mat_S_Sv_and_C_2d m
  | Tet4 | Tet10 | Hexa8 | Hexa20 => mat_S_Sv_and_C m
  end.

Definition no_of_gauss_points (cls : ElementClass) : nat :=
  match cls with
  | Tri3 => 1
  | Tri6 => length Tri6.gauss_points
  | Quad4 => length Quad4.gauss_points
  | Quad8 => length Quad8.gauss_points
  | Tet4 => 1
  | Tet10 => length Tet10.gauss_points
  | Hexa8 => length Hexa8.gauss_points
  | Hexa20 => length Hexa20.gauss_points
  end.

(** The shapes [__init__] gives the stiffness and force buffers. *)
Definition buffers_ok (cls : ElementClass) (self : Element) : Prop :=
  is_mat (no_of_dofs cls) (no_of_dofs cls) (el_K self) /\
  length (el_f self) = no_of_dofs cls.

(** An example material: St. Venant-Kirchhoff with Young's modulus 1 and
    Poisson ratio 0, for which [S = E]. *)
Definition example_law_2d (E : matrix) : matrix * vector * matrix :=
  (1 !* E,
   [get E 0 0; get E 1 1; get E 0 1],
   [[1; 0; 0]; [0; 1; 0]; [0; 0; 1/2]]).

Definition example_law_3d (E : matrix) : matrix * vector * matrix :=
  (1 !* E,
   [get E 0 0; get E 1 1; get E 2 2; get E 1 2; get E 0 2; get E 0 1],
   [[1; 0; 0; 0; 0; 0]; [0; 1; 0; 0; 0; 0]; [0; 0; 1; 0; 0; 0];
    [0; 0; 0; 1/2; 0; 0]; [0; 0; 0; 0; 1/2; 0]; [0; 0; 0; 0; 0; 1/2]]).

Definition example_material : Material :=
  {| mat_thickness := 1;
     mat_rho := 1;
     mat_E := 1;
     mat_crossec := 1;
     mat_S_Sv_and_C_2d := example_law_2d;
     mat_S_Sv_and_C := example_law_3d |}.

(** The unit right triangle. *)
Definition example_X : vector := [0; 0; 1; 0; 0; 1].
Definition example_u : vector := [1/10; 0; 0; 0; 0; 1/5].

(** The distance between the first two nodes of [X]. *)
Definition bar_length (X : vector) : R :=
  np.linalg_norm (nth 1 (np.reshape X 2) [] -^ nth 0 (np.reshape X 2) []).

(** [X] holds the plane coordinates of at least two nodes. *)
Definition two_nodes (X : vector) : Prop :=
  Nat.even (length X) = true /\ (4 <= length X)%nat.

(** The attributes [foo] assigns are present. *)
Definition configured (self : Bar2Dlumped.t) : Prop :=
  is_Some (Bar2Dlumped.e_modul self) /\ is_Some (Bar2Dlumped.crosssec self) /\
  is_Some (Bar2Dlumped.rho self).

Definition call_X (c : Bar2Dlumped.call) : option vector :=
  match c with
  | Bar2Dlumped.Call_foo => None
  | Bar2Dlumped.Call_k_and_f_int X _ _ | Bar2Dlumped.Call_k_int X _ _
  | Bar2Dlumped.Call_f_int X _ _ | Bar2Dlumped.Call_m_int X _ _ => Some X
  end.

(** A bar of unit length along the x axis, after [foo]. *)
Definition example_bar_X : vector := [0; 0; 1; 0].
Definition example_bar : Bar2Dlumped.t :=
  {| Bar2Dlumped.material := Some example_material;
     Bar2Dlumped.K := np.zeros2 4 4;
     Bar2Dlumped.M := np.zeros2 4 4;
     Bar2Dlumped.f := np.zeros 4;
     Bar2Dlumped.e_modul := Some 1;
     Bar2Dlumped.crosssec := Some 1;
     Bar2Dlumped.rho := Some 1 |}.

(** The invariant of the outer loop. *)
Definition nnls_invariant (G : matrix) (b : vector) (st : nnls_state) : Prop :=
  length (st_xi st) = np.shape1 G /\
  length (st_zeta st) = np.shape1 G /\
  Forall (fun w => 0 <= w) (np.select (st_xi st) (st_active_set st)) /\
  st_r st = b -^ np.take_cols G (st_active_set st)
                 @| np.select (st_xi st) (st_active_set st).

(** A force-contribution system whose least-squares solution on both
    columns has a zero weight on the first one. *)
Definition example_G : matrix := [[4; 1]; [0; 1]].
Definition example_b : vector := [1; 1].

(** The displacement an accessor works with. *)
Definition u_or_zeros (V : matrix) (u : option vector) : vector :=
  match u with
  | Some u => u
  | None => np.zeros (np.shape1 V)
  end.

(** The three accessors as projections of one assembly result. *)
Definition accessors_agree (self : System) (u : option vector) (t : R)
  (r : outcome (matrix * vector)) : Prop :=
  ECSWSystem.K_and_f self u t = r /\
  ECSWSystem.K self u t = (x ← r; Returns x.1) /\
  ECSWSystem.f_int self u t = (x ← r; Returns x.2).

Definition raises {A : Type} (o : outcome A) : Prop := exists e, o = Raises e.

(** The attributes the reduction sets on [obj]. *)
Definition is_ecsw_reduction (obj : System) (V : matrix) (assembly : string)
  (obj' : System) : Prop :=
  sys_class obj' = ECSWSystem /\
  sys_V obj' = Some V /\
  sys_V_unconstr obj' = Some (unconstrain_vec (sys_dirichlet_class obj) V) /\
  sys_weights obj' = None /\
  sys_weight_idx obj' = None /\
  sys_u_red_output obj' = Some [] /\
  sys_M_constr obj' = None /\
  sys_D_constr obj' = (D ← sys_D_constr obj; Some (np.T V @@ D @@ V)) /\
  sys_assembly_type obj' = Some assembly /\
  sys_mesh_class obj' = sys_mesh_class obj /\
  sys_assembly_class obj' = sys_assembly_class obj /\
  sys_dirichlet_class obj' = sys_dirichlet_class obj /\
  sys_other obj' = sys_other obj.

(** [V] fits the damping matrix of the system: there is none, or it has
    as many rows and as many columns as [V] has rows, so that
    [V.T @ D @ V] exists. *)
Definition fits_damping (V : matrix) (D_constr : option matrix) : Prop :=
  match D_constr with
  | Some D => np.shape0 D = np.shape0 V /\ np.shape1 D = np.shape0 V
  | None => True
  end.

(** The attributes the reduction has set on [obj] when it comes to the
    damping matrix: the damping matrix and the assembly flag are still the
    old ones. *)
Definition is_ecsw_reset (obj : System) (V : matrix) (obj' : System) : Prop :=
  sys_class obj' = ECSWSystem /\
  sys_V obj' = Some V /\
  sys_V_unconstr obj' = Some (unconstrain_vec (sys_dirichlet_class obj) V) /\
  sys_weights obj' = None /\
  sys_weight_idx obj' = None /\
  sys_u_red_output obj' = Some [] /\
  sys_M_constr obj' = None /\
  sys_D_constr obj' = sys_D_constr obj /\
  sys_assembly_type obj' = sys_assembly_type obj /\
  sys_mesh_class obj' = sys_mesh_class obj /\
  sys_assembly_class obj' = sys_assembly_class obj /\
  sys_dirichlet_class obj' = sys_dirichlet_class obj /\
  sys_other obj' = sys_other obj.



(** The fields of the caller's list: none for [None]. *)
Definition caller_fields (lists : gmap nat (list ECSWSystem.field))
  (field_list : option nat) : option (list ECSWSystem.field) :=
  match field_list with
  | None => Some []
  | Some fl => lists !! fl
  end.

(** An assembly engine whose routines return zero operators, a mesh of two
    elements and a hyper-reduced system over them. *)
Definition example_assembly : Assembly :=
  {| assemble_k_and_f_hyper := fun V_unconstr weight_idx weights u t =>
       Returns (np.zeros2 (length u) (length u), np.zeros (length u));
     assemble_k_and_f_hyper_no_inplace := fun V_unconstr weight_idx weights u t =>
       Returns (np.zeros2 (length u) (length u), np.zeros (length u));
     assemble_g_and_b := fun V_unconstr W_unconstr verbose =>
       Returns (example_G, example_b) |}.

Definition example_system : System :=
  {| sys_class := ECSWSystem;
     sys_mesh_class := {| no_of_elements := 2 |};
     sys_assembly_class := example_assembly;
     sys_dirichlet_class := {| unconstrain_vec := fun V => V |};
     sys_V := Some [[1]; [0]];
     sys_V_unconstr := Some [[1]; [0]];
     sys_weights := Some [1];
     sys_weight_idx := Some [1%nat];
     sys_u_red_output := Some [];
     sys_M_constr := None;
     sys_D_constr := Some [[1; 0]; [0; 1]];
     sys_assembly_type := Some "direct";
     sys_other := ∅ |}.

(** Entries outside the active set are zero. *)
Definition inactive_zero (v : vector) (mask : list bool) : Prop :=
  Forall2 (fun x (m : bool) => m = false -> x = 0) v mask.

Definition is_nonzero (x : R) : bool := if Req_EM_T x 0 then false else true.

(** The second invariant of the outer loop. *)
Definition nnls_support_invariant (st : nnls_state) : Prop :=
  inactive_zero (st_xi st) (st_active_set st) /\
  length (st_zeta st) = length (st_active_set st).


(** The variation of the Green-Lagrange strain for a variation [dH] of the
    displacement gradient at deformation gradient [F], and the Voigt
    notation of a strain (shear entries doubled). *)
Definition delta_E (F dH : matrix) : matrix :=
  (1/2) !* (np.T F @@ dH +! np.T dH @@ F).

Definition voigt_strain (d : nat) (E : matrix) : vector :=
  if (d =? 2)%nat then [get E 0 0; get E 1 1; 2 * get E 0 1]
  else [get E 0 0; get E 1 1; get E 2 2; 2 * get E 1 2; 2 * get E 0 2; 2 * get E 0 1].

(** The block of [B] that belongs to node [i]. *)
Definition B_block (d : nat) (F b : matrix) (i : nat) : matrix :=
  if (d =? 2)%nat then
    [[get F 0 0 * get b i 0; get F 1 0 * get b i 0];
     [get F 0 1 * get b i 1; get F 1 1 * get b i 1];
     [get F 0 0 * get b i 1 + get F 0 1 * get b i 0;
      get F 1 0 * get b i 1 + get F 1 1 * get b i 0]]
  else
    [[get F 0 0 * get b i 0; get F 1 0 * get b i 0; get F 2 0 * get b i 0];
     [get F 0 1 * get b i 1; get F 1 1 * get b i 1; get F 2 1 * get b i 1];
     [get F 0 2 * get b i 2; get F 1 2 * get b i 2; get F 2 2 * get b i 2];
     [get F 0 1 * get b i 2 + get F 0 2 * get b i 1;
      get F 1 1 * get b i 2 + get F 1 2 * get b i 1;
      get F 2 1 * get b i 2 + get F 2 2 * get b i 1];
     [get F 0 2 * get b i 0 + get F 0 0 * get b i 2;
      get F 1 2 * get b i 0 + get F 1 0 * get b i 2;
      get F 2 2 * get b i 0 + get F 2 0 * get b i 2];
     [get F 0 0 * get b i 1 + get F 0 1 * get b i 0;
      get F 1 0 * get b i 1 + get F 1 1 * get b i 0;
      get F 2 0 * get b i 1 + get F 2 1 * get b i 0]].

(** The signed volume of the tetrahedron with the given corners: a sixth of
    the triple product of the edges from the first corner. *)
Definition tet_volume (X1 Y1 Z1 X2 Y2 Z2 X3 Y3 Z3 X4 Y4 Z4 : R) : R :=
  ((X2 - X1) * ((Y3 - Y1) * (Z4 - Z1) - (Z3 - Z1) * (Y4 - Y1))
   - (Y2 - Y1) * ((X3 - X1) * (Z4 - Z1) - (Z3 - Z1) * (X4 - X1))
   + (Z2 - Z1) * ((X3 - X1) * (Y4 - Y1) - (Y3 - Y1) * (X4 - X1))) / 6.

(** The Euclidean inner product of two vectors. *)
Definition dotp (a b : vector) : R := rsum (length a) (fun k => vget a k * vget b k).

(** Node [k] of a coordinate vector with [d] entries per node. *)
Definition node (d : nat) (x : vector) (k : nat) : vector :=
  mk_vec d (fun c => vget x (d * k + c)%nat).

(** The nodal shares of the area vector of the triangle and of the normal of
    the line, as [_compute_tensors] passes them to [f_proj]. *)
Definition Tri3_f_mat (x : vector) : matrix :=
  np.outer [1/3; 1/3; 1/3]
    (np.cross (node 3 x 2 -^ node 3 x 0) (node 3 x 1 -^ node 3 x 0) /^ 2).
Definition Line_f_mat (x : vector) : matrix :=
  np.outer LineLinearBoundary.N
    (LineLinearBoundary.rot_mat @| (node 2 x 1 -^ node 2 x 0)).

(** The block a row of [d] entries receives from the value [w]: [w] itself,
    or its only entry repeated. *)
Definition block (d : nat) (w : vector) : vector :=
  if (length w =? d)%nat then w else repeat (vget w 0) d.

(** A triangle in the plane [z = 0] with counter-clockwise nodes under the
    pressure 2, and a line from the origin to (2, 0) under the pressure 3. *)
Definition example_tri_X : vector := [0; 0; 0; 1; 0; 0; 0; 1; 0].
Definition example_tri_boundary : BoundaryElement :=
  Tri3Boundary.__init__ 2 Normal None false.
Definition example_line_X : vector := [0; 0; 2; 0].
Definition example_line_boundary : BoundaryElement :=
  LineLinearBoundary.__init__ 3 Normal None false.
Definition example_f_mat : matrix := [[3; 4]].

Definition LineQ_f_mat (x : vector) : matrix :=
  np.outer LineQuadraticBoundary.N
    (LineQuadraticBoundary.rot_mat @| (node 2 x 1 -^ node 2 x 0)).

(** The midpoint of two points, and the six nodes of a triangle with
    straight edges whose mid-side nodes are the midpoints of the edges
    (in the node order of the element: corners, then the nodes between
    corners 1-2, 2-3 and 1-3). *)
Definition midpoint (a b : vector) : vector := (a +^ b) /^ 2.
Definition straight_tri6 (a b c : vector) : vector :=
  a ++ b ++ c ++ midpoint a b ++ midpoint b c ++ midpoint a c.

(** The four corners of the parallelogram spanned at [a] by the edges to
    [b] and to [d], in the node order of the element. *)
Definition parallelogram (a b d : vector) : vector :=
  a ++ b ++ (b +^ d -^ a) ++ d.

(** The triangle of [example_tri_X] with its mid-side nodes, and the unit
    square in the plane [z = 0]. *)
Definition example_tri6_X : vector :=
  [0; 0; 0; 1; 0; 0; 0; 1; 0; 1/2; 0; 0; 1/2; 1/2; 0; 0; 1/2; 0].
Definition example_quad_X : vector := [0; 0; 0; 1; 0; 0; 1; 1; 0; 0; 1; 0].

(** * Verification *)

Lemma length_mk_vec n f : length (mk_vec n f) = n.
Proof. unfold mk_vec. now rewrite length_map, length_seq. Qed.

Lemma vget_mk_vec n f i : (i < n)%nat -> vget (mk_vec n f) i = f i.
Proof.
  intros Hi. unfold vget, mk_vec.
  rewrite (nth_indep _ 0 (f 0%nat)) by (now rewrite length_map, length_seq).
  rewrite map_nth, seq_nth by assumption. reflexivity.
Qed.

Lemma vget_oob (v : vector) i : (length v <= i)%nat -> vget v i = 0.
Proof. intros. unfold vget. now apply nth_overflow. Qed.

Lemma vec_ext (v w : vector) :
  length v = length w -> (forall i, (i < length v)%nat -> vget v i = vget w i) -> v = w.
Proof.
  intros Hl Hg. apply (nth_ext _ _ 0 0); auto.
Qed.

Lemma mk_mat_is_mat m n f : is_mat m n (mk_mat m n f).
Proof.
  split.
  - unfold mk_mat. now rewrite length_map, length_seq.
  - unfold mk_mat. apply List.Forall_forall. intros row Hin.
    apply in_map_iff in Hin as (i & <- & _). now rewrite length_map, length_seq.
Qed.

Lemma get_mk_mat m n f i j :
  (i < m)%nat -> (j < n)%nat -> get (mk_mat m n f) i j = f i j.
Proof.
  intros Hi Hj. unfold get, mk_mat.
  rewrite (nth_indep _ [] ((fun i => map (f i) (seq 0 n)) 0%nat))
    by (now rewrite length_map, length_seq).
  rewrite (map_nth (fun i => map (f i) (seq 0 n))), seq_nth by assumption.
  simpl. rewrite (nth_indep _ 0 (f i 0%nat)) by (now rewrite length_map, length_seq).
  rewrite map_nth, seq_nth by assumption. reflexivity.
Qed.

Lemma get_oob m n A i j : is_mat m n A -> (m <= i \/ n <= j)%nat -> get A i j = 0.
Proof.
  intros [Hl Hr] Hij. unfold get.
  destruct (Nat.lt_ge_cases i m) as [Hi|Hi].
  - assert (Hlen : length (nth i A []) = n).
    { rewrite List.Forall_forall in Hr. apply Hr, nth_In. lia. }
    apply nth_overflow. lia.
  - rewrite (nth_overflow A) by lia. now destruct j.
Qed.

Lemma mat_ext m n A B :
  is_mat m n A -> is_mat m n B ->
  (forall i j, (i < m)%nat -> (j < n)%nat -> get A i j = get B i j) -> A = B.
Proof.
  intros [HlA HrA] [HlB HrB] Hg.
  apply (nth_ext _ _ [] []); [congruence|].
  intros i Hi. rewrite List.Forall_forall in HrA, HrB.
  assert (length (nth i A []) = n) by (apply HrA, nth_In; lia).
  assert (length (nth i B []) = n) by (apply HrB, nth_In; lia).
  apply (nth_ext _ _ 0 0); [congruence|].
  intros j Hj. apply (Hg i j); lia.
Qed.

Lemma is_mat_shape0 m n A : is_mat m n A -> np.shape0 A = m.
Proof. now intros [H _]. Qed.

Lemma is_mat_shape1 m n A : is_mat m n A -> (0 < m)%nat -> np.shape1 A = n.
Proof.
  intros [Hl Hr] Hm. unfold np.shape1. destruct A as [|row A]; simpl in *; [lia|].
  now inversion Hr.
Qed.

Lemma rsum_ext n f g : (forall k, (k < n)%nat -> f k = g k) -> rsum n f = rsum n g.
Proof.
  induction n as [|n IH]; intros H; simpl; [reflexivity|].
  rewrite IH by (intros; apply H; lia). rewrite H by lia. reflexivity.
Qed.

Lemma rsum_zero n f : (forall k, (k < n)%nat -> f k = 0) -> rsum n f = 0.
Proof.
  induction n as [|n IH]; intros H; simpl; [reflexivity|].
  rewrite IH by (intros; apply H; lia). rewrite H by lia. ring.
Qed.

Lemma rsum_plus n f g : rsum n (fun k => f k + g k) = rsum n f + rsum n g.
Proof. induction n as [|n IH]; simpl; [ring|]. rewrite IH. ring. Qed.

Lemma rsum_scal_l n c f : rsum n (fun k => c * f k) = c * rsum n f.
Proof. induction n as [|n IH]; simpl; [ring|]. rewrite IH. ring. Qed.

Lemma rsum_scal_r n c f : rsum n (fun k => f k * c) = rsum n f * c.
Proof. induction n as [|n IH]; simpl; [ring|]. rewrite IH. ring. Qed.

Lemma rsum_swap m n (f : nat -> nat -> R) :
  rsum m (fun i => rsum n (fun j => f i j)) = rsum n (fun j => rsum m (fun i => f i j)).
Proof.
  induction m as [|m IH]; simpl.
  - symmetry. now apply rsum_zero.
  - rewrite IH, <- rsum_plus. reflexivity.
Qed.

(** Shapes *)

Lemma is_mat_zeros2 m n : is_mat m n (np.zeros2 m n).
Proof.
  split; unfold np.zeros2; [apply repeat_length|].
  apply List.Forall_forall. intros row Hin. apply repeat_spec in Hin. subst. apply repeat_length.
Qed.

Lemma is_mat_ones2 m n : is_mat m n (np.ones2 m n).
Proof.
  split; unfold np.ones2; [apply repeat_length|].
  apply List.Forall_forall. intros row Hin. apply repeat_spec in Hin. subst. apply repeat_length.
Qed.

Lemma get_zeros2 m n i j : get (np.zeros2 m n) i j = 0.
Proof.
  unfold get, np.zeros2.
  destruct (Nat.lt_ge_cases i m) as [Hi|Hi].
  - rewrite (nth_indep _ [] (repeat 0 n)) by (now rewrite repeat_length).
    rewrite nth_repeat. destruct (Nat.lt_ge_cases j n).
    + now rewrite nth_repeat.
    + apply nth_overflow. now rewrite repeat_length.
  - rewrite (nth_overflow (repeat _ _)) by (now rewrite repeat_length). now destruct j.
Qed.

Lemma is_mat_eye n : is_mat n n (np.eye n).
Proof. apply mk_mat_is_mat. Qed.

Lemma is_mat_T m n A : is_mat m n A -> (0 < m)%nat -> is_mat n m (np.T A).
Proof.
  intros HA Hm. unfold np.T.
  rewrite (is_mat_shape0 _ _ _ HA), (is_mat_shape1 _ _ _ HA Hm). apply mk_mat_is_mat.
Qed.

Lemma is_mat_matmul m k n A B :
  is_mat m k A -> is_mat k n B -> (0 < k)%nat -> is_mat m n (A @@ B).
Proof.
  intros HA HB Hk. unfold np.matmul.
  rewrite (is_mat_shape0 _ _ _ HA), (is_mat_shape1 _ _ _ HB Hk). apply mk_mat_is_mat.
Qed.

Lemma is_mat_add m n A B : is_mat m n A -> (0 < m)%nat -> is_mat m n (A +! B).
Proof.
  intros HA Hm. unfold np.add.
  rewrite (is_mat_shape0 _ _ _ HA), (is_mat_shape1 _ _ _ HA Hm). apply mk_mat_is_mat.
Qed.

Lemma is_mat_mul_s m n A c : is_mat m n A -> (0 < m)%nat -> is_mat m n (A *! c).
Proof.
  intros HA Hm. unfold np.mul_s.
  rewrite (is_mat_shape0 _ _ _ HA), (is_mat_shape1 _ _ _ HA Hm). apply mk_mat_is_mat.
Qed.

Lemma is_mat_s_mul m n A c : is_mat m n A -> (0 < m)%nat -> is_mat m n (c !* A).
Proof.
  intros HA Hm. unfold np.s_mul.
  rewrite (is_mat_shape0 _ _ _ HA), (is_mat_shape1 _ _ _ HA Hm). apply mk_mat_is_mat.
Qed.

Lemma is_mat_div_s m n A c : is_mat m n A -> (0 < m)%nat -> is_mat m n (A /! c).
Proof.
  intros HA Hm. unfold np.div_s.
  rewrite (is_mat_shape0 _ _ _ HA), (is_mat_shape1 _ _ _ HA Hm). apply mk_mat_is_mat.
Qed.

(** Entries *)

Lemma get_mk_mat_if m n f i j :
  get (mk_mat m n f) i j = if ((i <? m) && (j <? n))%nat then f i j else 0.
Proof.
  destruct (Nat.ltb_spec i m), (Nat.ltb_spec j n); simpl.
  - now apply get_mk_mat.
  - apply (get_oob m n); [apply mk_mat_is_mat | lia].
  - apply (get_oob m n); [apply mk_mat_is_mat | lia].
  - apply (get_oob m n); [apply mk_mat_is_mat | lia].
Qed.

Lemma get_T m n A i j : is_mat m n A -> (0 < m)%nat -> get (np.T A) i j = get A j i.
Proof.
  intros HA Hm. unfold np.T.
  rewrite (is_mat_shape0 _ _ _ HA), (is_mat_shape1 _ _ _ HA Hm), get_mk_mat_if.
  destruct (Nat.ltb_spec i n), (Nat.ltb_spec j m); simpl; try reflexivity;
    symmetry; apply (get_oob m n); auto; lia.
Qed.

Lemma get_matmul m k n A B i j :
  is_mat m k A -> is_mat k n B -> (0 < m)%nat -> (0 < k)%nat ->
  get (A @@ B) i j = rsum k (fun l => get A i l * get B l j).
Proof.
  intros HA HB Hm Hk. unfold np.matmul.
  rewrite (is_mat_shape0 _ _ _ HA), (is_mat_shape1 _ _ _ HB Hk),
    (is_mat_shape1 _ _ _ HA Hm), get_mk_mat_if.
  destruct (Nat.ltb_spec i m), (Nat.ltb_spec j n); simpl; try reflexivity;
    symmetry; apply rsum_zero; intros l _.
  - rewrite (get_oob k n B) by (auto; lia). ring.
  - rewrite (get_oob m k A) by (auto; lia). ring.
  - rewrite (get_oob m k A) by (auto; lia). ring.
Qed.

Lemma get_add m n A B i j :
  is_mat m n A -> is_mat m n B -> (0 < m)%nat ->
  get (A +! B) i j = get A i j + get B i j.
Proof.
  intros HA HB Hm. unfold np.add.
  rewrite (is_mat_shape0 _ _ _ HA), (is_mat_shape1 _ _ _ HA Hm), get_mk_mat_if.
  destruct (Nat.ltb_spec i m), (Nat.ltb_spec j n); simpl; try reflexivity;
    rewrite (get_oob m n A), (get_oob m n B) by (auto; lia); ring.
Qed.

Lemma get_mul_s m n A c i j :
  is_mat m n A -> (0 < m)%nat -> get (A *! c) i j = get A i j * c.
Proof.
  intros HA Hm. unfold np.mul_s.
  rewrite (is_mat_shape0 _ _ _ HA), (is_mat_shape1 _ _ _ HA Hm), get_mk_mat_if.
  destruct (Nat.ltb_spec i m), (Nat.ltb_spec j n); simpl; try reflexivity;
    rewrite (get_oob m n A) by (auto; lia); ring.
Qed.

Lemma get_s_mul m n A c i j :
  is_mat m n A -> (0 < m)%nat -> get (c !* A) i j = c * get A i j.
Proof.
  intros HA Hm. unfold np.s_mul.
  rewrite (is_mat_shape0 _ _ _ HA), (is_mat_shape1 _ _ _ HA Hm), get_mk_mat_if.
  destruct (Nat.ltb_spec i m), (Nat.ltb_spec j n); simpl; try reflexivity;
    rewrite (get_oob m n A) by (auto; lia); ring.
Qed.

Lemma get_div_s m n A c i j :
  is_mat m n A -> (0 < m)%nat -> get (A /! c) i j = get A i j / c.
Proof.
  intros HA Hm. unfold np.div_s.
  rewrite (is_mat_shape0 _ _ _ HA), (is_mat_shape1 _ _ _ HA Hm), get_mk_mat_if.
  destruct (Nat.ltb_spec i m), (Nat.ltb_spec j n); simpl; try reflexivity;
    rewrite (get_oob m n A) by (auto; lia); unfold Rdiv; ring.
Qed.

(** Symmetric matrices *)

Lemma symmetric_add n A B : (0 < n)%nat -> symmetric n A -> symmetric n B -> symmetric n (A +! B).
Proof.
  intros Hn [HA SA] [HB SB]. split; [now apply is_mat_add|].
  intros i j. rewrite !(get_add n n) by assumption. now rewrite SA, SB.
Qed.

Lemma symmetric_mul_s n A c : (0 < n)%nat -> symmetric n A -> symmetric n (A *! c).
Proof.
  intros Hn [HA SA]. split; [now apply is_mat_mul_s|].
  intros i j. rewrite !(get_mul_s n n) by assumption. now rewrite SA.
Qed.

Lemma symmetric_s_mul n A c : (0 < n)%nat -> symmetric n A -> symmetric n (c !* A).
Proof.
  intros Hn [HA SA]. split; [now apply is_mat_s_mul|].
  intros i j. rewrite !(get_s_mul n n) by assumption. now rewrite SA.
Qed.

Lemma symmetric_div_s n A c : (0 < n)%nat -> symmetric n A -> symmetric n (A /! c).
Proof.
  intros Hn [HA SA]. split; [now apply is_mat_div_s|].
  intros i j. rewrite !(get_div_s n n) by assumption. now rewrite SA.
Qed.

Lemma symmetric_zeros2 n : symmetric n (np.zeros2 n n).
Proof. split; [apply is_mat_zeros2|]. intros. now rewrite !get_zeros2. Qed.

(** [B.T @ C @ B] and [B @ S @ B.T] are symmetric when the middle factor is. *)
Lemma symmetric_BtCB m n B C :
  (0 < m)%nat -> (0 < n)%nat -> is_mat m n B -> symmetric m C ->
  symmetric n (np.T B @@ C @@ B).
Proof.
  intros Hm Hn HB [HC SC].
  assert (HBt : is_mat n m (np.T B)) by now apply is_mat_T.
  assert (HBtC : is_mat n m (np.T B @@ C)) by now apply (is_mat_matmul n m m).
  split; [now apply (is_mat_matmul n m n)|].
  intros i j. rewrite !(get_matmul n m n) by assumption.
  erewrite rsum_ext; [|intros l _; rewrite (get_matmul n m m) by assumption;
    rewrite <- rsum_scal_r; reflexivity].
  symmetry.
  erewrite rsum_ext; [|intros l _; rewrite (get_matmul n m m) by assumption;
    rewrite <- rsum_scal_r; reflexivity].
  rewrite rsum_swap. apply rsum_ext; intros k _. apply rsum_ext; intros l _.
  rewrite !(get_T m n) by assumption. rewrite (SC k l). ring.
Qed.

Lemma symmetric_BSBt m n B S' :
  (0 < m)%nat -> (0 < n)%nat -> is_mat m n B -> symmetric n S' ->
  symmetric m (B @@ S' @@ np.T B).
Proof.
  intros Hm Hn HB [HS SS].
  assert (HBt : is_mat n m (np.T B)) by now apply is_mat_T.
  assert (HBS : is_mat m n (B @@ S')) by now apply (is_mat_matmul m n n).
  split; [now apply (is_mat_matmul m n m)|].
  intros i j. rewrite !(get_matmul m n m) by assumption.
  erewrite rsum_ext; [|intros l _; rewrite (get_matmul m n n) by assumption;
    rewrite <- rsum_scal_r; reflexivity].
  symmetry.
  erewrite rsum_ext; [|intros l _; rewrite (get_matmul m n n) by assumption;
    rewrite <- rsum_scal_r; reflexivity].
  rewrite rsum_swap. apply rsum_ext; intros k _. apply rsum_ext; intros l _.
  rewrite !(get_T m n) by assumption. rewrite (SS k l). ring.
Qed.

Lemma for_range_S {St} n (body : nat -> St -> St) st :
  for_range (S n) body st = body n (for_range n body st).
Proof.
  unfold for_range. rewrite seq_S, fold_left_app. reflexivity.
Qed.

Lemma is_mat_set m n A i j x : is_mat m n A -> is_mat m n (np.set A i j x).
Proof.
  intros [Hl Hr]. unfold np.set.
  destruct (Nat.lt_ge_cases i (length A)) as [Hi|Hi].
  - split; [now rewrite length_insert|].
    apply Forall_insert; [assumption|]. rewrite length_insert.
    rewrite List.Forall_forall in Hr. apply Hr, nth_In, Hi.
  - rewrite list_insert_ge by assumption. now split.
Qed.

Lemma nth_insert_eq {A} (l : list A) i x d :
  (i < length l)%nat -> nth i (<[i := x]> l) d = x.
Proof.
  revert i. induction l as [|y l IH]; intros [|i] Hi; simpl in *; try lia; auto.
  apply IH. lia.
Qed.

Lemma nth_insert_ne {A} (l : list A) i j x d :
  j <> i -> nth j (<[i := x]> l) d = nth j l d.
Proof.
  revert i j. induction l as [|y l IH]; intros [|i] [|j] Hne; simpl; try reflexivity; try lia.
  apply IH. lia.
Qed.

Lemma nth_insert {A} (l : list A) i j x d :
  nth j (<[i := x]> l) d = if decide (j = i /\ (i < length l)%nat) then x else nth j l d.
Proof.
  destruct (decide (j = i /\ (i < length l)%nat)) as [[-> Hlt]|Hn].
  - now apply nth_insert_eq.
  - destruct (Nat.eq_dec j i) as [->|Hne].
    + rewrite list_insert_ge by lia. reflexivity.
    + now apply nth_insert_ne.
Qed.

Lemma get_set m n A i j x r c :
  is_mat m n A -> (i < m)%nat -> (j < n)%nat ->
  get (np.set A i j x) r c = if decide (r = i /\ c = j) then x else get A r c.
Proof.
  intros [Hl Hr] Hi Hj. unfold get, np.set. rewrite nth_insert.
  assert (Hrow : length (nth i A []) = n).
  { rewrite List.Forall_forall in Hr. apply Hr, nth_In. lia. }
  destruct (decide (r = i /\ (i < length A)%nat)) as [[-> _]|Hn].
  - rewrite nth_insert, Hrow. repeat case_decide; try reflexivity; lia.
  - case_decide; [lia|reflexivity].
Qed.

(** A loop whose iterations write disjoint sets of cells. *)
Section DisjointWrites.
Variables (m n N0 : nat) (body : nat -> matrix -> matrix).
Variables (dom : nat -> nat -> nat -> Prop) (val : nat -> nat -> nat -> R).
Hypothesis body_shape : forall k M,
  (k < N0)%nat -> is_mat m n M -> is_mat m n (body k M).
Hypothesis body_write : forall k M r c,
  (k < N0)%nat -> is_mat m n M -> dom k r c -> get (body k M) r c = val k r c.
Hypothesis body_frame : forall k M r c,
  (k < N0)%nat -> is_mat m n M -> ~ dom k r c -> get (body k M) r c = get M r c.
Hypothesis dom_disjoint : forall k k' r c, dom k r c -> dom k' r c -> k = k'.

Lemma for_range_writes N M :
  (N <= N0)%nat -> is_mat m n M ->
  is_mat m n (for_range N body M) /\
  (forall k r c, (k < N)%nat -> dom k r c -> get (for_range N body M) r c = val k r c) /\
  (forall r c, (forall k, (k < N)%nat -> ~ dom k r c) ->
               get (for_range N body M) r c = get M r c).
Proof.
  intros HN HM. induction N as [|N IH].
  - change (for_range 0 body M) with M.
    split; [assumption|]. split; [intros; lia | reflexivity].
  - destruct IH as (IHs & IHw & IHf); [lia|]. rewrite for_range_S.
    split; [apply body_shape; [lia|assumption]|]. split.
    + intros k r c Hk Hd. destruct (Nat.eq_dec k N) as [->|Hne].
      * apply body_write; [lia | assumption | assumption].
      * rewrite body_frame; [apply IHw; [lia|assumption] | lia | assumption |].
        intros Hd'. apply Hne. eapply dom_disjoint; eassumption.
    + intros r c Hnd. rewrite body_frame; [| lia | assumption | apply Hnd; lia].
      apply IHf. intros k Hk. apply Hnd. lia.
Qed.
End DisjointWrites.

Lemma block_index_unique d i k i' k' :
  (k < d)%nat -> (k' < d)%nat -> (d * i + k = d * i' + k')%nat -> i = i' /\ k = k'.
Proof.
  intros Hk Hk' H.
  assert (Hi : i = i').
  { destruct (Nat.lt_trichotomy i i') as [Hlt|[Heq|Hgt]]; [|assumption|].
    - assert (d * S i <= d * i')%nat by (apply Nat.mul_le_mono_l; lia).
      rewrite Nat.mul_succ_r in *. lia.
    - assert (d * S i' <= d * i)%nat by (apply Nat.mul_le_mono_l; lia).
      rewrite Nat.mul_succ_r in *. lia. }
  subst i'. split; [reflexivity | lia].
Qed.

Lemma block_index_lt d n i k : (i < n)%nat -> (k < d)%nat -> (d * i + k < n * d)%nat.
Proof.
  intros Hi Hk. assert (d * S i <= d * n)%nat by (apply Nat.mul_le_mono_l; lia).
  rewrite Nat.mul_succ_r in *. lia.
Qed.

Section Scatter.
Variables (Mat : matrix) (rows cols ndim : nat).
Hypothesis HMat : is_mat rows cols Mat.

Let inner_dom (i j k r c : nat) : Prop := r = (ndim * i + k)%nat /\ c = (ndim * j + k)%nat.
Let mid_dom (i j r c : nat) : Prop := exists k, (k < ndim)%nat /\ inner_dom i j k r c.
Let outer_dom (i r c : nat) : Prop := exists j, (j < cols)%nat /\ mid_dom i j r c.

Let inner (i j : nat) (M : matrix) : matrix :=
  for_range ndim (fun k M => np.set M (ndim * i + k) (ndim * j + k) (get Mat i j)) M.
Let mid (i : nat) (M : matrix) : matrix := for_range cols (inner i) M.

Lemma scatter_inner i j M :
  (i < rows)%nat -> (j < cols)%nat -> is_mat (rows * ndim) (cols * ndim) M ->
  is_mat (rows * ndim) (cols * ndim) (inner i j M) /\
  (forall r c, mid_dom i j r c -> get (inner i j M) r c = get Mat i j) /\
  (forall r c, ~ mid_dom i j r c -> get (inner i j M) r c = get M r c).
Proof.
  intros Hi Hj HM.
  destruct (for_range_writes (rows * ndim) (cols * ndim) ndim
              (fun k M => np.set M (ndim * i + k) (ndim * j + k) (get Mat i j))
              (inner_dom i j) (fun _ _ _ => get Mat i j)) with (N := ndim) (M := M)
    as (Hs & Hw & Hf); try assumption; try lia.
  - intros. now apply is_mat_set.
  - intros k M' r c Hk HM' [-> ->].
    rewrite (get_set (rows * ndim) (cols * ndim)) by (try assumption; now apply block_index_lt).
    case_decide; [reflexivity | tauto].
  - intros k M' r c Hk HM' Hnd.
    rewrite (get_set (rows * ndim) (cols * ndim)) by (try assumption; now apply block_index_lt).
    case_decide; [exfalso; apply Hnd; exact H | reflexivity].
  - intros k k' r c [H1 _] [H2 _]. lia.
  - split; [exact Hs|]. split.
    + intros r c (k & Hk & Hd). now apply (Hw k).
    + intros r c Hnd. apply Hf. intros k Hk Hd. apply Hnd. now exists k.
Qed.

Lemma scatter_mid i M :
  (i < rows)%nat -> is_mat (rows * ndim) (cols * ndim) M ->
  is_mat (rows * ndim) (cols * ndim) (mid i M) /\
  (forall r c, outer_dom i r c -> get (mid i M) r c = get Mat i (c / ndim)) /\
  (forall r c, ~ outer_dom i r c -> get (mid i M) r c = get M r c).
Proof.
  intros Hi HM.
  destruct (for_range_writes (rows * ndim) (cols * ndim) cols (inner i)
              (mid_dom i) (fun _ _ c => get Mat i (c / ndim))) with (N := cols) (M := M)
    as (Hs & Hw & Hf); try assumption; try lia.
  - intros j M' Hj HM'. now apply scatter_inner.
  - intros j M' r c Hj HM' Hd.
    destruct (scatter_inner i j M' Hi Hj HM') as (_ & Hw & _). rewrite Hw by assumption.
    destruct Hd as (k & Hk & _ & ->). f_equal.
    rewrite Nat.mul_comm, Nat.div_add_l by lia. rewrite Nat.div_small by lia. lia.
  - intros j M' r c Hj HM' Hd.
    destruct (scatter_inner i j M' Hi Hj HM') as (_ & _ & Hf). now apply Hf.
  - intros j j' r c (k & Hk & _ & ->) (k' & Hk' & _ & H2).
    apply (block_index_unique ndim j k j' k') in H2; tauto.
  - split; [exact Hs|]. split.
    + intros r c (j & Hj & Hd). now apply (Hw j).
    + intros r c Hnd. apply Hf. intros j Hj Hd. apply Hnd. now exists j.
Qed.

Lemma scatter_matrix_spec :
  is_mat (rows * ndim) (cols * ndim) (scatter_matrix Mat ndim) /\
  (forall i j k l, (i < rows)%nat -> (j < cols)%nat -> (k < ndim)%nat -> (l < ndim)%nat ->
     get (scatter_matrix Mat ndim) (ndim * i + k) (ndim * j + l) =
     if (k =? l)%nat then get Mat i j else 0).
Proof.
  destruct (Nat.eq_dec rows 0%nat) as [Hr0|Hr0].
  { subst rows. destruct HMat as [Hl _]. destruct Mat; [|discriminate].
    split; [split; [reflexivity|constructor] | intros; lia]. }
  assert (Hs0 : np.shape0 Mat = rows) by now apply (is_mat_shape0 rows cols).
  assert (Hs1 : np.shape1 Mat = cols) by (apply (is_mat_shape1 rows cols); [assumption|lia]).
  unfold scatter_matrix. rewrite Hs0, Hs1.
  destruct (for_range_writes (rows * ndim) (cols * ndim) rows mid
              outer_dom (fun i _ c => get Mat i (c / ndim))) with
    (N := rows) (M := np.zeros2 (rows * ndim) (cols * ndim))
    as (Hs & Hw & Hf); try lia.
  - intros i M' Hi HM'. now apply scatter_mid.
  - intros i M' r c Hi HM' Hd. now apply scatter_mid.
  - intros i M' r c Hi HM' Hd. now apply scatter_mid.
  - intros i i' r c (j & Hj & k & Hk & -> & _) (j' & Hj' & k' & Hk' & H2 & _).
    apply (block_index_unique ndim i k i' k') in H2; tauto.
  - apply is_mat_zeros2.
  - split; [exact Hs|]. intros i j k l Hi Hj Hk Hl.
    destruct (Nat.eqb_spec k l) as [->|Hkl].
    + assert (Hd : outer_dom i (ndim * i + l) (ndim * j + l)).
      { exists j. split; [assumption|]. exists l. repeat split; assumption. }
      etransitivity; [exact (Hw i _ _ Hi Hd)|].
      f_equal. rewrite Nat.mul_comm, Nat.div_add_l by lia. rewrite Nat.div_small by lia. lia.
    + etransitivity; [apply Hf | apply get_zeros2].
      intros i' Hi' (j' & Hj' & k' & Hk' & H1 & H2).
      apply (block_index_unique ndim i k i' k') in H1; try assumption.
      apply (block_index_unique ndim j l j' k') in H2; try assumption. lia.
Qed.
End Scatter.

Lemma is_mat_scatter_matrix m n d Mat :
  is_mat m n Mat -> is_mat (m * d) (n * d) (scatter_matrix Mat d).
Proof. intros H. now apply scatter_matrix_spec. Qed.

Lemma get_scatter_matrix m n d Mat r c :
  is_mat m n Mat -> (r < m * d)%nat -> (c < n * d)%nat ->
  get (scatter_matrix Mat d) r c =
  if (r mod d =? c mod d)%nat then get Mat (r / d) (c / d) else 0.
Proof.
  intros HM Hr Hc.
  assert (Hd : (0 < d)%nat) by (destruct d; lia).
  destruct (scatter_matrix_spec Mat m n d HM) as [_ Hg].
  rewrite (Nat.div_mod_eq r d) at 1. rewrite (Nat.div_mod_eq c d) at 1.
  apply Hg.
  - apply Nat.Div0.div_lt_upper_bound. lia.
  - apply Nat.Div0.div_lt_upper_bound. lia.
  - apply Nat.mod_upper_bound. lia.
  - apply Nat.mod_upper_bound. lia.
Qed.

Lemma symmetric_scatter_matrix n d Mat :
  symmetric n Mat -> symmetric (n * d) (scatter_matrix Mat d).
Proof.
  intros [HM SM]. split; [now apply is_mat_scatter_matrix|].
  intros i j.
  destruct (Nat.lt_ge_cases i (n * d)) as [Hi|Hi], (Nat.lt_ge_cases j (n * d)) as [Hj|Hj].
  - rewrite !(get_scatter_matrix n n) by assumption.
    rewrite (Nat.eqb_sym (j mod d)). now rewrite SM.
  - rewrite !(get_oob (n * d) (n * d)); auto using is_mat_scatter_matrix.
  - rewrite !(get_oob (n * d) (n * d)); auto using is_mat_scatter_matrix.
  - rewrite !(get_oob (n * d) (n * d)); auto using is_mat_scatter_matrix.
Qed.

(** Vectors *)

Lemma length_zeros n : length (np.zeros n) = n.
Proof. apply repeat_length. Qed.

Lemma vget_zeros n i : vget (np.zeros n) i = 0.
Proof.
  unfold vget, np.zeros. destruct (Nat.lt_ge_cases i n).
  - now rewrite nth_repeat.
  - apply nth_overflow. now rewrite repeat_length.
Qed.

Lemma vget_mk_vec_if n f i : vget (mk_vec n f) i = if (i <? n)%nat then f i else 0.
Proof.
  destruct (Nat.ltb_spec i n).
  - now apply vget_mk_vec.
  - apply vget_oob. now rewrite length_mk_vec.
Qed.

Lemma vget_vadd v w i : (i < length v)%nat -> vget (v +^ w) i = vget v i + vget w i.
Proof. intros. unfold np.vadd. now rewrite vget_mk_vec. Qed.

Lemma length_vadd v w : length (v +^ w) = length v.
Proof. apply length_mk_vec. Qed.

Lemma vget_vmul_s v c i : vget (v *^ c) i = vget v i * c.
Proof.
  unfold np.vmul_s. rewrite vget_mk_vec_if. destruct (Nat.ltb_spec i (length v)); [reflexivity|].
  rewrite vget_oob by assumption. ring.
Qed.

Lemma vget_vdiv_s v c i : vget (v /^ c) i = vget v i / c.
Proof.
  unfold np.vdiv_s. rewrite vget_mk_vec_if. destruct (Nat.ltb_spec i (length v)); [reflexivity|].
  rewrite vget_oob by assumption. unfold Rdiv. ring.
Qed.

Lemma vget_dot_zeros A k i : vget (A @| np.zeros k) i = 0.
Proof.
  unfold np.dot. rewrite vget_mk_vec_if. destruct (i <? np.shape0 A)%nat; [|reflexivity].
  apply rsum_zero. intros. rewrite vget_zeros. ring.
Qed.

Lemma eq_zeros n v : length v = n -> (forall i, vget v i = 0) -> v = np.zeros n.
Proof.
  intros Hl Hz. apply vec_ext.
  - now rewrite length_zeros.
  - intros i _. now rewrite Hz, vget_zeros.
Qed.

(** More shapes *)

Lemma is_mat_reshape n d v : length v = (n * d)%nat -> (0 < d)%nat -> is_mat n d (np.reshape v d).
Proof.
  intros Hl Hd. unfold np.reshape. rewrite Hl, Nat.div_mul by lia. apply mk_mat_is_mat.
Qed.

Lemma get_reshape n d v i j :
  length v = (n * d)%nat -> (i < n)%nat -> (j < d)%nat ->
  get (np.reshape v d) i j = vget v (d * i + j).
Proof.
  intros Hl Hi Hj. unfold np.reshape. rewrite Hl, Nat.div_mul by lia. now apply get_mk_mat.
Qed.

Lemma is_mat_column m n A k : is_mat m n A -> is_mat m 1 (np.column A k).
Proof.
  intros HA. unfold np.column. rewrite (is_mat_shape0 _ _ _ HA). apply mk_mat_is_mat.
Qed.

Lemma is_mat_set_cols m n B c0 c1 blk :
  is_mat m n B -> (0 < m)%nat -> is_mat m n (set_cols B c0 c1 blk).
Proof.
  intros HB Hm. unfold set_cols.
  rewrite (is_mat_shape0 _ _ _ HB), (is_mat_shape1 _ _ _ HB Hm). apply mk_mat_is_mat.
Qed.

Lemma is_mat_compute_B_matrix n d B_tilde F :
  is_mat n d B_tilde -> (0 < n)%nat -> (0 < d * (d + 1) / 2)%nat ->
  is_mat (d * (d + 1) / 2) (n * d) (compute_B_matrix B_tilde F).
Proof.
  intros HB Hn Hd. unfold compute_B_matrix.
  rewrite (is_mat_shape0 _ _ _ HB), (is_mat_shape1 _ _ _ HB Hn).
  generalize n at 2. intros k.
  induction k as [|k IH].
  - apply is_mat_zeros2.
  - rewrite for_range_S. destruct (d =? 2)%nat; now apply is_mat_set_cols.
Qed.

(** Zero matrices *)

Lemma eq_zeros2 m n A : is_mat m n A -> (forall i j, get A i j = 0) -> A = np.zeros2 m n.
Proof.
  intros HA Hz. apply (mat_ext m n); auto using is_mat_zeros2.
  intros. now rewrite Hz, get_zeros2.
Qed.

Lemma get_eye n i j : get (np.eye n) i j = if ((i <? n) && (j <? n) && (i =? j))%nat then 1 else 0.
Proof.
  unfold np.eye. rewrite get_mk_mat_if.
  destruct ((i <? n) && (j <? n))%nat; reflexivity.
Qed.

(** ** Kinematics at zero displacement *)

Section ZeroDisplacement.
Variables (n d : nat) (B0_tilde : matrix).
Hypothesis Hn : (0 < n)%nat.
Hypothesis Hd : (0 < d)%nat.
Hypothesis HB : is_mat n d B0_tilde.

Let u_mat := np.reshape (np.zeros (n * d)) d.

Lemma is_mat_u_zero : is_mat n d u_mat.
Proof. apply is_mat_reshape; [apply length_zeros | assumption]. Qed.

Lemma H_zero : np.T u_mat @@ B0_tilde = np.zeros2 d d.
Proof.
  pose proof is_mat_u_zero as Hu.
  apply eq_zeros2.
  - apply (is_mat_matmul d n d); auto using is_mat_T.
  - intros i j. rewrite (get_matmul d n d) by auto using is_mat_T.
    apply rsum_zero. intros l Hl. rewrite (get_T n d) by assumption.
    destruct (Nat.lt_ge_cases i d).
    + unfold u_mat. rewrite (get_reshape n d) by (auto using length_zeros).
      rewrite vget_zeros. ring.
    + rewrite (get_oob n d u_mat) by (auto; lia). ring.
Qed.

Lemma F_zero : np.zeros2 d d +! np.eye d = np.eye d.
Proof.
  apply (mat_ext d d); auto using is_mat_eye, is_mat_add, is_mat_zeros2.
  intros i j Hi Hj. rewrite (get_add d d) by auto using is_mat_eye, is_mat_zeros2.
  rewrite get_zeros2. ring.
Qed.

Lemma E_zero :
  (1/2) !* (np.zeros2 d d +! np.T (np.zeros2 d d)
            +! np.T (np.zeros2 d d) @@ np.zeros2 d d) = np.zeros2 d d.
Proof.
  pose proof (is_mat_zeros2 d d) as HZ.
  assert (HT : is_mat d d (np.T (np.zeros2 d d))) by now apply is_mat_T.
  assert (HM : is_mat d d (np.T (np.zeros2 d d) @@ np.zeros2 d d))
    by now apply (is_mat_matmul d d d).
  assert (HA : is_mat d d (np.zeros2 d d +! np.T (np.zeros2 d d))) by now apply is_mat_add.
  apply eq_zeros2.
  - apply is_mat_s_mul; [|assumption]. now apply is_mat_add.
  - intros i j. rewrite (get_s_mul d d) by (try assumption; now apply is_mat_add).
    rewrite (get_add d d), (get_add d d), (get_matmul d d d), (get_T d d) by assumption.
    rewrite !get_zeros2. rewrite rsum_zero; [ring|].
    intros l _. rewrite get_zeros2. ring.
Qed.
End ZeroDisplacement.

(** ** Rigid translations *)

Lemma length_translate d u c : length (translate d u c) = length u.
Proof. apply length_mk_vec. Qed.

Section Translation.
Variables (n d : nat) (B0_tilde : matrix) (u c : vector).
Hypothesis Hn : (0 < n)%nat.
Hypothesis Hd : (0 < d)%nat.
Hypothesis HB : is_mat n d B0_tilde.
Hypothesis Hu : length u = (n * d)%nat.
(** The gradients of the shape functions sum to zero over the nodes. *)
Hypothesis Hsum : forall j, rsum n (fun i => get B0_tilde i j) = 0.

Lemma H_translate :
  np.T (np.reshape (translate d u c) d) @@ B0_tilde = np.T (np.reshape u d) @@ B0_tilde.
Proof.
  assert (Hu' : is_mat n d (np.reshape u d)) by now apply is_mat_reshape.
  assert (Ht' : is_mat n d (np.reshape (translate d u c) d))
    by (apply is_mat_reshape; [now rewrite length_translate | assumption]).
  apply (mat_ext d d).
  - apply (is_mat_matmul d n d); auto using is_mat_T.
  - apply (is_mat_matmul d n d); auto using is_mat_T.
  - intros i j Hi Hj. rewrite !(get_matmul d n d) by auto using is_mat_T.
    transitivity (rsum n (fun l => get (np.reshape u d) l i * get B0_tilde l j
                                   + vget c i * get B0_tilde l j)).
    + apply rsum_ext. intros l Hl. rewrite (get_T n d) by assumption.
      rewrite (get_reshape n d) by (try assumption; now rewrite length_translate).
      rewrite (get_reshape n d) by assumption.
      unfold translate. rewrite vget_mk_vec by (rewrite Hu; now apply block_index_lt).
      replace ((d * l + i) mod d)%nat with i; [ring|].
      rewrite Nat.add_comm, Nat.mul_comm, Nat.Div0.mod_add. symmetry. now apply Nat.mod_small.
    + rewrite rsum_plus, rsum_scal_l, Hsum.
      rewrite (rsum_ext n _ (fun l => get (np.T (np.reshape u d)) i l * get B0_tilde l j)).
      * ring.
      * intros l _. now rewrite (get_T n d).
Qed.
End Translation.

(** Column sums *)

Lemma colsum_matmul n k d A B j :
  is_mat n k A -> is_mat k d B -> (0 < n)%nat -> (0 < k)%nat ->
  colsum n (A @@ B) j = rsum k (fun l => colsum n A l * get B l j).
Proof.
  intros HA HB Hn Hk. unfold colsum.
  erewrite rsum_ext; [|intros i _; rewrite (get_matmul n k d) by assumption; reflexivity].
  rewrite rsum_swap. apply rsum_ext. intros l _. now rewrite rsum_scal_r.
Qed.

Lemma colsum_s_mul n d c A j :
  is_mat n d A -> (0 < n)%nat -> colsum n (c !* A) j = c * colsum n A j.
Proof.
  intros HA Hn. unfold colsum. rewrite <- rsum_scal_l.
  apply rsum_ext. intros i _. now rewrite (get_s_mul n d).
Qed.

(** A literal array has the shape it is written with. *)
Ltac literal_shape := split; [reflexivity | repeat constructor].

(** Sums over the rows of a literal array, column by column. *)
Tactic Notation "literal_colsum" integer(d) :=
  let l := fresh "l" in
  intros l; unfold colsum;
  do d (destruct l as [|l]; [cbn [rsum get nth]; first [ring | field]|]);
  cbn [rsum get nth]; destruct l; cbn [rsum get nth]; ring.

Lemma Tri6_B0_tilde_shape X1 Y1 X2 Y2 X3 Y3 X4 Y4 X5 Y5 X6 Y6 L1 L2 L3 Bt det :
  Tri6.B0_tilde_det X1 Y1 X2 Y2 X3 Y3 X4 Y4 X5 Y5 X6 Y6 L1 L2 L3 = Returns (Bt, det) ->
  is_mat 6 2 Bt /\ forall j, colsum 6 Bt j = 0.
Proof.
  unfold Tri6.B0_tilde_det, one_over. intros H. cbv zeta in H.
  destruct (Req_EM_T _ 0) as [|Hdet] in H; [discriminate|].
  cbn [mbind outcome_bind] in H. 
  injection H as <- <-.
  match goal with |- context [?A @@ (?c !* ?B)] =>
    set (dN_dL := A); set (L := B); set (dL_dX := c !* L) end.
  assert (HdN : is_mat 6 3 dN_dL) by literal_shape.
  assert (HL : is_mat 3 2 L) by literal_shape.
  assert (HdL : is_mat 3 2 dL_dX) by (apply is_mat_s_mul; [assumption | lia]).
  split; [apply (is_mat_matmul 6 3 2); auto; lia|].
  intros j. rewrite (colsum_matmul 6 3 2) by (auto; lia).
  assert (HA : forall l, (l < 3)%nat -> colsum 6 dN_dL l = 4 * (L1 + L2 + L3) - 1).
  { intros l Hl. unfold dN_dL. do 3 (destruct l as [|l]; [cbn [colsum rsum get nth]; ring|]). lia. }
  rewrite (rsum_ext 3 _ (fun l => (4 * (L1 + L2 + L3) - 1) * get dL_dX l j))
    by (intros l Hl; now rewrite HA).
  rewrite rsum_scal_l. fold (colsum 3 dL_dX j).
  unfold dL_dX. rewrite (colsum_s_mul 3 2) by (auto; lia).
  match goal with |- _ * (_ * ?c) = 0 => assert (Hc : c = 0); [|rewrite Hc; ring] end.
  unfold L. revert j. literal_colsum 2.
Qed.

(** Accumulating a force contribution [B0.T @ S_v * ...] with [S_v = 0]. *)
Lemma f_accumulate_zero n f B k (scale : vector -> vector) :
  f = np.zeros n ->
  (forall v, (forall i, vget v i = 0) -> forall i, vget (scale v) i = 0) ->
  f +^ scale (B @| np.zeros k) = np.zeros n.
Proof.
  intros -> Hs. apply eq_zeros.
  - now rewrite length_vadd, length_zeros.
  - intros i. destruct (Nat.lt_ge_cases i n).
    + rewrite vget_vadd by now rewrite length_zeros.
      rewrite vget_zeros, Hs; [ring|]. intros. apply vget_dot_zeros.
    + apply vget_oob. rewrite length_vadd, length_zeros. lia.
Qed.

Lemma vzero_vmul_s v c : (forall i, vget v i = 0) -> forall i, vget (v *^ c) i = 0.
Proof. intros Hz i. rewrite vget_vmul_s, Hz. ring. Qed.

Lemma vzero_vdiv_s v c : (forall i, vget v i = 0) -> forall i, vget (v /^ c) i = 0.
Proof. intros Hz i. rewrite vget_vdiv_s, Hz. unfold Rdiv. ring. Qed.

(** Loops *)

Lemma for_enumerate_invariant {A St : Type} (I : St -> Prop)
  (body : nat -> A -> St -> outcome St) (xs : list A) :
  (forall k x s s', I s -> body k x s = Returns s' -> I s') ->
  forall n st st', I st -> for_enumerate body n xs st = Returns st' -> I st'.
Proof.
  intros Hbody. induction xs as [|x xs IH]; intros n st st' HI Hrun; simpl in Hrun.
  - now injection Hrun as <-.
  - destruct (body n x st) as [s1| |] eqn:Hb; try discriminate.
    cbn [mbind outcome_bind] in Hrun. eapply IH; [|exact Hrun]. eapply Hbody; eassumption.
Qed.

Lemma for_enumerate_ext {A St : Type} (body1 body2 : nat -> A -> St -> outcome St) xs :
  (forall k x s, body1 k x s = body2 k x s) ->
  forall n st, for_enumerate body1 n xs st = for_enumerate body2 n xs st.
Proof.
  intros Hb. induction xs as [|x xs IH]; intros n st; simpl; [reflexivity|].
  rewrite Hb. destruct (body2 n x st); cbn [mbind outcome_bind]; auto.
Qed.

(** The strain [E] is symmetric whatever the displacement gradient. *)
Lemma E_symmetric d H :
  (0 < d)%nat -> is_mat d d H -> symmetric d ((1/2) !* (H +! np.T H +! np.T H @@ H)).
Proof.
  intros Hd HH.
  assert (HT : is_mat d d (np.T H)) by now apply is_mat_T.
  assert (HM : is_mat d d (np.T H @@ H)) by now apply (is_mat_matmul d d d).
  assert (HA : is_mat d d (H +! np.T H)) by now apply is_mat_add.
  apply symmetric_s_mul; [assumption|]. apply symmetric_add; [assumption| |].
  - split; [assumption|]. intros i j.
    rewrite !(get_add d d), !(get_T d d) by assumption. ring.
  - split; [assumption|]. intros i j. rewrite !(get_matmul d d d) by assumption.
    apply rsum_ext. intros l _. rewrite !(get_T d d) by assumption. ring.
Qed.

Create HintDb sym.
#[local] Hint Resolve symmetric_add symmetric_mul_s symmetric_s_mul symmetric_div_s : sym.
#[local] Hint Extern 1 (_ < _)%nat => lia : sym.

Lemma is_mat_H n d u_mat Bt :
  (0 < n)%nat -> (0 < d)%nat -> is_mat n d u_mat -> is_mat n d Bt ->
  is_mat d d (np.T u_mat @@ Bt).
Proof. intros. apply (is_mat_matmul d n d); auto using is_mat_T. Qed.

Lemma is_mat_F n d u_mat Bt :
  (0 < n)%nat -> (0 < d)%nat -> is_mat n d u_mat -> is_mat n d Bt ->
  is_mat d d (np.T u_mat @@ Bt +! np.eye d).
Proof. intros. apply is_mat_add; [now apply (is_mat_H n)|assumption]. Qed.

Lemma for_enumerate_count {A St : Type} (size : St -> nat)
  (body : nat -> A -> St -> outcome St) (xs : list A) :
  (forall k x s s', body k x s = Returns s' -> size s' = S (size s)) ->
  forall n st st', for_enumerate body n xs st = Returns st' ->
                   size st' = (size st + length xs)%nat.
Proof.
  intros Hbody. induction xs as [|x xs IH]; intros n st st' Hrun; simpl in Hrun.
  - injection Hrun as <-. simpl. lia.
  - destruct (body n x st) as [s1| |] eqn:Hb; try discriminate.
    cbn [mbind outcome_bind] in Hrun. apply IH in Hrun. apply Hbody in Hb. simpl. lia.
Qed.

Lemma symmetric_reset n A : (0 < n)%nat -> is_mat n n A -> symmetric n (A *! 0).
Proof.
  intros Hn HA. split; [now apply is_mat_mul_s|].
  intros i j. rewrite !(get_mul_s n n) by assumption. ring.
Qed.

Lemma colsum_matmul_zero n k d A B j :
  is_mat n k A -> is_mat k d B -> (0 < n)%nat -> (0 < k)%nat ->
  (forall l, colsum n A l = 0) -> colsum n (A @@ B) j = 0.
Proof.
  intros HA HB Hn Hk Hz. rewrite (colsum_matmul n k d) by assumption.
  apply rsum_zero. intros l _. rewrite Hz. ring.
Qed.

Lemma colsum_s_mul_zero n d c A j :
  is_mat n d A -> (0 < n)%nat -> colsum n A j = 0 -> colsum n (c !* A) j = 0.
Proof. intros HA Hn Hz. rewrite (colsum_s_mul n d), Hz by assumption. ring. Qed.

Lemma is_mat_linalg_inv n A Ai :
  is_mat n n A -> np.linalg_inv A = Returns Ai -> is_mat n n Ai.
Proof.
  intros HA. unfold np.linalg_inv. destruct (Req_EM_T _ 0); [discriminate|].
  intros [= <-]. rewrite (is_mat_shape0 _ _ _ HA). apply mk_mat_is_mat.
Qed.

Lemma Quad4_B0_tilde_shape X_mat xi eta Bt det :
  is_mat 4 2 X_mat ->
  Quad4.B0_tilde_det X_mat xi eta = Returns (Bt, det) ->
  is_mat 4 2 Bt /\ forall j, colsum 4 Bt j = 0.
Proof.
  intros HX. unfold Quad4.B0_tilde_det, one_over. intros H. cbv zeta in H.
  destruct (Req_EM_T _ 0) as [|Hdet] in H; [discriminate|].
  cbn [mbind outcome_bind] in H. injection H as <- <-.
  match goal with |- context [?A @@ (?c !* ?B)] =>
    set (dN_dxi := A); set (L := B); set (dxi_dX := c !* L) end.
  assert (HdN : is_mat 4 2 dN_dxi) by literal_shape.
  assert (HL : is_mat 2 2 L) by literal_shape.
  assert (HdL : is_mat 2 2 dxi_dX) by (apply is_mat_s_mul; [assumption | lia]).
  split; [apply (is_mat_matmul 4 2 2); auto; lia|].
  intros j. apply (colsum_matmul_zero 4 2 2); auto; try lia.
  unfold dN_dxi. literal_colsum 2.
Qed.

Lemma Quad8_B0_tilde_shape X_mat xi eta Bt det :
  is_mat 8 2 X_mat ->
  Quad8.B0_tilde_det X_mat xi eta = Returns (Bt, det) ->
  is_mat 8 2 Bt /\ forall j, colsum 8 Bt j = 0.
Proof.
  intros HX. unfold Quad8.B0_tilde_det, one_over. intros H. cbv zeta in H.
  destruct (Req_EM_T _ 0) as [|Hdet] in H; [discriminate|].
  cbn [mbind outcome_bind] in H. injection H as <- <-.
  match goal with |- context [?A @@ (?c !* ?B)] =>
    set (dN_dxi := A); set (L := B); set (dxi_dX := c !* L) end.
  assert (HdN : is_mat 8 2 dN_dxi) by literal_shape.
  assert (HL : is_mat 2 2 L) by literal_shape.
  assert (HdL : is_mat 2 2 dxi_dX) by (apply is_mat_s_mul; [assumption | lia]).
  split; [apply (is_mat_matmul 8 2 2); auto; lia|].
  intros j. apply (colsum_matmul_zero 8 2 2); auto; try lia.
  unfold dN_dxi. literal_colsum 2.
Qed.

Lemma Hexa8_B0_tilde_shape X_mat xi eta zeta Bt det :
  is_mat 8 3 X_mat ->
  Hexa8.B0_tilde_det X_mat xi eta zeta = Returns (Bt, det) ->
  is_mat 8 3 Bt /\ forall j, colsum 8 Bt j = 0.
Proof.
  intros HX. unfold Hexa8.B0_tilde_det. intros H. cbv zeta in H.
  match type of H with context [(?c !* ?B)] => set (L := B) in H; set (dN_dxi := c !* L) in H end.
  assert (HL : is_mat 8 3 L) by literal_shape.
  assert (HdN : is_mat 8 3 dN_dxi) by (apply is_mat_s_mul; [assumption | lia]).
  destruct (np.linalg_inv _) as [dxi_dX| |] eqn:Hinv in H; try discriminate.
  cbn [mbind outcome_bind] in H. injection H as <- <-.
  apply (is_mat_linalg_inv 3) in Hinv;
    [|apply (is_mat_matmul 3 8 3); [apply is_mat_T; [assumption|lia] | assumption | lia]].
  split; [apply (is_mat_matmul 8 3 3); auto; lia|].
  intros j. apply (colsum_matmul_zero 8 3 3); auto; try lia.
  intros l. apply (colsum_s_mul_zero 8 3); auto; try lia.
  unfold L. revert l. literal_colsum 3.
Qed.

Lemma Hexa20_B0_tilde_shape X_mat xi eta zeta Bt det :
  is_mat 20 3 X_mat ->
  Hexa20.B0_tilde_det X_mat xi eta zeta = Returns (Bt, det) ->
  is_mat 20 3 Bt /\ forall j, colsum 20 Bt j = 0.
Proof.
  intros HX. unfold Hexa20.B0_tilde_det. intros H. cbv zeta in H.
  match type of H with context [(?c !* ?B)] => set (L := B) in H; set (dN_dxi := c !* L) in H end.
  assert (HL : is_mat 20 3 L) by literal_shape.
  assert (HdN : is_mat 20 3 dN_dxi) by (apply is_mat_s_mul; [assumption | lia]).
  destruct (np.linalg_inv _) as [dxi_dX| |] eqn:Hinv in H; try discriminate.
  cbn [mbind outcome_bind] in H. injection H as <- <-.
  apply (is_mat_linalg_inv 3) in Hinv;
    [|apply (is_mat_matmul 3 20 3); [apply is_mat_T; [assumption|lia] | assumption | lia]].
  split; [apply (is_mat_matmul 20 3 3); auto; lia|].
  intros j. apply (colsum_matmul_zero 20 3 3); auto; try lia.
  intros l. apply (colsum_s_mul_zero 20 3); auto; try lia.
  unfold L. revert l. literal_colsum 3.
Qed.

Lemma Tri3_dN_dX_shape c X1 Y1 X2 Y2 X3 Y3 :
  let dN_dX := c !* [[Y2-Y3; X3-X2]; [Y3-Y1; X1-X3]; [Y1-Y2; X2-X1]] in
  is_mat 3 2 dN_dX /\ forall j, colsum 3 dN_dX j = 0.
Proof.
  intros dN_dX. unfold dN_dX.
  match goal with |- context [?c !* ?B] => set (L := B) end.
  assert (HL : is_mat 3 2 L) by literal_shape.
  split; [apply is_mat_s_mul; [assumption | lia]|].
  intros j. apply (colsum_s_mul_zero 3 2); auto; try lia.
  unfold L. revert j. literal_colsum 2.
Qed.

Lemma Tet4_B0_tilde_shape c X1 Y1 Z1 X2 Y2 Z2 X3 Y3 Z3 X4 Y4 Z4 :
  let B0_tilde := c !* [
        [ - Y2*Z3 + Y2*Z4 + Y3*Z2 - Y3*Z4 - Y4*Z2 + Y4*Z3;
        X2*Z3 - X2*Z4 - X3*Z2 + X3*Z4 + X4*Z2 - X4*Z3;
        - X2*Y3 + X2*Y4 + X3*Y2 - X3*Y4 - X4*Y2 + X4*Y3];
        [ Y1*Z3 - Y1*Z4 - Y3*Z1 + Y3*Z4 + Y4*Z1 - Y4*Z3;
        - X1*Z3 + X1*Z4 + X3*Z1 - X3*Z4 - X4*Z1 + X4*Z3;
        X1*Y3 - X1*Y4 - X3*Y1 + X3*Y4 + X4*Y1 - X4*Y3];
        [ - Y1*Z2 + Y1*Z4 + Y2*Z1 - Y2*Z4 - Y4*Z1 + Y4*Z2;
        X1*Z2 - X1*Z4 - X2*Z1 + X2*Z4 + X4*Z1 - X4*Z2;
        - X1*Y2 + X1*Y4 + X2*Y1 - X2*Y4 - X4*Y1 + X4*Y2];
        [ Y1*Z2 - Y1*Z3 - Y2*Z1 + Y2*Z3 + Y3*Z1 - Y3*Z2;
        - X1*Z2 + X1*Z3 + X2*Z1 - X2*Z3 - X3*Z1 + X3*Z2;
        X1*Y2 - X1*Y3 - X2*Y1 + X2*Y3 + X3*Y1 - X3*Y2]] in
  is_mat 4 3 B0_tilde /\ forall j, colsum 4 B0_tilde j = 0.
Proof.
  intros B0_tilde. unfold B0_tilde.
  match goal with |- context [?c !* ?B] => set (L := B) end.
  assert (HL : is_mat 4 3 L) by literal_shape.
  split; [apply is_mat_s_mul; [assumption | lia]|].
  intros j. apply (colsum_s_mul_zero 4 3); auto; try lia.
  unfold L. revert j. literal_colsum 3.
Qed.

(** The quadratic tetrahedron: each column of [B0_tilde] sums to
    [(4 (L1+L2+L3+L4) - 1)] times the sum of four cofactors, which vanishes. *)
Lemma Tet10_literal_colsum a1 a2 a3 a4 b1 b2 b3 b4 c1 c2 c3 c4 L1 L2 L3 L4 :
  a1 + a2 + a3 + a4 = 0 -> b1 + b2 + b3 + b4 = 0 -> c1 + c2 + c3 + c4 = 0 ->
  forall j, colsum 10 [
     [    a1*(4*L1 - 1);     b1*(4*L1 - 1);     c1*(4*L1 - 1)];
     [    a2*(4*L2 - 1);     b2*(4*L2 - 1);     c2*(4*L2 - 1)];
     [    a3*(4*L3 - 1);     b3*(4*L3 - 1);     c3*(4*L3 - 1)];
     [    a4*(4*L4 - 1);     b4*(4*L4 - 1);     c4*(4*L4 - 1)];
     [4*L1*a2 + 4*L2*a1; 4*L1*b2 + 4*L2*b1; 4*L1*c2 + 4*L2*c1];
     [4*L2*a3 + 4*L3*a2; 4*L2*b3 + 4*L3*b2; 4*L2*c3 + 4*L3*c2];
     [4*L1*a3 + 4*L3*a1; 4*L1*b3 + 4*L3*b1; 4*L1*c3 + 4*L3*c1];
     [4*L1*a4 + 4*L4*a1; 4*L1*b4 + 4*L4*b1; 4*L1*c4 + 4*L4*c1];
     [4*L2*a4 + 4*L4*a2; 4*L2*b4 + 4*L4*b2; 4*L2*c4 + 4*L4*c2];
     [4*L3*a4 + 4*L4*a3; 4*L3*b4 + 4*L4*b3; 4*L3*c4 + 4*L4*c3]] j = 0.
Proof.
  intros Ha Hb Hc j. unfold colsum.
  destruct j as [|[|[|j]]]; cbn [rsum get nth].
  - transitivity ((4 * (L1 + L2 + L3 + L4) - 1) * (a1 + a2 + a3 + a4)); [ring | rewrite Ha; ring].
  - transitivity ((4 * (L1 + L2 + L3 + L4) - 1) * (b1 + b2 + b3 + b4)); [ring | rewrite Hb; ring].
  - transitivity ((4 * (L1 + L2 + L3 + L4) - 1) * (c1 + c2 + c3 + c4)); [ring | rewrite Hc; ring].
  - destruct j; cbn [nth]; ring.
Qed.

Lemma Tet10_B0_tilde_shape
  X1 Y1 Z1 X2 Y2 Z2 X3 Y3 Z3 X4 Y4 Z4 X5 Y5 Z5 X6 Y6 Z6 X7 Y7 Z7 X8 Y8 Z8 X9 Y9 Z9
  X10 Y10 Z10 L1 L2 L3 L4 Bt det :
  Tet10.B0_tilde_det X1 Y1 Z1 X2 Y2 Z2 X3 Y3 Z3 X4 Y4 Z4 X5 Y5 Z5 X6 Y6 Z6 X7 Y7 Z7
    X8 Y8 Z8 X9 Y9 Z9 X10 Y10 Z10 L1 L2 L3 L4 = Returns (Bt, det) ->
  is_mat 10 3 Bt /\ forall j, colsum 10 Bt j = 0.
Proof.
  unfold Tet10.B0_tilde_det, one_over. intros H. cbv zeta in H.
  destruct (Req_EM_T _ 0) as [|Hdet] in H; [discriminate|].
  cbn [mbind outcome_bind] in H. injection H as <- <-.
  match goal with |- context [?c !* ?B] => set (L := B) end.
  assert (HL : is_mat 10 3 L) by literal_shape.
  split; [apply is_mat_s_mul; [assumption | lia]|].
  intros j. apply (colsum_s_mul_zero 10 3); auto; try lia.
  unfold L. apply Tet10_literal_colsum; ring.
Qed.

Lemma reset_force n f : length f = n -> f *^ 0 = np.zeros n.
Proof.
  intros Hl. apply eq_zeros.
  - unfold np.vmul_s. now rewrite length_mk_vec.
  - intros i. rewrite vget_vmul_s. ring.
Qed.

Lemma length_vmul_s v c : length (v *^ c) = length v.
Proof. apply length_mk_vec. Qed.

Lemma length_vdiv_s v c : length (v /^ c) = length v.
Proof. apply length_mk_vec. Qed.

Lemma length_dot A v : length (A @| v) = np.shape0 A.
Proof. apply length_mk_vec. Qed.

(** [f + B0.T @ S_v * ...] with [f = 0] and [S_v = 0] is the zero vector. *)
Ltac zero_force n :=
  apply eq_zeros; [now rewrite length_vadd, length_zeros|];
  let i := fresh "i" in
  intros i; destruct (Nat.lt_ge_cases i n);
  [ rewrite vget_vadd by (now rewrite length_zeros);
    rewrite vget_zeros; repeat rewrite ?vget_vmul_s, ?vget_vdiv_s;
    rewrite vget_dot_zeros; unfold Rdiv; ring
  | apply vget_oob; rewrite length_vadd, length_zeros; lia ].

(** Scalar factors and sums of symmetric matrices. *)
Ltac symmetric_scaled :=
  repeat first [ assumption
               | apply symmetric_mul_s; [lia|]
               | apply symmetric_s_mul; [lia|]
               | apply symmetric_div_s; [lia|]
               | apply symmetric_add; [lia| |] ].

(** *** Tri6 *)

Lemma Tri6_gauss_point_zero m n_gauss w Bt det self tr :
  is_mat 6 2 Bt -> zero_law 2 (mat_S_Sv_and_C_2d m) -> el_f self = np.zeros 12 ->
  exists self',
    Tri6.gauss_point m (np.reshape (np.zeros 12) 2) n_gauss w Bt det (self, tr)
    = (self', tr ++ [(np.eye 2, np.zeros2 2 2)]) /\ el_f self' = np.zeros 12.
Proof.
  intros HB [C HC] Hf. unfold Tri6.gauss_point. cbv zeta.
  pose proof (H_zero 6 2 Bt ltac:(lia) ltac:(lia) HB) as HZ.
  change (6 * 2)%nat with 12%nat in HZ. rewrite !HZ.
  rewrite (F_zero 2), (E_zero 2) by lia. rewrite HC.
  eexists. split; [reflexivity|]. cbn [el_f]. rewrite Hf. zero_force 12%nat.
Qed.

Lemma Tri6_gauss_point_sym m u_mat n_gauss w Bt det self tr :
  is_mat 6 2 Bt -> is_mat 6 2 u_mat -> symmetric_law 2 (mat_S_Sv_and_C_2d m) ->
  symmetric 12 (el_K self) ->
  symmetric 12 (el_K (Tri6.gauss_point m u_mat n_gauss w Bt det (self, tr)).1).
Proof.
  intros HB Hu Hlaw HK. unfold Tri6.gauss_point. cbv zeta.
  set (H := np.T u_mat @@ Bt).
  assert (HH : is_mat 2 2 H) by (apply (is_mat_H 6 2); auto; lia).
  set (E := (1/2) !* (H +! np.T H +! np.T H @@ H)).
  destruct (Hlaw E) as [HS HC]; [apply E_symmetric; [lia|assumption]|].
  destruct (mat_S_Sv_and_C_2d m E) as [[S' S_v] C_SE]. cbn [fst snd el_K] in *.
  set (B0 := compute_B_matrix Bt (H +! np.eye 2)).
  assert (HB0 : is_mat 3 12 B0)
    by (apply (is_mat_compute_B_matrix 6 2); [assumption | lia | cbv; lia]).
  pose proof (symmetric_BSBt 6 2 Bt S' ltac:(lia) ltac:(lia) HB HS) as HG.
  pose proof (symmetric_BtCB 3 12 B0 C_SE ltac:(lia) ltac:(lia) HB0 HC) as HM.
  apply symmetric_add; [lia | assumption |]. symmetric_scaled.
  apply (symmetric_scatter_matrix 6 2). symmetric_scaled.
Qed.

Lemma Tri6_gauss_point_translate m u c n_gauss w Bt det st :
  is_mat 6 2 Bt -> (forall j, colsum 6 Bt j = 0) -> length u = 12%nat ->
  Tri6.gauss_point m (np.reshape (translate 2 u c) 2) n_gauss w Bt det st
  = Tri6.gauss_point m (np.reshape u 2) n_gauss w Bt det st.
Proof.
  intros HB Hsum Hu. unfold Tri6.gauss_point.
  rewrite (H_translate 6 2 Bt u c) by (auto; lia). reflexivity.
Qed.

Lemma Tri6_gauss_point_trace m u_mat n_gauss w Bt det self tr :
  length (Tri6.gauss_point m u_mat n_gauss w Bt det (self, tr)).2 = S (length tr).
Proof.
  unfold Tri6.gauss_point. cbv zeta.
  destruct (mat_S_Sv_and_C_2d m _) as [[S' S_v] C_SE]. cbn [snd].
  rewrite length_app. simpl. lia.
Qed.

Lemma Tri6_compute_tensors_zero self m X t self' trace :
  el_material self = Some m -> length (el_f self) = 12%nat ->
  zero_law 2 (mat_S_Sv_and_C_2d m) ->
  Tri6._compute_tensors self X (np.zeros 12) t = Returns (self', trace) ->
  trace_is_rest 2 trace /\ el_f self' = np.zeros 12.
Proof.
  intros Hm Hf Hlaw. unfold Tri6._compute_tensors.
  repeat (destruct X as [|? X]; [discriminate|]). destruct X; [|discriminate].
  rewrite length_zeros. rewrite Hm. cbn [andb Nat.eqb require_shape attr mbind outcome_bind].
  intros Hrun.
  apply (for_enumerate_invariant
           (fun st => trace_is_rest 2 st.2 /\ el_f st.1 = np.zeros 12)) in Hrun;
    [exact Hrun | | ].
  - intros k [[[L1 L2] L3] w] [s tr] [s' tr'] [Htr Hfs] Hb. cbn [fst snd] in *.
    destruct (Tri6.B0_tilde_det _ _ _ _ _ _ _ _ _ _ _ _ _ _ _) as [[Bt det]| |] eqn:HJ;
      try discriminate.
    cbn [mbind outcome_bind] in Hb.
    apply Tri6_B0_tilde_shape in HJ as [HB Hsum].
    destruct (Tri6_gauss_point_zero m k w Bt det s tr HB Hlaw Hfs) as (s1 & Hgp & Hf1).
    rewrite Hgp in Hb. injection Hb as <- <-. split; [|assumption].
    apply Forall_app. split; [assumption | now constructor].
  - cbn [fst snd el_f]. split; [constructor|]. now apply reset_force.
Qed.

Lemma Tri6_compute_tensors_sym self m X u t self' trace :
  el_material self = Some m -> is_mat 12 12 (el_K self) ->
  symmetric_law 2 (mat_S_Sv_and_C_2d m) ->
  Tri6._compute_tensors self X u t = Returns (self', trace) ->
  symmetric 12 (el_K self').
Proof.
  intros Hm HK Hlaw. unfold Tri6._compute_tensors.
  repeat (destruct X as [|? X]; [discriminate|]). destruct X; [|discriminate].
  destruct (Nat.eqb_spec (length u) 12) as [Hu|]; [|discriminate].
  rewrite Hm. cbn [andb require_shape attr mbind outcome_bind].
  intros Hrun.
  apply (for_enumerate_invariant (fun st => symmetric 12 (el_K st.1))) in Hrun;
    [exact Hrun | | ].
  - intros k [[[L1 L2] L3] w] [s tr] [s' tr'] HI Hb. cbn [fst snd] in *.
    destruct (Tri6.B0_tilde_det _ _ _ _ _ _ _ _ _ _ _ _ _ _ _) as [[Bt det]| |] eqn:HJ;
      try discriminate.
    cbn [mbind outcome_bind] in Hb.
    apply Tri6_B0_tilde_shape in HJ as [HB Hsum].
    injection Hb as Hb. apply (f_equal fst) in Hb. cbn [fst] in Hb. rewrite <- Hb.
    apply Tri6_gauss_point_sym; try assumption.
    apply is_mat_reshape; [exact Hu | lia].
  - cbn [fst el_K]. apply symmetric_reset; [lia | assumption].
Qed.

Lemma Tri6_compute_tensors_translate self X u c t :
  Tri6._compute_tensors self X (translate 2 u c) t = Tri6._compute_tensors self X u t.
Proof.
  unfold Tri6._compute_tensors.
  repeat (destruct X as [|? X]; [reflexivity|]). destruct X; [|reflexivity].
  rewrite length_translate.
  destruct (Nat.eqb_spec (length u) 12) as [Hu|]; [|reflexivity].
  cbn [andb require_shape mbind outcome_bind].
  destruct (el_material self) as [m|]; [|reflexivity]. cbn [attr mbind outcome_bind].
  apply for_enumerate_ext. intros k [[[L1 L2] L3] w] st.
  destruct (Tri6.B0_tilde_det _ _ _ _ _ _ _ _ _ _ _ _ _ _ _) as [[Bt det]| |] eqn:HJ;
    try reflexivity.
  cbn [mbind outcome_bind].
  apply Tri6_B0_tilde_shape in HJ as [HB Hsum].
  f_equal. now apply Tri6_gauss_point_translate.
Qed.

Lemma Tri6_compute_tensors_trace self X u t self' trace :
  Tri6._compute_tensors self X u t = Returns (self', trace) ->
  length trace = length Tri6.gauss_points.
Proof.
  unfold Tri6._compute_tensors.
  repeat (destruct X as [|? X]; [discriminate|]). destruct X; [|discriminate].
  destruct (Nat.eqb_spec (length u) 12) as [Hu|]; [|discriminate].
  destruct (el_material self) as [m|]; [|discriminate].
  cbn [andb require_shape attr mbind outcome_bind]. intros Hrun.
  apply (for_enumerate_count (fun st => length st.2)) in Hrun; [exact Hrun|].
  intros k [[[L1 L2] L3] w] [s tr] s' Hb.
  destruct (Tri6.B0_tilde_det _ _ _ _ _ _ _ _ _ _ _ _ _ _ _) as [[Bt det]| |];
    try discriminate.
  cbn [mbind outcome_bind] in Hb. injection Hb as <-. apply Tri6_gauss_point_trace.
Qed.

(** *** Quad4 *)

Lemma Quad4_gauss_point_zero m n_gauss w Bt det self tr :
  is_mat 4 2 Bt -> zero_law 2 (mat_S_Sv_and_C_2d m) -> el_f self = np.zeros 8 ->
  exists self',
    Quad4.gauss_point m (np.reshape (np.zeros 8) 2) n_gauss w Bt det (self, tr)
    = (self', tr ++ [(np.eye 2, np.zeros2 2 2)]) /\ el_f self' = np.zeros 8.
Proof.
  intros HB [C HC] Hf. unfold Quad4.gauss_point. cbv zeta.
  pose proof (H_zero 4 2 Bt ltac:(lia) ltac:(lia) HB) as HZ.
  change (4 * 2)%nat with 8%nat in HZ. rewrite !HZ.
  rewrite (F_zero 2), (E_zero 2) by lia. rewrite HC.
  eexists. split; [reflexivity|]. cbn [el_f]. rewrite Hf. zero_force 8%nat.
Qed.

Lemma Quad4_gauss_point_sym m u_mat n_gauss w Bt det self tr :
  is_mat 4 2 Bt -> is_mat 4 2 u_mat -> symmetric_law 2 (mat_S_Sv_and_C_2d m) ->
  symmetric 8 (el_K self) ->
  symmetric 8 (el_K (Quad4.gauss_point m u_mat n_gauss w Bt det (self, tr)).1).
Proof.
  intros HB Hu Hlaw HK. unfold Quad4.gauss_point. cbv zeta.
  set (H := np.T u_mat @@ Bt).
  assert (HH : is_mat 2 2 H) by (apply (is_mat_H 4 2); auto; lia).
  set (E := (1/2) !* (H +! np.T H +! np.T H @@ H)).
  destruct (Hlaw E) as [HS HC]; [apply E_symmetric; [lia|assumption]|].
  destruct (mat_S_Sv_and_C_2d m E) as [[S' S_v] C_SE]. cbn [fst snd el_K] in *.
  set (B0 := compute_B_matrix Bt (H +! np.eye 2)).
  assert (HB0 : is_mat 3 8 B0)
    by (apply (is_mat_compute_B_matrix 4 2); [assumption | lia | cbv; lia]).
  pose proof (symmetric_BSBt 4 2 Bt S' ltac:(lia) ltac:(lia) HB HS) as HG.
  pose proof (symmetric_BtCB 3 8 B0 C_SE ltac:(lia) ltac:(lia) HB0 HC) as HM.
  apply symmetric_add; [lia | assumption |]. symmetric_scaled.
  apply (symmetric_scatter_matrix 4 2). symmetric_scaled.
Qed.

Lemma Quad4_gauss_point_translate m u c n_gauss w Bt det st :
  is_mat 4 2 Bt -> (forall j, colsum 4 Bt j = 0) -> length u = 8%nat ->
  Quad4.gauss_point m (np.reshape (translate 2 u c) 2) n_gauss w Bt det st
  = Quad4.gauss_point m (np.reshape u 2) n_gauss w Bt det st.
Proof.
  intros HB Hsum Hu. unfold Quad4.gauss_point.
  rewrite (H_translate 4 2 Bt u c) by (auto; lia). reflexivity.
Qed.

Lemma Quad4_gauss_point_trace m u_mat n_gauss w Bt det self tr :
  length (Quad4.gauss_point m u_mat n_gauss w Bt det (self, tr)).2 = S (length tr).
Proof.
  unfold Quad4.gauss_point. cbv zeta.
  destruct (mat_S_Sv_and_C_2d m _) as [[S' S_v] C_SE]. cbn [snd].
  rewrite length_app. simpl. lia.
Qed.

Lemma Quad4_compute_tensors_zero self m X t self' trace :
  el_material self = Some m -> length (el_f self) = 8%nat ->
  zero_law 2 (mat_S_Sv_and_C_2d m) ->
  Quad4._compute_tensors self X (np.zeros 8) t = Returns (self', trace) ->
  trace_is_rest 2 trace /\ el_f self' = np.zeros 8.
Proof.
  intros Hm Hf Hlaw. unfold Quad4._compute_tensors.
  destruct (Nat.eqb_spec (length X) 8) as [HX|]; [|discriminate].
  rewrite length_zeros. rewrite Hm. cbn [andb Nat.eqb require_shape attr mbind outcome_bind].
  intros Hrun.
  apply (for_enumerate_invariant
           (fun st => trace_is_rest 2 st.2 /\ el_f st.1 = np.zeros 8)) in Hrun;
    [exact Hrun | | ].
  - intros k [[xi eta] w] [s tr] [s' tr'] [Htr Hfs] Hb. cbn [fst snd] in *.
    destruct (Quad4.B0_tilde_det _ _ _) as [[Bt det]| |] eqn:HJ;
      try discriminate.
    cbn [mbind outcome_bind] in Hb.
    apply Quad4_B0_tilde_shape in HJ as [HB Hsum];
      [|apply is_mat_reshape; [exact HX | lia]].
    destruct (Quad4_gauss_point_zero m k w Bt det s tr HB Hlaw Hfs) as (s1 & Hgp & Hf1).
    rewrite Hgp in Hb. injection Hb as <- <-. split; [|assumption].
    apply Forall_app. split; [assumption | now constructor].
  - cbn [fst snd el_f]. split; [constructor|]. now apply reset_force.
Qed.

Lemma Quad4_compute_tensors_sym self m X u t self' trace :
  el_material self = Some m -> is_mat 8 8 (el_K self) ->
  symmetric_law 2 (mat_S_Sv_and_C_2d m) ->
  Quad4._compute_tensors self X u t = Returns (self', trace) ->
  symmetric 8 (el_K self').
Proof.
  intros Hm HK Hlaw. unfold Quad4._compute_tensors.
  destruct (Nat.eqb_spec (length X) 8) as [HX|]; [|discriminate].
  destruct (Nat.eqb_spec (length u) 8) as [Hu|]; [|discriminate].
  rewrite Hm. cbn [andb require_shape attr mbind outcome_bind].
  intros Hrun.
  apply (for_enumerate_invariant (fun st => symmetric 8 (el_K st.1))) in Hrun;
    [exact Hrun | | ].
  - intros k [[xi eta] w] [s tr] [s' tr'] HI Hb. cbn [fst snd] in *.
    destruct (Quad4.B0_tilde_det _ _ _) as [[Bt det]| |] eqn:HJ;
      try discriminate.
    cbn [mbind outcome_bind] in Hb.
    apply Quad4_B0_tilde_shape in HJ as [HB Hsum];
      [|apply is_mat_reshape; [exact HX | lia]].
    injection Hb as Hb. apply (f_equal fst) in Hb. cbn [fst] in Hb. rewrite <- Hb.
    apply Quad4_gauss_point_sym; try assumption.
    apply is_mat_reshape; [exact Hu | lia].
  - cbn [fst el_K]. apply symmetric_reset; [lia | assumption].
Qed.

Lemma Quad4_compute_tensors_translate self X u c t :
  Quad4._compute_tensors self X (translate 2 u c) t = Quad4._compute_tensors self X u t.
Proof.
  unfold Quad4._compute_tensors.
  destruct (Nat.eqb_spec (length X) 8) as [HX|]; [|reflexivity].
  rewrite length_translate.
  destruct (Nat.eqb_spec (length u) 8) as [Hu|]; [|reflexivity].
  cbn [andb require_shape mbind outcome_bind].
  destruct (el_material self) as [m|]; [|reflexivity]. cbn [attr mbind outcome_bind].
  apply for_enumerate_ext. intros k [[xi eta] w] st.
  destruct (Quad4.B0_tilde_det _ _ _) as [[Bt det]| |] eqn:HJ;
    try reflexivity.
  cbn [mbind outcome_bind].
  apply Quad4_B0_tilde_shape in HJ as [HB Hsum];
      [|apply is_mat_reshape; [exact HX | lia]].
  f_equal. now apply Quad4_gauss_point_translate.
Qed.

Lemma Quad4_compute_tensors_trace self X u t self' trace :
  Quad4._compute_tensors self X u t = Returns (self', trace) ->
  length trace = length Quad4.gauss_points.
Proof.
  unfold Quad4._compute_tensors.
  destruct (Nat.eqb_spec (length X) 8) as [HX|]; [|discriminate].
  destruct (Nat.eqb_spec (length u) 8) as [Hu|]; [|discriminate].
  destruct (el_material self) as [m|]; [|discriminate].
  cbn [andb require_shape attr mbind outcome_bind]. intros Hrun.
  apply (for_enumerate_count (fun st => length st.2)) in Hrun; [exact Hrun|].
  intros k [[xi eta] w] [s tr] s' Hb.
  destruct (Quad4.B0_tilde_det _ _ _) as [[Bt det]| |];
    try discriminate.
  cbn [mbind outcome_bind] in Hb. injection Hb as <-. apply Quad4_gauss_point_trace.
Qed.

(** *** Quad8 *)

Lemma Quad8_gauss_point_zero m n_gauss w Bt det self tr :
  is_mat 8 2 Bt -> zero_law 2 (mat_S_Sv_and_C_2d m) -> el_f self = np.zeros 16 ->
  exists self',
    Quad8.gauss_point m (np.reshape (np.zeros 16) 2) n_gauss w Bt det (self, tr)
    = (self', tr ++ [(np.eye 2, np.zeros2 2 2)]) /\ el_f self' = np.zeros 16.
Proof.
  intros HB [C HC] Hf. unfold Quad8.gauss_point. cbv zeta.
  pose proof (H_zero 8 2 Bt ltac:(lia) ltac:(lia) HB) as HZ.
  change (8 * 2)%nat with 16%nat in HZ. rewrite !HZ.
  rewrite (F_zero 2), (E_zero 2) by lia. rewrite HC.
  eexists. split; [reflexivity|]. cbn [el_f]. rewrite Hf. zero_force 16%nat.
Qed.

Lemma Quad8_gauss_point_sym m u_mat n_gauss w Bt det self tr :
  is_mat 8 2 Bt -> is_mat 8 2 u_mat -> symmetric_law 2 (mat_S_Sv_and_C_2d m) ->
  symmetric 16 (el_K self) ->
  symmetric 16 (el_K (Quad8.gauss_point m u_mat n_gauss w Bt det (self, tr)).1).
Proof.
  intros HB Hu Hlaw HK. unfold Quad8.gauss_point. cbv zeta.
  set (H := np.T u_mat @@ Bt).
  assert (HH : is_mat 2 2 H) by (apply (is_mat_H 8 2); auto; lia).
  set (E := (1/2) !* (H +! np.T H +! np.T H @@ H)).
  destruct (Hlaw E) as [HS HC]; [apply E_symmetric; [lia|assumption]|].
  destruct (mat_S_Sv_and_C_2d m E) as [[S' S_v] C_SE]. cbn [fst snd el_K] in *.
  set (B0 := compute_B_matrix Bt (H +! np.eye 2)).
  assert (HB0 : is_mat 3 16 B0)
    by (apply (is_mat_compute_B_matrix 8 2); [assumption | lia | cbv; lia]).
  pose proof (symmetric_BSBt 8 2 Bt S' ltac:(lia) ltac:(lia) HB HS) as HG.
  pose proof (symmetric_BtCB 3 16 B0 C_SE ltac:(lia) ltac:(lia) HB0 HC) as HM.
  apply symmetric_add; [lia | assumption |]. symmetric_scaled.
  apply (symmetric_scatter_matrix 8 2). symmetric_scaled.
Qed.

Lemma Quad8_gauss_point_translate m u c n_gauss w Bt det st :
  is_mat 8 2 Bt -> (forall j, colsum 8 Bt j = 0) -> length u = 16%nat ->
  Quad8.gauss_point m (np.reshape (translate 2 u c) 2) n_gauss w Bt det st
  = Quad8.gauss_point m (np.reshape u 2) n_gauss w Bt det st.
Proof.
  intros HB Hsum Hu. unfold Quad8.gauss_point.
  rewrite (H_translate 8 2 Bt u c) by (auto; lia). reflexivity.
Qed.

Lemma Quad8_gauss_point_trace m u_mat n_gauss w Bt det self tr :
  length (Quad8.gauss_point m u_mat n_gauss w Bt det (self, tr)).2 = S (length tr).
Proof.
  unfold Quad8.gauss_point. cbv zeta.
  destruct (mat_S_Sv_and_C_2d m _) as [[S' S_v] C_SE]. cbn [snd].
  rewrite length_app. simpl. lia.
Qed.

Lemma Quad8_compute_tensors_zero self m X t self' trace :
  el_material self = Some m -> length (el_f self) = 16%nat ->
  zero_law 2 (mat_S_Sv_and_C_2d m) ->
  Quad8._compute_tensors self X (np.zeros 16) t = Returns (self', trace) ->
  trace_is_rest 2 trace /\ el_f self' = np.zeros 16.
Proof.
  intros Hm Hf Hlaw. unfold Quad8._compute_tensors.
  destruct (Nat.eqb_spec (length X) 16) as [HX|]; [|discriminate].
  rewrite length_zeros. rewrite Hm. cbn [andb Nat.eqb require_shape attr mbind outcome_bind].
  intros Hrun.
  apply (for_enumerate_invariant
           (fun st => trace_is_rest 2 st.2 /\ el_f st.1 = np.zeros 16)) in Hrun;
    [exact Hrun | | ].
  - intros k [[xi eta] w] [s tr] [s' tr'] [Htr Hfs] Hb. cbn [fst snd] in *.
    destruct (Quad8.B0_tilde_det _ _ _) as [[Bt det]| |] eqn:HJ;
      try discriminate.
    cbn [mbind outcome_bind] in Hb.
    apply Quad8_B0_tilde_shape in HJ as [HB Hsum];
      [|apply is_mat_reshape; [exact HX | lia]].
    destruct (Quad8_gauss_point_zero m k w Bt det s tr HB Hlaw Hfs) as (s1 & Hgp & Hf1).
    rewrite Hgp in Hb. injection Hb as <- <-. split; [|assumption].
    apply Forall_app. split; [assumption | now constructor].
  - cbn [fst snd el_f]. split; [constructor|]. now apply reset_force.
Qed.

Lemma Quad8_compute_tensors_sym self m X u t self' trace :
  el_material self = Some m -> is_mat 16 16 (el_K self) ->
  symmetric_law 2 (mat_S_Sv_and_C_2d m) ->
  Quad8._compute_tensors self X u t = Returns (self', trace) ->
  symmetric 16 (el_K self').
Proof.
  intros Hm HK Hlaw. unfold Quad8._compute_tensors.
  destruct (Nat.eqb_spec (length X) 16) as [HX|]; [|discriminate].
  destruct (Nat.eqb_spec (length u) 16) as [Hu|]; [|discriminate].
  rewrite Hm. cbn [andb require_shape attr mbind outcome_bind].
  intros Hrun.
  apply (for_enumerate_invariant (fun st => symmetric 16 (el_K st.1))) in Hrun;
    [exact Hrun | | ].
  - intros k [[xi eta] w] [s tr] [s' tr'] HI Hb. cbn [fst snd] in *.
    destruct (Quad8.B0_tilde_det _ _ _) as [[Bt det]| |] eqn:HJ;
      try discriminate.
    cbn [mbind outcome_bind] in Hb.
    apply Quad8_B0_tilde_shape in HJ as [HB Hsum];
      [|apply is_mat_reshape; [exact HX | lia]].
    injection Hb as Hb. apply (f_equal fst) in Hb. cbn [fst] in Hb. rewrite <- Hb.
    apply Quad8_gauss_point_sym; try assumption.
    apply is_mat_reshape; [exact Hu | lia].
  - cbn [fst el_K]. apply symmetric_reset; [lia | assumption].
Qed.

Lemma Quad8_compute_tensors_translate self X u c t :
  Quad8._compute_tensors self X (translate 2 u c) t = Quad8._compute_tensors self X u t.
Proof.
  unfold Quad8._compute_tensors.
  destruct (Nat.eqb_spec (length X) 16) as [HX|]; [|reflexivity].
  rewrite length_translate.
  destruct (Nat.eqb_spec (length u) 16) as [Hu|]; [|reflexivity].
  cbn [andb require_shape mbind outcome_bind].
  destruct (el_material self) as [m|]; [|reflexivity]. cbn [attr mbind outcome_bind].
  apply for_enumerate_ext. intros k [[xi eta] w] st.
  destruct (Quad8.B0_tilde_det _ _ _) as [[Bt det]| |] eqn:HJ;
    try reflexivity.
  cbn [mbind outcome_bind].
  apply Quad8_B0_tilde_shape in HJ as [HB Hsum];
      [|apply is_mat_reshape; [exact HX | lia]].
  f_equal. now apply Quad8_gauss_point_translate.
Qed.

Lemma Quad8_compute_tensors_trace self X u t self' trace :
  Quad8._compute_tensors self X u t = Returns (self', trace) ->
  length trace = length Quad8.gauss_points.
Proof.
  unfold Quad8._compute_tensors.
  destruct (Nat.eqb_spec (length X) 16) as [HX|]; [|discriminate].
  destruct (Nat.eqb_spec (length u) 16) as [Hu|]; [|discriminate].
  destruct (el_material self) as [m|]; [|discriminate].
  cbn [andb require_shape attr mbind outcome_bind]. intros Hrun.
  apply (for_enumerate_count (fun st => length st.2)) in Hrun; [exact Hrun|].
  intros k [[xi eta] w] [s tr] s' Hb.
  destruct (Quad8.B0_tilde_det _ _ _) as [[Bt det]| |];
    try discriminate.
  cbn [mbind outcome_bind] in Hb. injection Hb as <-. apply Quad8_gauss_point_trace.
Qed.

(** *** Tet10 *)

Lemma Tet10_gauss_point_zero m n_gauss w Bt det self tr :
  is_mat 10 3 Bt -> zero_law 3 (mat_S_Sv_and_C m) -> el_f self = np.zeros 30 ->
  exists self',
    Tet10.gauss_point m (np.reshape (np.zeros 30) 3) n_gauss w Bt det (self, tr)
    = (self', tr ++ [(np.eye 3, np.zeros2 3 3)]) /\ el_f self' = np.zeros 30.
Proof.
  intros HB [C HC] Hf. unfold Tet10.gauss_point. cbv zeta.
  pose proof (H_zero 10 3 Bt ltac:(lia) ltac:(lia) HB) as HZ.
  change (10 * 3)%nat with 30%nat in HZ. rewrite !HZ.
  rewrite (F_zero 3), (E_zero 3) by lia. rewrite HC.
  eexists. split; [reflexivity|]. cbn [el_f]. rewrite Hf. zero_force 30%nat.
Qed.

Lemma Tet10_gauss_point_sym m u_mat n_gauss w Bt det self tr :
  is_mat 10 3 Bt -> is_mat 10 3 u_mat -> symmetric_law 3 (mat_S_Sv_and_C m) ->
  symmetric 30 (el_K self) ->
  symmetric 30 (el_K (Tet10.gauss_point m u_mat n_gauss w Bt det (self, tr)).1).
Proof.
  intros HB Hu Hlaw HK. unfold Tet10.gauss_point. cbv zeta.
  set (H := np.T u_mat @@ Bt).
  assert (HH : is_mat 3 3 H) by (apply (is_mat_H 10 3); auto; lia).
  set (E := (1/2) !* (H +! np.T H +! np.T H @@ H)).
  destruct (Hlaw E) as [HS HC]; [apply E_symmetric; [lia|assumption]|].
  destruct (mat_S_Sv_and_C m E) as [[S' S_v] C_SE]. cbn [fst snd el_K] in *.
  set (B0 := compute_B_matrix Bt (H +! np.eye 3)).
  assert (HB0 : is_mat 6 30 B0)
    by (apply (is_mat_compute_B_matrix 10 3); [assumption | lia | cbv; lia]).
  pose proof (symmetric_BSBt 10 3 Bt S' ltac:(lia) ltac:(lia) HB HS) as HG.
  pose proof (symmetric_BtCB 6 30 B0 C_SE ltac:(lia) ltac:(lia) HB0 HC) as HM.
  apply symmetric_add; [lia | assumption |]. symmetric_scaled.
  apply (symmetric_scatter_matrix 10 3). symmetric_scaled.
Qed.

Lemma Tet10_gauss_point_translate m u c n_gauss w Bt det st :
  is_mat 10 3 Bt -> (forall j, colsum 10 Bt j = 0) -> length u = 30%nat ->
  Tet10.gauss_point m (np.reshape (translate 3 u c) 3) n_gauss w Bt det st
  = Tet10.gauss_point m (np.reshape u 3) n_gauss w Bt det st.
Proof.
  intros HB Hsum Hu. unfold Tet10.gauss_point.
  rewrite (H_translate 10 3 Bt u c) by (auto; lia). reflexivity.
Qed.

Lemma Tet10_gauss_point_trace m u_mat n_gauss w Bt det self tr :
  length (Tet10.gauss_point m u_mat n_gauss w Bt det (self, tr)).2 = S (length tr).
Proof.
  unfold Tet10.gauss_point. cbv zeta.
  destruct (mat_S_Sv_and_C m _) as [[S' S_v] C_SE]. cbn [snd].
  rewrite length_app. simpl. lia.
Qed.

Lemma Tet10_compute_tensors_zero self m X t self' trace :
  el_material self = Some m -> length (el_f self) = 30%nat ->
  zero_law 3 (mat_S_Sv_and_C m) ->
  Tet10._compute_tensors self X (np.zeros 30) t = Returns (self', trace) ->
  trace_is_rest 3 trace /\ el_f self' = np.zeros 30.
Proof.
  intros Hm Hf Hlaw. unfold Tet10._compute_tensors.
  repeat (destruct X as [|? X]; [discriminate|]). destruct X; [|discriminate].
  rewrite length_zeros. rewrite Hm. cbn [andb Nat.eqb require_shape attr mbind outcome_bind].
  intros Hrun.
  apply (for_enumerate_invariant
           (fun st => trace_is_rest 3 st.2 /\ el_f st.1 = np.zeros 30)) in Hrun;
    [exact Hrun | | ].
  - intros k [[[[L1 L2] L3] L4] w] [s tr] [s' tr'] [Htr Hfs] Hb. cbn [fst snd] in *.
    destruct (Tet10.B0_tilde_det _ _ _ _ _ _ _ _ _ _ _ _ _ _ _ _ _ _ _ _ _ _ _ _ _ _ _ _ _ _ _ _ _ _) as [[Bt det]| |] eqn:HJ;
      try discriminate.
    cbn [mbind outcome_bind] in Hb.
    apply Tet10_B0_tilde_shape in HJ as [HB Hsum].
    destruct (Tet10_gauss_point_zero m k w Bt det s tr HB Hlaw Hfs) as (s1 & Hgp & Hf1).
    rewrite Hgp in Hb. injection Hb as <- <-. split; [|assumption].
    apply Forall_app. split; [assumption | now constructor].
  - cbn [fst snd el_f]. split; [constructor|]. now apply reset_force.
Qed.

Lemma Tet10_compute_tensors_sym self m X u t self' trace :
  el_material self = Some m -> is_mat 30 30 (el_K self) ->
  symmetric_law 3 (mat_S_Sv_and_C m) ->
  Tet10._compute_tensors self X u t = Returns (self', trace) ->
  symmetric 30 (el_K self').
Proof.
  intros Hm HK Hlaw. unfold Tet10._compute_tensors.
  repeat (destruct X as [|? X]; [discriminate|]). destruct X; [|discriminate].
  destruct (Nat.eqb_spec (length u) 30) as [Hu|]; [|discriminate].
  rewrite Hm. cbn [andb require_shape attr mbind outcome_bind].
  intros Hrun.
  apply (for_enumerate_invariant (fun st => symmetric 30 (el_K st.1))) in Hrun;
    [exact Hrun | | ].
  - intros k [[[[L1 L2] L3] L4] w] [s tr] [s' tr'] HI Hb. cbn [fst snd] in *.
    destruct (Tet10.B0_tilde_det _ _ _ _ _ _ _ _ _ _ _ _ _ _ _ _ _ _ _ _ _ _ _ _ _ _ _ _ _ _ _ _ _ _) as [[Bt det]| |] eqn:HJ;
      try discriminate.
    cbn [mbind outcome_bind] in Hb.
    apply Tet10_B0_tilde_shape in HJ as [HB Hsum].
    injection Hb as Hb. apply (f_equal fst) in Hb. cbn [fst] in Hb. rewrite <- Hb.
    apply Tet10_gauss_point_sym; try assumption.
    apply is_mat_reshape; [exact Hu | lia].
  - cbn [fst el_K]. apply symmetric_reset; [lia | assumption].
Qed.

Lemma Tet10_compute_tensors_translate self X u c t :
  Tet10._compute_tensors self X (translate 3 u c) t = Tet10._compute_tensors self X u t.
Proof.
  unfold Tet10._compute_tensors.
  repeat (destruct X as [|? X]; [reflexivity|]). destruct X; [|reflexivity].
  rewrite length_translate.
  destruct (Nat.eqb_spec (length u) 30) as [Hu|]; [|reflexivity].
  cbn [andb require_shape mbind outcome_bind].
  destruct (el_material self) as [m|]; [|reflexivity]. cbn [attr mbind outcome_bind].
  apply for_enumerate_ext. intros k [[[[L1 L2] L3] L4] w] st.
  destruct (Tet10.B0_tilde_det _ _ _ _ _ _ _ _ _ _ _ _ _ _ _ _ _ _ _ _ _ _ _ _ _ _ _ _ _ _ _ _ _ _) as [[Bt det]| |] eqn:HJ;
    try reflexivity.
  cbn [mbind outcome_bind].
  apply Tet10_B0_tilde_shape in HJ as [HB Hsum].
  f_equal. now apply Tet10_gauss_point_translate.
Qed.

Lemma Tet10_compute_tensors_trace self X u t self' trace :
  Tet10._compute_tensors self X u t = Returns (self', trace) ->
  length trace = length Tet10.gauss_points.
Proof.
  unfold Tet10._compute_tensors.
  repeat (destruct X as [|? X]; [discriminate|]). destruct X; [|discriminate].
  destruct (Nat.eqb_spec (length u) 30) as [Hu|]; [|discriminate].
  destruct (el_material self) as [m|]; [|discriminate].
  cbn [andb require_shape attr mbind outcome_bind]. intros Hrun.
  apply (for_enumerate_count (fun st => length st.2)) in Hrun; [exact Hrun|].
  intros k [[[[L1 L2] L3] L4] w] [s tr] s' Hb.
  destruct (Tet10.B0_tilde_det _ _ _ _ _ _ _ _ _ _ _ _ _ _ _ _ _ _ _ _ _ _ _ _ _ _ _ _ _ _ _ _ _ _) as [[Bt det]| |];
    try discriminate.
  cbn [mbind outcome_bind] in Hb. injection Hb as <-. apply Tet10_gauss_point_trace.
Qed.

(** *** Hexa8 *)

Lemma Hexa8_gauss_point_zero m n_gauss w Bt det self tr :
  is_mat 8 3 Bt -> zero_law 3 (mat_S_Sv_and_C m) -> el_f self = np.zeros 24 ->
  exists self',
    Hexa8.gauss_point m (np.reshape (np.zeros 24) 3) n_gauss w Bt det (self, tr)
    = (self', tr ++ [(np.eye 3, np.zeros2 3 3)]) /\ el_f self' = np.zeros 24.
Proof.
  intros HB [C HC] Hf. unfold Hexa8.gauss_point. cbv zeta.
  pose proof (H_zero 8 3 Bt ltac:(lia) ltac:(lia) HB) as HZ.
  change (8 * 3)%nat with 24%nat in HZ. rewrite !HZ.
  rewrite (F_zero 3), (E_zero 3) by lia. rewrite HC.
  eexists. split; [reflexivity|]. cbn [el_f]. rewrite Hf. zero_force 24%nat.
Qed.

Lemma Hexa8_gauss_point_sym m u_mat n_gauss w Bt det self tr :
  is_mat 8 3 Bt -> is_mat 8 3 u_mat -> symmetric_law 3 (mat_S_Sv_and_C m) ->
  symmetric 24 (el_K self) ->
  symmetric 24 (el_K (Hexa8.gauss_point m u_mat n_gauss w Bt det (self, tr)).1).
Proof.
  intros HB Hu Hlaw HK. unfold Hexa8.gauss_point. cbv zeta.
  set (H := np.T u_mat @@ Bt).
  assert (HH : is_mat 3 3 H) by (apply (is_mat_H 8 3); auto; lia).
  set (E := (1/2) !* (H +! np.T H +! np.T H @@ H)).
  destruct (Hlaw E) as [HS HC]; [apply E_symmetric; [lia|assumption]|].
  destruct (mat_S_Sv_and_C m E) as [[S' S_v] C_SE]. cbn [fst snd el_K] in *.
  set (B0 := compute_B_matrix Bt (H +! np.eye 3)).
  assert (HB0 : is_mat 6 24 B0)
    by (apply (is_mat_compute_B_matrix 8 3); [assumption | lia | cbv; lia]).
  pose proof (symmetric_BSBt 8 3 Bt S' ltac:(lia) ltac:(lia) HB HS) as HG.
  pose proof (symmetric_BtCB 6 24 B0 C_SE ltac:(lia) ltac:(lia) HB0 HC) as HM.
  apply symmetric_add; [lia | assumption |]. symmetric_scaled.
  apply (symmetric_scatter_matrix 8 3). symmetric_scaled.
Qed.

Lemma Hexa8_gauss_point_translate m u c n_gauss w Bt det st :
  is_mat 8 3 Bt -> (forall j, colsum 8 Bt j = 0) -> length u = 24%nat ->
  Hexa8.gauss_point m (np.reshape (translate 3 u c) 3) n_gauss w Bt det st
  = Hexa8.gauss_point m (np.reshape u 3) n_gauss w Bt det st.
Proof.
  intros HB Hsum Hu. unfold Hexa8.gauss_point.
  rewrite (H_translate 8 3 Bt u c) by (auto; lia). reflexivity.
Qed.

Lemma Hexa8_gauss_point_trace m u_mat n_gauss w Bt det self tr :
  length (Hexa8.gauss_point m u_mat n_gauss w Bt det (self, tr)).2 = S (length tr).
Proof.
  unfold Hexa8.gauss_point. cbv zeta.
  destruct (mat_S_Sv_and_C m _) as [[S' S_v] C_SE]. cbn [snd].
  rewrite length_app. simpl. lia.
Qed.

Lemma Hexa8_compute_tensors_zero self m X t self' trace :
  el_material self = Some m -> length (el_f self) = 24%nat ->
  zero_law 3 (mat_S_Sv_and_C m) ->
  Hexa8._compute_tensors self X (np.zeros 24) t = Returns (self', trace) ->
  trace_is_rest 3 trace /\ el_f self' = np.zeros 24.
Proof.
  intros Hm Hf Hlaw. unfold Hexa8._compute_tensors.
  destruct (Nat.eqb_spec (length X) 24) as [HX|]; [|discriminate].
  rewrite length_zeros. rewrite Hm. cbn [andb Nat.eqb require_shape attr mbind outcome_bind].
  intros Hrun.
  apply (for_enumerate_invariant
           (fun st => trace_is_rest 3 st.2 /\ el_f st.1 = np.zeros 24)) in Hrun;
    [exact Hrun | | ].
  - intros k [[[xi eta] zeta] w] [s tr] [s' tr'] [Htr Hfs] Hb. cbn [fst snd] in *.
    destruct (Hexa8.B0_tilde_det _ _ _ _) as [[Bt det]| |] eqn:HJ;
      try discriminate.
    cbn [mbind outcome_bind] in Hb.
    apply Hexa8_B0_tilde_shape in HJ as [HB Hsum];
      [|apply is_mat_reshape; [exact HX | lia]].
    destruct (Hexa8_gauss_point_zero m k w Bt det s tr HB Hlaw Hfs) as (s1 & Hgp & Hf1).
    rewrite Hgp in Hb. injection Hb as <- <-. split; [|assumption].
    apply Forall_app. split; [assumption | now constructor].
  - cbn [fst snd el_f]. split; [constructor|]. now apply reset_force.
Qed.

Lemma Hexa8_compute_tensors_sym self m X u t self' trace :
  el_material self = Some m -> is_mat 24 24 (el_K self) ->
  symmetric_law 3 (mat_S_Sv_and_C m) ->
  Hexa8._compute_tensors self X u t = Returns (self', trace) ->
  symmetric 24 (el_K self').
Proof.
  intros Hm HK Hlaw. unfold Hexa8._compute_tensors.
  destruct (Nat.eqb_spec (length X) 24) as [HX|]; [|discriminate].
  destruct (Nat.eqb_spec (length u) 24) as [Hu|]; [|discriminate].
  rewrite Hm. cbn [andb require_shape attr mbind outcome_bind].
  intros Hrun.
  apply (for_enumerate_invariant (fun st => symmetric 24 (el_K st.1))) in Hrun;
    [exact Hrun | | ].
  - intros k [[[xi eta] zeta] w] [s tr] [s' tr'] HI Hb. cbn [fst snd] in *.
    destruct (Hexa8.B0_tilde_det _ _ _ _) as [[Bt det]| |] eqn:HJ;
      try discriminate.
    cbn [mbind outcome_bind] in Hb.
    apply Hexa8_B0_tilde_shape in HJ as [HB Hsum];
      [|apply is_mat_reshape; [exact HX | lia]].
    injection Hb as Hb. apply (f_equal fst) in Hb. cbn [fst] in Hb. rewrite <- Hb.
    apply Hexa8_gauss_point_sym; try assumption.
    apply is_mat_reshape; [exact Hu | lia].
  - cbn [fst el_K]. apply symmetric_reset; [lia | assumption].
Qed.

Lemma Hexa8_compute_tensors_translate self X u c t :
  Hexa8._compute_tensors self X (translate 3 u c) t = Hexa8._compute_tensors self X u t.
Proof.
  unfold Hexa8._compute_tensors.
  destruct (Nat.eqb_spec (length X) 24) as [HX|]; [|reflexivity].
  rewrite length_translate.
  destruct (Nat.eqb_spec (length u) 24) as [Hu|]; [|reflexivity].
  cbn [andb require_shape mbind outcome_bind].
  destruct (el_material self) as [m|]; [|reflexivity]. cbn [attr mbind outcome_bind].
  apply for_enumerate_ext. intros k [[[xi eta] zeta] w] st.
  destruct (Hexa8.B0_tilde_det _ _ _ _) as [[Bt det]| |] eqn:HJ;
    try reflexivity.
  cbn [mbind outcome_bind].
  apply Hexa8_B0_tilde_shape in HJ as [HB Hsum];
      [|apply is_mat_reshape; [exact HX | lia]].
  f_equal. now apply Hexa8_gauss_point_translate.
Qed.

Lemma Hexa8_compute_tensors_trace self X u t self' trace :
  Hexa8._compute_tensors self X u t = Returns (self', trace) ->
  length trace = length Hexa8.gauss_points.
Proof.
  unfold Hexa8._compute_tensors.
  destruct (Nat.eqb_spec (length X) 24) as [HX|]; [|discriminate].
  destruct (Nat.eqb_spec (length u) 24) as [Hu|]; [|discriminate].
  destruct (el_material self) as [m|]; [|discriminate].
  cbn [andb require_shape attr mbind outcome_bind]. intros Hrun.
  apply (for_enumerate_count (fun st => length st.2)) in Hrun; [exact Hrun|].
  intros k [[[xi eta] zeta] w] [s tr] s' Hb.
  destruct (Hexa8.B0_tilde_det _ _ _ _) as [[Bt det]| |];
    try discriminate.
  cbn [mbind outcome_bind] in Hb. injection Hb as <-. apply Hexa8_gauss_point_trace.
Qed.

(** *** Hexa20 *)

Lemma Hexa20_gauss_point_zero m n_gauss w Bt det self tr :
  is_mat 20 3 Bt -> zero_law 3 (mat_S_Sv_and_C m) -> el_f self = np.zeros 60 ->
  exists self',
    Hexa20.gauss_point m (np.reshape (np.zeros 60) 3) n_gauss w Bt det (self, tr)
    = (self', tr ++ [(np.eye 3, np.zeros2 3 3)]) /\ el_f self' = np.zeros 60.
Proof.
  intros HB [C HC] Hf. unfold Hexa20.gauss_point. cbv zeta.
  pose proof (H_zero 20 3 Bt ltac:(lia) ltac:(lia) HB) as HZ.
  change (20 * 3)%nat with 60%nat in HZ. rewrite !HZ.
  rewrite (F_zero 3), (E_zero 3) by lia. rewrite HC.
  eexists. split; [reflexivity|]. cbn [el_f]. rewrite Hf. zero_force 60%nat.
Qed.

Lemma Hexa20_gauss_point_sym m u_mat n_gauss w Bt det self tr :
  is_mat 20 3 Bt -> is_mat 20 3 u_mat -> symmetric_law 3 (mat_S_Sv_and_C m) ->
  symmetric 60 (el_K self) ->
  symmetric 60 (el_K (Hexa20.gauss_point m u_mat n_gauss w Bt det (self, tr)).1).
Proof.
  intros HB Hu Hlaw HK. unfold Hexa20.gauss_point. cbv zeta.
  set (H := np.T u_mat @@ Bt).
  assert (HH : is_mat 3 3 H) by (apply (is_mat_H 20 3); auto; lia).
  set (E := (1/2) !* (H +! np.T H +! np.T H @@ H)).
  destruct (Hlaw E) as [HS HC]; [apply E_symmetric; [lia|assumption]|].
  destruct (mat_S_Sv_and_C m E) as [[S' S_v] C_SE]. cbn [fst snd el_K] in *.
  set (B0 := compute_B_matrix Bt (H +! np.eye 3)).
  assert (HB0 : is_mat 6 60 B0)
    by (apply (is_mat_compute_B_matrix 20 3); [assumption | lia | cbv; lia]).
  pose proof (symmetric_BSBt 20 3 Bt S' ltac:(lia) ltac:(lia) HB HS) as HG.
  pose proof (symmetric_BtCB 6 60 B0 C_SE ltac:(lia) ltac:(lia) HB0 HC) as HM.
  apply symmetric_add; [lia | assumption |]. symmetric_scaled.
  apply (symmetric_scatter_matrix 20 3). symmetric_scaled.
Qed.

Lemma Hexa20_gauss_point_translate m u c n_gauss w Bt det st :
  is_mat 20 3 Bt -> (forall j, colsum 20 Bt j = 0) -> length u = 60%nat ->
  Hexa20.gauss_point m (np.reshape (translate 3 u c) 3) n_gauss w Bt det st
  = Hexa20.gauss_point m (np.reshape u 3) n_gauss w Bt det st.
Proof.
  intros HB Hsum Hu. unfold Hexa20.gauss_point.
  rewrite (H_translate 20 3 Bt u c) by (auto; lia). reflexivity.
Qed.

Lemma Hexa20_gauss_point_trace m u_mat n_gauss w Bt det self tr :
  length (Hexa20.gauss_point m u_mat n_gauss w Bt det (self, tr)).2 = S (length tr).
Proof.
  unfold Hexa20.gauss_point. cbv zeta.
  destruct (mat_S_Sv_and_C m _) as [[S' S_v] C_SE]. cbn [snd].
  rewrite length_app. simpl. lia.
Qed.

Lemma Hexa20_compute_tensors_zero self m X t self' trace :
  el_material self = Some m -> length (el_f self) = 60%nat ->
  zero_law 3 (mat_S_Sv_and_C m) ->
  Hexa20._compute_tensors self X (np.zeros 60) t = Returns (self', trace) ->
  trace_is_rest 3 trace /\ el_f self' = np.zeros 60.
Proof.
  intros Hm Hf Hlaw. unfold Hexa20._compute_tensors.
  destruct (Nat.eqb_spec (length X) 60) as [HX|]; [|discriminate].
  rewrite length_zeros. rewrite Hm. cbn [andb Nat.eqb require_shape attr mbind outcome_bind].
  intros Hrun.
  apply (for_enumerate_invariant
           (fun st => trace_is_rest 3 st.2 /\ el_f st.1 = np.zeros 60)) in Hrun;
    [exact Hrun | | ].
  - intros k [[[xi eta] zeta] w] [s tr] [s' tr'] [Htr Hfs] Hb. cbn [fst snd] in *.
    destruct (Hexa20.B0_tilde_det _ _ _ _) as [[Bt det]| |] eqn:HJ;
      try discriminate.
    cbn [mbind outcome_bind] in Hb.
    apply Hexa20_B0_tilde_shape in HJ as [HB Hsum];
      [|apply is_mat_reshape; [exact HX | lia]].
    destruct (Hexa20_gauss_point_zero m k w Bt det s tr HB Hlaw Hfs) as (s1 & Hgp & Hf1).
    rewrite Hgp in Hb. injection Hb as <- <-. split; [|assumption].
    apply Forall_app. split; [assumption | now constructor].
  - cbn [fst snd el_f]. split; [constructor|]. now apply reset_force.
Qed.

Lemma Hexa20_compute_tensors_sym self m X u t self' trace :
  el_material self = Some m -> is_mat 60 60 (el_K self) ->
  symmetric_law 3 (mat_S_Sv_and_C m) ->
  Hexa20._compute_tensors self X u t = Returns (self', trace) ->
  symmetric 60 (el_K self').
Proof.
  intros Hm HK Hlaw. unfold Hexa20._compute_tensors.
  destruct (Nat.eqb_spec (length X) 60) as [HX|]; [|discriminate].
  destruct (Nat.eqb_spec (length u) 60) as [Hu|]; [|discriminate].
  rewrite Hm. cbn [andb require_shape attr mbind outcome_bind].
  intros Hrun.
  apply (for_enumerate_invariant (fun st => symmetric 60 (el_K st.1))) in Hrun;
    [exact Hrun | | ].
  - intros k [[[xi eta] zeta] w] [s tr] [s' tr'] HI Hb. cbn [fst snd] in *.
    destruct (Hexa20.B0_tilde_det _ _ _ _) as [[Bt det]| |] eqn:HJ;
      try discriminate.
    cbn [mbind outcome_bind] in Hb.
    apply Hexa20_B0_tilde_shape in HJ as [HB Hsum];
      [|apply is_mat_reshape; [exact HX | lia]].
    injection Hb as Hb. apply (f_equal fst) in Hb. cbn [fst] in Hb. rewrite <- Hb.
    apply Hexa20_gauss_point_sym; try assumption.
    apply is_mat_reshape; [exact Hu | lia].
  - cbn [fst el_K]. apply symmetric_reset; [lia | assumption].
Qed.

Lemma Hexa20_compute_tensors_translate self X u c t :
  Hexa20._compute_tensors self X (translate 3 u c) t = Hexa20._compute_tensors self X u t.
Proof.
  unfold Hexa20._compute_tensors.
  destruct (Nat.eqb_spec (length X) 60) as [HX|]; [|reflexivity].
  rewrite length_translate.
  destruct (Nat.eqb_spec (length u) 60) as [Hu|]; [|reflexivity].
  cbn [andb require_shape mbind outcome_bind].
  destruct (el_material self) as [m|]; [|reflexivity]. cbn [attr mbind outcome_bind].
  apply for_enumerate_ext. intros k [[[xi eta] zeta] w] st.
  destruct (Hexa20.B0_tilde_det _ _ _ _) as [[Bt det]| |] eqn:HJ;
    try reflexivity.
  cbn [mbind outcome_bind].
  apply Hexa20_B0_tilde_shape in HJ as [HB Hsum];
      [|apply is_mat_reshape; [exact HX | lia]].
  f_equal. now apply Hexa20_gauss_point_translate.
Qed.

Lemma Hexa20_compute_tensors_trace self X u t self' trace :
  Hexa20._compute_tensors self X u t = Returns (self', trace) ->
  length trace = length Hexa20.gauss_points.
Proof.
  unfold Hexa20._compute_tensors.
  destruct (Nat.eqb_spec (length X) 60) as [HX|]; [|discriminate].
  destruct (Nat.eqb_spec (length u) 60) as [Hu|]; [|discriminate].
  destruct (el_material self) as [m|]; [|discriminate].
  cbn [andb require_shape attr mbind outcome_bind]. intros Hrun.
  apply (for_enumerate_count (fun st => length st.2)) in Hrun; [exact Hrun|].
  intros k [[[xi eta] zeta] w] [s tr] s' Hb.
  destruct (Hexa20.B0_tilde_det _ _ _ _) as [[Bt det]| |];
    try discriminate.
  cbn [mbind outcome_bind] in Hb. injection Hb as <-. apply Hexa20_gauss_point_trace.
Qed.

(** *** Tri3 *)

Lemma Tri3_tensors_zero self m Bt det :
  is_mat 3 2 Bt -> zero_law 2 (mat_S_Sv_and_C_2d m) ->
  exists self',
    Tri3.tensors self m (np.reshape (np.zeros 6) 2) Bt det
    = (self', [(np.eye 2, np.zeros2 2 2)]) /\ el_f self' = np.zeros 6.
Proof.
  intros HB [C HC]. unfold Tri3.tensors. cbv zeta.
  pose proof (H_zero 3 2 Bt ltac:(lia) ltac:(lia) HB) as HZ.
  change (3 * 2)%nat with 6%nat in HZ. rewrite !HZ.
  rewrite (F_zero 2), (E_zero 2) by lia. rewrite HC.
  eexists. split; [reflexivity|]. cbn [el_f].
  set (B0 := compute_B_matrix Bt (np.eye 2)).
  assert (HB0 : is_mat 3 6 B0)
    by (apply (is_mat_compute_B_matrix 3 2); [assumption | lia | cbv; lia]).
  apply eq_zeros.
  - repeat first [rewrite length_vmul_s | rewrite length_vdiv_s]. rewrite length_dot.
    apply (is_mat_shape0 6 3). apply is_mat_T; [assumption | lia].
  - intros i. repeat rewrite ?vget_vmul_s, ?vget_vdiv_s. rewrite vget_dot_zeros.
    unfold Rdiv. ring.
Qed.

Lemma Tri3_tensors_sym self m u_mat Bt det :
  is_mat 3 2 Bt -> is_mat 3 2 u_mat -> symmetric_law 2 (mat_S_Sv_and_C_2d m) ->
  symmetric 6 (el_K (Tri3.tensors self m u_mat Bt det).1).
Proof.
  intros HB Hu Hlaw. unfold Tri3.tensors. cbv zeta.
  set (H := np.T u_mat @@ Bt).
  assert (HH : is_mat 2 2 H) by (apply (is_mat_H 3 2); auto; lia).
  set (E := (1/2) !* (H +! np.T H +! np.T H @@ H)).
  destruct (Hlaw E) as [HS HC]; [apply E_symmetric; [lia|assumption]|].
  destruct (mat_S_Sv_and_C_2d m E) as [[S' S_v] C_SE]. cbn [fst snd el_K] in *.
  set (B0 := compute_B_matrix Bt (H +! np.eye 2)).
  assert (HB0 : is_mat 3 6 B0)
    by (apply (is_mat_compute_B_matrix 3 2); [assumption | lia | cbv; lia]).
  pose proof (symmetric_BSBt 3 2 Bt S' ltac:(lia) ltac:(lia) HB HS) as HG.
  pose proof (symmetric_BtCB 3 6 B0 C_SE ltac:(lia) ltac:(lia) HB0 HC) as HM.
  apply symmetric_add; [lia | |]; [|symmetric_scaled].
  apply (symmetric_scatter_matrix 3 2). symmetric_scaled.
Qed.

Lemma Tri3_tensors_translate self m u c Bt det :
  is_mat 3 2 Bt -> (forall j, colsum 3 Bt j = 0) -> length u = 6%nat ->
  Tri3.tensors self m (np.reshape (translate 2 u c) 2) Bt det
  = Tri3.tensors self m (np.reshape u 2) Bt det.
Proof.
  intros HB Hsum Hu. unfold Tri3.tensors.
  rewrite (H_translate 3 2 Bt u c) by (auto; lia). reflexivity.
Qed.

Lemma Tri3_tensors_trace self m u_mat Bt det :
  length (Tri3.tensors self m u_mat Bt det).2 = 1%nat.
Proof.
  unfold Tri3.tensors. cbv zeta.
  destruct (mat_S_Sv_and_C_2d m _) as [[S' S_v] C_SE]. reflexivity.
Qed.

(** The common opening of the proofs about [Tri3._compute_tensors]: the
    run reaches [tensors] with a well-shaped [dN_dX]. *)
Lemma Tri3_compute_tensors_inv self X u t r :
  Tri3._compute_tensors self X u t = Returns r ->
  exists m dN_dX det,
    el_material self = Some m /\ length u = 6%nat /\
    is_mat 3 2 dN_dX /\ (forall j, colsum 3 dN_dX j = 0) /\
    r = Tri3.tensors self m (np.reshape u 2) dN_dX det.
Proof.
  unfold Tri3._compute_tensors.
  destruct (el_material self) as [m|]; [|discriminate].
  cbn [attr mbind outcome_bind].
  repeat (destruct X as [|? X]; [discriminate|]). destruct X; [|discriminate].
  destruct (Nat.eqb_spec (length u) 6) as [Hu|]; [|discriminate].
  cbn [require_shape mbind outcome_bind]. cbv zeta. unfold one_over.
  destruct (Req_EM_T _ 0) as [|Hdet]; [discriminate|].
  cbn [mbind outcome_bind]. intros [= <-].
  match goal with |- context [Tri3.tensors _ _ _ (?c !* ?L) ?dt] =>
    assert (HBS : is_mat 3 2 (c !* L) /\ forall j, colsum 3 (c !* L) j = 0)
      by apply Tri3_dN_dX_shape;
    destruct HBS as [HB Hsum]; exists m, (c !* L), dt
  end.
  split; [reflexivity|]. split; [assumption|]. split; [assumption|].
  split; [assumption | reflexivity].
Qed.

Lemma Tri3_compute_tensors_translate self X u c t :
  Tri3._compute_tensors self X (translate 2 u c) t = Tri3._compute_tensors self X u t.
Proof.
  unfold Tri3._compute_tensors.
  destruct (el_material self) as [m|]; [|reflexivity].
  cbn [attr mbind outcome_bind].
  repeat (destruct X as [|? X]; [reflexivity|]). destruct X; [|reflexivity].
  rewrite length_translate.
  destruct (Nat.eqb_spec (length u) 6) as [Hu|]; [|reflexivity].
  cbn [require_shape mbind outcome_bind]. cbv zeta. unfold one_over.
  destruct (Req_EM_T _ 0) as [|Hdet]; [reflexivity|].
  cbn [mbind outcome_bind]. f_equal.
  match goal with |- context [Tri3.tensors _ _ _ (?c !* ?L) _] =>
    assert (HBS : is_mat 3 2 (c !* L) /\ forall j, colsum 3 (c !* L) j = 0)
      by apply Tri3_dN_dX_shape;
    destruct HBS as [HB Hsum]
  end.
  now apply Tri3_tensors_translate.
Qed.

Lemma Tri3_compute_tensors_zero self m X t self' trace :
  el_material self = Some m -> zero_law 2 (mat_S_Sv_and_C_2d m) ->
  Tri3._compute_tensors self X (np.zeros 6) t = Returns (self', trace) ->
  trace_is_rest 2 trace /\ el_f self' = np.zeros 6.
Proof.
  intros Hm Hlaw Hrun.
  apply Tri3_compute_tensors_inv in Hrun as (m' & Bt & det & Hm' & _ & HB & _ & Hr).
  rewrite Hm in Hm'. injection Hm' as <-.
  destruct (Tri3_tensors_zero self m Bt det HB Hlaw) as (s1 & Ht & Hf).
  rewrite Ht in Hr. injection Hr as -> ->. split; [|assumption].
  repeat constructor.
Qed.

Lemma Tri3_compute_tensors_sym self m X u t self' trace :
  el_material self = Some m -> symmetric_law 2 (mat_S_Sv_and_C_2d m) ->
  Tri3._compute_tensors self X u t = Returns (self', trace) ->
  symmetric 6 (el_K self').
Proof.
  intros Hm Hlaw Hrun.
  apply Tri3_compute_tensors_inv in Hrun as (m' & Bt & det & Hm' & Hu & HB & _ & Hr).
  rewrite Hm in Hm'. injection Hm' as <-.
  apply (f_equal fst) in Hr. cbn [fst] in Hr. rewrite Hr.
  apply Tri3_tensors_sym; try assumption.
  apply is_mat_reshape; [exact Hu | lia].
Qed.

Lemma Tri3_compute_tensors_trace self X u t self' trace :
  Tri3._compute_tensors self X u t = Returns (self', trace) -> length trace = 1%nat.
Proof.
  intros Hrun.
  apply Tri3_compute_tensors_inv in Hrun as (m' & Bt & det & _ & _ & _ & _ & Hr).
  apply (f_equal snd) in Hr. cbn [snd] in Hr. rewrite Hr. apply Tri3_tensors_trace.
Qed.

(** *** Tet4 *)

Lemma Tet4_tensors_zero self m Bt det :
  is_mat 4 3 Bt -> zero_law 3 (mat_S_Sv_and_C m) ->
  exists self',
    Tet4.tensors self m (np.reshape (np.zeros 12) 3) Bt det
    = (self', [(np.eye 3, np.zeros2 3 3)]) /\ el_f self' = np.zeros 12.
Proof.
  intros HB [C HC]. unfold Tet4.tensors. cbv zeta.
  pose proof (H_zero 4 3 Bt ltac:(lia) ltac:(lia) HB) as HZ.
  change (4 * 3)%nat with 12%nat in HZ. rewrite !HZ.
  rewrite (F_zero 3), (E_zero 3) by lia. rewrite HC.
  eexists. split; [reflexivity|]. cbn [el_f].
  set (B0 := compute_B_matrix Bt (np.eye 3)).
  assert (HB0 : is_mat 6 12 B0)
    by (apply (is_mat_compute_B_matrix 4 3); [assumption | lia | cbv; lia]).
  apply eq_zeros.
  - repeat first [rewrite length_vmul_s | rewrite length_vdiv_s]. rewrite length_dot.
    apply (is_mat_shape0 12 6). apply is_mat_T; [assumption | lia].
  - intros i. repeat rewrite ?vget_vmul_s, ?vget_vdiv_s. rewrite vget_dot_zeros.
    unfold Rdiv. ring.
Qed.

Lemma Tet4_tensors_sym self m u_mat Bt det :
  is_mat 4 3 Bt -> is_mat 4 3 u_mat -> symmetric_law 3 (mat_S_Sv_and_C m) ->
  symmetric 12 (el_K (Tet4.tensors self m u_mat Bt det).1).
Proof.
  intros HB Hu Hlaw. unfold Tet4.tensors. cbv zeta.
  set (H := np.T u_mat @@ Bt).
  assert (HH : is_mat 3 3 H) by (apply (is_mat_H 4 3); auto; lia).
  set (E := (1/2) !* (H +! np.T H +! np.T H @@ H)).
  destruct (Hlaw E) as [HS HC]; [apply E_symmetric; [lia|assumption]|].
  destruct (mat_S_Sv_and_C m E) as [[S' S_v] C_SE]. cbn [fst snd el_K] in *.
  set (B0 := compute_B_matrix Bt (H +! np.eye 3)).
  assert (HB0 : is_mat 6 12 B0)
    by (apply (is_mat_compute_B_matrix 4 3); [assumption | lia | cbv; lia]).
  pose proof (symmetric_BSBt 4 3 Bt S' ltac:(lia) ltac:(lia) HB HS) as HG.
  pose proof (symmetric_BtCB 6 12 B0 C_SE ltac:(lia) ltac:(lia) HB0 HC) as HM.
  apply symmetric_add; [lia | |]; [|symmetric_scaled].
  apply (symmetric_scatter_matrix 4 3). symmetric_scaled.
Qed.

Lemma Tet4_tensors_translate self m u c Bt det :
  is_mat 4 3 Bt -> (forall j, colsum 4 Bt j = 0) -> length u = 12%nat ->
  Tet4.tensors self m (np.reshape (translate 3 u c) 3) Bt det
  = Tet4.tensors self m (np.reshape u 3) Bt det.
Proof.
  intros HB Hsum Hu. unfold Tet4.tensors.
  rewrite (H_translate 4 3 Bt u c) by (auto; lia). reflexivity.
Qed.

Lemma Tet4_tensors_trace self m u_mat Bt det :
  length (Tet4.tensors self m u_mat Bt det).2 = 1%nat.
Proof.
  unfold Tet4.tensors. cbv zeta.
  destruct (mat_S_Sv_and_C m _) as [[S' S_v] C_SE]. reflexivity.
Qed.

Lemma Tet4_compute_tensors_inv self X u t r :
  Tet4._compute_tensors self X u t = Returns r ->
  exists m B0_tilde det,
    el_material self = Some m /\ length u = 12%nat /\
    is_mat 4 3 B0_tilde /\ (forall j, colsum 4 B0_tilde j = 0) /\
    r = Tet4.tensors self m (np.reshape u 3) B0_tilde det.
Proof.
  unfold Tet4._compute_tensors.
  repeat (destruct X as [|? X]; [discriminate|]). destruct X; [|discriminate].
  destruct (Nat.eqb_spec (length u) 12) as [Hu|]; [|discriminate].
  cbn [require_shape mbind outcome_bind]. cbv zeta. unfold one_over.
  destruct (Req_EM_T _ 0) as [|Hdet]; [discriminate|].
  cbn [mbind outcome_bind].
  destruct (el_material self) as [m|]; [|discriminate].
  cbn [attr mbind outcome_bind]. intros [= <-].
  match goal with |- context [Tet4.tensors _ _ _ (?c !* ?L) ?dt] =>
    assert (HBS : is_mat 4 3 (c !* L) /\ forall j, colsum 4 (c !* L) j = 0)
      by apply Tet4_B0_tilde_shape;
    destruct HBS as [HB Hsum]; exists m, (c !* L), dt
  end.
  split; [reflexivity|]. split; [assumption|]. split; [assumption|].
  split; [assumption | reflexivity].
Qed.

Lemma Tet4_compute_tensors_translate self X u c t :
  Tet4._compute_tensors self X (translate 3 u c) t = Tet4._compute_tensors self X u t.
Proof.
  unfold Tet4._compute_tensors.
  repeat (destruct X as [|? X]; [reflexivity|]). destruct X; [|reflexivity].
  rewrite length_translate.
  destruct (Nat.eqb_spec (length u) 12) as [Hu|]; [|reflexivity].
  cbn [require_shape mbind outcome_bind]. cbv zeta. unfold one_over.
  destruct (Req_EM_T _ 0) as [|Hdet]; [reflexivity|].
  cbn [mbind outcome_bind].
  destruct (el_material self) as [m|]; [|reflexivity].
  cbn [attr mbind outcome_bind]. f_equal.
  match goal with |- context [Tet4.tensors _ _ _ (?c !* ?L) _] =>
    assert (HBS : is_mat 4 3 (c !* L) /\ forall j, colsum 4 (c !* L) j = 0)
      by apply Tet4_B0_tilde_shape;
    destruct HBS as [HB Hsum]
  end.
  now apply Tet4_tensors_translate.
Qed.

Lemma Tet4_compute_tensors_zero self m X t self' trace :
  el_material self = Some m -> zero_law 3 (mat_S_Sv_and_C m) ->
  Tet4._compute_tensors self X (np.zeros 12) t = Returns (self', trace) ->
  trace_is_rest 3 trace /\ el_f self' = np.zeros 12.
Proof.
  intros Hm Hlaw Hrun.
  apply Tet4_compute_tensors_inv in Hrun as (m' & Bt & det & Hm' & _ & HB & _ & Hr).
  rewrite Hm in Hm'. injection Hm' as <-.
  destruct (Tet4_tensors_zero self m Bt det HB Hlaw) as (s1 & Ht & Hf).
  rewrite Ht in Hr. injection Hr as -> ->. split; [|assumption].
  repeat constructor.
Qed.

Lemma Tet4_compute_tensors_sym self m X u t self' trace :
  el_material self = Some m -> symmetric_law 3 (mat_S_Sv_and_C m) ->
  Tet4._compute_tensors self X u t = Returns (self', trace) ->
  symmetric 12 (el_K self').
Proof.
  intros Hm Hlaw Hrun.
  apply Tet4_compute_tensors_inv in Hrun as (m' & Bt & det & Hm' & Hu & HB & _ & Hr).
  rewrite Hm in Hm'. injection Hm' as <-.
  apply (f_equal fst) in Hr. cbn [fst] in Hr. rewrite Hr.
  apply Tet4_tensors_sym; try assumption.
  apply is_mat_reshape; [exact Hu | lia].
Qed.

Lemma Tet4_compute_tensors_trace self X u t self' trace :
  Tet4._compute_tensors self X u t = Returns (self', trace) -> length trace = 1%nat.
Proof.
  intros Hrun.
  apply Tet4_compute_tensors_inv in Hrun as (m' & Bt & det & _ & _ & _ & _ & Hr).
  apply (f_equal snd) in Hr. cbn [snd] in Hr. rewrite Hr. apply Tet4_tensors_trace.
Qed.

Lemma init_buffers_ok cls material : buffers_ok cls (__init__ cls material).
Proof.
  destruct cls; split; cbn [__init__ no_of_dofs no_of_nodes no_of_dims Nat.mul Nat.add];
    first [apply is_mat_zeros2 | apply length_zeros].
Qed.

Lemma example_zero_law_2d : zero_law 2 example_law_2d.
Proof.
  eexists. unfold example_law_2d. f_equal. f_equal.
  apply eq_zeros2; [apply is_mat_s_mul; [apply is_mat_zeros2 | lia]|].
  intros i j. rewrite (get_s_mul 2 2) by (try apply is_mat_zeros2; lia).
  rewrite get_zeros2. ring.
Qed.

Lemma example_symmetric_law_2d : symmetric_law 2 example_law_2d.
Proof.
  intros E HE. cbn [example_law_2d fst snd]. split.
  - apply symmetric_s_mul; [lia | assumption].
  - split; [literal_shape|]. intros i j.
    destruct i as [|[|[|[|i]]]], j as [|[|[|[|j]]]]; reflexivity.
Qed.

Lemma example_run u :
  length u = 6%nat ->
  Tri3._compute_tensors (Tri3.__init__ (Some example_material)) example_X u 0
  = Returns (Tri3.tensors (Tri3.__init__ (Some example_material)) example_material
               (np.reshape u 2)
               (1 / ((0 - 1) * (0 - 0) - (0 - 1) * (1 - 0))
                !* [[0 - 1; 0 - 1]; [1 - 0; 0 - 0]; [0 - 0; 1 - 0]])
               ((0 - 1) * (0 - 0) - (0 - 1) * (1 - 0))).
Proof.
  intros Hu. unfold Tri3._compute_tensors, example_X.
  cbn [Tri3.__init__ el_material attr mbind outcome_bind].
  rewrite Hu. cbn [Nat.eqb require_shape mbind outcome_bind]. cbv zeta. unfold one_over.
  destruct (Req_EM_T _ 0) as [Hz|Hnz]; [exfalso; lra|]. reflexivity.
Qed.

(** ** Class-level corollaries *)

Lemma compute_tensors_trace_length cls self X u t self' trace :
  _compute_tensors cls self X u t = Returns (self', trace) ->
  length trace = no_of_gauss_points cls.
Proof.
  destruct cls; cbn [_compute_tensors no_of_gauss_points]; intros Hrun.
  - eapply Tri3_compute_tensors_trace; eassumption.
  - eapply Tri6_compute_tensors_trace; eassumption.
  - eapply Quad4_compute_tensors_trace; eassumption.
  - eapply Quad8_compute_tensors_trace; eassumption.
  - eapply Tet4_compute_tensors_trace; eassumption.
  - eapply Tet10_compute_tensors_trace; eassumption.
  - eapply Hexa8_compute_tensors_trace; eassumption.
  - eapply Hexa20_compute_tensors_trace; eassumption.
Qed.

(** C3. For each of the eight plane and solid element classes, a run of the
    tensor computation at the zero displacement that returns (the Jacobian
    determinant is then non-zero), with a material whose law sends the zero
    strain to zero stress and zero Voigt stress, meets [F = I] and [E = 0] at
    every Gauss point and leaves the zero vector in the force buffer. *)
Theorem zero_displacement_is_stress_free cls self m X t self' trace :
  el_material self = Some m ->
  buffers_ok cls self ->
  zero_law (no_of_dims cls) (constitutive_law cls m) ->
  _compute_tensors cls self X (np.zeros (no_of_dofs cls)) t = Returns (self', trace) ->
  length trace = no_of_gauss_points cls /\
  Forall (fun FE => FE.1 = np.eye (no_of_dims cls) /\
                    FE.2 = np.zeros2 (no_of_dims cls) (no_of_dims cls)) trace /\
  el_f self' = np.zeros (no_of_dofs cls) /\
  f_int cls self X (np.zeros (no_of_dofs cls)) t = Returns (self', np.zeros (no_of_dofs cls)).
Proof.
  intros Hm [HK Hf] Hlaw Hrun.
  split; [eapply compute_tensors_trace_length; eassumption|].
  assert (Hres : trace_is_rest (no_of_dims cls) trace /\
                 el_f self' = np.zeros (no_of_dofs cls)).
  { destruct cls; cbn [_compute_tensors no_of_dims no_of_dofs no_of_nodes
                         constitutive_law Nat.mul Nat.add] in *.
    - eapply Tri3_compute_tensors_zero; eassumption.
    - eapply Tri6_compute_tensors_zero; eassumption.
    - eapply Quad4_compute_tensors_zero; eassumption.
    - eapply Quad8_compute_tensors_zero; eassumption.
    - eapply Tet4_compute_tensors_zero; eassumption.
    - eapply Tet10_compute_tensors_zero; eassumption.
    - eapply Hexa8_compute_tensors_zero; eassumption.
    - eapply Hexa20_compute_tensors_zero; eassumption. }
  destruct Hres as [Htr Hf']. split; [|split; [assumption|]].
  - unfold trace_is_rest in Htr. eapply List.Forall_impl; [|exact Htr].
    intros [F E] ->. split; reflexivity.
  - unfold f_int. rewrite Hrun. cbn [mbind outcome_bind fst]. now rewrite Hf'.
Qed.

Lemma symmetrize n A :
  (0 < n)%nat -> is_mat n n A -> symmetric n ((1/2) !* (A +! np.T A)).
Proof.
  intros Hn HA.
  assert (HT : is_mat n n (np.T A)) by now apply is_mat_T.
  assert (HS : is_mat n n (A +! np.T A)) by now apply is_mat_add.
  split; [now apply is_mat_s_mul|].
  intros i j.
  rewrite !(get_s_mul n n), !(get_add n n), !(get_T n n) by assumption. ring.
Qed.

(** ** Bar2Dlumped *)

Lemma two_nodes_rows X : two_nodes X -> (2 <=? np.shape0 (np.reshape X 2))%nat = true.
Proof.
  intros [_ Hlen]. unfold np.shape0, np.reshape, mk_mat. rewrite length_map, length_seq.
  apply Nat.leb_le. change 2%nat with (4 / 2)%nat at 1.
  apply Nat.Div0.div_le_mono. exact Hlen.
Qed.

Lemma Bar_k_and_m_int_inv self X u tm self' K M :
  Bar2Dlumped._k_and_m_int self X u tm = Returns (self', (K, M)) ->
  exists k_el m_el,
    is_mat 4 4 k_el /\ is_mat 4 4 m_el /\
    K = (1/2) !* (k_el +! np.T k_el) /\ M = (1/2) !* (m_el +! np.T m_el) /\
    Bar2Dlumped.K self' = K /\ Bar2Dlumped.M self' = M /\
    Bar2Dlumped.material self' = Bar2Dlumped.material self /\
    Bar2Dlumped.f self' = Bar2Dlumped.f self /\
    Bar2Dlumped.e_modul self' = Bar2Dlumped.e_modul self /\
    Bar2Dlumped.crosssec self' = Bar2Dlumped.crosssec self /\
    Bar2Dlumped.rho self' = Bar2Dlumped.rho self.
Proof.
  unfold Bar2Dlumped._k_and_m_int.
  destruct (Nat.even (length X)); [|discriminate].
  cbn [require_shape mbind outcome_bind].
  destruct (2 <=? _)%nat; [|discriminate]. cbn [mbind outcome_bind].
  destruct (Bar2Dlumped.e_modul self) as [e|] eqn:He; [|discriminate].
  destruct (Bar2Dlumped.crosssec self) as [a|] eqn:Ha; [|discriminate].
  cbn [attr mbind outcome_bind]. unfold Bar2Dlumped.divide.
  destruct (Req_EM_T _ 0); [discriminate|]. cbn [mbind outcome_bind].
  destruct (Bar2Dlumped.rho self) as [r|] eqn:Hr; [|discriminate].
  cbn [attr mbind outcome_bind]. cbv zeta. intros H. injection H as <- <- <-.
  eexists _, _. cbn [Bar2Dlumped.K Bar2Dlumped.M Bar2Dlumped.material Bar2Dlumped.f
                     Bar2Dlumped.e_modul Bar2Dlumped.crosssec Bar2Dlumped.rho].
  split; [|split; [|repeat split; reflexivity]].
  - apply (is_mat_matmul 4 2 4); [| |lia].
    + apply is_mat_T; [literal_shape | lia].
    + apply (is_mat_matmul 2 2 4); [| literal_shape | lia].
      apply is_mat_s_mul; [literal_shape | lia].
  - apply is_mat_s_mul; [literal_shape | lia].
Qed.

Lemma Bar_k_and_m_int_symmetric self X u tm self' K M :
  Bar2Dlumped._k_and_m_int self X u tm = Returns (self', (K, M)) ->
  symmetric 4 K /\ symmetric 4 M /\ Bar2Dlumped.K self' = K /\ Bar2Dlumped.M self' = M.
Proof.
  intros H. apply Bar_k_and_m_int_inv in H
    as (k_el & m_el & Hk & Hm & -> & -> & HK & HM & _).
  split; [apply symmetrize; [lia | assumption]|].
  split; [apply symmetrize; [lia | assumption]|].
  split; assumption.
Qed.

Lemma Bar_k_and_m_int_unconfigured self X u tm :
  two_nodes X -> Bar2Dlumped.e_modul self = None ->
  Bar2Dlumped._k_and_m_int self X u tm = Raises AttributeError.
Proof.
  intros HX He. unfold Bar2Dlumped._k_and_m_int.
  rewrite (proj1 HX). cbn [require_shape mbind outcome_bind].
  rewrite (two_nodes_rows X HX). cbn [mbind outcome_bind].
  rewrite He. reflexivity.
Qed.

Lemma Bar_k_and_m_int_configured self X u tm :
  two_nodes X -> configured self -> bar_length X <> 0 ->
  exists self' KM, Bar2Dlumped._k_and_m_int self X u tm = Returns (self', KM).
Proof.
  intros HX (He & Ha & Hr) Hl. unfold Bar2Dlumped._k_and_m_int.
  rewrite (proj1 HX). cbn [require_shape mbind outcome_bind].
  rewrite (two_nodes_rows X HX). cbn [mbind outcome_bind].
  destruct He as [e ->], Ha as [a ->], Hr as [r ->].
  cbn [attr mbind outcome_bind]. unfold Bar2Dlumped.divide.
  fold (bar_length X).
  destruct (Req_EM_T (bar_length X) 0) as [|_]; [contradiction|].
  cbn [mbind outcome_bind]. eauto.
Qed.

Lemma Bar_perform_unconfigured self c X :
  call_X c = Some X -> two_nodes X -> Bar2Dlumped.e_modul self = None ->
  Bar2Dlumped.perform self c = (self, Raises AttributeError).
Proof.
  intros Hc HX He. unfold Bar2Dlumped.perform.
  destruct c; try discriminate; injection Hc as ->;
    unfold Bar2Dlumped.k_and_f_int, Bar2Dlumped.k_int, Bar2Dlumped.f_int,
      Bar2Dlumped.m_int, Bar2Dlumped._m_int, Bar2Dlumped._compute_tensors;
    rewrite (Bar_k_and_m_int_unconfigured self X _ _ HX He); reflexivity.
Qed.

Lemma Bar_perform_configured self c X :
  call_X c = Some X -> two_nodes X -> configured self -> bar_length X <> 0 ->
  exists v, (Bar2Dlumped.perform self c).2 = Returns v.
Proof.
  intros Hc HX Hconf Hl. unfold Bar2Dlumped.perform.
  destruct c; try discriminate; injection Hc as ->;
    unfold Bar2Dlumped.k_and_f_int, Bar2Dlumped.k_int, Bar2Dlumped.f_int,
      Bar2Dlumped.m_int, Bar2Dlumped._m_int, Bar2Dlumped._compute_tensors;
    destruct (Bar_k_and_m_int_configured self X u tm HX Hconf Hl) as (s' & [K M] & ->);
    cbn [mbind outcome_bind snd]; eauto.
Qed.

Lemma Bar_perform_keeps_configured self c :
  configured self -> configured (Bar2Dlumped.perform self c).1.
Proof.
  intros Hconf. unfold Bar2Dlumped.perform.
  destruct c.
  - unfold Bar2Dlumped.foo. destruct (Bar2Dlumped.material self); cbn; [|assumption].
    unfold configured; cbn; eauto.
  - unfold Bar2Dlumped.k_and_f_int, Bar2Dlumped._compute_tensors.
    destruct (Bar2Dlumped._k_and_m_int self X u tm) as [[s' [K M]]| |] eqn:H;
      cbn [mbind outcome_bind fst]; try assumption.
    apply Bar_k_and_m_int_inv in H as (_ & _ & _ & _ & _ & _ & _ & _ & _ & _ & He & Ha & Hr).
    unfold configured. now rewrite He, Ha, Hr.
  - unfold Bar2Dlumped.k_int, Bar2Dlumped._compute_tensors.
    destruct (Bar2Dlumped._k_and_m_int self X u tm) as [[s' [K M]]| |] eqn:H;
      cbn [mbind outcome_bind fst]; try assumption.
    apply Bar_k_and_m_int_inv in H as (_ & _ & _ & _ & _ & _ & _ & _ & _ & _ & He & Ha & Hr).
    unfold configured. now rewrite He, Ha, Hr.
  - unfold Bar2Dlumped.f_int, Bar2Dlumped._compute_tensors.
    destruct (Bar2Dlumped._k_and_m_int self X u tm) as [[s' [K M]]| |] eqn:H;
      cbn [mbind outcome_bind fst]; try assumption.
    apply Bar_k_and_m_int_inv in H as (_ & _ & _ & _ & _ & _ & _ & _ & _ & _ & He & Ha & Hr).
    unfold configured. now rewrite He, Ha, Hr.
  - unfold Bar2Dlumped.m_int, Bar2Dlumped._m_int.
    destruct (Bar2Dlumped._k_and_m_int self X u tm) as [[s' [K M]]| |] eqn:H;
      cbn [mbind outcome_bind fst]; try assumption.
    apply Bar_k_and_m_int_inv in H as (_ & _ & _ & _ & _ & _ & _ & _ & _ & _ & He & Ha & Hr).
    unfold configured. now rewrite He, Ha, Hr.
Qed.

Lemma Bar_perform_keeps_material self c :
  Bar2Dlumped.material (Bar2Dlumped.perform self c).1 = Bar2Dlumped.material self.
Proof.
  unfold Bar2Dlumped.perform.
  destruct c.
  - unfold Bar2Dlumped.foo. destruct (Bar2Dlumped.material self) eqn:Hm; cbn; congruence.
  - unfold Bar2Dlumped.k_and_f_int, Bar2Dlumped._compute_tensors.
    destruct (Bar2Dlumped._k_and_m_int self X u tm) as [[s' [K M]]| |] eqn:H;
      cbn [mbind outcome_bind fst]; try reflexivity.
    now apply Bar_k_and_m_int_inv in H as (_ & _ & _ & _ & _ & _ & _ & _ & Hm & _).
  - unfold Bar2Dlumped.k_int, Bar2Dlumped._compute_tensors.
    destruct (Bar2Dlumped._k_and_m_int self X u tm) as [[s' [K M]]| |] eqn:H;
      cbn [mbind outcome_bind fst]; try reflexivity.
    now apply Bar_k_and_m_int_inv in H as (_ & _ & _ & _ & _ & _ & _ & _ & Hm & _).
  - unfold Bar2Dlumped.f_int, Bar2Dlumped._compute_tensors.
    destruct (Bar2Dlumped._k_and_m_int self X u tm) as [[s' [K M]]| |] eqn:H;
      cbn [mbind outcome_bind fst]; try reflexivity.
    now apply Bar_k_and_m_int_inv in H as (_ & _ & _ & _ & _ & _ & _ & _ & Hm & _).
  - unfold Bar2Dlumped.m_int, Bar2Dlumped._m_int.
    destruct (Bar2Dlumped._k_and_m_int self X u tm) as [[s' [K M]]| |] eqn:H;
      cbn [mbind outcome_bind fst]; try reflexivity.
    now apply Bar_k_and_m_int_inv in H as (_ & _ & _ & _ & _ & _ & _ & _ & Hm & _).
Qed.

Lemma Bar_run_app self cs1 cs2 :
  (Bar2Dlumped.run self (cs1 ++ cs2)).1
  = (Bar2Dlumped.run (Bar2Dlumped.run self cs1).1 cs2).1.
Proof.
  revert self. induction cs1 as [|c cs1 IH]; intros self; [reflexivity|].
  cbn [app Bar2Dlumped.run].
  destruct (Bar2Dlumped.perform self c) as [s1 o] eqn:Hp.
  specialize (IH s1).
  destruct (Bar2Dlumped.run s1 (cs1 ++ cs2)) as [s2 os2].
  destruct (Bar2Dlumped.run s1 cs1) as [s3 os3]. cbn [fst] in *. exact IH.
Qed.

Lemma Bar_run_keeps_configured self cs :
  configured self -> configured (Bar2Dlumped.run self cs).1.
Proof.
  revert self. induction cs as [|c cs IH]; intros self Hc; [exact Hc|].
  cbn [Bar2Dlumped.run].
  pose proof (Bar_perform_keeps_configured self c Hc) as H1.
  destruct (Bar2Dlumped.perform self c) as [s1 o]. cbn [fst] in H1.
  specialize (IH s1 H1). destruct (Bar2Dlumped.run s1 cs) as [s2 os]. exact IH.
Qed.

Lemma Bar_run_keeps_material self cs :
  Bar2Dlumped.material (Bar2Dlumped.run self cs).1 = Bar2Dlumped.material self.
Proof.
  revert self. induction cs as [|c cs IH]; intros self; [reflexivity|].
  cbn [Bar2Dlumped.run].
  pose proof (Bar_perform_keeps_material self c) as H1.
  destruct (Bar2Dlumped.perform self c) as [s1 o]. cbn [fst] in H1.
  specialize (IH s1). destruct (Bar2Dlumped.run s1 cs) as [s2 os]. cbn [fst] in *.
  congruence.
Qed.

Lemma Bar_foo_configures self m :
  Bar2Dlumped.material self = Some m ->
  configured (Bar2Dlumped.perform self Bar2Dlumped.Call_foo).1.
Proof.
  intros Hm. unfold Bar2Dlumped.perform, Bar2Dlumped.foo. rewrite Hm.
  unfold configured; cbn; eauto.
Qed.

Lemma Bar_run_unconfigured self cs :
  Bar2Dlumped.e_modul self = None ->
  Forall (fun c => exists X, call_X c = Some X /\ two_nodes X) cs ->
  Bar2Dlumped.run self cs = (self, map (fun _ => Raises AttributeError) cs).
Proof.
  intros He Hcs. induction Hcs as [|c cs (X & Hc & HX) _ IH]; [reflexivity|].
  cbn [Bar2Dlumped.run map].
  rewrite (Bar_perform_unconfigured self c X Hc HX He), IH. reflexivity.
Qed.

(** C10. On a freshly constructed bar element every stiffness, force or mass
    evaluation (on the coordinates of two nodes) raises [AttributeError] and
    leaves the element as it was, however many are tried; once [foo] has
    been called on an element that has a material, every later evaluation
    returns whenever the two nodes are a non-zero distance apart. *)
Theorem bar_needs_setup :
  (forall material cs,
     Forall (fun c => exists X, call_X c = Some X /\ two_nodes X) cs ->
     Bar2Dlumped.run (Bar2Dlumped.__init__ material) cs
     = (Bar2Dlumped.__init__ material, map (fun _ => Raises AttributeError) cs)) /\
  (forall m cs1 cs2 c X,
     call_X c = Some X -> two_nodes X -> bar_length X <> 0 ->
     exists v,
       (Bar2Dlumped.perform
          (Bar2Dlumped.run (Bar2Dlumped.__init__ (Some m))
             (cs1 ++ Bar2Dlumped.Call_foo :: cs2)).1 c).2 = Returns v).
Proof.
  split.
  - intros material cs Hcs. now apply Bar_run_unconfigured.
  - intros m cs1 cs2 c X Hc HX Hl.
    apply (Bar_perform_configured _ c X Hc HX); [|exact Hl].
    rewrite Bar_run_app. change (Bar2Dlumped.Call_foo :: cs2) with ([Bar2Dlumped.Call_foo] ++ cs2).
    rewrite Bar_run_app. apply Bar_run_keeps_configured.
    cbn [Bar2Dlumped.run].
    pose proof (Bar_foo_configures (Bar2Dlumped.run (Bar2Dlumped.__init__ (Some m)) cs1).1 m) as H.
    rewrite Bar_run_keeps_material in H. specialize (H eq_refl).
    destruct (Bar2Dlumped.perform _ Bar2Dlumped.Call_foo) as [s1 o]. exact H.
Qed.

Lemma zero_displacement_is_stress_free_witness :
  exists self' trace,
    _compute_tensors Tri3 (__init__ Tri3 (Some example_material)) example_X
      (np.zeros (no_of_dofs Tri3)) 0 = Returns (self', trace) /\
    length trace = no_of_gauss_points Tri3 /\
    Forall (fun FE => FE.1 = np.eye (no_of_dims Tri3) /\
                      FE.2 = np.zeros2 (no_of_dims Tri3) (no_of_dims Tri3)) trace /\
    el_f self' = np.zeros (no_of_dofs Tri3) /\
    f_int Tri3 (__init__ Tri3 (Some example_material)) example_X
      (np.zeros (no_of_dofs Tri3)) 0 = Returns (self', np.zeros (no_of_dofs Tri3)).
Proof.
  pose proof (example_run (np.zeros 6) eq_refl) as Hrun.
  set (r := Tri3.tensors _ _ _ _ _) in Hrun.
  exists r.1, r.2. rewrite <- surjective_pairing. split; [exact Hrun|].
  apply (zero_displacement_is_stress_free Tri3 _ example_material example_X 0).
  - reflexivity.
  - apply init_buffers_ok.
  - exact example_zero_law_2d.
  - rewrite <- surjective_pairing. exact Hrun.
Defined.

(** C4. With a material whose stress tensor and tangent tensor are
    symmetric, the stiffness matrix left by a run of any continuum element's
    tensor computation is symmetric, and it is what [k_int] returns; Prism6
    leaves its stiffness buffer untouched; and the matrices [K] and [M] that
    Bar2Dlumped returns and stores are symmetric through the explicit
    symmetrization. *)
Theorem stiffness_is_symmetric :
  (forall cls self m X u t self' trace,
     el_material self = Some m ->
     buffers_ok cls self ->
     symmetric_law (no_of_dims cls) (constitutive_law cls m) ->
     _compute_tensors cls self X u t = Returns (self', trace) ->
     symmetric (no_of_dofs cls) (el_K self') /\
     k_int cls self X u t = Returns (self', el_K self')) /\
  (forall material X u t,
     exists self',
       Prism6._compute_tensors (Prism6.__init__ material) X u t = Returns (self', []) /\
       symmetric 18 (el_K self')) /\
  (forall self X u tm self' K M,
     Bar2Dlumped._k_and_m_int self X u tm = Returns (self', (K, M)) ->
     symmetric 4 K /\ symmetric 4 M /\
     Bar2Dlumped.K self' = K /\ Bar2Dlumped.M self' = M).
Proof.
  split; [|split].
  - intros cls self m X u t self' trace Hm [HK Hf] Hlaw Hrun. split.
    + destruct cls; cbn [_compute_tensors no_of_dims no_of_dofs no_of_nodes
                           constitutive_law Nat.mul Nat.add] in *.
      * eapply Tri3_compute_tensors_sym; eassumption.
      * eapply Tri6_compute_tensors_sym; eassumption.
      * eapply Quad4_compute_tensors_sym; eassumption.
      * eapply Quad8_compute_tensors_sym; eassumption.
      * eapply Tet4_compute_tensors_sym; eassumption.
      * eapply Tet10_compute_tensors_sym; eassumption.
      * eapply Hexa8_compute_tensors_sym; eassumption.
      * eapply Hexa20_compute_tensors_sym; eassumption.
    + unfold k_int. rewrite Hrun. reflexivity.
  - intros material X u t. eexists. split; [reflexivity|].
    cbn [Prism6.__init__ el_K]. apply symmetric_zeros2.
  - intros self X u tm self' K M. apply Bar_k_and_m_int_symmetric.
Qed.

Lemma stiffness_is_symmetric_witness :
  (exists self' trace,
     _compute_tensors Tri3 (__init__ Tri3 (Some example_material)) example_X example_u 0
     = Returns (self', trace) /\
     symmetric (no_of_dofs Tri3) (el_K self') /\
     k_int Tri3 (__init__ Tri3 (Some example_material)) example_X example_u 0
     = Returns (self', el_K self')) /\
  (exists self' K M,
     Bar2Dlumped._k_and_m_int
       example_bar example_bar_X (np.zeros 4) 0
     = Returns (self', (K, M)) /\
     symmetric 4 K /\ symmetric 4 M /\
     Bar2Dlumped.K self' = K /\ Bar2Dlumped.M self' = M).
Proof.
  destruct stiffness_is_symmetric as (Hel & _ & Hbar). split.
  - pose proof (example_run example_u eq_refl) as Hrun.
    set (r := Tri3.tensors _ _ _ _ _) in Hrun.
    exists r.1, r.2. rewrite <- surjective_pairing. split; [exact Hrun|].
    apply (Hel Tri3 _ example_material example_X example_u 0 r.1 r.2).
    + reflexivity.
    + apply init_buffers_ok.
    + exact example_symmetric_law_2d.
    + rewrite <- surjective_pairing. exact Hrun.
  - assert (Hrun : exists r, Bar2Dlumped._k_and_m_int
       example_bar example_bar_X (np.zeros 4) 0 = Returns r).
    { unfold Bar2Dlumped._k_and_m_int, example_bar, example_bar_X.
      cbn [length Nat.even require_shape mbind outcome_bind Bar2Dlumped.e_modul
             Bar2Dlumped.crosssec Bar2Dlumped.rho attr].
      rewrite two_nodes_rows by (split; [reflexivity | cbn; lia]).
      cbn [mbind outcome_bind]. unfold Bar2Dlumped.divide.
      destruct (Req_EM_T _ 0) as [Hz|_].
      - exfalso. revert Hz. unfold np.linalg_norm. cbn.
        intros Hz. apply sqrt_eq_0 in Hz; lra.
      - cbn [mbind outcome_bind]. eauto. }
    destruct Hrun as [[self' [K M]] Hrun].
    exists self', K, M. split; [exact Hrun|]. exact (Hbar _ _ _ _ _ _ _ Hrun).
Defined.

(** C5. Adding one constant vector [c] to the displacement of every node
    does not change anything a run of the tensor computation produces: the
    deformation gradient and Green-Lagrange strain at each Gauss point, the
    internal force, the stiffness and the stored stress and strain are the
    same as at [u]; in particular [f_int] returns the same. *)
Theorem translation_objectivity cls self X u c t :
  _compute_tensors cls self X (translate (no_of_dims cls) u c) t
  = _compute_tensors cls self X u t /\
  f_int cls self X (translate (no_of_dims cls) u c) t = f_int cls self X u t /\
  k_f_S_E_int cls self X (translate (no_of_dims cls) u c) t = k_f_S_E_int cls self X u t.
Proof.
  assert (H : _compute_tensors cls self X (translate (no_of_dims cls) u c) t
              = _compute_tensors cls self X u t).
  { destruct cls; cbn [_compute_tensors no_of_dims].
    - apply Tri3_compute_tensors_translate.
    - apply Tri6_compute_tensors_translate.
    - apply Quad4_compute_tensors_translate.
    - apply Quad8_compute_tensors_translate.
    - apply Tet4_compute_tensors_translate.
    - apply Tet10_compute_tensors_translate.
    - apply Hexa8_compute_tensors_translate.
    - apply Hexa20_compute_tensors_translate. }
  unfold f_int, k_f_S_E_int. rewrite H. auto.
Qed.

(** C6. For an n x n matrix [Mat], [scatter_matrix Mat ndim] has shape
    (n ndim, n ndim) and its entry at row [ndim i + k], column [ndim j + l]
    is [Mat[i, j]] when [k = l] and [0] otherwise. *)
Theorem scatter_matrix_blocks n ndim Mat :
  is_mat n n Mat ->
  is_mat (n * ndim) (n * ndim) (scatter_matrix Mat ndim) /\
  forall i j k l, (i < n)%nat -> (j < n)%nat -> (k < ndim)%nat -> (l < ndim)%nat ->
    get (scatter_matrix Mat ndim) (ndim * i + k) (ndim * j + l)
    = if (k =? l)%nat then get Mat i j else 0.
Proof.
  intros HM. exact (scatter_matrix_spec Mat n n ndim HM).
Qed.

Lemma scatter_matrix_blocks_witness :
  is_mat 2 2 [[1; 2]; [3; 4]] /\
  is_mat (2 * 2) (2 * 2) (scatter_matrix [[1; 2]; [3; 4]] 2) /\
  forall i j k l, (i < 2)%nat -> (j < 2)%nat -> (k < 2)%nat -> (l < 2)%nat ->
    get (scatter_matrix [[1; 2]; [3; 4]] 2) (2 * i + k) (2 * j + l)
    = if (k =? l)%nat then get [[1; 2]; [3; 4]] i j else 0.
Proof.
  split; [literal_shape|]. apply (scatter_matrix_blocks 2 2). literal_shape.
Defined.

Lemma bar_needs_setup_witness :
  Bar2Dlumped.run (Bar2Dlumped.__init__ (Some example_material))
    [Bar2Dlumped.Call_k_int example_bar_X (np.zeros 4) 0;
     Bar2Dlumped.Call_m_int example_bar_X (np.zeros 4) 0]
  = (Bar2Dlumped.__init__ (Some example_material),
     [Raises AttributeError; Raises AttributeError]) /\
  exists v,
    (Bar2Dlumped.perform
       (Bar2Dlumped.run (Bar2Dlumped.__init__ (Some example_material))
          ([Bar2Dlumped.Call_k_int example_bar_X (np.zeros 4) 0]
           ++ Bar2Dlumped.Call_foo :: [])).1
       (Bar2Dlumped.Call_k_and_f_int example_bar_X (np.zeros 4) 0)).2 = Returns v.
Proof.
  destruct bar_needs_setup as [Hfresh Hset].
  assert (H2 : two_nodes example_bar_X) by (split; [reflexivity | cbn; lia]).
  split.
  - apply (Hfresh (Some example_material)).
    repeat constructor; eexists; (split; [reflexivity | exact H2]).
  - apply (Hset example_material _ _ _ example_bar_X); [reflexivity | exact H2 |].
    unfold bar_length, np.linalg_norm, example_bar_X. cbn.
    intros Hz. apply sqrt_eq_0 in Hz; lra.
Defined.

(** ** sparse_nnls *)

Lemma min_from_spec best v :
  np.min_from best v <= best /\ Forall (fun x => np.min_from best v <= x) v.
Proof.
  revert best. induction v as [|x v IH]; intros best; cbn [np.min_from].
  - split; [lra | constructor].
  - destruct (Rlt_dec x best) as [Hlt|Hge].
    + destruct (IH x) as [H1 H2]. split; [lra|]. constructor; assumption.
    + destruct (IH best) as [H1 H2]. split; [assumption|]. constructor; [lra | assumption].
Qed.

Lemma min_spec v m : np.min v = Returns m -> Forall (fun x => m <= x) v.
Proof.
  destruct v as [|x v]; [discriminate|]. cbn [np.min]. intros H. injection H as <-.
  destruct (min_from_spec x v) as [H1 H2]. constructor; assumption.
Qed.

Lemma length_mask_fill v mask c : length (np.mask_fill v mask c) = length v.
Proof.
  revert mask. induction v as [|x v IH]; intros [|[] mask]; cbn; auto.
Qed.

Lemma length_mask_assign v mask w r :
  np.mask_assign v mask w = Returns r -> length r = length v.
Proof.
  revert mask w r. induction v as [|x v IH]; intros mask w r.
  - destruct mask as [|[] mask]; cbn; destruct w; intros H; try discriminate;
      now injection H as <-.
  - destruct mask as [|[] mask]; cbn [np.mask_assign].
    + destruct w; intros H; try discriminate. now injection H as <-.
    + destruct w as [|y w]; [discriminate|].
      destruct (np.mask_assign v mask w) as [r'| |] eqn:Hr; try discriminate.
      cbn [mbind outcome_bind]. intros H. injection H as <-. cbn [length].
      f_equal. eapply IH; eassumption.
    + destruct (np.mask_assign v mask w) as [r'| |] eqn:Hr; try discriminate.
      cbn [mbind outcome_bind]. intros H. injection H as <-. cbn [length].
      f_equal. eapply IH; eassumption.
Qed.

Lemma nonzero_from_spec i v :
  (length (np.nonzero_from i v) <= length v)%nat /\
  Forall (fun k => (i <= k < i + length v)%nat) (np.nonzero_from i v).
Proof.
  revert i. induction v as [|x v IH]; intros i; cbn [np.nonzero_from length].
  - split; [lia | constructor].
  - destruct (IH (S i)) as [H1 H2].
    assert (H3 : Forall (fun k => (i <= k < i + S (length v))%nat)
                   (np.nonzero_from (S i) v)).
    { eapply List.Forall_impl; [|exact H2]. cbn beta. intros k Hk. lia. }
    destruct (Req_EM_T x 0).
    + split; [lia | assumption].
    + split; [cbn [length]; lia|]. constructor; [lia | assumption].
Qed.

Lemma select_none v k : np.select v (repeat false k) = [].
Proof.
  revert k. induction v as [|x v IH]; intros [|k]; cbn; auto.
Qed.

Lemma initial_residual G (b : vector) n :
  b = b -^ np.take_cols G (repeat false n) @| np.select (np.zeros n) (repeat false n).
Proof.
  rewrite select_none. apply vec_ext.
  - unfold np.vsub. now rewrite length_mk_vec.
  - intros i Hi. unfold np.vsub. rewrite vget_mk_vec by assumption.
    assert (Hz : vget (np.take_cols G (repeat false n) @| []) i = 0).
    { unfold np.dot.
      destruct (Nat.lt_ge_cases i (np.shape0 (np.take_cols G (repeat false n)))) as [Hlt|Hge].
      - rewrite vget_mk_vec by assumption. apply rsum_zero. intros k _.
        unfold vget. destruct k; cbn [nth]; ring.
      - apply vget_oob. now rewrite length_mk_vec. }
    rewrite Hz. ring.
Qed.

(** What the inner loop hands back at its [break]. *)
Lemma sparse_nnls_inner_spec fuel G b xi zeta active_set xi' zeta' active_set' :
  sparse_nnls_inner fuel G b xi zeta active_set = Returns (xi', zeta', active_set') ->
  xi' = zeta' /\ length zeta' = length zeta /\
  Forall (fun w => 0 <= w) (np.select xi' active_set').
Proof.
  revert xi zeta active_set.
  induction fuel as [|fuel IH]; intros xi zeta active_set; [discriminate|].
  cbn [sparse_nnls_inner]. cbv zeta.
  destruct (sp.linalg_solve _ _) as [sol| |]; try discriminate.
  cbn [mbind outcome_bind].
  destruct (np.mask_assign _ active_set sol) as [z| |] eqn:Hz; try discriminate.
  cbn [mbind outcome_bind].
  apply length_mask_assign in Hz. rewrite length_mask_fill in Hz.
  destruct (np.min (np.select z active_set)) as [zmin| |] eqn:Hmin; try discriminate.
  cbn [mbind outcome_bind].
  destruct (Rge_dec zmin 0) as [Hpos|Hneg].
  - intros H. injection H as <- <- <-. split; [reflexivity|]. split; [assumption|].
    apply min_spec in Hmin. eapply List.Forall_impl; [|exact Hmin].
    cbn beta. intros w Hw. lra.
  - destruct (np.argmin _) as [ele_const| |]; try discriminate.
    cbn [mbind outcome_bind].
    destruct (attr_index _ ele_const) as [const_idx| |]; try discriminate.
    cbn [mbind outcome_bind].
    destruct (np.min (np.vdiv _ _)) as [alpha| |]; try discriminate.
    cbn [mbind outcome_bind]. intros H. apply IH in H as (H1 & H2 & H3).
    split; [assumption|]. split; [congruence | assumption].
Qed.

Lemma sparse_nnls_outer_spec fuel G b tau norm_b conv_stats st st' :
  nnls_invariant G b st ->
  sparse_nnls_outer fuel G b tau norm_b conv_stats st = Returns st' ->
  nnls_invariant G b st' /\ np.linalg_norm (st_r st') <= tau * norm_b.
Proof.
  revert st. induction fuel as [|fuel IH]; intros st Hinv; [discriminate|].
  cbn [sparse_nnls_outer].
  destruct (Rgt_dec _ _) as [Hgt|Hle].
  - cbv zeta. destruct (np.argmax _) as [idx| |]; try discriminate.
    cbn [mbind outcome_bind].
    destruct (idx <? _)%nat; [|discriminate]. cbn [mbind outcome_bind].
    destruct (sparse_nnls_inner _ _ _ _ _ _) as [[[xi zeta] act]| |] eqn:Hin;
      try discriminate.
    cbn [mbind outcome_bind]. apply IH.
    apply sparse_nnls_inner_spec in Hin as (-> & Hlen & Hpos).
    destruct Hinv as (_ & Hz & _ & _).
    unfold nnls_invariant; cbn [st_xi st_zeta st_active_set st_r].
    repeat split; try assumption; congruence.
  - intros H. injection H as <-. split; [assumption | lra].
Qed.

Lemma sparse_nnls_loop_spec fuel G b tau conv_stats st :
  sparse_nnls_loop fuel G b tau conv_stats = Returns st ->
  nnls_invariant G b st /\ np.linalg_norm (st_r st) <= tau * np.linalg_norm b.
Proof.
  unfold sparse_nnls_loop. cbv zeta. apply sparse_nnls_outer_spec.
  unfold nnls_invariant; cbn [st_xi st_zeta st_active_set st_r].
  unfold np.zeros. rewrite repeat_length. repeat split.
  - fold (np.zeros (np.shape1 G)). rewrite select_none. constructor.
  - apply (initial_residual G b (np.shape1 G)).
Qed.

(** C1. Whenever [sparse_nnls] returns, every returned weight is
    non-negative, the returned indices are positions of columns of [G] and
    are not more than its columns, and the residual of the returned solution,
    [b - G[:, active_set] @ xi[active_set]], has norm at most [tau * ||b||]. *)
Theorem sparse_nnls_sound fuel G b tau conv_stats indices xi_red stats :
  sparse_nnls fuel G b tau conv_stats = Returns (indices, xi_red, stats) ->
  Forall (fun w => 0 <= w) xi_red /\
  (length indices <= np.shape1 G)%nat /\
  Forall (fun i => (i < np.shape1 G)%nat) indices /\
  exists st,
    sparse_nnls_loop fuel G b tau conv_stats = Returns st /\
    indices = np.nonzero (st_xi st) /\
    xi_red = np.select (st_xi st) (st_active_set st) /\
    np.linalg_norm (b -^ np.take_cols G (st_active_set st) @| xi_red)
    <= tau * np.linalg_norm b.
Proof.
  unfold sparse_nnls.
  destruct (sparse_nnls_loop fuel G b tau conv_stats) as [st| |] eqn:Hloop;
    try discriminate.
  cbn [mbind outcome_bind]. cbv zeta. intros H. injection H as <- <- <-.
  apply sparse_nnls_loop_spec in Hloop as Hspec.
  destruct Hspec as [(Hlen & _ & Hpos & Hr) Hres].
  destruct (nonzero_from_spec 0 (st_xi st)) as [Hn1 Hn2]. rewrite Hlen in *.
  split; [assumption|]. split; [assumption|]. split.
  - eapply List.Forall_impl; [|exact Hn2]. cbn beta. intros k Hk. lia.
  - exists st. split; [reflexivity|]. split; [reflexivity|]. split; [reflexivity|].
    rewrite <- Hr. assumption.
Qed.

Ltac np_cbv :=
  cbv [np.T np.matmul np.dot np.take_cols np.select np.shape0 np.shape1
       mk_mat mk_vec map seq hd length get vget nth rsum np.vsub np.vadd
       np.s_vmul np.mask_fill np.invert negb np.linalg_det np.det_n np.minor
       np.drop_nth np.sign Nat.even Nat.add Nat.sub Nat.pred
       example_G example_b].

Ltac canon t v := replace t with v by (np_cbv; repeat f_equal; lra).

Lemma example_inner_1 fuel :
  sparse_nnls_inner (S fuel) example_G example_b [0; 0] [0; 0] [true; false]
  = Returns ([1/4; 0], [1/4; 0], [true; false]).
Proof.
  cbn [sparse_nnls_inner]. cbv zeta.
  canon (np.T (np.take_cols example_G [true; false]) @@ np.take_cols example_G [true; false])
        [[16]].
  canon (np.T (np.take_cols example_G [true; false]) @| example_b) [4].
  unfold sp.linalg_solve, np.linalg_inv. cbv zeta.
  destruct (Req_EM_T (np.linalg_det [[16]]) 0) as [Hz|_];
    [exfalso; revert Hz; np_cbv; lra|].
  cbn [mbind outcome_bind].
  match goal with |- context [?M @| [4]] => canon (M @| [4]) [1/4] end.
  cbn [np.mask_assign np.mask_fill np.invert map negb mbind outcome_bind
       np.select np.min np.min_from].
  destruct (Rge_dec (1/4) 0) as [_|Hn]; [reflexivity | exfalso; lra].
Qed.

Lemma example_inner_2 fuel :
  sparse_nnls_inner (S fuel) example_G example_b [1/4; 0] [1/4; 0] [true; true]
  = Returns ([0; 1], [0; 1], [true; true]).
Proof.
  cbn [sparse_nnls_inner]. cbv zeta.
  canon (np.T (np.take_cols example_G [true; true]) @@ np.take_cols example_G [true; true])
        [[16; 4]; [4; 2]].
  canon (np.T (np.take_cols example_G [true; true]) @| example_b) [4; 2].
  unfold sp.linalg_solve, np.linalg_inv. cbv zeta.
  destruct (Req_EM_T (np.linalg_det [[16; 4]; [4; 2]]) 0) as [Hz|_];
    [exfalso; revert Hz; np_cbv; lra|].
  cbn [mbind outcome_bind].
  match goal with |- context [?M @| [4; 2]] => canon (M @| [4; 2]) [0; 1] end.
  cbn [np.mask_assign np.mask_fill np.invert map negb mbind outcome_bind
       np.select np.min np.min_from].
  destruct (Rlt_dec 1 0) as [Hn|_]; [exfalso; lra|].
  destruct (Rge_dec 0 0) as [_|Hn]; [reflexivity | exfalso; lra].
Qed.

Lemma sqrt2_bounds : 1 < sqrt 2 < 2.
Proof.
  split.
  - rewrite <- sqrt_1 at 1. apply sqrt_lt_1; lra.
  - replace 2 with (sqrt 4) at 2
      by (replace 4 with (2 * 2) by lra; apply sqrt_square; lra).
    apply sqrt_lt_1; lra.
Qed.

Lemma sparse_nnls_outer_S fuel G b tau norm_b conv_stats st :
  sparse_nnls_outer (S fuel) G b tau norm_b conv_stats st
  = if Rgt_dec (np.linalg_norm (st_r st)) (tau * norm_b) then
      let mu := np.T G @| st_r st in
      idx ← np.argmax mu;
      _ ← (if (idx <? length (st_active_set st))%nat then Returns tt
           else Raises IndexError);
      let active_set := <[ idx := true ]> (st_active_set st) in
      '(xi, zeta, active_set) ←
         sparse_nnls_inner fuel G b (st_xi st) (st_zeta st) active_set;
      let r := b -^ np.take_cols G active_set @| np.select xi active_set in
      let stats :=
        if conv_stats
        then st_stats st ++ [(length (np.nonzero xi), np.linalg_norm r)]
        else st_stats st in
      sparse_nnls_outer fuel G b tau norm_b conv_stats
        {| st_xi := xi; st_zeta := zeta; st_active_set := active_set;
           st_r := r; st_stats := stats |}
    else Returns st.
Proof. reflexivity. Qed.

Lemma example_loop fuel :
  sparse_nnls_loop (S (S (S fuel))) example_G example_b (1/2) false
  = Returns {| st_xi := [0; 1]; st_zeta := [0; 1]; st_active_set := [true; true];
               st_r := [0; 0]; st_stats := [] |}.
Proof.
  pose proof sqrt2_bounds as Hs.
  assert (Hb : np.linalg_norm example_b = sqrt 2)
    by (unfold np.linalg_norm; np_cbv; f_equal; lra).
  unfold sparse_nnls_loop. cbv zeta. rewrite Hb.
  change (np.shape1 example_G) with 2%nat.
  cbn [np.zeros repeat].
  (* first pass: column 0 enters the active set *)
  rewrite sparse_nnls_outer_S. cbv zeta.
  cbn [st_r st_xi st_zeta st_active_set st_stats]. rewrite Hb.
  destruct (Rgt_dec (sqrt 2) (1/2 * sqrt 2)) as [_|Hn]; [|exfalso; lra].
  canon (np.T example_G @| example_b) [4; 2].
  cbn [np.argmax np.argmax_from].
  destruct (Rlt_dec 4 2) as [Hn|_]; [exfalso; lra|].
  cbn [mbind outcome_bind length Nat.ltb Nat.leb].
  change (<[0%nat := true]> [false; false]) with [true; false].
  rewrite example_inner_1. cbn [mbind outcome_bind].
  canon (example_b -^ np.take_cols example_G [true; false] @| np.select [1/4; 0] [true; false])
        [0; 1].
  (* second pass: column 1 enters, the weight of column 0 becomes 0 *)
  rewrite sparse_nnls_outer_S. cbv zeta.
  cbn [st_r st_xi st_zeta st_active_set st_stats].
  assert (Hr1 : np.linalg_norm [0; 1] = 1).
  { unfold np.linalg_norm. np_cbv. transitivity (sqrt 1); [f_equal; lra | apply sqrt_1]. }
  rewrite Hr1.
  destruct (Rgt_dec 1 (1/2 * sqrt 2)) as [_|Hn]; [|exfalso; lra].
  canon (np.T example_G @| [0; 1]) [0; 1].
  cbn [np.argmax np.argmax_from].
  destruct (Rlt_dec 0 1) as [_|Hn]; [|exfalso; lra].
  cbn [mbind outcome_bind length Nat.ltb Nat.leb].
  change (<[1%nat := true]> [true; false]) with [true; true].
  rewrite example_inner_2. cbn [mbind outcome_bind].
  canon (example_b -^ np.take_cols example_G [true; true] @| np.select [0; 1] [true; true])
        [0; 0].
  (* the residual vanishes: exit *)
  rewrite sparse_nnls_outer_S. cbn [st_r].
  assert (Hr2 : np.linalg_norm [0; 0] = 0).
  { unfold np.linalg_norm. np_cbv. transitivity (sqrt 0); [f_equal; lra | apply sqrt_0]. }
  rewrite Hr2.
  destruct (Rgt_dec 0 (1/2 * sqrt 2)) as [Hn|_]; [exfalso; lra | reflexivity].
Qed.

Lemma example_nnls fuel :
  sparse_nnls (S (S (S fuel))) example_G example_b (1/2) false
  = Returns ([1%nat], [0; 1], []).
Proof.
  unfold sparse_nnls. rewrite example_loop.
  cbn [mbind outcome_bind st_xi st_active_set st_stats np.select np.nonzero
       np.nonzero_from].
  destruct (Req_EM_T 0 0) as [_|Hn]; [|contradiction].
  destruct (Req_EM_T 1 0) as [Hn|_]; [exfalso; lra | reflexivity].
Qed.

(** ** ECSWSystem: the operator accessors *)

Lemma default_u_spec self V u :
  sys_V self = Some V -> ECSWSystem.default_u self u = Returns (u_or_zeros V u).
Proof. intros HV. destruct u; cbn; [reflexivity|]. now rewrite HV. Qed.

Lemma dispatch_direct self Vu u t :
  sys_assembly_type self = Some "direct" -> sys_V_unconstr self = Some Vu ->
  ECSWSystem.dispatch self u t
  = assemble_k_and_f_hyper (sys_assembly_class self) Vu
      (sys_weight_idx self) (sys_weights self) u t.
Proof. intros Hf HVu. unfold ECSWSystem.dispatch. rewrite Hf, HVu. reflexivity. Qed.

Lemma dispatch_indirect self Vu u t :
  sys_assembly_type self = Some "indirect" -> sys_V_unconstr self = Some Vu ->
  ECSWSystem.dispatch self u t
  = assemble_k_and_f_hyper_no_inplace (sys_assembly_class self) Vu
      (sys_weight_idx self) (sys_weights self) u t.
Proof. intros Hf HVu. unfold ECSWSystem.dispatch. rewrite Hf, HVu. reflexivity. Qed.

Lemma dispatch_invalid self flag u t :
  sys_assembly_type self = Some flag -> flag <> "direct" -> flag <> "indirect" ->
  ECSWSystem.dispatch self u t = Raises ValueError.
Proof.
  intros Hf H1 H2. unfold ECSWSystem.dispatch. rewrite Hf. cbn [attr mbind outcome_bind].
  destruct (decide (flag = "direct")); [contradiction|].
  destruct (decide (flag = "indirect")); [contradiction|]. reflexivity.
Qed.

Lemma accessors_agree_dispatch self V u t :
  sys_V self = Some V ->
  accessors_agree self u t (ECSWSystem.dispatch self (u_or_zeros V u) t).
Proof.
  intros HV. unfold accessors_agree, ECSWSystem.K_and_f, ECSWSystem.K, ECSWSystem.f_int.
  rewrite (default_u_spec self V u HV). cbn [mbind outcome_bind].
  destruct (ECSWSystem.dispatch self (u_or_zeros V u) t) as [[K f]| |]; auto.
Qed.

(** C7. On a system whose basis, unconstrained basis and assembly flag are
    set: with the flag 'direct' the three accessors return (the parts of)
    what the direct hyper-reduced assembly returns, with 'indirect' what the
    no-inplace one returns, both called on the stored basis, weight indices
    and weights and on [u], or on the zero vector with one entry per column
    of [V] when [u] is [None]; with any other flag each raises [ValueError];
    and when both assembly routines return, each accessor raises exactly when
    the flag is neither 'direct' nor 'indirect'. *)
Theorem ecsw_accessors_dispatch self flag V Vu u t :
  sys_assembly_type self = Some flag ->
  sys_V self = Some V ->
  sys_V_unconstr self = Some Vu ->
  let direct :=
    assemble_k_and_f_hyper (sys_assembly_class self) Vu
      (sys_weight_idx self) (sys_weights self) (u_or_zeros V u) t in
  let indirect :=
    assemble_k_and_f_hyper_no_inplace (sys_assembly_class self) Vu
      (sys_weight_idx self) (sys_weights self) (u_or_zeros V u) t in
  (flag = "direct" -> accessors_agree self u t direct) /\
  (flag = "indirect" -> accessors_agree self u t indirect) /\
  (flag <> "direct" -> flag <> "indirect" ->
   accessors_agree self u t (Raises ValueError)) /\
  ((exists r, direct = Returns r) -> (exists r, indirect = Returns r) ->
   (raises (ECSWSystem.K_and_f self u t) <-> flag <> "direct" /\ flag <> "indirect") /\
   (raises (ECSWSystem.K self u t) <-> flag <> "direct" /\ flag <> "indirect") /\
   (raises (ECSWSystem.f_int self u t) <-> flag <> "direct" /\ flag <> "indirect")).
Proof.
  intros Hf HV HVu direct indirect.
  pose proof (accessors_agree_dispatch self V u t HV) as Hagree.
  assert (Hd : flag = "direct" -> accessors_agree self u t direct).
  { intros ->. now rewrite (dispatch_direct self Vu _ t Hf HVu) in Hagree. }
  assert (Hi : flag = "indirect" -> accessors_agree self u t indirect).
  { intros ->. now rewrite (dispatch_indirect self Vu _ t Hf HVu) in Hagree. }
  assert (Hx : flag <> "direct" -> flag <> "indirect" ->
               accessors_agree self u t (Raises ValueError)).
  { intros H1 H2. now rewrite (dispatch_invalid self flag _ t Hf H1 H2) in Hagree. }
  split; [exact Hd|]. split; [exact Hi|]. split; [exact Hx|].
  intros [rd Hrd] [ri Hri]. unfold raises.
  destruct (decide (flag = "direct")) as [E1|N1].
  { destruct (Hd E1) as (H1 & H2 & H3). rewrite H1, H2, H3, Hrd. cbn [mbind outcome_bind].
    split; [|split]; (split; [intros [e He]; discriminate | intros [? _]; contradiction]). }
  destruct (decide (flag = "indirect")) as [E2|N2].
  { destruct (Hi E2) as (H1 & H2 & H3). rewrite H1, H2, H3, Hri. cbn [mbind outcome_bind].
    split; [|split]; (split; [intros [e He]; discriminate | intros [_ ?]; contradiction]). }
  destruct (Hx N1 N2) as (H1 & H2 & H3). rewrite H1, H2, H3. cbn [mbind outcome_bind].
  split; [|split]; (split; [intros _; split; assumption | intros _; eexists; reflexivity]).
Qed.

(** ** reduce_mechanical_system_ecsw *)

Lemma fits_damping_checks V D :
  fits_damping V (Some D) ->
  (np.shape0 V =? np.shape0 D)%nat = true /\ (np.shape1 D =? np.shape0 V)%nat = true.
Proof. intros [H0 H1]. rewrite H0, H1, !Nat.eqb_refl. auto. Qed.

Lemma not_fits_damping_checks V D :
  ~ fits_damping V (Some D) ->
  (_ ← require_shape (np.shape0 V =? np.shape0 D)%nat;
   _ ← require_shape (np.shape1 D =? np.shape0 V)%nat;
   Returns (Some (np.T V @@ D @@ V)))
  = Raises ValueError.
Proof.
  intros H. destruct (Nat.eqb_spec (np.shape0 V) (np.shape0 D)) as [H0|H0];
    [|reflexivity].
  destruct (Nat.eqb_spec (np.shape1 D) (np.shape0 V)) as [H1|H1]; [|reflexivity].
  exfalso. apply H. split; congruence.
Qed.

(** C8. [reduce_mechanical_system_ecsw] on an existing system.  When the
    basis [V] fits the damping matrix (or there is none) it returns.
    Without [overwrite] the result is a new object and every object there
    was, the given system included, is as before; with [overwrite] the
    result is the given object itself and every other object is as before.
    In both cases the result has class [ECSWSystem], [V] and its
    unconstrained expansion set, weights, weight indices and the constrained
    mass matrix [None], the output list empty, an existing damping matrix [D]
    replaced by [V.T @ D @ V], and the assembly flag recorded.  When [V]
    does not fit the damping matrix the call raises [ValueError]; without
    [overwrite] every object there was is still as before, with [overwrite]
    the given object has already been turned into an [ECSWSystem] with the
    new basis and cleared weights, and keeps its damping matrix and its
    assembly flag. *)
Theorem reduce_ecsw_frame (h : store) (mechanical_system : ref) V overwrite assembly obj :
  h !! mechanical_system = Some obj ->
  (fits_damping V (sys_D_constr obj) ->
   exists h' reduced_sys obj',
     reduce_mechanical_system_ecsw h mechanical_system V overwrite assembly
     = (h', Returns reduced_sys) /\
     h' !! reduced_sys = Some obj' /\
     is_ecsw_reduction obj V assembly obj' /\
     (forall l, l <> reduced_sys -> h' !! l = h !! l) /\
     (overwrite = false -> h !! reduced_sys = None /\ h' !! mechanical_system = Some obj) /\
     (overwrite = true -> reduced_sys = mechanical_system)) /\
  (~ fits_damping V (sys_D_constr obj) ->
   exists h',
     reduce_mechanical_system_ecsw h mechanical_system V overwrite assembly
     = (h', Raises ValueError) /\
     (overwrite = false -> forall l, is_Some (h !! l) -> h' !! l = h !! l) /\
     (overwrite = true ->
      exists obj',
        h' !! mechanical_system = Some obj' /\
        is_ecsw_reset obj V obj' /\
        forall l, l <> mechanical_system -> h' !! l = h !! l)).
Proof.
  intros Hobj.
  assert (Hfresh : h !! fresh (dom h) = None)
    by (apply not_elem_of_dom, is_fresh).
  split.
  - intros Hfit. unfold reduce_mechanical_system_ecsw. destruct overwrite.
    + rewrite Hobj. cbv zeta. cbn [sys_D_constr].
      destruct (sys_D_constr obj) as [D|] eqn:HD.
      * destruct (fits_damping_checks V D Hfit) as [-> ->].
        cbn [require_shape mbind outcome_bind].
        eexists _, _, _. split; [reflexivity|]. split; [apply lookup_insert_eq|].
        split; [|split; [|split]].
        -- unfold is_ecsw_reduction; cbn. rewrite HD. repeat split.
        -- intros l Hl. now rewrite !lookup_insert_ne by congruence.
        -- discriminate.
        -- reflexivity.
      * eexists _, _, _. split; [reflexivity|]. split; [apply lookup_insert_eq|].
        split; [|split; [|split]].
        -- unfold is_ecsw_reduction; cbn. rewrite HD. repeat split.
        -- intros l Hl. now rewrite !lookup_insert_ne by congruence.
        -- discriminate.
        -- reflexivity.
    + unfold deepcopy. rewrite Hobj. cbn [attr mbind outcome_bind].
      rewrite lookup_insert_eq. cbv zeta. cbn [sys_D_constr].
      destruct (sys_D_constr obj) as [D|] eqn:HD.
      * destruct (fits_damping_checks V D Hfit) as [-> ->].
        cbn [require_shape mbind outcome_bind].
        eexists _, _, _. split; [reflexivity|]. split; [apply lookup_insert_eq|].
        split; [|split; [|split]].
        -- unfold is_ecsw_reduction; cbn. rewrite HD. repeat split.
        -- intros l Hl. now rewrite !lookup_insert_ne by congruence.
        -- intros _. split; [exact Hfresh|].
           rewrite !lookup_insert_ne by congruence. exact Hobj.
        -- discriminate.
      * eexists _, _, _. split; [reflexivity|]. split; [apply lookup_insert_eq|].
        split; [|split; [|split]].
        -- unfold is_ecsw_reduction; cbn. rewrite HD. repeat split.
        -- intros l Hl. now rewrite !lookup_insert_ne by congruence.
        -- intros _. split; [exact Hfresh|].
           rewrite !lookup_insert_ne by congruence. exact Hobj.
        -- discriminate.
  - intros Hfit. destruct (sys_D_constr obj) as [D|] eqn:HD; [|now destruct Hfit].
    unfold reduce_mechanical_system_ecsw. destruct overwrite.
    + rewrite Hobj. cbv zeta. cbn [sys_D_constr]. rewrite HD.
      rewrite (not_fits_damping_checks V D Hfit).
      eexists. split; [reflexivity|]. split; [discriminate|]. intros _.
      eexists. split; [apply lookup_insert_eq|]. split.
      * unfold is_ecsw_reset; cbn. repeat split. now rewrite HD.
      * intros l Hl. now rewrite lookup_insert_ne by congruence.
    + unfold deepcopy. rewrite Hobj. cbn [attr mbind outcome_bind].
      rewrite lookup_insert_eq. cbv zeta. cbn [sys_D_constr]. rewrite HD.
      rewrite (not_fits_damping_checks V D Hfit).
      eexists. split; [reflexivity|]. split; [|discriminate]. intros _ l [o Hl].
      rewrite !lookup_insert_ne by congruence. reflexivity.
Qed.

(** ** ECSWSystem.export_paraview *)


Lemma index_assign_spec (v w : vector) (idx : list nat) :
  length w = length idx ->
  Forall (fun i => (i < length v)%nat) idx ->
  np.index_assign v idx w = Returns (np.assign_seq v idx w).
Proof.
  intros Hlen Hidx. unfold np.index_assign.
  assert (Hb : forallb (fun i => (i <? length v)%nat) idx = true).
  { apply forallb_forall. intros i Hi. apply Nat.ltb_lt.
    rewrite List.Forall_forall in Hidx. now apply Hidx. }
  rewrite Hb. now rewrite (proj2 (Nat.eqb_eq _ _) Hlen).
Qed.


Lemma sparse_nnls_sound_witness :
  sparse_nnls 3 example_G example_b (1/2) false = Returns ([1%nat], [0; 1], []) /\
  Forall (fun w => 0 <= w) [0; 1] /\
  (length [1%nat] <= np.shape1 example_G)%nat /\
  Forall (fun i => (i < np.shape1 example_G)%nat) [1%nat] /\
  exists st,
    sparse_nnls_loop 3 example_G example_b (1/2) false = Returns st /\
    [1%nat] = np.nonzero (st_xi st) /\
    [0; 1] = np.select (st_xi st) (st_active_set st) /\
    np.linalg_norm (example_b -^ np.take_cols example_G (st_active_set st) @| [0; 1])
    <= 1/2 * np.linalg_norm example_b.
Proof.
  split; [exact (example_nnls 0)|].
  exact (sparse_nnls_sound 3 example_G example_b (1/2) false _ _ _ (example_nnls 0)).
Defined.

(** C2. The index array and the weight array [sparse_nnls] returns can
    disagree: on the system [example_G], [example_b] with tolerance 1/2 the
    second pass solves for both columns and accepts the weights (0, 1); the
    result holds the one index of a non-zero weight, [1], and the two weights
    of the active set, so the arrays differ in length and the weight at
    position 0 is not the weight of the index at position 0. *)
Theorem sparse_nnls_indices_weights_mismatch :
  exists indices xi_red stats st,
    sparse_nnls 3 example_G example_b (1/2) false = Returns (indices, xi_red, stats) /\
    sparse_nnls_loop 3 example_G example_b (1/2) false = Returns st /\
    indices = [1%nat] /\ xi_red = [0; 1] /\
    length indices <> length xi_red /\
    vget xi_red 0 <> vget (st_xi st) (nth 0 indices 0%nat) /\
    np.where_mask (st_active_set st) <> np.nonzero (st_xi st).
Proof.
  eexists _, _, _, _. split; [exact (example_nnls 0)|].
  split; [exact (example_loop 0)|].
  split; [reflexivity|]. split; [reflexivity|].
  cbn [st_xi st_active_set length nth vget]. split; [discriminate|]. split; [lra|].
  cbn [np.where_mask np.where_from np.nonzero np.nonzero_from].
  destruct (Req_EM_T 0 0) as [_|Hn]; [|contradiction].
  destruct (Req_EM_T 1 0) as [Hn|_]; [exfalso; lra | discriminate].
Qed.

Lemma ecsw_accessors_dispatch_witness :
  ECSWSystem.K_and_f example_system None 0 = Returns (np.zeros2 1 1, np.zeros 1) /\
  ECSWSystem.K example_system None 0 = Returns (np.zeros2 1 1) /\
  ECSWSystem.f_int example_system None 0 = Returns (np.zeros 1).
Proof.
  destruct (ecsw_accessors_dispatch example_system "direct" [[1]; [0]] [[1]; [0]] None 0
              eq_refl eq_refl eq_refl) as (Hdirect & _).
  exact (Hdirect eq_refl).
Defined.

Lemma reduce_ecsw_frame_witness :
  exists h' reduced_sys obj',
    reduce_mechanical_system_ecsw {[ 0%nat := example_system ]} 0%nat [[1]; [0]] false
      "indirect" = (h', Returns reduced_sys) /\
    h' !! reduced_sys = Some obj' /\
    is_ecsw_reduction example_system [[1]; [0]] "indirect" obj' /\
    (forall l, l <> reduced_sys ->
               h' !! l = ({[ 0%nat := example_system ]} : store) !! l) /\
    (false = false ->
       ({[ 0%nat := example_system ]} : store) !! reduced_sys = None /\
       h' !! 0%nat = Some example_system) /\
    (false = true -> reduced_sys = 0%nat).
Proof.
  refine (proj1 (reduce_ecsw_frame {[ 0%nat := example_system ]} 0%nat [[1]; [0]] false
                   "indirect" example_system _) _).
  - apply lookup_singleton_eq.
  - split; reflexivity.
Defined.


(** ** Further properties of the ECSW accessors *)

(** X1. [K] and [f_int] are the two components of [K_and_f]: on every
    system, displacement and time they return the parts of what [K_and_f]
    returns and raise what it raises. *)
Theorem ecsw_K_and_f_int_are_components self u t :
  ECSWSystem.K self u t = (x ← ECSWSystem.K_and_f self u t; Returns x.1) /\
  ECSWSystem.f_int self u t = (x ← ECSWSystem.K_and_f self u t; Returns x.2).
Proof.
  unfold ECSWSystem.K, ECSWSystem.f_int, ECSWSystem.K_and_f.
  destruct (ECSWSystem.default_u self u) as [u'| |]; cbn [mbind outcome_bind];
    [|split; reflexivity..].
  destruct (ECSWSystem.dispatch self u' t) as [[K f]| |]; split; reflexivity.
Qed.

(** X2. The default displacement is computed before the assembly flag is
    looked at: without [u] and without a basis [V] each accessor raises
    [AttributeError], also when the flag is not a valid one; with an
    explicit [u] the basis [V] is not read at all. *)
Theorem ecsw_default_u_needs_V self self' t :
  (sys_V self = None ->
   ECSWSystem.K_and_f self None t = Raises AttributeError /\
   ECSWSystem.K self None t = Raises AttributeError /\
   ECSWSystem.f_int self None t = Raises AttributeError) /\
  (sys_assembly_type self' = sys_assembly_type self ->
   sys_V_unconstr self' = sys_V_unconstr self ->
   sys_assembly_class self' = sys_assembly_class self ->
   sys_weight_idx self' = sys_weight_idx self ->
   sys_weights self' = sys_weights self ->
   forall u,
     ECSWSystem.K_and_f self' (Some u) t = ECSWSystem.K_and_f self (Some u) t /\
     ECSWSystem.K self' (Some u) t = ECSWSystem.K self (Some u) t /\
     ECSWSystem.f_int self' (Some u) t = ECSWSystem.f_int self (Some u) t).
Proof.
  split.
  - intros HV. unfold ECSWSystem.K_and_f, ECSWSystem.K, ECSWSystem.f_int,
      ECSWSystem.default_u. rewrite HV. auto.
  - intros Hf HVu Ha Hi Hw u.
    assert (Hd : ECSWSystem.dispatch self' u t = ECSWSystem.dispatch self u t).
    { unfold ECSWSystem.dispatch. now rewrite Hf, HVu, Ha, Hi, Hw. }
    unfold ECSWSystem.K_and_f, ECSWSystem.K, ECSWSystem.f_int, ECSWSystem.default_u.
    cbn [mbind outcome_bind]. rewrite Hd. auto.
Qed.

Lemma ecsw_default_u_needs_V_witness :
  ECSWSystem.K_and_f (ECSWSystem.set_weights
    {| sys_class := ECSWSystem;
       sys_mesh_class := sys_mesh_class example_system;
       sys_assembly_class := example_assembly;
       sys_dirichlet_class := sys_dirichlet_class example_system;
       sys_V := None;
       sys_V_unconstr := None;
       sys_weights := None;
       sys_weight_idx := None;
       sys_u_red_output := None;
       sys_M_constr := None;
       sys_D_constr := None;
       sys_assembly_type := Some "lumped";
       sys_other := ∅ |} [] []) None 0 = Raises AttributeError.
Proof.
  refine (proj1 (proj1 (ecsw_default_u_needs_V _ example_system 0) _)).
  reflexivity.
Defined.

Lemma reduce_ecsw_inv (h : store) (mechanical_system : ref) V overwrite assembly
    h' reduced_sys :
  reduce_mechanical_system_ecsw h mechanical_system V overwrite assembly
  = (h', Returns reduced_sys) ->
  exists obj obj',
    h !! mechanical_system = Some obj /\
    h' !! reduced_sys = Some obj' /\
    is_ecsw_reduction obj V assembly obj'.
Proof.
  unfold reduce_mechanical_system_ecsw, deepcopy.
  destruct (h !! mechanical_system) as [obj|] eqn:Hobj.
  - destruct overwrite; cbn [attr mbind outcome_bind];
      [rewrite Hobj | rewrite lookup_insert_eq];
      cbv zeta; cbn [sys_D_constr];
      (destruct (sys_D_constr obj) as [D|] eqn:HD;
       [destruct (np.shape0 V =? np.shape0 D)%nat; [|discriminate];
        destruct (np.shape1 D =? np.shape0 V)%nat; [|discriminate];
        cbn [require_shape mbind outcome_bind]|]);
      intros H; injection H as <- <-;
      (eexists _, _; split; [reflexivity|]; split; [apply lookup_insert_eq|]);
      unfold is_ecsw_reduction; cbn; rewrite ?HD; repeat split.
  - destruct overwrite; cbn [attr mbind outcome_bind]; [rewrite Hobj|]; discriminate.
Qed.

(** X3. [reduce_mechanical_system_ecsw] stores the assembly name as it is
    given.  On the system it returns, and before [reduce_mesh] has run, the
    accessors call the direct or the no-inplace assembly routine on the
    unconstrained expansion of [V] with no weight indices and no weights; a
    name that is neither 'direct' nor 'indirect' is found only then, by a
    [ValueError] of each accessor. *)
Theorem reduce_ecsw_then_access (h : store) (mechanical_system : ref) V overwrite assembly
    h' reduced_sys u t :
  reduce_mechanical_system_ecsw h mechanical_system V overwrite assembly
  = (h', Returns reduced_sys) ->
  exists obj obj',
    h !! mechanical_system = Some obj /\
    h' !! reduced_sys = Some obj' /\
    let Vu := unconstrain_vec (sys_dirichlet_class obj) V in
    (assembly = "direct" ->
     accessors_agree obj' u t
       (assemble_k_and_f_hyper (sys_assembly_class obj) Vu None None (u_or_zeros V u) t)) /\
    (assembly = "indirect" ->
     accessors_agree obj' u t
       (assemble_k_and_f_hyper_no_inplace (sys_assembly_class obj) Vu None None
          (u_or_zeros V u) t)) /\
    (assembly <> "direct" -> assembly <> "indirect" ->
     accessors_agree obj' u t (Raises ValueError)).
Proof.
  intros Hred.
  destruct (reduce_ecsw_inv _ _ _ _ _ _ _ Hred) as (obj & obj' & Hobj & Hlook & Hattr).
  exists obj, obj'. split; [exact Hobj|]. split; [exact Hlook|].
  destruct Hattr as (_ & HV & HVu & Hw & Hi & _ & _ & _ & Hf & _ & Ha & _).
  pose proof (accessors_agree_dispatch obj' V u t HV) as Hagree.
  cbv zeta. split; [|split].
  - intros ->. rewrite (dispatch_direct obj' _ _ t Hf HVu) in Hagree.
    now rewrite Hi, Hw, Ha in Hagree.
  - intros ->. rewrite (dispatch_indirect obj' _ _ t Hf HVu) in Hagree.
    now rewrite Hi, Hw, Ha in Hagree.
  - intros H1 H2. now rewrite (dispatch_invalid obj' assembly _ t Hf H1 H2) in Hagree.
Qed.

Lemma reduce_ecsw_then_access_witness :
  exists h' reduced_sys obj',
    reduce_mechanical_system_ecsw {[ 0%nat := example_system ]} 0%nat [[1]; [0]] true
      "lumped" = (h', Returns reduced_sys) /\
    h' !! reduced_sys = Some obj' /\
    accessors_agree obj' None 0 (Raises ValueError).
Proof.
  assert (Hrun : exists h' r,
    reduce_mechanical_system_ecsw {[ 0%nat := example_system ]} 0%nat [[1]; [0]] true
      "lumped" = (h', Returns r)).
  { unfold reduce_mechanical_system_ecsw.
    rewrite lookup_singleton_eq. cbv zeta. cbn. eauto. }
  destruct Hrun as (h' & r & Hrun).
  destruct (reduce_ecsw_then_access _ _ _ _ _ _ _ None 0 Hrun)
    as (o & o' & Ho & Ho' & _ & _ & Hbad).
  exists h', r, o'. split; [exact Hrun|]. split; [exact Ho'|].
  apply Hbad; discriminate.
Defined.

(** ** Further properties of sparse_nnls *)

Lemma inactive_zero_length v mask : inactive_zero v mask -> length v = length mask.
Proof. apply Forall2_length. Qed.

Lemma inactive_zero_init n : inactive_zero (np.zeros n) (repeat false n).
Proof. induction n; constructor; auto. Qed.

Lemma mask_fill_invert v mask :
  length v = length mask -> inactive_zero (np.mask_fill v (np.invert mask) 0) mask.
Proof.
  revert mask. induction v as [|x v IH]; intros [|m mask] Hlen; try discriminate.
  - constructor.
  - cbn in Hlen. destruct m; cbn [np.invert map negb np.mask_fill];
      (constructor; [|apply IH; lia]); [discriminate | reflexivity].
Qed.

Lemma mask_assign_inactive v mask w r :
  inactive_zero v mask -> np.mask_assign v mask w = Returns r -> inactive_zero r mask.
Proof.
  intros Hv. revert w r. induction Hv as [|x m v mask Hx Hv IH]; intros w r.
  - cbn. destruct w; intros H; [|discriminate]. injection H as <-. constructor.
  - destruct m; cbn [np.mask_assign].
    + destruct w as [|y w]; [discriminate|].
      destruct (np.mask_assign v mask w) as [r'| |] eqn:Hr; try discriminate.
      cbn [mbind outcome_bind]. intros H. injection H as <-.
      constructor; [discriminate | eapply IH; eassumption].
    + destruct (np.mask_assign v mask w) as [r'| |] eqn:Hr; try discriminate.
      cbn [mbind outcome_bind]. intros H. injection H as <-.
      constructor; [assumption | eapply IH; eassumption].
Qed.

Lemma sparse_nnls_inner_inactive fuel G b xi zeta active_set xi' zeta' active_set' :
  length zeta = length active_set ->
  sparse_nnls_inner fuel G b xi zeta active_set = Returns (xi', zeta', active_set') ->
  inactive_zero xi' active_set'.
Proof.
  revert xi zeta active_set.
  induction fuel as [|fuel IH]; intros xi zeta active_set Hlen; [discriminate|].
  cbn [sparse_nnls_inner]. cbv zeta.
  destruct (sp.linalg_solve _ _) as [sol| |]; try discriminate.
  cbn [mbind outcome_bind].
  destruct (np.mask_assign _ active_set sol) as [z| |] eqn:Hz; try discriminate.
  cbn [mbind outcome_bind].
  pose proof (mask_assign_inactive _ _ _ _ (mask_fill_invert zeta active_set Hlen) Hz) as Hin.
  destruct (np.min (np.select z active_set)) as [zmin| |]; try discriminate.
  cbn [mbind outcome_bind].
  destruct (Rge_dec zmin 0) as [Hpos|Hneg].
  - intros H. injection H as <- <- <-. exact Hin.
  - destruct (np.argmin _) as [ele_const| |]; try discriminate.
    cbn [mbind outcome_bind].
    destruct (attr_index _ ele_const) as [const_idx| |]; try discriminate.
    cbn [mbind outcome_bind].
    destruct (np.min (np.vdiv _ _)) as [alpha| |]; try discriminate.
    cbn [mbind outcome_bind]. apply IH.
    rewrite length_insert. apply inactive_zero_length in Hin. exact Hin.
Qed.

Lemma sparse_nnls_outer_support fuel G b tau norm_b conv_stats st st' :
  nnls_support_invariant st ->
  sparse_nnls_outer fuel G b tau norm_b conv_stats st = Returns st' ->
  nnls_support_invariant st'.
Proof.
  revert st. induction fuel as [|fuel IH]; intros st Hinv; [discriminate|].
  cbn [sparse_nnls_outer].
  destruct (Rgt_dec _ _) as [Hgt|Hle].
  - cbv zeta. destruct (np.argmax _) as [idx| |]; try discriminate.
    cbn [mbind outcome_bind].
    destruct (idx <? _)%nat; [|discriminate]. cbn [mbind outcome_bind].
    destruct (sparse_nnls_inner _ _ _ _ _ _) as [[[xi zeta] act]| |] eqn:Hin;
      try discriminate.
    cbn [mbind outcome_bind]. apply IH.
    destruct Hinv as [_ Hlen].
    assert (Hlen' : length (st_zeta st) = length (<[idx:=true]> (st_active_set st)))
      by now rewrite length_insert.
    pose proof (sparse_nnls_inner_inactive _ _ _ _ _ _ _ _ _ Hlen' Hin) as Hz.
    apply sparse_nnls_inner_spec in Hin as (-> & _ & _).
    split; cbn [st_xi st_zeta st_active_set]; [exact Hz|].
    now apply inactive_zero_length.
  - intros H. injection H as <-. exact Hinv.
Qed.

Lemma sparse_nnls_loop_support fuel G b tau conv_stats st :
  sparse_nnls_loop fuel G b tau conv_stats = Returns st ->
  nnls_support_invariant st.
Proof.
  unfold sparse_nnls_loop. cbv zeta. apply sparse_nnls_outer_support.
  split; cbn [st_xi st_zeta st_active_set]; [apply inactive_zero_init|].
  unfold np.zeros. now rewrite !repeat_length.
Qed.

Lemma nonzero_from_values i v :
  map (fun k => vget v (k - i)) (np.nonzero_from i v) = List.filter is_nonzero v.
Proof.
  revert i. induction v as [|x v IH]; intros i; [reflexivity|].
  cbn [np.nonzero_from List.filter]. unfold is_nonzero at 1.
  assert (Htail : map (fun k => vget (x :: v) (k - i)) (np.nonzero_from (S i) v)
                  = List.filter is_nonzero v).
  { rewrite <- (IH (S i)). apply map_ext_in. intros k Hk.
    destruct (nonzero_from_spec (S i) v) as [_ Hb].
    rewrite List.Forall_forall in Hb. specialize (Hb k Hk).
    replace (k - i)%nat with (S (k - S i)) by lia. reflexivity. }
  destruct (Req_EM_T x 0).
  - exact Htail.
  - cbn [map]. f_equal; [now rewrite Nat.sub_diag | exact Htail].
Qed.

Lemma select_nonzero v mask :
  inactive_zero v mask -> List.filter is_nonzero (np.select v mask) = List.filter is_nonzero v.
Proof.
  induction 1 as [|x m v mask Hx Hv IH]; [reflexivity|].
  destruct m; cbn [np.select List.filter].
  - now rewrite IH.
  - rewrite IH. rewrite (Hx eq_refl). unfold is_nonzero.
    destruct (Req_EM_T 0 0); [reflexivity | contradiction].
Qed.

Lemma nonzero_from_active i v mask :
  inactive_zero v mask ->
  Forall (fun k => mask !! (k - i)%nat = Some true /\ vget v (k - i) <> 0)
    (np.nonzero_from i v).
Proof.
  intros H. revert i. induction H as [|x m v mask Hx Hv IH]; intros i; [constructor|].
  cbn [np.nonzero_from].
  assert (Htail : Forall (fun k => (m :: mask) !! (k - i)%nat = Some true /\
                                   vget (x :: v) (k - i) <> 0)
                    (np.nonzero_from (S i) v)).
  { destruct (nonzero_from_spec (S i) v) as [_ Hb].
    pose proof (IH (S i)) as IHi.
    rewrite List.Forall_forall in Hb, IHi. apply List.Forall_forall.
    intros k Hk. specialize (Hb k Hk).
    replace (k - i)%nat with (S (k - S i)) by lia. exact (IHi k Hk). }
  destruct (Req_EM_T x 0) as [Hz|Hnz]; [exact Htail|].
  constructor; [|exact Htail]. rewrite Nat.sub_diag. cbn. split; [|exact Hnz].
  destruct m; [reflexivity|]. exfalso. auto.
Qed.

Lemma nonzero_from_sorted i v : StronglySorted lt (np.nonzero_from i v).
Proof.
  revert i. induction v as [|x v IH]; intros i; cbn [np.nonzero_from]; [constructor|].
  destruct (Req_EM_T x 0); [apply IH|]. constructor; [apply IH|].
  destruct (nonzero_from_spec (S i) v) as [_ Hb].
  eapply List.Forall_impl; [|exact Hb]. cbn beta. intros k Hk. lia.
Qed.

(** X4. The two arrays [sparse_nnls] returns are related as follows: the
    indices are strictly increasing, each is in the active set and carries a
    non-zero weight, and the weights with the zeros dropped are the solution
    at the indices, in order; so the weight array is at least as long as the
    index array, and longer exactly by its zero entries. *)
Theorem sparse_nnls_support fuel G b tau conv_stats indices xi_red stats :
  sparse_nnls fuel G b tau conv_stats = Returns (indices, xi_red, stats) ->
  exists st,
    sparse_nnls_loop fuel G b tau conv_stats = Returns st /\
    StronglySorted lt indices /\
    Forall (fun i => st_active_set st !! i = Some true /\ vget (st_xi st) i <> 0) indices /\
    List.filter is_nonzero xi_red = map (vget (st_xi st)) indices /\
    length xi_red = (length indices + length (List.filter (fun x => negb (is_nonzero x)) xi_red))%nat.
Proof.
  unfold sparse_nnls.
  destruct (sparse_nnls_loop fuel G b tau conv_stats) as [st| |] eqn:Hloop;
    try discriminate.
  cbn [mbind outcome_bind]. cbv zeta. intros H. injection H as <- <- <-.
  apply sparse_nnls_loop_support in Hloop as [Hin Hlen].
  exists st. split; [reflexivity|]. split; [apply nonzero_from_sorted|].
  assert (Hvals : List.filter is_nonzero (np.select (st_xi st) (st_active_set st))
                  = map (vget (st_xi st)) (np.nonzero (st_xi st))).
  { rewrite (select_nonzero _ _ Hin). unfold np.nonzero.
    rewrite <- (nonzero_from_values 0). apply map_ext. intros k. now rewrite Nat.sub_0_r. }
  split; [|split; [exact Hvals|]].
  - pose proof (nonzero_from_active 0 _ _ Hin) as Ha.
    eapply List.Forall_impl; [|exact Ha]. cbn beta. intros k. now rewrite Nat.sub_0_r.
  - rewrite <- (length_map (vget (st_xi st)) (np.nonzero (st_xi st))), <- Hvals.
    generalize (np.select (st_xi st) (st_active_set st)). intros l.
    induction l as [|x l IH]; [reflexivity|]. cbn [List.filter].
    destruct (is_nonzero x); cbn [negb length]; lia.
Qed.

Lemma sparse_nnls_support_witness :
  exists st,
    sparse_nnls_loop 3 example_G example_b (1/2) false = Returns st /\
    StronglySorted lt [1%nat] /\
    Forall (fun i => st_active_set st !! i = Some true /\ vget (st_xi st) i <> 0) [1%nat] /\
    List.filter is_nonzero [0; 1] = map (vget (st_xi st)) [1%nat] /\
    length [0%R; 1%R]
    = (length [1%nat]
       + length (List.filter (fun x => negb (is_nonzero x)) [0%R; 1%R]))%nat.
Proof.
  exact (sparse_nnls_support 3 example_G example_b (1/2) false _ _ _ (example_nnls 0)).
Defined.

Lemma nonzero_from_zeros i n : np.nonzero_from i (np.zeros n) = [].
Proof.
  revert i. induction n as [|n IH]; intros i; [reflexivity|].
  cbn [np.zeros repeat np.nonzero_from].
  destruct (Req_EM_T 0 0); [apply IH | contradiction].
Qed.

(** X5. When the norm of [b] is already within the tolerance ([b = 0], or
    [tau >= 1]), [sparse_nnls] returns at once, whatever [G] is: no index,
    no weight and an empty convergence trace. *)
Theorem sparse_nnls_trivial fuel G b tau conv_stats :
  np.linalg_norm b <= tau * np.linalg_norm b ->
  sparse_nnls (S fuel) G b tau conv_stats = Returns ([], [], []).
Proof.
  intros Hb. unfold sparse_nnls, sparse_nnls_loop. cbv zeta.
  cbn [sparse_nnls_outer st_r].
  destruct (Rgt_dec _ _) as [Hgt|_]; [exfalso; lra|].
  cbn [mbind outcome_bind st_xi st_active_set st_stats].
  unfold np.nonzero. rewrite nonzero_from_zeros, select_none. reflexivity.
Qed.

Lemma sparse_nnls_trivial_witness :
  sparse_nnls 1 example_G [0; 0] (1/2) true = Returns ([], [], []).
Proof.
  apply (sparse_nnls_trivial 0 example_G [0; 0] (1/2) true).
  assert (H0 : np.linalg_norm [0; 0] = 0).
  { unfold np.linalg_norm. cbn [length rsum vget nth].
    transitivity (sqrt 0); [f_equal; lra | apply sqrt_0]. }
  rewrite H0. lra.
Defined.

Lemma dot_T_no_columns G r : np.shape1 G = 0%nat -> np.T G @| r = [].
Proof.
  intros H. unfold np.dot, np.T. rewrite H. reflexivity.
Qed.

(** X6. A matrix [G] without columns cannot reduce a residual above the
    tolerance: [np.argmax] is asked for the largest of no entries, and
    [sparse_nnls] raises [ValueError]. *)
Theorem sparse_nnls_no_columns fuel G b tau conv_stats :
  np.shape1 G = 0%nat ->
  np.linalg_norm b > tau * np.linalg_norm b ->
  sparse_nnls (S fuel) G b tau conv_stats = Raises ValueError.
Proof.
  intros HG Hb. unfold sparse_nnls, sparse_nnls_loop. cbv zeta.
  cbn [sparse_nnls_outer st_r].
  destruct (Rgt_dec _ _) as [_|Hle]; [|contradiction].
  rewrite (dot_T_no_columns G b HG). reflexivity.
Qed.

Lemma sparse_nnls_no_columns_witness :
  sparse_nnls 1 [[]; []] example_b (1/2) false = Raises ValueError.
Proof.
  apply (sparse_nnls_no_columns 0 [[]; []] example_b (1/2) false); [reflexivity|].
  assert (Hb : np.linalg_norm example_b = sqrt 2)
    by (unfold np.linalg_norm; np_cbv; f_equal; lra).
  rewrite Hb. pose proof sqrt2_bounds. lra.
Defined.




(** ** ECSWSystem.reduce_mesh *)

(** X8. [reduce_mesh] assembles [G] and [b] from the unconstrained basis
    and the snapshots expanded by it, solves the sparse problem with the
    convergence trace switched by [verbose], and stores what the solver
    returned: the indices as [weight_idx], the weights as [weights], both
    also returned; no other attribute changes, and the stored weights are
    non-negative.  It raises [ValueError] when the unconstrained basis is
    [None] and when the snapshot matrix has not as many rows as the basis
    has columns. *)
Theorem reduce_mesh_stores_solution fuel self W_red tau verbose :
  (sys_V_unconstr self = None ->
   ECSWSystem.reduce_mesh fuel self W_red tau verbose = Raises ValueError) /\
  (forall V_unconstr,
     sys_V_unconstr self = Some V_unconstr -> (0 < np.shape0 V_unconstr)%nat ->
     np.shape1 V_unconstr <> np.shape0 W_red ->
     ECSWSystem.reduce_mesh fuel self W_red tau verbose = Raises ValueError) /\
  (forall self' xi_indices xi stats,
     ECSWSystem.reduce_mesh fuel self W_red tau verbose
     = Returns (self', (xi_indices, xi, stats)) ->
     exists V_unconstr G b,
       sys_V_unconstr self = Some V_unconstr /\
       np.shape1 V_unconstr = np.shape0 W_red /\
       assemble_g_and_b (sys_assembly_class self) V_unconstr (V_unconstr @@ W_red) verbose
       = Returns (G, b) /\
       sparse_nnls fuel G b tau verbose = Returns (xi_indices, xi, stats) /\
       self' = ECSWSystem.set_weights self xi_indices xi /\
       sys_weight_idx self' = Some xi_indices /\
       sys_weights self' = Some xi /\
       Forall (fun w => 0 <= w) xi /\
       Forall (fun i => (i < np.shape1 G)%nat) xi_indices).
Proof.
  unfold ECSWSystem.reduce_mesh. split; [|split].
  - intros ->. reflexivity.
  - intros Vu -> _ Hshape. cbn [mbind outcome_bind].
    destruct (Nat.eqb_spec (np.shape1 Vu) (np.shape0 W_red)); [contradiction|reflexivity].
  - intros self' xi_indices xi stats.
    destruct (sys_V_unconstr self) as [Vu|]; [|discriminate].
    cbn [mbind outcome_bind].
    destruct (Nat.eqb_spec (np.shape1 Vu) (np.shape0 W_red)) as [Hshape|]; [|discriminate].
    cbn [require_shape mbind outcome_bind]. cbv zeta.
    destruct (assemble_g_and_b _ _ _ _) as [[G b]| |] eqn:Hgb; try discriminate.
    cbn [mbind outcome_bind].
    destruct (sparse_nnls fuel G b tau verbose) as [[[i x] s]| |] eqn:Hnnls;
      try discriminate.
    cbn [mbind outcome_bind]. intros H. injection H as <- <- <- <-.
    exists Vu, G, b. split; [reflexivity|]. split; [exact Hshape|]. split; [exact Hgb|].
    split; [exact Hnnls|]. split; [reflexivity|]. split; [reflexivity|].
    split; [reflexivity|].
    unfold sparse_nnls in Hnnls.
    destruct (sparse_nnls_loop fuel G b tau verbose) as [st| |] eqn:Hloop;
      try discriminate.
    cbn [mbind outcome_bind] in Hnnls. cbv zeta in Hnnls. injection Hnnls as <- <- <-.
    apply sparse_nnls_loop_spec in Hloop as [(Hlen & _ & Hpos & _) _].
    split; [exact Hpos|].
    destruct (nonzero_from_spec 0 (st_xi st)) as [_ Hn]. rewrite Hlen in Hn.
    eapply List.Forall_impl; [|exact Hn]. cbn beta. intros k Hk. lia.
Qed.

Lemma reduce_mesh_stores_solution_witness :
  exists self',
    ECSWSystem.reduce_mesh 3 example_system [[1]] (1/2) false
    = Returns (self', ([1%nat], [0; 1], [])) /\
    sys_weight_idx self' = Some [1%nat] /\
    sys_weights self' = Some [0; 1].
Proof.
  assert (Hrun : ECSWSystem.reduce_mesh 3 example_system [[1]] (1/2) false
                 = Returns (ECSWSystem.set_weights example_system [1%nat] [0; 1],
                            ([1%nat], [0; 1], []))).
  { unfold ECSWSystem.reduce_mesh.
    cbn [example_system sys_V_unconstr sys_assembly_class example_assembly
         assemble_g_and_b np.shape0 np.shape1 hd length Nat.eqb require_shape
         mbind outcome_bind].
    rewrite (example_nnls 0). reflexivity. }
  destruct (proj2 (proj2 (reduce_mesh_stores_solution 3 example_system [[1]] (1/2) false))
              _ _ _ _ Hrun) as (Vu & G & b & _ & _ & _ & _ & _ & Hi & Hw & _).
  eexists. split; [exact Hrun|]. split; assumption.
Defined.

(** ** Further properties of export_paraview *)

Lemma forallb_in_range n (idx : list nat) :
  forallb (fun i => (i <? n)%nat) idx = true <-> Forall (fun i => (i < n)%nat) idx.
Proof.
  rewrite forallb_forall, List.Forall_forall.
  split; intros H i Hi; specialize (H i Hi); now apply Nat.ltb_lt.
Qed.

Lemma export_paraview_returns lists self filename field_list idx w fields :
  sys_weight_idx self = Some idx ->
  sys_weights self = Some w ->
  length w = length idx ->
  Forall (fun i => (i < no_of_elements (sys_mesh_class self))%nat) idx ->
  caller_fields lists field_list = Some fields ->
  exists r, ECSWSystem.export_paraview lists self filename field_list = Returns r.
Proof.
  intros Hidx Hw Hlen Hrange Hfields.
  assert (Hrange' : Forall (fun i => (i < length (np.zeros (no_of_elements
                                 (sys_mesh_class self))))%nat) idx)
    by now rewrite length_zeros.
  unfold ECSWSystem.export_paraview.
  destruct field_list as [fl|]; cbn [caller_fields] in Hfields;
    [rewrite Hfields|]; cbn [attr mbind outcome_bind]; cbv zeta;
    rewrite Hidx, Hw; cbn [mbind outcome_bind];
    rewrite (index_assign_spec _ w idx Hlen Hrange'); cbn [mbind outcome_bind];
    rewrite lookup_insert_eq; cbn [attr mbind outcome_bind]; eauto.
Qed.

(** X9. With as many stored weights as weight indices, [export_paraview]
    reaches the inherited export exactly when every weight index is below
    the number of mesh elements; with an index at or above it, it raises
    [IndexError] and the inherited export is not called. *)
Theorem export_paraview_index_range lists self filename field_list idx w fields :
  sys_weight_idx self = Some idx ->
  sys_weights self = Some w ->
  length w = length idx ->
  caller_fields lists field_list = Some fields ->
  ((exists r, ECSWSystem.export_paraview lists self filename field_list = Returns r) <->
   Forall (fun i => (i < no_of_elements (sys_mesh_class self))%nat) idx) /\
  (Exists (fun i => (no_of_elements (sys_mesh_class self) <= i)%nat) idx ->
   ECSWSystem.export_paraview lists self filename field_list = Raises IndexError).
Proof.
  intros Hidx Hw Hlen Hfields.
  assert (Hrun : ECSWSystem.export_paraview lists self filename field_list
    = if forallb (fun i => (i <? no_of_elements (sys_mesh_class self))%nat) idx
      then ECSWSystem.export_paraview lists self filename field_list
      else Raises IndexError).
  { destruct (forallb _ idx) eqn:Hb; [reflexivity|].
    unfold ECSWSystem.export_paraview.
    destruct field_list as [fl|]; cbn [caller_fields] in Hfields;
      [rewrite Hfields|]; cbn [attr mbind outcome_bind]; cbv zeta;
      rewrite Hidx, Hw; cbn [mbind outcome_bind];
      unfold np.index_assign; rewrite length_zeros, Hb; reflexivity. }
  split.
  - split.
    + intros [r Hr]. apply forallb_in_range. rewrite Hrun in Hr.
      destruct (forallb _ idx); [reflexivity | discriminate].
    + intros Hrange.
      destruct (export_paraview_returns lists self filename field_list idx w fields
                  Hidx Hw Hlen Hrange Hfields) as [r Hr].
      eauto.
  - intros Hex. rewrite Hrun.
    destruct (forallb _ idx) eqn:Hb; [|reflexivity].
    exfalso. apply forallb_in_range in Hb. apply List.Exists_exists in Hex as (i & Hi & Hge).
    rewrite List.Forall_forall in Hb. specialize (Hb i Hi). lia.
Qed.

Lemma export_paraview_index_range_witness :
  ECSWSystem.export_paraview ∅ (ECSWSystem.set_weights example_system [2%nat] [1]) "out" None
  = Raises IndexError.
Proof.
  refine (proj2 (export_paraview_index_range ∅
            (ECSWSystem.set_weights example_system [2%nat] [1]) "out" None [2%nat] [1] []
            eq_refl eq_refl eq_refl eq_refl) _).
  constructor. cbn. lia.
Defined.

(** ** compute_B_matrix *)

Lemma rsum_app p q f : rsum (p + q) f = rsum p f + rsum q (fun a => f (p + a)%nat).
Proof.
  induction q as [|q IH].
  - rewrite Nat.add_0_r. cbn. ring.
  - rewrite Nat.add_succ_r. cbn [rsum]. rewrite IH. ring.
Qed.

Lemma rsum_blocks n d f :
  rsum (n * d) f = rsum n (fun i => rsum d (fun a => f (d * i + a)%nat)).
Proof.
  induction n as [|n IH]; [reflexivity|].
  cbn [rsum]. rewrite <- IH.
  replace (S n * d)%nat with (n * d + d)%nat by lia.
  rewrite rsum_app. f_equal. apply rsum_ext. intros a _. f_equal. lia.
Qed.

Lemma block_of c d k : (k * d <= c < (k + 1) * d)%nat -> k = (c / d)%nat.
Proof.
  intros H. apply (Nat.div_unique c d k (c - k * d)); lia.
Qed.

Lemma is_mat_B_block d F b i :
  d = 2%nat \/ d = 3%nat -> is_mat (d * (d + 1) / 2) d (B_block d F b i).
Proof. intros [->| ->]; split; try reflexivity; repeat constructor. Qed.

Lemma compute_B_matrix_loop n d B_tilde F :
  is_mat n d B_tilde -> (0 < n)%nat ->
  compute_B_matrix B_tilde F
  = for_range n (fun i B => set_cols B (i * d) ((i + 1) * d) (B_block d F B_tilde i))
      (np.zeros2 (d * (d + 1) / 2) (n * d)).
Proof.
  intros HB Hn. unfold compute_B_matrix. cbv zeta.
  rewrite (is_mat_shape0 _ _ _ HB), (is_mat_shape1 _ _ _ HB Hn).
  unfold B_block. destruct (d =? 2)%nat; reflexivity.
Qed.

Lemma compute_B_matrix_entries n d B_tilde F :
  d = 2%nat \/ d = 3%nat -> is_mat n d B_tilde -> (0 < n)%nat ->
  is_mat (d * (d + 1) / 2) (n * d) (compute_B_matrix B_tilde F) /\
  forall i a r, (i < n)%nat -> (a < d)%nat ->
    get (compute_B_matrix B_tilde F) r (d * i + a) = get (B_block d F B_tilde i) r a.
Proof.
  intros Hd HB Hn. rewrite (compute_B_matrix_loop n d B_tilde F HB Hn).
  assert (Hm : (0 < d * (d + 1) / 2)%nat) by (destruct Hd as [->| ->]; cbn; lia).
  assert (Hd0 : (0 < d)%nat) by (destruct Hd; lia).
  destruct (for_range_writes (d * (d + 1) / 2) (n * d) n
              (fun i B => set_cols B (i * d) ((i + 1) * d) (B_block d F B_tilde i))
              (fun k r c => (k * d <= c < (k + 1) * d)%nat)
              (fun k r c => get (B_block d F B_tilde k) r (c - k * d))) with
    (N := n) (M := np.zeros2 (d * (d + 1) / 2) (n * d)) as (Hshape & Hwrite & _).
  - intros k M Hk HM. now apply is_mat_set_cols.
  - intros k M r c Hk HM Hdom. unfold set_cols.
    rewrite (is_mat_shape0 _ _ _ HM), (is_mat_shape1 _ _ _ HM Hm), get_mk_mat_if.
    assert (Hc : (c < n * d)%nat).
    { assert ((k + 1) * d <= n * d)%nat by (apply Nat.mul_le_mono_r; lia). lia. }
    destruct (Nat.ltb_spec r (d * (d + 1) / 2)) as [Hr|Hr].
    + rewrite (proj2 (Nat.ltb_lt _ _) Hc). cbn [andb].
      rewrite (proj2 (Nat.leb_le _ _) (proj1 Hdom)), (proj2 (Nat.ltb_lt _ _) (proj2 Hdom)).
      reflexivity.
    + cbn [andb]. symmetry.
      apply (get_oob _ _ _ _ _ (is_mat_B_block d F B_tilde k Hd)). now left.
  - intros k M r c Hk HM Hdom. unfold set_cols.
    rewrite (is_mat_shape0 _ _ _ HM), (is_mat_shape1 _ _ _ HM Hm), get_mk_mat_if.
    destruct (Nat.ltb_spec r (d * (d + 1) / 2)) as [Hr|Hr];
      destruct (Nat.ltb_spec c (n * d)) as [Hc|Hc]; cbn [andb];
      try (symmetry; apply (get_oob _ _ _ _ _ HM); lia).
    destruct (Nat.leb_spec (k * d) c) as [H1|H1]; [|reflexivity].
    destruct (Nat.ltb_spec c ((k + 1) * d)) as [H2|H2]; [|reflexivity].
    exfalso. apply Hdom. lia.
  - intros k k' r c H1 H2. rewrite (block_of c d k H1). symmetry. now apply block_of.
  - lia.
  - apply is_mat_zeros2.
  - split; [exact Hshape|]. intros i a r Hi Ha.
    rewrite (Hwrite i r (d * i + a)%nat Hi) by (rewrite (Nat.mul_comm i d); lia).
    f_equal. rewrite (Nat.mul_comm i d). lia.
Qed.

Lemma vget_compute_B_dot n d B_tilde F v r :
  d = 2%nat \/ d = 3%nat -> is_mat n d B_tilde -> (0 < n)%nat ->
  (r < d * (d + 1) / 2)%nat ->
  vget (compute_B_matrix B_tilde F @| v) r
  = rsum n (fun i => rsum d (fun a =>
      get (B_block d F B_tilde i) r a * vget v (d * i + a))).
Proof.
  intros Hd HB Hn Hr.
  destruct (compute_B_matrix_entries n d B_tilde F Hd HB Hn) as [Hshape Hget].
  assert (Hm : (0 < d * (d + 1) / 2)%nat) by lia.
  unfold np.dot.
  rewrite (is_mat_shape0 _ _ _ Hshape), (is_mat_shape1 _ _ _ Hshape Hm).
  rewrite vget_mk_vec by assumption. rewrite rsum_blocks.
  apply rsum_ext. intros i Hi. apply rsum_ext. intros a Ha.
  now rewrite Hget.
Qed.

Lemma get_dH n d B_tilde v l b :
  is_mat n d B_tilde -> length v = (n * d)%nat -> (0 < n)%nat -> (0 < d)%nat ->
  (l < d)%nat ->
  get (np.T (np.reshape v d) @@ B_tilde) l b
  = rsum n (fun i => vget v (d * i + l) * get B_tilde i b).
Proof.
  intros HB Hv Hn Hd Hl.
  pose proof (is_mat_reshape n d v Hv Hd) as HV.
  rewrite (get_matmul d n d) by (try apply is_mat_T; assumption).
  apply rsum_ext. intros i Hi.
  rewrite (get_T n d) by assumption. now rewrite (get_reshape n d).
Qed.

Ltac gather_sums :=
  repeat first [ rewrite Rplus_0_l
               | rewrite <- rsum_scal_l
               | rewrite <- rsum_scal_r
               | rewrite <- rsum_plus ].

(** X10. [compute_B_matrix] returns the matrix its documentation promises:
    for a matrix [B_tilde] of shape-function derivatives of n nodes in two or
    three dimensions, a deformation gradient [F] and nodal values [v], the
    product [B @ v] is the Voigt notation of the strain variation
    [1/2 (F^T dH + dH^T F)], where [dH] is the displacement gradient
    [v.reshape(-1, d).T @ B_tilde] of [v]. *)
Theorem compute_B_matrix_variation n d B_tilde F v :
  d = 2%nat \/ d = 3%nat ->
  (0 < n)%nat ->
  is_mat n d B_tilde ->
  is_mat d d F ->
  length v = (n * d)%nat ->
  compute_B_matrix B_tilde F @| v
  = voigt_strain d (delta_E F (np.T (np.reshape v d) @@ B_tilde)).
Proof.
  intros Hd Hn HB HF Hv.
  assert (Hd0 : (0 < d)%nat) by (destruct Hd; lia).
  pose proof (is_mat_reshape n d v Hv Hd0) as HV.
  assert (HdH : is_mat d d (np.T (np.reshape v d) @@ B_tilde))
    by (apply (is_mat_matmul d n d); [now apply is_mat_T | assumption | assumption]).
  assert (HFt : is_mat d d (np.T F)) by now apply is_mat_T.
  assert (HdHt : is_mat d d (np.T (np.T (np.reshape v d) @@ B_tilde)))
    by now apply is_mat_T.
  assert (HE : forall i j,
    get (delta_E F (np.T (np.reshape v d) @@ B_tilde)) i j
    = 1/2 * (rsum d (fun l => get F l i * get (np.T (np.reshape v d) @@ B_tilde) l j)
             + rsum d (fun l => get (np.T (np.reshape v d) @@ B_tilde) l i * get F l j))).
  { intros i j. unfold delta_E.
    rewrite (get_s_mul d d), (get_add d d), !(get_matmul d d d);
      try assumption; try (apply is_mat_add; [|assumption]);
      try (apply (is_mat_matmul d d d); assumption).
    f_equal. f_equal; apply rsum_ext; intros l Hl; now rewrite (get_T d d). }
  destruct (compute_B_matrix_entries n d B_tilde F Hd HB Hn) as [Hshape _].
  apply vec_ext.
  - rewrite length_dot, (is_mat_shape0 _ _ _ Hshape).
    unfold voigt_strain. destruct Hd as [->| ->]; reflexivity.
  - intros r Hr. rewrite length_dot, (is_mat_shape0 _ _ _ Hshape) in Hr.
    rewrite (vget_compute_B_dot n d) by assumption.
    unfold voigt_strain. destruct Hd as [->| ->].
    + cbn [Nat.eqb]. destruct r as [|[|[|r]]]; [| | |cbn in Hr; lia];
        cbn [vget nth]; rewrite !HE; cbn [rsum];
        rewrite !(get_dH n 2 B_tilde v) by (assumption || lia);
        gather_sums; apply rsum_ext; intros i Hi;
        unfold B_block; cbn [Nat.eqb get nth];
        rewrite ?Nat.add_0_r; field.
    + cbn [Nat.eqb]. destruct r as [|[|[|[|[|[|r]]]]]]; [| | | | | |cbn in Hr; lia];
        cbn [vget nth]; rewrite !HE; cbn [rsum];
        rewrite !(get_dH n 3 B_tilde v) by (assumption || lia);
        gather_sums; apply rsum_ext; intros i Hi;
        unfold B_block; cbn [Nat.eqb get nth];
        rewrite ?Nat.add_0_r; field.
Qed.

Lemma compute_B_matrix_variation_witness :
  compute_B_matrix [[1; 0]; [0; 1]; [-1; -1]] [[1; 0]; [0; 1]] @| [1; 2; 3; 4; 5; 6]
  = voigt_strain 2
      (delta_E [[1; 0]; [0; 1]]
         (np.T (np.reshape [1; 2; 3; 4; 5; 6] 2) @@ [[1; 0]; [0; 1]; [-1; -1]])).
Proof.
  apply (compute_B_matrix_variation 3 2).
  - left. reflexivity.
  - lia.
  - literal_shape.
  - literal_shape.
  - reflexivity.
Defined.

(** ** scatter_matrix *)

(** X11. Scattering commutes with transposition: for a matrix with at least
    one row and one column and [ndim >= 1], [scatter_matrix(Mat.T, ndim)] is
    [scatter_matrix(Mat, ndim).T]; so a symmetric matrix is scattered to a
    symmetric one. *)
Theorem scatter_matrix_transpose m n ndim Mat :
  is_mat m n Mat -> (0 < m)%nat -> (0 < n)%nat -> (0 < ndim)%nat ->
  scatter_matrix (np.T Mat) ndim = np.T (scatter_matrix Mat ndim) /\
  (symmetric n Mat -> symmetric (n * ndim) (scatter_matrix Mat ndim)).
Proof.
  intros HM Hm Hn Hd. split; [|apply symmetric_scatter_matrix].
  pose proof (is_mat_T m n Mat HM Hm) as HT.
  pose proof (is_mat_scatter_matrix m n ndim Mat HM) as HS.
  pose proof (is_mat_scatter_matrix n m ndim (np.T Mat) HT) as HST.
  assert (Hmd : (0 < m * ndim)%nat) by (apply Nat.mul_pos_pos; assumption).
  assert (Hnd : (0 < n * ndim)%nat) by (apply Nat.mul_pos_pos; assumption).
  apply (mat_ext (n * ndim) (m * ndim)); [exact HST | now apply is_mat_T |].
  intros i j Hi Hj.
  rewrite (get_T (m * ndim) (n * ndim)) by assumption.
  rewrite (get_scatter_matrix n m), (get_scatter_matrix m n) by assumption.
  rewrite (Nat.eqb_sym (j mod ndim)).
  destruct (i mod ndim =? j mod ndim)%nat; [|reflexivity].
  apply (get_T m n); assumption.
Qed.

Lemma scatter_matrix_transpose_witness :
  scatter_matrix (np.T [[1; 2]; [3; 4]]) 2 = np.T (scatter_matrix [[1; 2]; [3; 4]] 2) /\
  (symmetric 2 [[1; 2]; [3; 4]] -> symmetric (2 * 2) (scatter_matrix [[1; 2]; [3; 4]] 2)).
Proof.
  apply (scatter_matrix_transpose 2 2 2); [literal_shape | lia | lia | lia].
Defined.

(** ** Further properties of Bar2Dlumped *)

Ltac list_eq :=
  repeat match goal with
         | |- (_ :: _) = (_ :: _) => apply f_equal2
         | |- @eq (list _) [] [] => reflexivity
         end.

Ltac bar_cbv :=
  cbv [np.dot np.s_mul np.add np.T np.matmul np.shape0 np.shape1 mk_mat mk_vec
       map seq hd length get vget nth rsum np.zeros repeat np.eye Nat.eqb].

(** X12. [Bar2Dlumped._k_and_m_int] for two nodes that are a distance
    [l <> 0] apart.  When it returns, the parameters [e_modul], [crosssec]
    and [rho] are set, the stiffness matrix annihilates every rigid
    translation of the two nodes, and the mass matrix is the lumped one,
    [rho * crosssec * l / 2] on the diagonal and zero elsewhere; and it
    returns whenever the three parameters are set and [X] holds the
    coordinates of two nodes or more. *)
Theorem bar_stiffness_and_mass self X u tm :
  bar_length X <> 0 ->
  (forall self' K M,
     Bar2Dlumped._k_and_m_int self X u tm = Returns (self', (K, M)) ->
     exists e a r,
       Bar2Dlumped.e_modul self = Some e /\
       Bar2Dlumped.crosssec self = Some a /\
       Bar2Dlumped.rho self = Some r /\
       (forall c1 c2, K @| [c1; c2; c1; c2] = np.zeros 4) /\
       M = (r * a * bar_length X / 2) !* np.eye 4) /\
  (two_nodes X -> configured self ->
   exists self' K M, Bar2Dlumped._k_and_m_int self X u tm = Returns (self', (K, M))).
Proof.
  intros Hl. split.
  - intros self' K M. unfold Bar2Dlumped._k_and_m_int.
    destruct (Nat.even (length X)); [|discriminate].
    cbn [require_shape mbind outcome_bind].
    destruct (2 <=? _)%nat; [|discriminate]. cbn [mbind outcome_bind].
    destruct (Bar2Dlumped.e_modul self) as [e|]; [|discriminate].
    destruct (Bar2Dlumped.crosssec self) as [a|]; [|discriminate].
    cbn [attr mbind outcome_bind]. unfold Bar2Dlumped.divide.
    fold (bar_length X).
    destruct (Req_EM_T (bar_length X) 0) as [|_]; [contradiction|].
    cbn [mbind outcome_bind].
    destruct (Bar2Dlumped.rho self) as [r|]; [|discriminate].
    cbn [attr mbind outcome_bind]. cbv zeta. intros H. injection H as _ <- <-.
    exists e, a, r. repeat (split; [reflexivity|]).
    set (temp := _ /^ bar_length X).
    set (t0 := vget temp 0). set (t1 := vget temp 1).
    set (c := e * a / bar_length X).
    split.
    + intros c1 c2. bar_cbv. list_eq; ring.
    + bar_cbv. list_eq; field.
  - intros HX Hconf.
    destruct (Bar_k_and_m_int_configured self X u tm HX Hconf Hl) as (s & [K M] & H).
    eauto.
Qed.

Lemma example_bar_length : bar_length example_bar_X <> 0.
Proof.
  unfold bar_length, np.linalg_norm, example_bar_X. cbn.
  intros Hz. apply sqrt_eq_0 in Hz; lra.
Qed.

Lemma bar_stiffness_and_mass_witness :
  exists self' K M,
    Bar2Dlumped._k_and_m_int example_bar example_bar_X (np.zeros 4) 0
    = Returns (self', (K, M)) /\
    exists e a r,
      Bar2Dlumped.e_modul example_bar = Some e /\
      Bar2Dlumped.crosssec example_bar = Some a /\
      Bar2Dlumped.rho example_bar = Some r /\
      (forall c1 c2, K @| [c1; c2; c1; c2] = np.zeros 4) /\
      M = (r * a * bar_length example_bar_X / 2) !* np.eye 4.
Proof.
  destruct (bar_stiffness_and_mass example_bar example_bar_X (np.zeros 4) 0
              example_bar_length) as [Hprop Hrun].
  destruct Hrun as (self' & K & M & Hrun).
  - split; [reflexivity | cbn; lia].
  - unfold configured, example_bar; cbn; eauto.
  - exists self', K, M. split; [exact Hrun|]. exact (Hprop _ _ _ Hrun).
Defined.

Lemma Bar_perform_keeps_f self c :
  Bar2Dlumped.f (Bar2Dlumped.perform self c).1 = Bar2Dlumped.f self.
Proof.
  unfold Bar2Dlumped.perform.
  destruct c.
  - unfold Bar2Dlumped.foo. destruct (Bar2Dlumped.material self); reflexivity.
  - unfold Bar2Dlumped.k_and_f_int, Bar2Dlumped._compute_tensors.
    destruct (Bar2Dlumped._k_and_m_int self X u tm) as [[s' [K M]]| |] eqn:H;
      cbn [mbind outcome_bind fst]; try reflexivity.
    now apply Bar_k_and_m_int_inv in H as (_ & _ & _ & _ & _ & _ & _ & _ & _ & Hf & _).
  - unfold Bar2Dlumped.k_int, Bar2Dlumped._compute_tensors.
    destruct (Bar2Dlumped._k_and_m_int self X u tm) as [[s' [K M]]| |] eqn:H;
      cbn [mbind outcome_bind fst]; try reflexivity.
    now apply Bar_k_and_m_int_inv in H as (_ & _ & _ & _ & _ & _ & _ & _ & _ & Hf & _).
  - unfold Bar2Dlumped.f_int, Bar2Dlumped._compute_tensors.
    destruct (Bar2Dlumped._k_and_m_int self X u tm) as [[s' [K M]]| |] eqn:H;
      cbn [mbind outcome_bind fst]; try reflexivity.
    now apply Bar_k_and_m_int_inv in H as (_ & _ & _ & _ & _ & _ & _ & _ & _ & Hf & _).
  - unfold Bar2Dlumped.m_int, Bar2Dlumped._m_int.
    destruct (Bar2Dlumped._k_and_m_int self X u tm) as [[s' [K M]]| |] eqn:H;
      cbn [mbind outcome_bind fst]; try reflexivity.
    now apply Bar_k_and_m_int_inv in H as (_ & _ & _ & _ & _ & _ & _ & _ & _ & Hf & _).
Qed.

Lemma Bar_run_keeps_f self cs :
  Bar2Dlumped.f (Bar2Dlumped.run self cs).1 = Bar2Dlumped.f self.
Proof.
  revert self. induction cs as [|c cs IH]; intros self; [reflexivity|].
  cbn [Bar2Dlumped.run].
  pose proof (Bar_perform_keeps_f self c) as H1.
  destruct (Bar2Dlumped.perform self c) as [s1 o]. cbn [fst] in H1.
  specialize (IH s1). destruct (Bar2Dlumped.run s1 cs) as [s2 os]. cbn [fst] in *.
  congruence.
Qed.

(** X13. Bar2Dlumped never computes an internal force: whatever calls were
    made on an element since its construction, and whatever the coordinates
    and the displacement are, the force vector that [k_and_f_int] and [f_int]
    return is the zero vector of length 4 set by the constructor. *)
Theorem bar_force_is_never_computed material cs X u tm :
  (forall self' K fv,
     Bar2Dlumped.k_and_f_int (Bar2Dlumped.run (Bar2Dlumped.__init__ material) cs).1 X u tm
     = Returns (self', (K, fv)) -> fv = np.zeros 4) /\
  (forall self' fv,
     Bar2Dlumped.f_int (Bar2Dlumped.run (Bar2Dlumped.__init__ material) cs).1 X u tm
     = Returns (self', fv) -> fv = np.zeros 4).
Proof.
  pose proof (Bar_run_keeps_f (Bar2Dlumped.__init__ material) cs) as Hf.
  cbn [Bar2Dlumped.__init__ Bar2Dlumped.f] in Hf.
  set (s := (Bar2Dlumped.run (Bar2Dlumped.__init__ material) cs).1) in *.
  split.
  - intros self' K fv. unfold Bar2Dlumped.k_and_f_int, Bar2Dlumped._compute_tensors.
    destruct (Bar2Dlumped._k_and_m_int s X u tm) as [[s' [K' M']]| |] eqn:H;
      try discriminate.
    cbn [mbind outcome_bind]. intros E. injection E as <- _ <-.
    apply Bar_k_and_m_int_inv in H as (_ & _ & _ & _ & _ & _ & _ & _ & _ & Hf' & _).
    congruence.
  - intros self' fv. unfold Bar2Dlumped.f_int, Bar2Dlumped._compute_tensors.
    destruct (Bar2Dlumped._k_and_m_int s X u tm) as [[s' [K' M']]| |] eqn:H;
      try discriminate.
    cbn [mbind outcome_bind]. intros E. injection E as <- <-.
    apply Bar_k_and_m_int_inv in H as (_ & _ & _ & _ & _ & _ & _ & _ & _ & Hf' & _).
    congruence.
Qed.

(** ** What an evaluation needs *)

Ltac length_is u :=
  match goal with
  | |- context [(length u =? ?n)%nat] =>
      destruct (Nat.eqb_spec (length u) n) as [?Hlen|]; [|discriminate]
  end.

Ltac needs_by_unpacking X u :=
  destruct (el_material _) as [m|] eqn:Hm; cbn [attr mbind outcome_bind];
  [|try discriminate];
  (repeat (destruct X as [|? X]; [discriminate|])); (destruct X; [|discriminate]);
  length_is u;
  cbn [require_shape attr mbind outcome_bind];
  try (unfold one_over; destruct (Req_EM_T _ 0); [discriminate|];
       cbn [attr mbind outcome_bind]);
  try discriminate;
  intros _; (split; [reflexivity|]); (split; [assumption | eauto]).

Ltac needs_by_reshape X u :=
  length_is X; length_is u;
  cbn [andb require_shape mbind outcome_bind];
  destruct (el_material _) as [m|] eqn:Hm; cbn [attr mbind outcome_bind];
  [|discriminate];
  intros _; (split; [assumption|]); (split; [assumption | eauto]).

(** X14. An evaluation of a continuum element returns only for a
    coordinate vector and a displacement vector that both have one entry per
    degree of freedom of the class and with a material set: on any other
    input [_compute_tensors], and with it [k_and_f_int], [k_int], [f_int] and
    [k_f_S_E_int], raise. *)
Theorem compute_tensors_needs cls self X u t r :
  _compute_tensors cls self X u t = Returns r ->
  length X = no_of_dofs cls /\ length u = no_of_dofs cls /\ is_Some (el_material self).
Proof.
  destruct cls; cbn [_compute_tensors no_of_dofs no_of_nodes no_of_dims Nat.mul Nat.add].
  - unfold Tri3._compute_tensors. needs_by_unpacking X u.
  - unfold Tri6._compute_tensors. needs_by_unpacking X u.
  - unfold Quad4._compute_tensors. needs_by_reshape X u.
  - unfold Quad8._compute_tensors. needs_by_reshape X u.
  - unfold Tet4._compute_tensors. needs_by_unpacking X u.
  - unfold Tet10._compute_tensors. needs_by_unpacking X u.
  - unfold Hexa8._compute_tensors. needs_by_reshape X u.
  - unfold Hexa20._compute_tensors. needs_by_reshape X u.
Qed.

Lemma compute_tensors_needs_witness :
  length example_X = no_of_dofs Tri3 /\ length example_u = no_of_dofs Tri3 /\
  is_Some (el_material (__init__ Tri3 (Some example_material))).
Proof.
  exact (compute_tensors_needs Tri3 _ _ _ 0 _ (example_run example_u eq_refl)).
Defined.

(** ** Mass matrices *)

Ltac mass_cbv :=
  cbv [np.dot np.s_mul np.mul_s np.div_s np.s_vmul np.shape0 np.shape1 mk_mat mk_vec
       map seq hd length get vget nth rsum Nat.add].

Lemma symmetric_literal n A :
  is_mat n n A ->
  (forall i j, (i < n)%nat -> (j < n)%nat -> get A i j = get A j i) ->
  symmetric n A.
Proof.
  intros HA H. split; [exact HA|]. intros i j.
  destruct (Nat.lt_ge_cases i n) as [Hi|Hi], (Nat.lt_ge_cases j n) as [Hj|Hj].
  - now apply H.
  - rewrite !(get_oob n n); auto.
  - rewrite !(get_oob n n); auto.
  - rewrite !(get_oob n n); auto.
Qed.

(** X15. The mass matrix of Tri3: [_m_int] needs a material and six
    coordinates; the area it computes is the signed area of the triangle
    (positive for counter-clockwise nodes); the matrix is symmetric, and
    applied to a rigid translation it gives each node a third of the mass
    [rho * thickness * A0] times the translation. *)
Theorem Tri3_mass_matrix self X u t A0 M :
  Tri3._m_int self X u t = Returns (A0, M) ->
  exists m X1 Y1 X2 Y2 X3 Y3,
    el_material self = Some m /\
    X = [X1; Y1; X2; Y2; X3; Y3] /\
    A0 = ((X2 - X1) * (Y3 - Y1) - (X3 - X1) * (Y2 - Y1)) / 2 /\
    symmetric 6 M /\
    forall cx cy,
      M @| [cx; cy; cx; cy; cx; cy]
      = np.s_vmul (mat_rho m * mat_thickness m * A0 / 3) [cx; cy; cx; cy; cx; cy].
Proof.
  unfold Tri3._m_int.
  destruct (el_material self) as [m|]; [|discriminate].
  cbn [attr mbind outcome_bind]. cbv zeta.
  repeat (destruct X as [|? X]; [discriminate|]). destruct X; [|discriminate].
  intros H. injection H as <- <-.
  eexists m, _, _, _, _, _, _. split; [reflexivity|]. split; [reflexivity|].
  split; [lra|].
  match goal with |- context [0.5 * ?d] => set (A0 := 0.5 * d) end.
  split.
  - apply symmetric_literal.
    + repeat first [apply is_mat_mul_s | apply is_mat_div_s]; try lia. literal_shape.
    + intros i j Hi Hj. mass_cbv.
      destruct i as [|[|[|[|[|[|i]]]]]]; try lia;
        destruct j as [|[|[|[|[|[|j]]]]]]; try lia; reflexivity.
  - intros cx cy. mass_cbv. list_eq; field.
Qed.

(** X16. The mass matrix of Tet4: [_m_int] needs a material and twelve
    coordinates; the matrix is symmetric, and applied to a rigid translation
    it gives each node a quarter of the mass [rho * V] times the translation,
    where [V] is the signed volume of the tetrahedron. *)
Theorem Tet4_mass_matrix self X u t M :
  Tet4._m_int self X u t = Returns M ->
  exists m X1 Y1 Z1 X2 Y2 Z2 X3 Y3 Z3 X4 Y4 Z4,
    el_material self = Some m /\
    X = [X1; Y1; Z1; X2; Y2; Z2; X3; Y3; Z3; X4; Y4; Z4] /\
    symmetric 12 M /\
    forall cx cy cz,
      M @| [cx; cy; cz; cx; cy; cz; cx; cy; cz; cx; cy; cz]
      = np.s_vmul (mat_rho m * tet_volume X1 Y1 Z1 X2 Y2 Z2 X3 Y3 Z3 X4 Y4 Z4 / 4)
          [cx; cy; cz; cx; cy; cz; cx; cy; cz; cx; cy; cz].
Proof.
  unfold Tet4._m_int.
  destruct (el_material self) as [m|]; [|discriminate].
  cbn [attr mbind outcome_bind]. cbv zeta.
  repeat (destruct X as [|? X]; [discriminate|]). destruct X; [|discriminate].
  intros H. injection H as <-.
  eexists m, _, _, _, _, _, _, _, _, _, _, _, _.
  split; [reflexivity|]. split; [reflexivity|].
  match goal with |- context [?d * -1 / 6 / 20 * ?rho] =>
    assert (HV : d * -1 / 6 = tet_volume r r0 r1 r2 r3 r4 r5 r6 r7 r8 r9 r10)
      by (unfold tet_volume; field);
    set (c := d * -1 / 6 / 20 * rho);
    assert (Hc : c = rho * tet_volume r r0 r1 r2 r3 r4 r5 r6 r7 r8 r9 r10 / 20)
      by (unfold c; rewrite HV; field);
    clearbody c; clear HV
  end.
  split.
  - apply symmetric_literal.
    + apply is_mat_s_mul; [literal_shape | lia].
    + intros i j Hi Hj. mass_cbv.
      destruct i as [|[|[|[|[|[|[|[|[|[|[|[|i]]]]]]]]]]]]; try lia;
        destruct j as [|[|[|[|[|[|[|[|[|[|[|[|j]]]]]]]]]]]]; try lia; reflexivity.
  - intros cx cy cz. subst c. mass_cbv. list_eq; field.
Qed.

Lemma symmetric_outer n N : (0 < n)%nat -> is_mat n 1 N -> symmetric n (N @@ np.T N).
Proof.
  intros Hn HN.
  assert (HT : is_mat 1 n (np.T N)) by now apply is_mat_T.
  split; [apply (is_mat_matmul n 1 n); [assumption | assumption | lia]|].
  intros i j. rewrite !(get_matmul n 1 n) by (assumption || lia).
  cbn [rsum]. rewrite !(get_T n 1) by assumption. ring.
Qed.

Lemma reset_buffer n A : (0 < n)%nat -> is_mat n n A -> A *! 0 = np.zeros2 n n.
Proof.
  intros Hn HA. apply eq_zeros2; [now apply is_mat_mul_s|].
  intros i j. rewrite (get_mul_s n n) by assumption. ring.
Qed.

(** A sum of scaled outer products [N @ N.T], accumulated from zero. *)
Ltac accumulated_symmetric :=
  cbn [fold_left];
  repeat match goal with
         | |- symmetric _ (_ +! _) => apply symmetric_add; [lia | |]
         | |- symmetric _ (_ *! _) => apply symmetric_mul_s; [lia|]
         | |- symmetric _ (_ /! _) => apply symmetric_div_s; [lia|]
         | |- symmetric _ (np.zeros2 _ _) => apply symmetric_zeros2
         | |- symmetric _ (_ @@ np.T _) => apply symmetric_outer; [lia | literal_shape]
         end.

(** X17. The mass matrices of Tri6 and Quad4, which are accumulated over the
    Gauss points: when [_m_int] returns (it needs a material and as many
    coordinates as the element has degrees of freedom), the matrix it returns
    and stores is symmetric, and it is the same whatever the buffers held
    before the call. *)
Theorem looped_mass_matrix self X u t :
  (forall bufs bufs' M,
     is_mat 6 6 (el_M_small bufs) ->
     Tri6._m_int bufs self X u t = Returns (bufs', M) ->
     symmetric 12 M /\ el_M bufs' = M /\
     Tri6._m_int Tri6.M_buffers self X u t = Returns (bufs', M)) /\
  (forall bufs bufs' M,
     is_mat 4 4 (el_M_small bufs) ->
     Quad4._m_int bufs self X u t = Returns (bufs', M) ->
     symmetric 8 M /\ el_M bufs' = M /\
     Quad4._m_int Quad4.M_buffers self X u t = Returns (bufs', M)).
Proof.
  split.
  - intros bufs bufs' M Hbuf. unfold Tri6._m_int.
    repeat (destruct X as [|? X]; [discriminate|]). destruct X; [|discriminate].
    destruct (el_material self) as [m|]; [|discriminate].
    cbn [attr mbind outcome_bind]. cbv zeta.
    rewrite (reset_buffer 6 _ ltac:(lia) Hbuf).
    cbn [Tri6.M_buffers el_M_small].
    rewrite (reset_buffer 6 (np.zeros2 6 6) ltac:(lia) (is_mat_zeros2 6 6)).
    intros H. injection H as <- <-. cbn [el_M].
    split; [|split; reflexivity].
    apply (symmetric_scatter_matrix 6 2).
    accumulated_symmetric.
  - intros bufs bufs' M Hbuf. unfold Quad4._m_int.
    repeat (destruct X as [|? X]; [discriminate|]). destruct X; [|discriminate].
    cbv zeta.
    destruct (el_material self) as [m|]; [|discriminate].
    cbn [attr mbind outcome_bind].
    rewrite (reset_buffer 4 _ ltac:(lia) Hbuf).
    cbn [Quad4.M_buffers el_M_small].
    rewrite (reset_buffer 4 (np.zeros2 4 4) ltac:(lia) (is_mat_zeros2 4 4)).
    intros H. injection H as <- <-. cbn [el_M].
    split; [|split; reflexivity].
    apply (symmetric_scatter_matrix 4 2).
    accumulated_symmetric.
Qed.

Lemma Tri3_mass_matrix_witness :
  exists A0 M,
    Tri3._m_int (Tri3.__init__ (Some example_material)) example_X example_u 0
    = Returns (A0, M) /\
    exists m X1 Y1 X2 Y2 X3 Y3,
      el_material (Tri3.__init__ (Some example_material)) = Some m /\
      example_X = [X1; Y1; X2; Y2; X3; Y3] /\
      A0 = ((X2 - X1) * (Y3 - Y1) - (X3 - X1) * (Y2 - Y1)) / 2 /\
      symmetric 6 M /\
      forall cx cy,
        M @| [cx; cy; cx; cy; cx; cy]
        = np.s_vmul (mat_rho m * mat_thickness m * A0 / 3) [cx; cy; cx; cy; cx; cy].
Proof.
  eexists _, _. split; [reflexivity|].
  apply (Tri3_mass_matrix (Tri3.__init__ (Some example_material)) example_X example_u 0).
  reflexivity.
Defined.

Lemma Tet4_mass_matrix_witness :
  exists M,
    Tet4._m_int (Tet4.__init__ (Some example_material))
      [0; 0; 0; 1; 0; 0; 0; 1; 0; 0; 0; 1] (np.zeros 12) 0 = Returns M /\
    exists m X1 Y1 Z1 X2 Y2 Z2 X3 Y3 Z3 X4 Y4 Z4,
      el_material (Tet4.__init__ (Some example_material)) = Some m /\
      [0; 0; 0; 1; 0; 0; 0; 1; 0; 0; 0; 1]
      = [X1; Y1; Z1; X2; Y2; Z2; X3; Y3; Z3; X4; Y4; Z4] /\
      symmetric 12 M /\
      forall cx cy cz,
        M @| [cx; cy; cz; cx; cy; cz; cx; cy; cz; cx; cy; cz]
        = np.s_vmul (mat_rho m * tet_volume X1 Y1 Z1 X2 Y2 Z2 X3 Y3 Z3 X4 Y4 Z4 / 4)
            [cx; cy; cz; cx; cy; cz; cx; cy; cz; cx; cy; cz].
Proof.
  eexists. split; [reflexivity|].
  apply (Tet4_mass_matrix (Tet4.__init__ (Some example_material))
           [0; 0; 0; 1; 0; 0; 0; 1; 0; 0; 0; 1] (np.zeros 12) 0).
  reflexivity.
Defined.

(** ** Boundary elements *)

Lemma col_T_reshape d x k :
  (0 < d)%nat -> (length x mod d = 0)%nat -> (k < length x / d)%nat ->
  np.col (np.T (np.reshape x d)) k = Returns (node d x k).
Proof.
  intros Hd Hm Hk. set (n := (length x / d)%nat) in *.
  assert (HA : is_mat n d (np.reshape x d)) by apply mk_mat_is_mat.
  assert (Hn : (0 < n)%nat) by lia.
  assert (HT : is_mat d n (np.T (np.reshape x d))) by now apply is_mat_T.
  unfold np.col. rewrite (is_mat_shape1 d n), (is_mat_shape0 d n) by assumption.
  destruct (Nat.ltb_spec k n); [|lia]. f_equal. unfold node.
  apply vec_ext; rewrite !length_mk_vec; [reflexivity|]. intros c Hc.
  rewrite !vget_mk_vec by assumption.
  rewrite (get_T n d) by assumption. unfold np.reshape. fold n.
  now rewrite get_mk_mat.
Qed.

Lemma col_T_reshape_oob d x k :
  (0 < d)%nat -> (length x / d <= k)%nat ->
  np.col (np.T (np.reshape x d)) k = Raises IndexError.
Proof.
  intros Hd Hk. unfold np.col.
  replace (np.shape1 (np.T (np.reshape x d))) with (length x / d)%nat; cycle 1.
  - destruct (Nat.eq_dec (length x / d)%nat 0%nat) as [E|E].
    + unfold np.reshape. rewrite E. reflexivity.
    + symmetry. apply (is_mat_shape1 d); [|assumption].
      apply is_mat_T; [apply mk_mat_is_mat | lia].
  - destruct (Nat.ltb_spec k (length x / d)); [lia|reflexivity].
Qed.

Lemma node_translate d c X u k :
  length u = length X -> (d * k + d <= length X)%nat ->
  node d (np.vadd (translate d X c) u) k -^ node d (np.vadd (translate d X c) u) 0
  = node d (np.vadd X u) k -^ node d (np.vadd X u) 0.
Proof.
  intros Hu Hk. unfold np.vsub, node. rewrite !length_mk_vec.
  apply vec_ext; rewrite !length_mk_vec; [reflexivity|]. intros i Hi.
  rewrite !vget_mk_vec by assumption.
  unfold np.vadd. rewrite length_translate.
  rewrite !vget_mk_vec by lia. unfold translate. rewrite !vget_mk_vec by lia.
  replace ((d * k + i) mod d)%nat with (i mod d)%nat.
  - replace ((d * 0 + i) mod d)%nat with (i mod d)%nat; [ring|].
    f_equal. lia.
  - rewrite Nat.add_comm, Nat.mul_comm. symmetry. apply Nat.Div0.mod_add.
Qed.

Lemma Tri3Boundary_compute self X u t x :
  np.vadd_b X u = Returns x -> (length x mod 3 = 0)%nat -> (9 <= length x)%nat ->
  Tri3Boundary._compute_tensors self X u t
  = (f ← BoundaryElement.f_proj self (Tri3_f_mat x);
     Returns (BoundaryElement.set_f self (f *^ b_val self *^ b_time_func self t))).
Proof.
  intros Hx Hm Hl. unfold Tri3Boundary._compute_tensors. rewrite Hx.
  cbn [mbind outcome_bind]. rewrite Hm. cbn [Nat.eqb require_shape mbind outcome_bind].
  assert (Hn : (3 <= length x / 3)%nat)
    by (apply (Nat.Div0.div_le_mono _ _ 3) in Hl; exact Hl).
  rewrite !col_T_reshape by (assumption || lia).
  reflexivity.
Qed.

Lemma LineLinearBoundary_compute self X u t x :
  np.vadd_b X u = Returns x -> (length x mod 2 = 0)%nat -> (4 <= length x)%nat ->
  LineLinearBoundary._compute_tensors self X u t
  = (f ← BoundaryElement.f_proj self (Line_f_mat x);
     Returns (BoundaryElement.set_f self (f *^ b_val self *^ b_time_func self t))).
Proof.
  intros Hx Hm Hl. unfold LineLinearBoundary._compute_tensors. rewrite Hx.
  cbn [mbind outcome_bind]. rewrite Hm. cbn [Nat.eqb require_shape mbind outcome_bind].
  assert (Hn : (2 <= length x / 2)%nat)
    by (apply (Nat.Div0.div_le_mono _ _ 2) in Hl; exact Hl).
  rewrite !col_T_reshape by (assumption || lia).
  reflexivity.
Qed.

Ltac name_entries x :=
  unfold node; cbn [mk_vec map seq];
  repeat match goal with
         | |- context [vget x ?i] => generalize (vget x i); intro
         end.

Ltac boundary_cbv :=
  cbv [Tri3_f_mat Line_f_mat LineLinearBoundary.N LineLinearBoundary.rot_mat
       np.outer np.cross np.flatten np.vsub np.vdiv_s np.vmul_s np.dot
       np.shape0 np.shape1 dotp
       concat app mk_mat mk_vec map seq hd length get vget nth rsum Nat.add].

(** X18. A normal pressure on [Tri3Boundary]: for coordinates [x = X + u]
    of three nodes or more, [_compute_tensors] writes only [f]; the three
    nodal forces are the same vector, [val * time_func(t) / 6] times the
    cross product of the edges from the first node to the third and to the
    second node of the deformed triangle, and this vector is orthogonal to
    both edges.  Nodes after the third are not read. *)
Theorem Tri3Boundary_normal_force self X u t x :
  b_direct self = Normal ->
  np.vadd_b X u = Returns x -> (length x mod 3 = 0)%nat -> (9 <= length x)%nat ->
  let e31 := node 3 x 2 -^ node 3 x 0 in
  let e21 := node 3 x 1 -^ node 3 x 0 in
  let F := np.cross e31 e21 *^ (b_val self * b_time_func self t / 6) in
  Tri3Boundary._compute_tensors self X u t
    = Returns (BoundaryElement.set_f self (F ++ F ++ F)) /\
  dotp F e31 = 0 /\ dotp F e21 = 0.
Proof.
  intros Hd Hx Hm Hl. cbv zeta.
  rewrite (Tri3Boundary_compute self X u t x Hx Hm Hl).
  unfold BoundaryElement.f_proj. rewrite Hd. cbn [mbind outcome_bind].
  generalize (b_val self) (b_time_func self t). intros val tf.
  unfold Tri3_f_mat. name_entries x.
  split; [|split].
  - do 2 f_equal. boundary_cbv. list_eq; field.
  - boundary_cbv. ring.
  - boundary_cbv. ring.
Qed.

(** X19. A normal pressure on [LineLinearBoundary]: for coordinates
    [x = X + u] of two nodes or more, [_compute_tensors] writes only [f];
    both nodal forces are [val * time_func(t) / 2] times the connection
    [v = (vx, vy)] of the two deformed nodes turned into [(vy, -vx)]: the
    force is orthogonal to the line, and its squared length is the squared
    length of [v] times [(val * time_func(t) / 2)^2]. *)
Theorem LineLinearBoundary_normal_force self X u t x :
  b_direct self = Normal ->
  np.vadd_b X u = Returns x -> (length x mod 2 = 0)%nat -> (4 <= length x)%nat ->
  let v := node 2 x 1 -^ node 2 x 0 in
  let p := b_val self * b_time_func self t / 2 in
  let F := [vget v 1 * p; - vget v 0 * p] in
  LineLinearBoundary._compute_tensors self X u t
    = Returns (BoundaryElement.set_f self (F ++ F)) /\
  dotp F v = 0 /\ dotp F F = dotp v v * (p * p).
Proof.
  intros Hd Hx Hm Hl. cbv zeta.
  rewrite (LineLinearBoundary_compute self X u t x Hx Hm Hl).
  unfold BoundaryElement.f_proj. rewrite Hd. cbn [mbind outcome_bind].
  generalize (b_val self) (b_time_func self t). intros val tf.
  unfold Line_f_mat. name_entries x.
  split; [|split].
  - do 2 f_equal. boundary_cbv. list_eq; field.
  - boundary_cbv. ring.
  - boundary_cbv. ring.
Qed.

Lemma vadd_b_same X u : length u = length X -> np.vadd_b X u = Returns (np.vadd X u).
Proof. intros H. unfold np.vadd_b. now rewrite H, Nat.eqb_refl. Qed.

Lemma Tri3Boundary_compute_errors self X u t x :
  np.vadd_b X u = Returns x ->
  ((length x mod 3 <> 0)%nat ->
   Tri3Boundary._compute_tensors self X u t = Raises ValueError) /\
  ((length x mod 3 = 0)%nat -> (length x < 9)%nat ->
   Tri3Boundary._compute_tensors self X u t = Raises IndexError).
Proof.
  intros Hx. unfold Tri3Boundary._compute_tensors. rewrite Hx.
  cbn [mbind outcome_bind]. split.
  - intros Hm. destruct (Nat.eqb_spec (length x mod 3) 0); [lia|reflexivity].
  - intros Hm Hl. rewrite Hm. cbn [Nat.eqb require_shape mbind outcome_bind].
    rewrite (col_T_reshape_oob 3 x 2); [reflexivity | lia |].
    apply Nat.lt_succ_r. apply Nat.Div0.div_lt_upper_bound. lia.
Qed.

Lemma LineLinearBoundary_compute_errors self X u t x :
  np.vadd_b X u = Returns x ->
  ((length x mod 2 <> 0)%nat ->
   LineLinearBoundary._compute_tensors self X u t = Raises ValueError) /\
  ((length x mod 2 = 0)%nat -> (length x < 4)%nat ->
   LineLinearBoundary._compute_tensors self X u t = Raises IndexError).
Proof.
  intros Hx. unfold LineLinearBoundary._compute_tensors. rewrite Hx.
  cbn [mbind outcome_bind]. split.
  - intros Hm. destruct (Nat.eqb_spec (length x mod 2) 0); [lia|reflexivity].
  - intros Hm Hl. rewrite Hm. cbn [Nat.eqb require_shape mbind outcome_bind].
    rewrite (col_T_reshape_oob 2 x 1); [reflexivity | lia |].
    apply Nat.lt_succ_r. apply Nat.Div0.div_lt_upper_bound. lia.
Qed.

(** X20. The boundary forces do not change under a rigid translation of the
    element: with one displacement entry per coordinate, moving every node
    by the same vector [c] gives the same result of [_compute_tensors] (the
    same force, or the same exception), whatever the direction setting of
    the element is ([c] has one entry per direction). *)
Theorem boundary_translation_invariant self X u t c :
  length u = length X ->
  Tri3Boundary._compute_tensors self (translate 3 X c) u t
  = Tri3Boundary._compute_tensors self X u t /\
  LineLinearBoundary._compute_tensors self (translate 2 X c) u t
  = LineLinearBoundary._compute_tensors self X u t.
Proof.
  intros Hu.
  assert (Hx := vadd_b_same X u Hu).
  assert (Hx' : forall d, np.vadd_b (translate d X c) u
                           = Returns (np.vadd (translate d X c) u))
    by (intros d; apply vadd_b_same; now rewrite length_translate).
  assert (Hl' : forall d, length (np.vadd (translate d X c) u) = length X)
    by (intros d; now rewrite length_vadd, length_translate).
  split.
  - destruct (Nat.eq_dec (length X mod 3)%nat 0%nat) as [Hm|Hm].
    + destruct (Nat.lt_ge_cases (length X) 9) as [Hl|Hl].
      * rewrite (proj2 (Tri3Boundary_compute_errors _ _ _ _ _ (Hx' _)))
          by (rewrite Hl'; assumption).
        rewrite (proj2 (Tri3Boundary_compute_errors _ _ _ _ _ Hx))
          by (rewrite length_vadd; assumption).
        reflexivity.
      * rewrite (Tri3Boundary_compute _ _ _ _ _ (Hx' _))
          by (rewrite Hl'; assumption).
        rewrite (Tri3Boundary_compute _ _ _ _ _ Hx)
          by (rewrite length_vadd; assumption).
        unfold Tri3_f_mat. rewrite !(node_translate 3) by (assumption || lia).
        reflexivity.
    + rewrite (proj1 (Tri3Boundary_compute_errors _ _ _ _ _ (Hx' _)))
        by (rewrite Hl'; assumption).
      rewrite (proj1 (Tri3Boundary_compute_errors _ _ _ _ _ Hx))
        by (rewrite length_vadd; assumption).
      reflexivity.
  - destruct (Nat.eq_dec (length X mod 2)%nat 0%nat) as [Hm|Hm].
    + destruct (Nat.lt_ge_cases (length X) 4) as [Hl|Hl].
      * rewrite (proj2 (LineLinearBoundary_compute_errors _ _ _ _ _ (Hx' _)))
          by (rewrite Hl'; assumption).
        rewrite (proj2 (LineLinearBoundary_compute_errors _ _ _ _ _ Hx))
          by (rewrite length_vadd; assumption).
        reflexivity.
      * rewrite (LineLinearBoundary_compute _ _ _ _ _ (Hx' _))
          by (rewrite Hl'; assumption).
        rewrite (LineLinearBoundary_compute _ _ _ _ _ Hx)
          by (rewrite length_vadd; assumption).
        unfold Line_f_mat. rewrite !(node_translate 2) by (assumption || lia).
        reflexivity.
    + rewrite (proj1 (LineLinearBoundary_compute_errors _ _ _ _ _ (Hx' _)))
        by (rewrite Hl'; assumption).
      rewrite (proj1 (LineLinearBoundary_compute_errors _ _ _ _ _ Hx))
        by (rewrite length_vadd; assumption).
      reflexivity.
Qed.

Lemma node_firstn d m x k :
  (d * k + d <= m)%nat -> node d (firstn m x) k = node d x k.
Proof.
  intros H. unfold node. apply vec_ext; rewrite !length_mk_vec; [reflexivity|].
  intros i Hi. rewrite !vget_mk_vec by assumption. unfold vget.
  rewrite nth_firstn. destruct (Nat.ltb_spec (d * k + i) m); [reflexivity|lia].
Qed.

(** X21. What the boundary elements ask of the coordinates [x = X + u]:
    [Tri3Boundary] raises [ValueError] unless the number of entries is a
    multiple of 3 and [IndexError] for fewer than three nodes;
    [LineLinearBoundary] likewise with 2 entries per node and two nodes.
    More nodes than that are accepted and not read: the result is the one
    for the first three (two) nodes alone. *)
Theorem boundary_coordinates_shape self X u t x :
  np.vadd_b X u = Returns x ->
  (((length x mod 3 <> 0)%nat ->
    Tri3Boundary._compute_tensors self X u t = Raises ValueError) /\
   ((length x mod 3 = 0)%nat -> (length x < 9)%nat ->
    Tri3Boundary._compute_tensors self X u t = Raises IndexError) /\
   ((length x mod 3 = 0)%nat -> (9 <= length x)%nat ->
    Tri3Boundary._compute_tensors self X u t
    = Tri3Boundary._compute_tensors self (firstn 9 x) (np.zeros 9) t)) /\
  (((length x mod 2 <> 0)%nat ->
    LineLinearBoundary._compute_tensors self X u t = Raises ValueError) /\
   ((length x mod 2 = 0)%nat -> (length x < 4)%nat ->
    LineLinearBoundary._compute_tensors self X u t = Raises IndexError) /\
   ((length x mod 2 = 0)%nat -> (4 <= length x)%nat ->
    LineLinearBoundary._compute_tensors self X u t
    = LineLinearBoundary._compute_tensors self (firstn 4 x) (np.zeros 4) t)).
Proof.
  intros Hx. split; (split; [|split]).
  - apply (Tri3Boundary_compute_errors _ _ _ _ _ Hx).
  - apply (Tri3Boundary_compute_errors _ _ _ _ _ Hx).
  - intros Hm Hl.
    assert (Hf : length (firstn 9 x) = 9%nat) by (rewrite length_firstn; lia).
    assert (Hx0 : np.vadd_b (firstn 9 x) (np.zeros 9)
                  = Returns (np.vadd (firstn 9 x) (np.zeros 9)))
      by (apply vadd_b_same; now rewrite Hf).
    rewrite (Tri3Boundary_compute _ _ _ _ _ Hx Hm Hl).
    rewrite (Tri3Boundary_compute _ _ _ _ _ Hx0)
      by (rewrite length_vadd, Hf; (reflexivity || lia)).
    replace (np.vadd (firstn 9 x) (np.zeros 9)) with (firstn 9 x).
    + unfold Tri3_f_mat. rewrite !(node_firstn 3 9) by lia. reflexivity.
    + apply vec_ext; [now rewrite length_vadd|]. intros i Hi.
      unfold np.vadd. rewrite vget_mk_vec by assumption.
      rewrite Hf in Hi. unfold np.zeros. unfold vget at 3.
      rewrite nth_repeat. ring.
  - apply (LineLinearBoundary_compute_errors _ _ _ _ _ Hx).
  - apply (LineLinearBoundary_compute_errors _ _ _ _ _ Hx).
  - intros Hm Hl.
    assert (Hf : length (firstn 4 x) = 4%nat) by (rewrite length_firstn; lia).
    assert (Hx0 : np.vadd_b (firstn 4 x) (np.zeros 4)
                  = Returns (np.vadd (firstn 4 x) (np.zeros 4)))
      by (apply vadd_b_same; now rewrite Hf).
    rewrite (LineLinearBoundary_compute _ _ _ _ _ Hx Hm Hl).
    rewrite (LineLinearBoundary_compute _ _ _ _ _ Hx0)
      by (rewrite length_vadd, Hf; (reflexivity || lia)).
    replace (np.vadd (firstn 4 x) (np.zeros 4)) with (firstn 4 x).
    + unfold Line_f_mat. rewrite !(node_firstn 2 4) by lia. reflexivity.
    + apply vec_ext; [now rewrite length_vadd|]. intros i Hi.
      unfold np.vadd. rewrite vget_mk_vec by assumption.
      rewrite Hf in Hi. unfold np.zeros. unfold vget at 3.
      rewrite nth_repeat. ring.
Qed.

(** *** The projections [f_proj_a] and [f_proj_a_shadow] *)

Lemma vmul_s_map v c : v *^ c = map (fun x => x * c) v.
Proof.
  apply (nth_ext _ _ 0 (0 * c)).
  - unfold np.vmul_s. now rewrite length_mk_vec, length_map.
  - intros i Hi. unfold np.vmul_s in *. rewrite length_mk_vec in Hi.
    rewrite (map_nth (fun x => x * c)).
    fold (vget (mk_vec (length v) (fun i => vget v i * c)) i).
    now rewrite vget_mk_vec.
Qed.

Lemma set_slice_spec v a b w w' :
  let n := (Nat.min b (length v) - a)%nat in
  (a + n <= length v)%nat -> length w' = n ->
  (forall i, (i < n)%nat ->
     vget w' i = if (length w =? n)%nat then vget w i else vget w 0) ->
  (length w = n \/ length w = 1%nat) ->
  np.set_slice v a b w = Returns (firstn a v ++ w' ++ skipn (a + n) v).
Proof.
  intros n Hn Hw' Hget Hw. unfold np.set_slice. fold n.
  assert (Hout : forall f,
    (forall i, (i < n)%nat -> f i = vget w' i) ->
    mk_vec (length v) (fun i =>
      if ((a <=? i) && (i <? a + n))%nat then f (i - a)%nat else vget v i)
    = firstn a v ++ w' ++ skipn (a + n) v).
  { intros f Hf. apply vec_ext.
    - rewrite length_mk_vec, !length_app, length_firstn, length_skipn. lia.
    - rewrite length_mk_vec. intros i Hi. rewrite vget_mk_vec by assumption.
      unfold vget.
      destruct (Nat.leb_spec a i) as [Hai|Hai]; cbn [andb].
      + rewrite app_nth2 by (rewrite length_firstn; lia).
        rewrite length_firstn, Nat.min_l by lia.
        destruct (Nat.ltb_spec i (a + n)) as [Hin|Hin].
        * rewrite app_nth1 by lia. apply Hf. lia.
        * rewrite app_nth2 by lia. rewrite nth_skipn. f_equal. lia.
      + rewrite app_nth1 by (rewrite length_firstn; lia).
        rewrite nth_firstn. destruct (Nat.ltb_spec i a); [reflexivity|lia]. }
  destruct (Nat.eqb_spec (length w) n) as [E|E].
  - f_equal. apply (Hout (vget w)). intros i Hi. now rewrite Hget.
  - destruct Hw as [Hw|Hw]; [contradiction|]. rewrite Hw. cbn [Nat.eqb].
    f_equal. apply (Hout (fun _ => vget w 0)). intros i Hi. now rewrite Hget.
Qed.

Lemma set_slice_error v a b w :
  length w <> (Nat.min b (length v) - a)%nat -> length w <> 1%nat ->
  np.set_slice v a b w = Raises ValueError.
Proof.
  intros H1 H2. unfold np.set_slice.
  destruct (Nat.eqb_spec (length w) (Nat.min b (length v) - a)); [contradiction|].
  destruct (Nat.eqb_spec (length w) 1); [contradiction|reflexivity].
Qed.

Lemma length_block d w : (length w = d \/ length w = 1%nat) -> length (block d w) = d.
Proof.
  intros H. unfold block. destruct (Nat.eqb_spec (length w) d); [assumption|].
  apply repeat_length.
Qed.

Lemma fill_blocks d (blk : vector -> outcome vector) (g : vector -> vector) rows :
  forall k out,
    Forall (fun row => blk row = Returns (g row) /\
                       (length (g row) = d \/ length (g row) = 1%nat)) rows ->
    ((k + length rows) * d <= length out)%nat ->
    for_enumerate (fun i row out => w ← blk row;
                     np.set_slice out (i * d) ((i + 1) * d) w) k rows out
    = Returns (firstn (k * d) out ++ concat (map (fun row => block d (g row)) rows)
               ++ skipn ((k + length rows) * d) out).
Proof.
  induction rows as [|row rows IH]; intros k out Hrows Hlen.
  - cbn [for_enumerate map concat length app]. rewrite Nat.add_0_r.
    now rewrite firstn_skipn.
  - inversion Hrows as [|? ? [Hblk Hw] Hrest]; subst.
    cbn [length] in Hlen. cbn [for_enumerate]. rewrite Hblk. cbn [mbind outcome_bind].
    assert (Hn : (Nat.min ((k + 1) * d) (length out) - k * d = d)%nat) by nia.
    rewrite (set_slice_spec out (k * d) ((k + 1) * d) (g row) (block d (g row))).
    + cbn [mbind outcome_bind]. rewrite Hn.
      set (out1 := firstn (k * d) out ++ block d (g row) ++ skipn (k * d + d) out).
      assert (Hl1 : length out1 = length out).
      { unfold out1. rewrite !length_app, length_firstn, length_skipn, length_block
          by assumption. nia. }
      rewrite IH by (assumption || rewrite Hl1; nia). f_equal.
      cbn [map concat].
      replace (firstn (S k * d) out1) with (firstn (k * d) out ++ block d (g row)).
      * replace (skipn ((S k + length rows) * d) out1)
          with (skipn ((k + S (length rows)) * d) out).
        { now rewrite <- !app_assoc. }
        unfold out1. rewrite app_assoc, skipn_app.
        rewrite length_app, length_firstn, length_block by assumption.
        rewrite (skipn_all2 (firstn (k * d) out ++ block d (g row)))
          by (rewrite length_app, length_firstn, length_block by assumption; nia).
        rewrite skipn_skipn. cbn [app]. f_equal. nia.
      * unfold out1. rewrite app_assoc, firstn_app.
        rewrite length_app, length_firstn, length_block by assumption.
        replace (S k * d - (Nat.min (k * d) (length out) + d))%nat with 0%nat by nia.
        rewrite firstn_O, app_nil_r. symmetry. apply firstn_all2.
        rewrite length_app, length_firstn, length_block by assumption. nia.
    + rewrite Hn. nia.
    + rewrite Hn. now apply length_block.
    + rewrite Hn. intros i Hi. unfold block.
      destruct (Nat.eqb_spec (length (g row)) d); [reflexivity|].
      unfold vget at 1. now rewrite nth_repeat_lt.
    + now rewrite Hn.
Qed.

Lemma inner_same v w : length w = length v -> np.inner v w = Returns (dotp v w).
Proof. intros H. unfold np.inner. now rewrite H, Nat.eqb_refl. Qed.

Lemma filled_from_zeros n d (ws : list vector) :
  length (concat ws) = (n * d)%nat ->
  firstn (0 * d) (np.zeros (n * d)) ++ concat ws ++ skipn ((0 + n) * d) (np.zeros (n * d))
  = concat ws.
Proof.
  intros H. cbn [Nat.mul Nat.add firstn app].
  rewrite skipn_all2 by (unfold np.zeros; now rewrite repeat_length).
  apply app_nil_r.
Qed.

Lemma length_concat_blocks n d (g : vector -> vector) rows :
  length rows = n ->
  Forall (fun row => length (g row) = d \/ length (g row) = 1%nat) rows ->
  length (concat (map (fun row => block d (g row)) rows)) = (n * d)%nat.
Proof.
  intros <-. induction 1 as [|row rows Hrow _ IH]; [reflexivity|].
  cbn [map concat length]. rewrite length_app, IH, length_block by assumption. lia.
Qed.

Lemma first_row_length n d (f_mat : matrix) :
  (0 < n)%nat -> is_mat n d f_mat -> exists row rest, f_mat = row :: rest /\ length row = d.
Proof.
  intros Hn [Hl Hrows]. destruct f_mat as [|row rest]; [cbn in Hl; lia|].
  exists row, rest. split; [reflexivity|]. now inversion Hrows.
Qed.

Lemma block_same d w : length w = d -> block d w = w.
Proof. intros H. unfold block. now rewrite H, Nat.eqb_refl. Qed.

Lemma f_proj_a_fill n d f_mat direction :
  (0 < n)%nat -> is_mat n d f_mat ->
  length direction = d \/ length direction = 1%nat ->
  f_proj_a f_mat direction
  = Returns (concat (map (fun row => block d (direction *^ sqrt (dotp row row))) f_mat)).
Proof.
  intros Hn HA Hdir.
  set (g := fun row : vector => direction *^ sqrt (dotp row row)).
  unfold f_proj_a. rewrite (is_mat_shape0 n d), (is_mat_shape1 n d) by assumption.
  rewrite (for_enumerate_ext _ (fun i row out =>
      w ← (s ← np.inner row row; Returns (direction *^ sqrt s));
      np.set_slice out (i * d) ((i + 1) * d) w))
    by (intros i x st; now destruct (np.inner x x)).
  assert (Hrows : Forall (fun row =>
     length (g row) = d \/ length (g row) = 1%nat) f_mat).
  { apply List.Forall_forall. intros row _. unfold g. now rewrite length_vmul_s. }
  rewrite (fill_blocks d _ g).
  - destruct HA as [HAl _]. rewrite HAl.
    now rewrite filled_from_zeros by now apply length_concat_blocks.
  - apply List.Forall_forall. intros row Hrow. split.
    + now rewrite inner_same.
    + unfold g. now rewrite length_vmul_s.
  - destruct HA as [HAl _]. rewrite HAl. unfold np.zeros.
    rewrite repeat_length. lia.
Qed.

(** X22. [f_proj_a] on a matrix of [n >= 1] rows of [d] entries: with a
    direction of [d] entries the result is, node after node, the direction
    times the Euclidean length of the node's row; a direction of one entry
    is accepted as well and repeated over the [d] entries; a direction of any
    other length is a [ValueError]. *)
Theorem f_proj_a_blocks n d f_mat direction :
  (0 < n)%nat -> is_mat n d f_mat ->
  (length direction = d ->
   f_proj_a f_mat direction
   = Returns (concat (map (fun row => direction *^ sqrt (dotp row row)) f_mat))) /\
  (length direction = 1%nat ->
   f_proj_a f_mat direction
   = Returns (concat (map (fun row => repeat (vget direction 0 * sqrt (dotp row row)) d)
                        f_mat))) /\
  (length direction <> d -> length direction <> 1%nat ->
   f_proj_a f_mat direction = Raises ValueError).
Proof.
  intros Hn HA. split; [|split].
  - intros Hdir. rewrite (f_proj_a_fill n d) by (assumption || now left).
    do 2 f_equal. apply map_ext. intros row. apply block_same.
    now rewrite length_vmul_s.
  - intros Hdir. rewrite (f_proj_a_fill n d) by (assumption || now right).
    do 2 f_equal. apply map_ext. intros row. unfold block. rewrite length_vmul_s, Hdir.
    destruct (Nat.eqb_spec 1 d) as [<-|Hd].
    + destruct direction as [|d0 [|]]; try discriminate. reflexivity.
    + f_equal. rewrite vget_vmul_s. reflexivity.
  - intros H1 H2. unfold f_proj_a.
    rewrite (is_mat_shape0 n d), (is_mat_shape1 n d) by assumption.
    destruct (first_row_length n d f_mat Hn HA) as (row & rest & -> & Hrow).
    cbn [for_enumerate]. rewrite inner_same by reflexivity. cbn [mbind outcome_bind].
    rewrite set_slice_error; [reflexivity| |now rewrite length_vmul_s].
    rewrite length_vmul_s. unfold np.zeros. rewrite repeat_length.
    replace (Nat.min ((0 + 1) * d) (n * d) - 0 * d)%nat with d by nia. assumption.
Qed.

Lemma rsum_squares_nonneg n (f : nat -> R) : 0 <= rsum n (fun k => f k * f k).
Proof.
  induction n as [|n IH]; cbn [rsum]; [lra|].
  pose proof (Rle_0_sqr (f n)) as H. unfold Rsqr in H. lra.
Qed.

Lemma norm_squared v :
  np.linalg_norm v * np.linalg_norm v = rsum (length v) (fun k => vget v k * vget v k).
Proof. unfold np.linalg_norm. apply sqrt_sqrt, rsum_squares_nonneg. Qed.

Lemma nth_concat_rows d (ws : matrix) :
  Forall (fun w => length w = d) ws ->
  forall i j, (j < d)%nat ->
    nth (d * i + j) (concat ws) 0 = nth j (nth i ws []) 0.
Proof.
  induction 1 as [|w ws Hw _ IH]; intros i j Hj.
  - cbn [concat]. now destruct (d * i + j)%nat, i, j.
  - cbn [concat]. destruct i as [|i].
    + rewrite Nat.mul_0_r. cbn [Nat.add nth]. rewrite app_nth1 by lia. reflexivity.
    + rewrite app_nth2 by nia. cbn [nth]. rewrite <- IH by assumption.
      f_equal. nia.
Qed.

Lemma length_concat_rows d (ws : matrix) :
  Forall (fun w => length w = d) ws -> length (concat ws) = (length ws * d)%nat.
Proof.
  induction 1 as [|w ws Hw _ IH]; [reflexivity|].
  cbn [concat length]. rewrite length_app, IH, Hw. lia.
Qed.

Lemma reshape_concat d (ws : matrix) :
  (0 < d)%nat -> Forall (fun w => length w = d) ws -> np.reshape (concat ws) d = ws.
Proof.
  intros Hd Hws. unfold np.reshape.
  rewrite (length_concat_rows d) by assumption. rewrite Nat.div_mul by lia.
  apply (mat_ext (length ws) d).
  - apply mk_mat_is_mat.
  - now split.
  - intros i j Hi Hj. rewrite get_mk_mat by assumption.
    unfold vget, get. now apply nth_concat_rows.
Qed.

Lemma f_proj_a_shadow_cases n d f_mat direction :
  (0 < n)%nat -> is_mat n d f_mat ->
  (length direction <> d -> f_proj_a_shadow f_mat direction = Raises ValueError) /\
  (length direction = d -> np.linalg_norm direction <> 0 ->
   f_proj_a_shadow f_mat direction
   = Returns (concat (map (fun row =>
       direction *^ (dotp direction row / np.linalg_norm direction)) f_mat))).
Proof.
  intros Hn HA.
  set (g := fun row : vector =>
              direction *^ (dotp direction row / np.linalg_norm direction)).
  assert (Hloop : f_proj_a_shadow f_mat direction
    = for_enumerate (fun i row out =>
          w ← (s ← np.inner direction row;
               q ← divide s (np.linalg_norm direction);
               Returns (direction *^ q));
          np.set_slice out (i * d) ((i + 1) * d) w) 0 f_mat (np.zeros (n * d))).
  { unfold f_proj_a_shadow.
    rewrite (is_mat_shape0 n d), (is_mat_shape1 n d) by assumption.
    apply for_enumerate_ext. intros i x st.
    destruct (np.inner direction x) as [s| |]; [|reflexivity..].
    cbn [mbind outcome_bind]. now destruct (divide s (np.linalg_norm direction)). }
  split.
  - intros Hdir. rewrite Hloop.
    destruct (first_row_length n d f_mat Hn HA) as (row & rest & -> & Hrow).
    cbn [for_enumerate]. unfold np.inner. rewrite Hrow.
    destruct (Nat.eqb_spec (length direction) d); [contradiction|reflexivity].
  - intros Hdir Hnorm. rewrite Hloop.
    destruct HA as [HAl HAr].
    assert (Hrows : Forall (fun row =>
       length (g row) = d \/ length (g row) = 1%nat) f_mat).
    { apply List.Forall_forall. intros row _. unfold g. rewrite length_vmul_s. now left. }
    rewrite (fill_blocks d _ g).
    + rewrite HAl, filled_from_zeros by now apply length_concat_blocks.
      do 2 f_equal. apply map_ext. intros row. unfold block, g.
      now rewrite length_vmul_s, Hdir, Nat.eqb_refl.
    + rewrite List.Forall_forall in HAr. apply List.Forall_forall. intros row Hrow. split.
      * rewrite inner_same by (rewrite (HAr row Hrow); congruence).
        cbn [mbind outcome_bind]. unfold divide.
        destruct (Req_EM_T (np.linalg_norm direction) 0); [contradiction|reflexivity].
      * unfold g. rewrite length_vmul_s. now left.
    + rewrite HAl. unfold np.zeros. rewrite repeat_length. lia.
Qed.

(** X23. [f_proj_a_shadow] on a matrix of [n >= 1] rows of [d] entries:
    a direction whose length is not [d] is a [ValueError] (a one-entry
    direction is not broadcast here); for a direction of [d] entries that
    is not zero the result is, node after node, the direction times
    [(direction . row) / |direction|].  Applied to its own result it gives
    the result times [|direction|]: the function is a projection for a
    direction of length one only. *)
Theorem f_proj_a_shadow_projection n d f_mat direction :
  (0 < n)%nat -> is_mat n d f_mat ->
  (length direction <> d -> f_proj_a_shadow f_mat direction = Raises ValueError) /\
  (length direction = d -> np.linalg_norm direction <> 0 ->
   exists out,
     f_proj_a_shadow f_mat direction = Returns out /\
     out = concat (map (fun row =>
             direction *^ (dotp direction row / np.linalg_norm direction)) f_mat) /\
     f_proj_a_shadow (np.reshape out d) direction
     = Returns (out *^ np.linalg_norm direction)).
Proof.
  intros Hn HA.
  set (g := fun row : vector =>
              direction *^ (dotp direction row / np.linalg_norm direction)).
  split; [apply (f_proj_a_shadow_cases n d f_mat direction Hn HA)|].
  intros Hdir Hnorm.
  assert (Hfill : forall A, is_mat n d A ->
    f_proj_a_shadow A direction = Returns (concat (map g A))).
  { intros A HnA. now apply (f_proj_a_shadow_cases n d A direction Hn HnA). }
  exists (concat (map g f_mat)). split; [now apply Hfill|]. split; [reflexivity|].
  assert (Hd : (0 < d)%nat).
  { destruct d; [|lia]. exfalso. apply Hnorm. unfold np.linalg_norm.
    rewrite Hdir. cbn [rsum]. apply sqrt_0. }
  assert (Hg : Forall (fun w => length w = d) (map g f_mat)).
  { apply List.Forall_forall. intros w Hw. apply in_map_iff in Hw as (row & <- & _).
    unfold g. now rewrite length_vmul_s. }
  rewrite (reshape_concat d) by assumption.
  rewrite Hfill by (split; [rewrite length_map; apply HA | exact Hg]).
  f_equal. rewrite vmul_s_map, concat_map. f_equal.
  apply map_ext_in. intros w Hw. rewrite <- vmul_s_map.
  apply in_map_iff in Hw as (row & <- & _).
  set (q := dotp direction row / np.linalg_norm direction).
  assert (Hgr : g row = direction *^ q) by reflexivity.
  unfold g at 1. rewrite Hgr.
  apply vec_ext; [now rewrite !length_vmul_s|].
  rewrite length_vmul_s. intros i Hi.
  rewrite !vget_vmul_s by (rewrite ?length_vmul_s; assumption).
  assert (Hq : dotp direction (direction *^ q)
               = np.linalg_norm direction * np.linalg_norm direction * q).
  { rewrite norm_squared. unfold dotp. rewrite <- rsum_scal_r.
    apply rsum_ext. intros k Hk. rewrite vget_vmul_s by assumption. ring. }
  rewrite Hq. field. assumption.
Qed.

Lemma length_cross a b : length (np.cross a b) = 3%nat.
Proof. reflexivity. Qed.

Lemma is_mat_Tri3_f_mat x : is_mat 3 3 (Tri3_f_mat x).
Proof. apply (mk_mat_is_mat 3 3). Qed.

Lemma Tri3_row_lengths (c : vector) :
  length c = 3%nat ->
  map (fun row => sqrt (dotp row row)) (np.outer [1/3; 1/3; 1/3] (c /^ 2))
  = repeat (np.linalg_norm c / 2 / 3) 3.
Proof.
  intros Hc. destruct c as [|c0 [|c1 [|c2 [|]]]]; try discriminate.
  unfold np.linalg_norm.
  cbv [np.outer np.vdiv_s dotp repeat mk_mat mk_vec map seq length vget nth rsum Nat.add].
  set (S := 0 + c0 * c0 + c1 * c1 + c2 * c2).
  assert (HS : 0 <= S) by (unfold S; nra).
  assert (Hs := sqrt_sqrt S HS). assert (Hp := sqrt_pos S).
  assert (Hrow : sqrt (0 + 1 / 3 * (c0 / 2) * (1 / 3 * (c0 / 2))
                       + 1 / 3 * (c1 / 2) * (1 / 3 * (c1 / 2))
                       + 1 / 3 * (c2 / 2) * (1 / 3 * (c2 / 2))) = sqrt S / 2 / 3).
  { apply sqrt_lem_1; [nra | lra |].
    transitivity (sqrt S * sqrt S / 36); [field|]. rewrite Hs. unfold S. field. }
  now rewrite Hrow.
Qed.

Lemma norm_half c : np.linalg_norm (c /^ 2) = np.linalg_norm c / 2.
Proof.
  unfold np.linalg_norm. rewrite length_vdiv_s.
  set (S := rsum (length c) (fun i => vget c i * vget c i)).
  assert (HS : 0 <= S) by apply rsum_squares_nonneg.
  assert (Hs := sqrt_sqrt S HS). assert (Hp := sqrt_pos S).
  replace (rsum (length c) (fun i => vget (c /^ 2) i * vget (c /^ 2) i)) with (1 / 4 * S).
  - apply sqrt_lem_1; [lra | lra |].
    transitivity (sqrt S * sqrt S / 4); [field|]. rewrite Hs. field.
  - unfold S. rewrite <- rsum_scal_l. apply rsum_ext. intros k Hk.
    unfold np.vdiv_s. rewrite vget_mk_vec by assumption. field.
Qed.

(** X24. A traction in a given direction on [Tri3Boundary] (coordinates
    [x = X + u] of three nodes or more, a direction of three entries).
    Without the shadow option every node receives the direction times
    [val * time_func(t)] times a third of the area of the deformed triangle.
    With the shadow option (and a direction that is not zero) the area is
    replaced by the area vector's component along the direction,
    [(direction . n) / |direction|] with [n] half the cross product of the
    edges: the force follows the projected area, with its sign. *)
Theorem Tri3Boundary_directed_force self X u t x direct :
  b_direct self = Direction direct -> length direct = 3%nat ->
  np.vadd_b X u = Returns x -> (length x mod 3 = 0)%nat -> (9 <= length x)%nat ->
  let n := np.cross (node 3 x 2 -^ node 3 x 0) (node 3 x 1 -^ node 3 x 0) /^ 2 in
  let p := b_val self * b_time_func self t in
  (b_shadow_area self = false ->
   let F := direct *^ (np.linalg_norm n / 3 * p) in
   Tri3Boundary._compute_tensors self X u t
   = Returns (BoundaryElement.set_f self (F ++ F ++ F))) /\
  (b_shadow_area self = true -> np.linalg_norm direct <> 0 ->
   let F := direct *^ (dotp direct n / np.linalg_norm direct / 3 * p) in
   Tri3Boundary._compute_tensors self X u t
   = Returns (BoundaryElement.set_f self (F ++ F ++ F))).
Proof.
  intros Hd Hdir Hx Hm Hl. cbv zeta.
  rewrite (Tri3Boundary_compute self X u t x Hx Hm Hl).
  unfold BoundaryElement.f_proj. rewrite Hd.
  generalize (b_val self) (b_time_func self t). intros val tf.
  split.
  - intros ->.
    rewrite (f_proj_a_fill 3 3 _ direct ltac:(lia) (is_mat_Tri3_f_mat x) (or_introl Hdir)).
    rewrite (map_ext _ (fun row => direct *^ sqrt (dotp row row)))
      by (intros row; apply block_same; now rewrite length_vmul_s).
    cbn [mbind outcome_bind]. do 2 f_equal.
    rewrite <- (map_map (fun row => sqrt (dotp row row)) (fun s => direct *^ s)).
    unfold Tri3_f_mat. rewrite Tri3_row_lengths by reflexivity.
    set (c := np.cross _ _).
    rewrite norm_half. generalize (np.linalg_norm c). intros A.
    destruct direct as [|d0 [|d1 [|d2 [|]]]]; try discriminate.
    cbv [np.vmul_s repeat concat app mk_vec map seq length vget nth Nat.add].
    list_eq; field.
  - intros -> Hnorm.
    rewrite (proj2 (f_proj_a_shadow_cases 3 3 _ direct ltac:(lia)
                      (is_mat_Tri3_f_mat x)) Hdir Hnorm).
    cbn [mbind outcome_bind]. do 2 f_equal.
    generalize dependent (np.linalg_norm direct). intros N HN.
    unfold Tri3_f_mat. name_entries x.
    destruct direct as [|d0 [|d1 [|d2 [|]]]]; try discriminate.
    boundary_cbv. list_eq; field; assumption.
Qed.

Lemma set_slice_length v a b w v' : np.set_slice v a b w = Returns v' -> length v' = length v.
Proof.
  unfold np.set_slice.
  destruct (length w =? _)%nat; [|destruct (length w =? 1)%nat; [|discriminate]];
    intros H; injection H as <-; apply length_mk_vec.
Qed.

Lemma for_enumerate_length {A} (body : nat -> A -> vector -> outcome vector) xs :
  (forall i x st st', body i x st = Returns st' -> length st' = length st) ->
  forall k st st', for_enumerate body k xs st = Returns st' -> length st' = length st.
Proof.
  intros Hbody. induction xs as [|x xs IH]; intros k st st'; cbn [for_enumerate].
  - now intros [= <-].
  - destruct (body k x st) as [st1| |] eqn:E; cbn [mbind outcome_bind]; try discriminate.
    intros H. rewrite (IH _ _ _ H). now apply (Hbody k x).
Qed.

Lemma f_proj_length n d self f_mat f :
  is_mat n d f_mat -> (0 < n)%nat ->
  BoundaryElement.f_proj self f_mat = Returns f -> length f = (n * d)%nat.
Proof.
  intros HA Hn. unfold BoundaryElement.f_proj.
  destruct (b_direct self) as [|direct].
  - intros [= <-]. unfold np.flatten. rewrite (length_concat_rows d) by apply HA.
    now rewrite (proj1 HA).
  - destruct (b_shadow_area self).
    + unfold f_proj_a_shadow.
      rewrite (is_mat_shape0 n d), (is_mat_shape1 n d) by assumption.
      intros H. apply for_enumerate_length in H.
      * rewrite H. unfold np.zeros. apply repeat_length.
      * intros i x st st'. destruct (np.inner direct x); try discriminate.
        cbn [mbind outcome_bind].
        destruct (divide _ _); try discriminate. cbn [mbind outcome_bind].
        apply set_slice_length.
    + unfold f_proj_a.
      rewrite (is_mat_shape0 n d), (is_mat_shape1 n d) by assumption.
      intros H. apply for_enumerate_length in H.
      * rewrite H. unfold np.zeros. apply repeat_length.
      * intros i x st st'. destruct (np.inner x x); try discriminate.
        cbn [mbind outcome_bind]. apply set_slice_length.
Qed.

(** X25. Boundary elements carry a force only.  On an element as the
    constructor leaves it, whenever [k_and_f_int] returns, the stiffness
    matrix is the zero matrix of the constructor and the force vector has
    one entry per degree of freedom of the class (9 for [Tri3Boundary], 4
    for [LineLinearBoundary]), whatever number of nodes the coordinates hold
    and whatever the direction setting is; [_m_int] is the zero matrix as
    well. *)
Theorem boundary_element_tensors val direct time_func shadow_area X u t self' K f :
  (BoundaryElement.k_and_f_int Tri3Boundary._compute_tensors
     (Tri3Boundary.__init__ val direct time_func shadow_area) X u t
   = Returns (self', (K, f)) ->
   K = np.zeros2 9 9 /\ length f = 9%nat /\
   BoundaryElement._m_int self' X u t = np.zeros2 9 9) /\
  (BoundaryElement.k_and_f_int LineLinearBoundary._compute_tensors
     (LineLinearBoundary.__init__ val direct time_func shadow_area) X u t
   = Returns (self', (K, f)) ->
   K = np.zeros2 4 4 /\ length f = 4%nat /\
   BoundaryElement._m_int self' X u t = np.zeros2 4 4).
Proof.
  split.
  - unfold BoundaryElement.k_and_f_int, Tri3Boundary._compute_tensors.
    destruct (np.vadd_b X u) as [x| |]; try discriminate. cbn [mbind outcome_bind].
    destruct (require_shape _); try discriminate. cbn [mbind outcome_bind].
    destruct (np.col _ 2) as [c2| |]; try discriminate. cbn [mbind outcome_bind].
    destruct (np.col _ 0) as [c0| |]; try discriminate. cbn [mbind outcome_bind].
    destruct (np.col _ 1) as [c1| |]; try discriminate. cbn [mbind outcome_bind].
    destruct (BoundaryElement.f_proj _ _) as [f0| |] eqn:Hf; try discriminate.
    cbn [mbind outcome_bind]. intros H. injection H as <- <- <-.
    apply (f_proj_length 3 3) in Hf; [|apply (mk_mat_is_mat 3 3)|lia].
    cbn [BoundaryElement.set_f b_K b_f BoundaryElement._m_int b_M
         Tri3Boundary.__init__ BoundaryElement.__init__].
    rewrite !length_vmul_s. auto.
  - unfold BoundaryElement.k_and_f_int, LineLinearBoundary._compute_tensors.
    destruct (np.vadd_b X u) as [x| |]; try discriminate. cbn [mbind outcome_bind].
    destruct (require_shape _); try discriminate. cbn [mbind outcome_bind].
    destruct (np.col _ 1) as [c1| |]; try discriminate. cbn [mbind outcome_bind].
    destruct (np.col _ 0) as [c0| |]; try discriminate. cbn [mbind outcome_bind].
    destruct (BoundaryElement.f_proj _ _) as [f0| |] eqn:Hf; try discriminate.
    cbn [mbind outcome_bind]. intros H. injection H as <- <- <-.
    apply (f_proj_length 2 2) in Hf; [| |lia].
    + cbn [BoundaryElement.set_f b_K b_f BoundaryElement._m_int b_M
           LineLinearBoundary.__init__ BoundaryElement.__init__].
      rewrite !length_vmul_s. auto.
    + unfold np.outer. rewrite length_dot. apply (mk_mat_is_mat 2 2).
Qed.

Lemma Tri3Boundary_normal_force_witness :
  let x := np.vadd example_tri_X (np.zeros 9) in
  let e31 := node 3 x 2 -^ node 3 x 0 in
  let e21 := node 3 x 1 -^ node 3 x 0 in
  let F := np.cross e31 e21
           *^ (b_val example_tri_boundary * b_time_func example_tri_boundary 0 / 6) in
  Tri3Boundary._compute_tensors example_tri_boundary example_tri_X (np.zeros 9) 0
    = Returns (BoundaryElement.set_f example_tri_boundary (F ++ F ++ F)) /\
  dotp F e31 = 0 /\ dotp F e21 = 0.
Proof.
  apply (Tri3Boundary_normal_force example_tri_boundary example_tri_X (np.zeros 9) 0
           (np.vadd example_tri_X (np.zeros 9)));
    [reflexivity | reflexivity | reflexivity | cbn; lia].
Defined.

Lemma LineLinearBoundary_normal_force_witness :
  let x := np.vadd example_line_X (np.zeros 4) in
  let v := node 2 x 1 -^ node 2 x 0 in
  let p := b_val example_line_boundary * b_time_func example_line_boundary 0 / 2 in
  let F := [vget v 1 * p; - vget v 0 * p] in
  LineLinearBoundary._compute_tensors example_line_boundary example_line_X (np.zeros 4) 0
    = Returns (BoundaryElement.set_f example_line_boundary (F ++ F)) /\
  dotp F v = 0 /\ dotp F F = dotp v v * (p * p).
Proof.
  apply (LineLinearBoundary_normal_force example_line_boundary example_line_X
           (np.zeros 4) 0 (np.vadd example_line_X (np.zeros 4)));
    [reflexivity | reflexivity | reflexivity | cbn; lia].
Defined.

Lemma boundary_translation_invariant_witness :
  Tri3Boundary._compute_tensors example_tri_boundary
    (translate 3 example_tri_X [1; 2; 3]) (np.zeros 9) 0
  = Tri3Boundary._compute_tensors example_tri_boundary example_tri_X (np.zeros 9) 0.
Proof.
  apply (proj1 (boundary_translation_invariant example_tri_boundary example_tri_X
                  (np.zeros 9) 0 [1; 2; 3] eq_refl)).
Defined.

Lemma boundary_coordinates_shape_witness :
  Tri3Boundary._compute_tensors example_tri_boundary
    [0; 0; 0; 1; 0; 0] (np.zeros 6) 0 = Raises IndexError.
Proof.
  apply (proj1 (proj2 (proj1
    (boundary_coordinates_shape example_tri_boundary [0; 0; 0; 1; 0; 0] (np.zeros 6) 0
       (np.vadd [0; 0; 0; 1; 0; 0] (np.zeros 6)) eq_refl))));
    [reflexivity | cbn; lia].
Defined.

Lemma f_proj_a_blocks_witness :
  f_proj_a example_f_mat [1; 0]
  = Returns (concat (map (fun row => [1; 0] *^ sqrt (dotp row row)) example_f_mat)).
Proof.
  apply (proj1 (f_proj_a_blocks 1 2 example_f_mat [1; 0] (le_n 1)
                  ltac:(split; [reflexivity | repeat constructor]))).
  reflexivity.
Defined.

Lemma f_proj_a_shadow_projection_witness :
  exists out,
    f_proj_a_shadow example_f_mat [0; 2] = Returns out /\
    out = concat (map (fun row =>
            [0; 2] *^ (dotp [0; 2] row / np.linalg_norm [0; 2])) example_f_mat) /\
    f_proj_a_shadow (np.reshape out 2) [0; 2]
    = Returns (out *^ np.linalg_norm [0; 2]).
Proof.
  apply (proj2 (f_proj_a_shadow_projection 1 2 example_f_mat [0; 2] (le_n 1)
                  ltac:(split; [reflexivity | repeat constructor]))).
  - reflexivity.
  - unfold np.linalg_norm. cbn [length rsum vget nth].
    intros H. apply sqrt_eq_0 in H; lra.
Defined.

Lemma Tri3Boundary_directed_force_witness :
  let self := Tri3Boundary.__init__ 2 (Direction [0; 0; 1]) None false in
  let x := np.vadd example_tri_X (np.zeros 9) in
  let n := np.cross (node 3 x 2 -^ node 3 x 0) (node 3 x 1 -^ node 3 x 0) /^ 2 in
  let F := [0; 0; 1] *^ (np.linalg_norm n / 3 * (b_val self * b_time_func self 0)) in
  Tri3Boundary._compute_tensors self example_tri_X (np.zeros 9) 0
  = Returns (BoundaryElement.set_f self (F ++ F ++ F)).
Proof.
  apply (proj1 (Tri3Boundary_directed_force
                  (Tri3Boundary.__init__ 2 (Direction [0; 0; 1]) None false)
                  example_tri_X (np.zeros 9) 0 (np.vadd example_tri_X (np.zeros 9))
                  [0; 0; 1] eq_refl eq_refl eq_refl eq_refl ltac:(cbn; lia))).
  reflexivity.
Defined.

(** *** Quadratic and integrated boundary elements *)

Lemma LineQuadraticBoundary_compute self X u t x :
  np.vadd_b X u = Returns x -> (length x mod 2 = 0)%nat -> (4 <= length x)%nat ->
  LineQuadraticBoundary._compute_tensors self X u t
  = (f ← BoundaryElement.f_proj self (LineQ_f_mat x);
     Returns (BoundaryElement.set_f self (f *^ b_val self *^ b_time_func self t))).
Proof.
  intros Hx Hm Hl. unfold LineQuadraticBoundary._compute_tensors. rewrite Hx.
  cbn [mbind outcome_bind]. rewrite Hm. cbn [Nat.eqb require_shape mbind outcome_bind].
  assert (Hn : (2 <= length x / 2)%nat)
    by (apply (Nat.Div0.div_le_mono _ _ 2) in Hl; exact Hl).
  rewrite !col_T_reshape by (assumption || lia).
  reflexivity.
Qed.

Ltac quadratic_cbv :=
  cbv [LineQ_f_mat LineQuadraticBoundary.N LineQuadraticBoundary.rot_mat
       np.outer np.cross np.flatten np.vsub np.vdiv_s np.vmul_s np.dot
       np.shape0 np.shape1 dotp
       concat app mk_mat mk_vec map seq hd length get vget nth rsum Nat.add].

(** X26. [LineQuadraticBoundary] computes its force from the two end nodes
    alone: for coordinates [x = X + u] with an even number of entries and
    two nodes or more, the result is the one for the first two nodes (the
    mid-side node is never read, and may be missing).  For a normal
    pressure the end nodes receive a sixth each and the third node four
    sixths of [val * time_func(t) * (vy, -vx)], where [v] joins the end
    nodes. *)
Theorem LineQuadraticBoundary_end_nodes self X u t x :
  np.vadd_b X u = Returns x -> (length x mod 2 = 0)%nat -> (4 <= length x)%nat ->
  let v := node 2 x 1 -^ node 2 x 0 in
  let F := [vget v 1; - vget v 0] *^ (b_val self * b_time_func self t) in
  LineQuadraticBoundary._compute_tensors self X u t
  = LineQuadraticBoundary._compute_tensors self (firstn 4 x) (np.zeros 4) t /\
  (b_direct self = Normal ->
   LineQuadraticBoundary._compute_tensors self X u t
   = Returns (BoundaryElement.set_f self (F /^ 6 ++ F /^ 6 ++ F *^ (4 / 6)))).
Proof.
  intros Hx Hm Hl. cbv zeta.
  rewrite (LineQuadraticBoundary_compute self X u t x Hx Hm Hl).
  split.
  - assert (Hf : length (firstn 4 x) = 4%nat) by (rewrite length_firstn; lia).
    assert (Hx0 : np.vadd_b (firstn 4 x) (np.zeros 4)
                  = Returns (np.vadd (firstn 4 x) (np.zeros 4)))
      by (apply vadd_b_same; now rewrite Hf).
    rewrite (LineQuadraticBoundary_compute _ _ _ _ _ Hx0)
      by (rewrite length_vadd, Hf; (reflexivity || lia)).
    replace (np.vadd (firstn 4 x) (np.zeros 4)) with (firstn 4 x).
    + unfold LineQ_f_mat. rewrite !(node_firstn 2 4) by lia. reflexivity.
    + apply vec_ext; [now rewrite length_vadd|]. intros i Hi.
      unfold np.vadd. rewrite vget_mk_vec by assumption.
      rewrite Hf in Hi. unfold np.zeros. unfold vget at 3.
      rewrite nth_repeat. ring.
  - intros Hd. unfold BoundaryElement.f_proj. rewrite Hd. cbn [mbind outcome_bind].
    generalize (b_val self) (b_time_func self t). intros val tf.
    unfold LineQ_f_mat. name_entries x.
    do 2 f_equal. quadratic_cbv. list_eq; field.
Qed.

Lemma LineQuadraticBoundary_end_nodes_witness :
  LineQuadraticBoundary._compute_tensors
    (LineQuadraticBoundary.__init__ 3 Normal None false) example_line_X (np.zeros 4) 0
  = LineQuadraticBoundary._compute_tensors
      (LineQuadraticBoundary.__init__ 3 Normal None false)
      (firstn 4 (np.vadd example_line_X (np.zeros 4))) (np.zeros 4) 0.
Proof.
  apply (proj1 (LineQuadraticBoundary_end_nodes
                  (LineQuadraticBoundary.__init__ 3 Normal None false)
                  example_line_X (np.zeros 4) 0 (np.vadd example_line_X (np.zeros 4))
                  eq_refl eq_refl ltac:(cbn; lia))).
Defined.

Ltac integrated_cbv :=
  cbv [Tri6Boundary.gauss_point Tri6Boundary.gauss_points
       Quad4Boundary.gauss_point Quad4Boundary.gauss_points
       for_enumerate require_shape mbind outcome_bind
       straight_tri6 midpoint parallelogram translate
       np.shape0 np.shape1 np.reshape np.T np.matmul np.col np.vsub np.vadd np.cross
       np.outer np.flatten np.add np.div_s np.mul_s np.vdiv_s np.vmul_s np.zeros2 np.zeros
       mk_mat mk_vec map seq nth length hd get vget rsum repeat app concat
       Nat.eqb Nat.ltb Nat.leb Nat.div Nat.modulo Nat.divmod fst snd
       Nat.add Nat.mul Nat.sub].

(** X27. A normal pressure on a [Tri6Boundary] with straight edges and
    mid-side nodes at the midpoints of the edges: the corner nodes receive
    no force, and each mid-side node receives [val * time_func(t) / 6] times
    the cross product of the edges from the first corner to the third and
    to the second, a third of the total force of the pressure on the
    triangle. *)
Theorem Tri6Boundary_straight_edges self X u t a b c :
  length a = 3%nat -> length b = 3%nat -> length c = 3%nat ->
  b_direct self = Normal ->
  np.vadd_b X u = Returns (straight_tri6 a b c) ->
  let F := np.cross (c -^ a) (b -^ a) *^ (b_val self * b_time_func self t / 6) in
  Tri6Boundary._compute_tensors self X u t
  = Returns (BoundaryElement.set_f self (np.zeros 9 ++ F ++ F ++ F)).
Proof.
  intros Ha Hb Hc Hd Hx. cbv zeta.
  destruct a as [|a0 [|a1 [|a2 [|]]]]; try discriminate.
  destruct b as [|b0 [|b1 [|b2 [|]]]]; try discriminate.
  destruct c as [|c0 [|c1 [|c2 [|]]]]; try discriminate.
  unfold Tri6Boundary._compute_tensors. rewrite Hx.
  unfold BoundaryElement.f_proj. rewrite Hd.
  generalize (b_val self) (b_time_func self t). intros val tf.
  integrated_cbv. do 2 f_equal. list_eq; field.
Qed.

Lemma Tri6Boundary_gauss_point_shape x_vec gp f_mat :
  np.shape0 x_vec <> 6%nat -> Tri6Boundary.gauss_point x_vec gp f_mat = Raises ValueError.
Proof.
  intros H. destruct gp as [[[L1 L2] L3] w]. unfold Tri6Boundary.gauss_point.
  destruct (Nat.eqb_spec (np.shape0 x_vec) 6); [contradiction|reflexivity].
Qed.

Lemma Tri6Boundary_shape self X u t x :
  np.vadd_b X u = Returns x -> length x <> 18%nat ->
  Tri6Boundary._compute_tensors self X u t = Raises ValueError.
Proof.
  intros Hx Hl. unfold Tri6Boundary._compute_tensors. rewrite Hx.
  cbn [mbind outcome_bind].
  destruct (Nat.eqb_spec (length x mod 3) 0) as [Hm|Hm]; [|reflexivity].
  cbn [require_shape mbind outcome_bind Tri6Boundary.gauss_points for_enumerate].
  rewrite Tri6Boundary_gauss_point_shape; [reflexivity|].
  unfold np.reshape, np.shape0, mk_mat. rewrite length_map, length_seq.
  intros Hn. apply Hl. rewrite (Nat.div_mod_eq (length x) 3). lia.
Qed.

Lemma Quad4Boundary_shape self X u t x :
  np.vadd_b X u = Returns x -> length x <> 12%nat ->
  Quad4Boundary._compute_tensors self X u t = Raises ValueError.
Proof.
  intros Hx Hl. unfold Quad4Boundary._compute_tensors. rewrite Hx.
  cbn [mbind outcome_bind].
  destruct (Nat.eqb_spec (length x) 12) as [Hm|Hm]; [contradiction|reflexivity].
Qed.

Ltac literal_vector v :=
  repeat (destruct v as [|? v]; [discriminate|]); destruct v; [|discriminate].

Ltac same_f_mat f_proj :=
  match goal with
  | |- ?L = ?R =>
      match L with
      | context [f_proj ?A] =>
          match R with
          | context [f_proj ?B] => replace A with B; [reflexivity|]
          end
      end
  end.

(** X28. The integrated boundary elements take exactly the nodes of their
    class: [Tri6Boundary] raises [ValueError] unless [x = X + u] has 18
    entries, [Quad4Boundary] unless it has 12.  Their result does not change
    under a rigid translation of the element: with one displacement entry
    per coordinate, moving every node by the same vector [c] gives the
    same force or the same exception, whatever the direction setting is. *)
Theorem integrated_boundary_translation self X u t c :
  (forall x, np.vadd_b X u = Returns x ->
     (length x <> 18%nat -> Tri6Boundary._compute_tensors self X u t = Raises ValueError) /\
     (length x <> 12%nat -> Quad4Boundary._compute_tensors self X u t = Raises ValueError)) /\
  (length u = length X ->
   Tri6Boundary._compute_tensors self (translate 3 X c) u t
   = Tri6Boundary._compute_tensors self X u t /\
   Quad4Boundary._compute_tensors self (translate 3 X c) u t
   = Quad4Boundary._compute_tensors self X u t).
Proof.
  split.
  - intros x Hx. split; [now apply Tri6Boundary_shape | now apply Quad4Boundary_shape].
  - intros Hu.
    assert (Hx := vadd_b_same X u Hu).
    assert (Hx' : np.vadd_b (translate 3 X c) u = Returns (np.vadd (translate 3 X c) u))
      by (apply vadd_b_same; now rewrite length_translate).
    assert (Hl' : length (np.vadd (translate 3 X c) u) = length X)
      by now rewrite length_vadd, length_translate.
    split.
    + destruct (Nat.eq_dec (length X) 18%nat) as [Hl|Hl].
      * literal_vector X. literal_vector u.
        unfold Tri6Boundary._compute_tensors. rewrite Hx', Hx.
        unfold translate. cbn [length mk_vec map seq Nat.modulo Nat.divmod fst snd Nat.sub].
        generalize (vget c 0) (vget c 1) (vget c 2) (BoundaryElement.f_proj self).
        intros c0 c1 c2 f_proj.
        integrated_cbv.
        same_f_mat f_proj.
        list_eq; field.
      * rewrite (Tri6Boundary_shape _ _ _ _ _ Hx') by now rewrite Hl'.
        rewrite (Tri6Boundary_shape _ _ _ _ _ Hx) by now rewrite length_vadd.
        reflexivity.
    + destruct (Nat.eq_dec (length X) 12%nat) as [Hl|Hl].
      * literal_vector X. literal_vector u.
        unfold Quad4Boundary._compute_tensors. rewrite Hx', Hx.
        unfold translate. cbn [length mk_vec map seq Nat.modulo Nat.divmod fst snd Nat.sub].
        generalize (vget c 0) (vget c 1) (vget c 2) (BoundaryElement.f_proj self)
                   Quad4Boundary.g1.
        intros c0 c1 c2 f_proj g.
        integrated_cbv.
        same_f_mat f_proj.
        list_eq; field.
      * rewrite (Quad4Boundary_shape _ _ _ _ _ Hx') by now rewrite Hl'.
        rewrite (Quad4Boundary_shape _ _ _ _ _ Hx) by now rewrite length_vadd.
        reflexivity.
Qed.

(** X29. A normal pressure on a [Quad4Boundary] that is a parallelogram
    (corner [a], edges to [b] and to [d], fourth corner [b + d - a]): every
    node receives [val * time_func(t) / 4] times the cross product of the
    edges [d - a] and [b - a], a quarter of the total force of the pressure
    on the parallelogram. *)
Theorem Quad4Boundary_parallelogram self X u t a b d :
  length a = 3%nat -> length b = 3%nat -> length d = 3%nat ->
  b_direct self = Normal ->
  np.vadd_b X u = Returns (parallelogram a b d) ->
  let F := np.cross (d -^ a) (b -^ a) *^ (b_val self * b_time_func self t / 4) in
  Quad4Boundary._compute_tensors self X u t
  = Returns (BoundaryElement.set_f self (F ++ F ++ F ++ F)).
Proof.
  intros Ha Hb Hc Hd Hx. cbv zeta.
  destruct a as [|a0 [|a1 [|a2 [|]]]]; try discriminate.
  destruct b as [|b0 [|b1 [|b2 [|]]]]; try discriminate.
  destruct d as [|d0 [|d1 [|d2 [|]]]]; try discriminate.
  unfold Quad4Boundary._compute_tensors. rewrite Hx.
  unfold BoundaryElement.f_proj. rewrite Hd.
  generalize (b_val self) (b_time_func self t) Quad4Boundary.g1. intros val tf g.
  integrated_cbv. do 2 f_equal. list_eq; field.
Qed.

Lemma Tri6Boundary_straight_edges_witness :
  let self := Tri6Boundary.__init__ 2 Normal None false in
  let F := np.cross ([0; 1; 0] -^ [0; 0; 0]) ([1; 0; 0] -^ [0; 0; 0])
           *^ (b_val self * b_time_func self 0 / 6) in
  Tri6Boundary._compute_tensors self example_tri6_X (np.zeros 18) 0
  = Returns (BoundaryElement.set_f self (np.zeros 9 ++ F ++ F ++ F)).
Proof.
  apply (Tri6Boundary_straight_edges (Tri6Boundary.__init__ 2 Normal None false)
           example_tri6_X (np.zeros 18) 0 [0; 0; 0] [1; 0; 0] [0; 1; 0]
           eq_refl eq_refl eq_refl eq_refl).
  unfold np.vadd_b, example_tri6_X. cbn [length np.zeros repeat Nat.eqb]. f_equal.
  integrated_cbv. list_eq; lra.
Defined.

Lemma Quad4Boundary_parallelogram_witness :
  let self := Quad4Boundary.__init__ 2 Normal None false in
  let F := np.cross ([0; 1; 0] -^ [0; 0; 0]) ([1; 0; 0] -^ [0; 0; 0])
           *^ (b_val self * b_time_func self 0 / 4) in
  Quad4Boundary._compute_tensors self example_quad_X (np.zeros 12) 0
  = Returns (BoundaryElement.set_f self (F ++ F ++ F ++ F)).
Proof.
  apply (Quad4Boundary_parallelogram (Quad4Boundary.__init__ 2 Normal None false)
           example_quad_X (np.zeros 12) 0 [0; 0; 0] [1; 0; 0] [0; 1; 0]
           eq_refl eq_refl eq_refl eq_refl).
  unfold np.vadd_b, example_quad_X. cbn [length np.zeros repeat Nat.eqb]. f_equal.
  integrated_cbv. list_eq; lra.
Defined.
